(** * csp-lod-bodies: LOD traversal, culling tests and per-frame orchestration

    A shallow embedding of [LODVisitor.cpp], [TileRenderer.cpp] and
    [VistaPlanet.cpp] of the csp-lod-bodies plugin.

    Conventions of the embedding:
    - [double] and [float] values are idealised as real numbers ([R]):
      rounding and infinities are outside the model. Where the code
      reaches a value that is not a number through an exact [0.0 / 0.0]
      the model says so at that place ([cornerUnoccluded]), or the
      theorem excludes the case by a hypothesis ([testNeedRefine], which
      also divides by the field of view). The one expression whose
      rounding changes a branch, the argument [testNeedRefine] hands to
      [std::acos], is embedded a second time over binary64 floats
      ([Binary64]);
    - [int] values are integers ([Z]); flag words use [Z.land], [Z.lor]
      and [Z.lnot];
    - a pointer is an [option] (or a null constructor): dereferencing a
      null pointer and a failed [assert] both abort the computation,
      which the visitor monad records as [None];
    - objects that several pointers share (the render data owned by the
      tree managers) live in a store, and pointers to them are keys. *)

From Stdlib Require Import Reals Lra Lia ZArith List Bool Psatz.
From Stdlib Require Floats.
From stdpp Require Import gmap.
Import ListNotations.

(* ===================================================================== *)
(** * Part I: definitions *)
(* ===================================================================== *)

(** ** Comparisons of doubles as booleans *)

Module Cmp.
Local Open Scope R_scope.

Definition geb (x y : R) : bool := if Rge_dec x y then true else false.
Definition gtb (x y : R) : bool := if Rgt_dec x y then true else false.
Definition ltb (x y : R) : bool := if Rlt_dec x y then true else false.
Definition eqb (x y : R) : bool := if Req_dec_T x y then true else false.

(** [std::min(a, b)] is [(b < a) ? b : a], [std::max(a, b)] is
    [(a < b) ? b : a]. *)
Definition std_min (a b : R) : R := if ltb b a then b else a.
Definition std_max (a b : R) : R := if ltb a b then b else a.
End Cmp.

(** ** The part of glm the traversal uses *)

Module glm.
Local Open Scope R_scope.

Record dvec3 := mkvec3 { x3 : R; y3 : R; z3 : R }.
Record dvec4 := mkvec4 { x4 : R; y4 : R; z4 : R; w4 : R }.
Record ivec4 := mkivec4 { ix : Z; iy : Z; iz : Z; iw : Z }.

(** Column-major matrices, as glm stores them: [m[3]] is the fourth
    column. *)
Record dmat4 := mkmat4 { col0 : dvec4; col1 : dvec4; col2 : dvec4; col3 : dvec4 }.
Record dmat3 := mkmat3 { c30 : dvec3; c31 : dvec3; c32 : dvec3 }.

Definition add (a b : dvec3) : dvec3 :=
  mkvec3 (x3 a + x3 b) (y3 a + y3 b) (z3 a + z3 b).
Definition sub (a b : dvec3) : dvec3 :=
  mkvec3 (x3 a - x3 b) (y3 a - y3 b) (z3 a - z3 b).
Definition scale (k : R) (a : dvec3) : dvec3 :=
  mkvec3 (k * x3 a) (k * y3 a) (k * z3 a).
Definition divs (a : dvec3) (k : R) : dvec3 :=
  mkvec3 (x3 a / k) (y3 a / k) (z3 a / k).
Definition dot (a b : dvec3) : R :=
  x3 a * x3 b + y3 a * y3 b + z3 a * z3 b.
Definition length (a : dvec3) : R := sqrt (dot a a).
Definition normalize (a : dvec3) : dvec3 := divs a (length a).

(** [glm::dvec3(v4)] drops the fourth component. *)
Definition xyz (p : dvec4) : dvec3 := mkvec3 (x4 p) (y4 p) (z4 p).

Definition add4 (a b : dvec4) : dvec4 :=
  mkvec4 (x4 a + x4 b) (y4 a + y4 b) (z4 a + z4 b) (w4 a + w4 b).
Definition scale4 (k : R) (a : dvec4) : dvec4 :=
  mkvec4 (k * x4 a) (k * y4 a) (k * z4 a) (k * w4 a).

(** [m * v]: the linear combination of the columns of [m]. *)
Definition mulv (m : dmat4) (v : dvec4) : dvec4 :=
  add4 (add4 (scale4 (x4 v) (col0 m)) (scale4 (y4 v) (col1 m)))
       (add4 (scale4 (z4 v) (col2 m)) (scale4 (w4 v) (col3 m))).

(** [a * b]: column [j] of the product is [a * b[j]]. *)
Definition mul (a b : dmat4) : dmat4 :=
  mkmat4 (mulv a (col0 b)) (mulv a (col1 b)) (mulv a (col2 b)) (mulv a (col3 b)).

(** [glm::f64mat3x3(m)]: the upper-left 3x3 block. *)
Definition mat3_of (m : dmat4) : dmat3 :=
  mkmat3 (xyz (col0 m)) (xyz (col1 m)) (xyz (col2 m)).
End glm.

(** ** Bounding boxes and frusta *)

(** [BoundingBox<double>]: two corner points. *)
Record BoundingBox := mkBoundingBox { getMin : glm.dvec3; getMax : glm.dvec3 }.

(** The eight corners of a box, in the order both culling tests and the
    refinement test enumerate them. *)
Definition tbPnts (tb : BoundingBox) : list glm.dvec3 :=
  let tbMin := getMin tb in
  let tbMax := getMax tb in
  [ glm.mkvec3 (glm.x3 tbMin) (glm.y3 tbMin) (glm.z3 tbMin);
    glm.mkvec3 (glm.x3 tbMax) (glm.y3 tbMin) (glm.z3 tbMin);
    glm.mkvec3 (glm.x3 tbMax) (glm.y3 tbMin) (glm.z3 tbMax);
    glm.mkvec3 (glm.x3 tbMin) (glm.y3 tbMin) (glm.z3 tbMax);
    glm.mkvec3 (glm.x3 tbMin) (glm.y3 tbMax) (glm.z3 tbMin);
    glm.mkvec3 (glm.x3 tbMax) (glm.y3 tbMax) (glm.z3 tbMin);
    glm.mkvec3 (glm.x3 tbMax) (glm.y3 tbMax) (glm.z3 tbMax);
    glm.mkvec3 (glm.x3 tbMin) (glm.y3 tbMax) (glm.z3 tbMax) ].

(** A corner of a box, as geometry has it and whatever the order of
    [tbPnts]: a point each of whose coordinates is that of the minimum
    or that of the maximum of the box. *)
Definition isCorner (tb : BoundingBox) (p : glm.dvec3) : Prop :=
  (glm.x3 p = glm.x3 (getMin tb) \/ glm.x3 p = glm.x3 (getMax tb)) /\
  (glm.y3 p = glm.y3 (getMin tb) \/ glm.y3 p = glm.y3 (getMax tb)) /\
  (glm.z3 p = glm.z3 (getMin tb) \/ glm.z3 p = glm.z3 (getMax tb)).

(** [Frustum]: the planes [getPlanes()] iterates over (a plane is the
    vector [(n, w)] of the equation [n . p + w = 0]) and the two opening
    angles its accessors report. The class is declared in [Frustum.hpp],
    which is not among the sources; only what the visitor reads of it is
    kept. *)
Record Frustum := mkFrustum {
  getPlanes : list glm.dvec4;
  getHorizontalFOV : R;
  getVerticalFOV : R
}.

(** ** [testInFrustum] *)

(** The inner loop of [testInFrustum]: [outside] starts [true] and the
    first corner with [dot(normal, tbPnt) >= d] clears it and leaves the
    loop. *)
Fixpoint cornersOutside (normal : glm.dvec3) (d : R) (pnts : list glm.dvec3) : bool :=
  match pnts with
  | [] => true
  | tbPnt :: rest =>
      if Cmp.geb (glm.dot normal tbPnt) d then false
      else cornersOutside normal d rest
  end.

(** The outer loop: [result] starts [true]; the first plane all corners
    are outside of clears it and leaves the loop. *)
Fixpoint testPlanes (planes : list glm.dvec4) (pnts : list glm.dvec3) : bool :=
  match planes with
  | [] => true
  | plane :: rest =>
      let normal := glm.xyz plane in
      let d := (- glm.w4 plane)%R in
      if cornersOutside normal d pnts then false
      else testPlanes rest pnts
  end.

Definition testInFrustum (frustum : Frustum) (tb : BoundingBox) : bool :=
  testPlanes (getPlanes frustum) (tbPnts tb).

(** The half-spaces of a plane [(n, w)]: the closed positive side
    [n . p + w >= 0] and its complement. *)
Definition positiveHalfSpace (plane : glm.dvec4) (p : glm.dvec3) : Prop :=
  (glm.dot (glm.xyz plane) p + glm.w4 plane >= 0)%R.
Definition negativeHalfSpace (plane : glm.dvec4) (p : glm.dvec3) : Prop :=
  (glm.dot (glm.xyz plane) p + glm.w4 plane < 0)%R.

(** ** Tile ids and HEALPix addressing *)

(** [TileId]: what [TileId(level, patchIdx)] stores. *)
Record TileId := mkTileId { level : Z; patchIdx : Z }.

#[global] Instance TileId_eq_dec : EqDecision TileId.
Proof. solve_decision. Defined.

#[global] Instance TileId_countable : Countable TileId.
Proof.
  apply (inj_countable' (fun t => (level t, patchIdx t))
                        (fun p => mkTileId (fst p) (snd p))).
  intros []. reflexivity.
Defined.

Module HEALPix.
(** Modelled from the spec: [HEALPix::getChildTileId] is declared in
    [HEALPix.hpp], which is not among the sources. The spec fixes that
    the children of a level-L tile are at level L+1 and that their
    patch indices are a function of the parent's; the nested numbering
    (child [k] of patch [p] is patch [4p + k]) is that function. *)
Definition getChildTileId (tileId : TileId) (childIdx : Z) : TileId :=
  mkTileId (level tileId + 1) (4 * patchIdx tileId + childIdx).
End HEALPix.

(** ** Tiles, tree nodes and render data *)

(** [TileDataType], as [detail::DataTypeTrait] of [Tile.hpp] maps sample
    types to it: [float] to [eElevation], [glm::u8vec3] to [eColor]. *)
Inductive TileDataType := eElevation | eColor.

Module MinMaxPyramid.
Record t := mk { getMin : R; getMax : R; getAverage : R }.
End MinMaxPyramid.

(** [TileBase] as the visitor sees it: the tile's address, the type of
    its samples and the top of its min/max pyramid. *)
Record Tile := mkTile {
  getLevel : Z;
  getPatchIdx : Z;
  getDataType : TileDataType;
  getMinMaxPyramid : MinMaxPyramid.t
}.

(** A [TileNode*]: null, or a node owning its tile and four child
    pointers. The trees are not changed during a traversal, so a pointer
    is modelled by the subtree it points to. *)
Inductive TileNode :=
| NullNode
| Node (tile : Tile) (c0 c1 c2 c3 : TileNode).

Definition isNull (node : TileNode) : bool :=
  match node with NullNode => true | Node _ _ _ _ _ => false end.

(** [node->getTileId()]; [None] stands for dereferencing null. *)
Definition getTileId (node : TileNode) : option TileId :=
  match node with
  | NullNode => None
  | Node tile _ _ _ _ => Some (mkTileId (getLevel tile) (getPatchIdx tile))
  end.

(** [node->getChild(i)]; [None] stands for dereferencing null or an index
    outside the child array, [Some NullNode] for an absent child. *)
Definition getChild (node : TileNode) (i : Z) : option TileNode :=
  match node with
  | NullNode => None
  | Node _ c0 c1 c2 c3 =>
      match i with
      | 0%Z => Some c0
      | 1%Z => Some c1
      | 2%Z => Some c2
      | 3%Z => Some c3
      | _ => None
      end
  end.

(** [RenderData]: bounds, the frame the tile was last used in, its
    layer in the texture array ([-1] while not uploaded) and the
    [eRender] flag [RenderDataDEM::addFlag] sets. *)
Record RenderData := mkRenderData {
  getBounds : BoundingBox;
  getLastFrame : Z;
  getTexLayer : Z;
  hasRenderFlag : bool
}.

Definition setLastFrame (frame : Z) (rd : RenderData) : RenderData :=
  mkRenderData (getBounds rd) frame (getTexLayer rd) (hasRenderFlag rd).
Definition addRenderFlag (rd : RenderData) : RenderData :=
  mkRenderData (getBounds rd) (getLastFrame rd) (getTexLayer rd) true.

(** ** Tree managers and the objects a planet owns *)

(** A [TileSource*]: sources are external objects, named by a number. *)
Definition SrcPtr := nat.

Module TileQuadTree.
Definition sNumRoots : Z := 12.
(** The root array. *)
Definition t := list TileNode.
(** [getRoot(i)]: the pointer stored in slot [i] (null for a slot that
    is not filled). *)
Definition getRoot (tree : t) (i : Z) : TileNode :=
  match tree !! Z.to_nat i with
  | Some root => root
  | None => NullNode
  end.
Definition empty : t := replicate 12 NullNode.
End TileQuadTree.

(** [TreeManagerBase]: the tree, the map from nodes (by tile id) to their
    render data that [findRData] consults, and the attached source. *)
Record TreeManager := mkTreeManager {
  getTree : TileQuadTree.t;
  mRdMap : gmap TileId RenderData;
  mSrc : option SrcPtr
}.

Record PlanetParameters := mkPlanetParameters {
  mRadii : glm.dvec3;
  mHeightScale : R;
  mLodFactor : R;
  mMinLevel : Z;
  mMaxLevel : Z
}.

(** The two tree managers of a planet; a [TreeManagerBase*] is null or
    the address of one of them. *)
Inductive TreeMgrAddr := AddrDEM | AddrIMG.

#[global] Instance TreeMgrAddr_eq_dec : EqDecision TreeMgrAddr.
Proof. solve_decision. Defined.

(** The members of [VistaPlanet] that visitor and renderer reach through
    pointers: [mParams], [mTreeMgrDEM] and [mTreeMgrIMG]. *)
Record Heap := mkHeap {
  hParams : PlanetParameters;
  hTreeMgrDEM : TreeManager;
  hTreeMgrIMG : TreeManager
}.

Definition treeMgr (h : Heap) (a : TreeMgrAddr) : TreeManager :=
  match a with AddrDEM => hTreeMgrDEM h | AddrIMG => hTreeMgrIMG h end.

Definition setTreeMgr (a : TreeMgrAddr) (m : TreeManager) (h : Heap) : Heap :=
  match a with
  | AddrDEM => mkHeap (hParams h) m (hTreeMgrIMG h)
  | AddrIMG => mkHeap (hParams h) (hTreeMgrDEM h) m
  end.

(** A [RenderData*]: the manager that owns the object and its key. *)
Definition RdPtr : Type := TreeMgrAddr * TileId.

Definition readRd (h : Heap) (p : RdPtr) : option RenderData :=
  mRdMap (treeMgr h (fst p)) !! snd p.

Definition writeRd (p : RdPtr) (rd : RenderData) (h : Heap) : Heap :=
  let m := treeMgr h (fst p) in
  setTreeMgr (fst p) (mkTreeManager (getTree m) (<[snd p := rd]> (mRdMap m)) (mSrc m)) h.

(** [treeMgr->findRData(node)]: the render data registered for the node,
    null when there is none. *)
Definition findRData (h : Heap) (a : TreeMgrAddr) (node : TileNode) : option RdPtr :=
  match getTileId node with
  | None => None
  | Some tileId =>
      match mRdMap (treeMgr h a) !! tileId with
      | Some _ => Some (a, tileId)
      | None => None
      end
  end.

(** ** Loops over index ranges *)

(** The indices [0 .. n-1] a counting loop runs through. *)
Definition zrange (n : nat) : list Z := map Z.of_nat (seq 0 n).

(** ** [testFrontFacing] *)

(** [std::numeric_limits<float>::max()]. *)
Definition FLT_MAX : R := IZR (2 ^ 128 - 2 ^ 104).

(** The loop over the roots: [minHeight] becomes the smaller of itself
    and the pyramid minimum of each root's tile. Dereferencing an absent
    root and a failing [dynamic_cast<Tile<float> const&>] abort. *)
Fixpoint minHeightLoop (tree : TileQuadTree.t) (roots : list Z) (minHeight : R) : option R :=
  match roots with
  | [] => Some minHeight
  | i :: rest =>
      match TileQuadTree.getRoot tree i with
      | NullNode => None
      | Node tile _ _ _ _ =>
          match getDataType tile with
          | eElevation =>
              minHeightLoop tree rest
                (Cmp.std_min minHeight (MinMaxPyramid.getMin (getMinMaxPyramid tile)))
          | eColor => None
          end
      end
  end.

(** The body of the loop over the corners: the ray-sphere test.

    For a corner that is the camera position itself [dRayLength] is
    zero and every component of [vRayDir] is [0.0 / 0.0]: [b] and
    [fDet] are not numbers, each of the three comparisons is false and
    the corner does not pass. The reals have no such value, so that
    case is told apart first. *)
Definition cornerUnoccluded (camPos : glm.dvec3) (dProxyRadius : R) (tbPnt : glm.dvec3) : bool :=
  let dRayLength := glm.length (glm.sub tbPnt camPos) in
  if Cmp.eqb dRayLength 0 then false
  else
    let vRayDir := glm.divs (glm.sub tbPnt camPos) dRayLength in
    let b := glm.dot camPos vRayDir in
    let c := (glm.dot camPos camPos - dProxyRadius * dProxyRadius)%R in
    let fDet := (b * b - c)%R in
    if Cmp.ltb fDet 0 then true
    else
      let fDet := sqrt fDet in
      if Cmp.ltb (- b - fDet) 0 && Cmp.ltb (- b + fDet) 0 then true
      else if Cmp.ltb dRayLength (- b - fDet) then true
      else false.

Fixpoint anyCornerUnoccluded (camPos : glm.dvec3) (dProxyRadius : R)
    (pnts : list glm.dvec3) : bool :=
  match pnts with
  | [] => false
  | tbPnt :: rest =>
      if cornerUnoccluded camPos dProxyRadius tbPnt then true
      else anyCornerUnoccluded camPos dProxyRadius rest
  end.

Definition proxyRadius (params : PlanetParameters) (minHeight : R) : R :=
  (Cmp.std_min (glm.x3 (mRadii params))
     (Cmp.std_min (glm.y3 (mRadii params)) (glm.z3 (mRadii params)))
   + minHeight * mHeightScale params)%R.

(** [treeMgrDEM] is the dereferenced pointer ([None] for null, which the
    [assert] rejects). *)
Definition testFrontFacing (camPos : glm.dvec3) (params : PlanetParameters)
    (tb : BoundingBox) (treeMgrDEM : option TreeManager) : option bool :=
  match treeMgrDEM with
  | None => None
  | Some mgr =>
      match minHeightLoop (getTree mgr) (zrange 12) FLT_MAX with
      | None => None
      | Some minHeight =>
          Some (anyCornerUnoccluded camPos (proxyRadius params minHeight) (tbPnts tb))
      end
  end.

(** ** [childrenAvailable] *)

Fixpoint childrenAvailableLoop (h : Heap) (node : TileNode) (treeMgr : option TreeMgrAddr)
    (indices : list Z) : option bool :=
  match indices with
  | [] => Some true
  | i :: rest =>
      match getChild node i with
      | None => None
      | Some NullNode => Some false
      | Some child =>
          match treeMgr with
          | None => None
          | Some a =>
              match findRData h a child with
              | None => Some false
              | Some ptr =>
                  match readRd h ptr with
                  | None => None
                  | Some rd =>
                      if (getTexLayer rd <? 0)%Z then Some false
                      else childrenAvailableLoop h node treeMgr rest
                  end
              end
          end
      end
  end.

Definition childrenAvailable (h : Heap) (node : TileNode) (treeMgr : option TreeMgrAddr)
    : option bool :=
  childrenAvailableLoop h node treeMgr (zrange 4).

(** ** Collaborators outside the sources *)

(** Functions the code calls whose definitions are not among the
    sources: [Frustum::setFromMatrix], [glm::inverse],
    [glm::inverseTranspose], the traversal of [UpdateBoundsVisitor] and
    the constant [VistaPlanet::sFlagTileBoundsInvalid]. *)
Class Externals := {
  Frustum_setFromMatrix : glm.dmat4 -> Frustum;
  glm_inverse : glm.dmat4 -> glm.dmat4;
  glm_inverseTranspose : glm.dmat3 -> glm.dmat3;
  UpdateBoundsVisitor_visit : TreeManager -> PlanetParameters -> TreeManager;
  sFlagTileBoundsInvalid : Z
}.

(** ** The visitor *)

Module LODVisitor.

Definition sMaxStackDepth : Z := 32.

(** [LODState]: the nodes of [StateBase] and the render data in use. *)
Record LODState := mkLODState {
  mNodeDEM : TileNode;
  mNodeIMG : TileNode;
  mRdDEM : option RdPtr;
  mRdIMG : option RdPtr
}.

Definition defaultState : LODState := mkLODState NullNode NullNode None None.

Record LODData := mkLODData {
  lodMatVM : glm.dmat4;
  lodMatP : glm.dmat4;
  mFrustumES : Frustum;
  lodViewport : glm.ivec4
}.

Record CullData := mkCullData {
  mFrustumMS : Frustum;
  mMatN : glm.dmat3;
  mCamPos : glm.dvec3
}.

(** The members of [LODVisitor], with [mTreeDEM] and [mTreeIMG] of its
    base class. [mParams] always points to the planet's parameters and
    is read from the heap. *)
Record LODVisitor := mkLODVisitor {
  mTreeDEM : option TreeMgrAddr;
  mTreeIMG : option TreeMgrAddr;
  mTreeMgrDEM : option TreeMgrAddr;
  mTreeMgrIMG : option TreeMgrAddr;
  mViewport : glm.ivec4;
  mMatVM : glm.dmat4;
  mMatP : glm.dmat4;
  mLodData : LODData;
  mCullData : CullData;
  mStack : list LODState;
  mStackTop : Z;
  mLoadDEM : list TileId;
  mLoadIMG : list TileId;
  mRenderDEM : list RdPtr;
  mRenderIMG : list RdPtr;
  mFrameCount : Z;
  mUpdateLOD : bool;
  mUpdateCulling : bool
}.

(** Field updates of the visitor, one per member the code assigns. *)
Definition set_mTreeDEM (x : option TreeMgrAddr) (v : LODVisitor) : LODVisitor :=
  mkLODVisitor x (mTreeIMG v) (mTreeMgrDEM v) (mTreeMgrIMG v) (mViewport v) (mMatVM v) (mMatP v) (mLodData v) (mCullData v) (mStack v) (mStackTop v) (mLoadDEM v) (mLoadIMG v) (mRenderDEM v) (mRenderIMG v) (mFrameCount v) (mUpdateLOD v) (mUpdateCulling v).
Definition set_mTreeIMG (x : option TreeMgrAddr) (v : LODVisitor) : LODVisitor :=
  mkLODVisitor (mTreeDEM v) x (mTreeMgrDEM v) (mTreeMgrIMG v) (mViewport v) (mMatVM v) (mMatP v) (mLodData v) (mCullData v) (mStack v) (mStackTop v) (mLoadDEM v) (mLoadIMG v) (mRenderDEM v) (mRenderIMG v) (mFrameCount v) (mUpdateLOD v) (mUpdateCulling v).
Definition set_mTreeMgrDEM (x : option TreeMgrAddr) (v : LODVisitor) : LODVisitor :=
  mkLODVisitor (mTreeDEM v) (mTreeIMG v) x (mTreeMgrIMG v) (mViewport v) (mMatVM v) (mMatP v) (mLodData v) (mCullData v) (mStack v) (mStackTop v) (mLoadDEM v) (mLoadIMG v) (mRenderDEM v) (mRenderIMG v) (mFrameCount v) (mUpdateLOD v) (mUpdateCulling v).
Definition set_mTreeMgrIMG (x : option TreeMgrAddr) (v : LODVisitor) : LODVisitor :=
  mkLODVisitor (mTreeDEM v) (mTreeIMG v) (mTreeMgrDEM v) x (mViewport v) (mMatVM v) (mMatP v) (mLodData v) (mCullData v) (mStack v) (mStackTop v) (mLoadDEM v) (mLoadIMG v) (mRenderDEM v) (mRenderIMG v) (mFrameCount v) (mUpdateLOD v) (mUpdateCulling v).
Definition set_mViewport (x : glm.ivec4) (v : LODVisitor) : LODVisitor :=
  mkLODVisitor (mTreeDEM v) (mTreeIMG v) (mTreeMgrDEM v) (mTreeMgrIMG v) x (mMatVM v) (mMatP v) (mLodData v) (mCullData v) (mStack v) (mStackTop v) (mLoadDEM v) (mLoadIMG v) (mRenderDEM v) (mRenderIMG v) (mFrameCount v) (mUpdateLOD v) (mUpdateCulling v).
Definition set_mMatVM (x : glm.dmat4) (v : LODVisitor) : LODVisitor :=
  mkLODVisitor (mTreeDEM v) (mTreeIMG v) (mTreeMgrDEM v) (mTreeMgrIMG v) (mViewport v) x (mMatP v) (mLodData v) (mCullData v) (mStack v) (mStackTop v) (mLoadDEM v) (mLoadIMG v) (mRenderDEM v) (mRenderIMG v) (mFrameCount v) (mUpdateLOD v) (mUpdateCulling v).
Definition set_mMatP (x : glm.dmat4) (v : LODVisitor) : LODVisitor :=
  mkLODVisitor (mTreeDEM v) (mTreeIMG v) (mTreeMgrDEM v) (mTreeMgrIMG v) (mViewport v) (mMatVM v) x (mLodData v) (mCullData v) (mStack v) (mStackTop v) (mLoadDEM v) (mLoadIMG v) (mRenderDEM v) (mRenderIMG v) (mFrameCount v) (mUpdateLOD v) (mUpdateCulling v).
Definition set_mLodData (x : LODData) (v : LODVisitor) : LODVisitor :=
  mkLODVisitor (mTreeDEM v) (mTreeIMG v) (mTreeMgrDEM v) (mTreeMgrIMG v) (mViewport v) (mMatVM v) (mMatP v) x (mCullData v) (mStack v) (mStackTop v) (mLoadDEM v) (mLoadIMG v) (mRenderDEM v) (mRenderIMG v) (mFrameCount v) (mUpdateLOD v) (mUpdateCulling v).
Definition set_mCullData (x : CullData) (v : LODVisitor) : LODVisitor :=
  mkLODVisitor (mTreeDEM v) (mTreeIMG v) (mTreeMgrDEM v) (mTreeMgrIMG v) (mViewport v) (mMatVM v) (mMatP v) (mLodData v) x (mStack v) (mStackTop v) (mLoadDEM v) (mLoadIMG v) (mRenderDEM v) (mRenderIMG v) (mFrameCount v) (mUpdateLOD v) (mUpdateCulling v).
Definition set_mStack (x : list LODState) (v : LODVisitor) : LODVisitor :=
  mkLODVisitor (mTreeDEM v) (mTreeIMG v) (mTreeMgrDEM v) (mTreeMgrIMG v) (mViewport v) (mMatVM v) (mMatP v) (mLodData v) (mCullData v) x (mStackTop v) (mLoadDEM v) (mLoadIMG v) (mRenderDEM v) (mRenderIMG v) (mFrameCount v) (mUpdateLOD v) (mUpdateCulling v).
Definition set_mStackTop (x : Z) (v : LODVisitor) : LODVisitor :=
  mkLODVisitor (mTreeDEM v) (mTreeIMG v) (mTreeMgrDEM v) (mTreeMgrIMG v) (mViewport v) (mMatVM v) (mMatP v) (mLodData v) (mCullData v) (mStack v) x (mLoadDEM v) (mLoadIMG v) (mRenderDEM v) (mRenderIMG v) (mFrameCount v) (mUpdateLOD v) (mUpdateCulling v).
Definition set_mLoadDEM (x : list TileId) (v : LODVisitor) : LODVisitor :=
  mkLODVisitor (mTreeDEM v) (mTreeIMG v) (mTreeMgrDEM v) (mTreeMgrIMG v) (mViewport v) (mMatVM v) (mMatP v) (mLodData v) (mCullData v) (mStack v) (mStackTop v) x (mLoadIMG v) (mRenderDEM v) (mRenderIMG v) (mFrameCount v) (mUpdateLOD v) (mUpdateCulling v).
Definition set_mLoadIMG (x : list TileId) (v : LODVisitor) : LODVisitor :=
  mkLODVisitor (mTreeDEM v) (mTreeIMG v) (mTreeMgrDEM v) (mTreeMgrIMG v) (mViewport v) (mMatVM v) (mMatP v) (mLodData v) (mCullData v) (mStack v) (mStackTop v) (mLoadDEM v) x (mRenderDEM v) (mRenderIMG v) (mFrameCount v) (mUpdateLOD v) (mUpdateCulling v).
Definition set_mRenderDEM (x : list RdPtr) (v : LODVisitor) : LODVisitor :=
  mkLODVisitor (mTreeDEM v) (mTreeIMG v) (mTreeMgrDEM v) (mTreeMgrIMG v) (mViewport v) (mMatVM v) (mMatP v) (mLodData v) (mCullData v) (mStack v) (mStackTop v) (mLoadDEM v) (mLoadIMG v) x (mRenderIMG v) (mFrameCount v) (mUpdateLOD v) (mUpdateCulling v).
Definition set_mRenderIMG (x : list RdPtr) (v : LODVisitor) : LODVisitor :=
  mkLODVisitor (mTreeDEM v) (mTreeIMG v) (mTreeMgrDEM v) (mTreeMgrIMG v) (mViewport v) (mMatVM v) (mMatP v) (mLodData v) (mCullData v) (mStack v) (mStackTop v) (mLoadDEM v) (mLoadIMG v) (mRenderDEM v) x (mFrameCount v) (mUpdateLOD v) (mUpdateCulling v).
Definition set_mFrameCount (x : Z) (v : LODVisitor) : LODVisitor :=
  mkLODVisitor (mTreeDEM v) (mTreeIMG v) (mTreeMgrDEM v) (mTreeMgrIMG v) (mViewport v) (mMatVM v) (mMatP v) (mLodData v) (mCullData v) (mStack v) (mStackTop v) (mLoadDEM v) (mLoadIMG v) (mRenderDEM v) (mRenderIMG v) x (mUpdateLOD v) (mUpdateCulling v).
Definition set_mUpdateLOD (x : bool) (v : LODVisitor) : LODVisitor :=
  mkLODVisitor (mTreeDEM v) (mTreeIMG v) (mTreeMgrDEM v) (mTreeMgrIMG v) (mViewport v) (mMatVM v) (mMatP v) (mLodData v) (mCullData v) (mStack v) (mStackTop v) (mLoadDEM v) (mLoadIMG v) (mRenderDEM v) (mRenderIMG v) (mFrameCount v) x (mUpdateCulling v).
Definition set_mUpdateCulling (x : bool) (v : LODVisitor) : LODVisitor :=
  mkLODVisitor (mTreeDEM v) (mTreeIMG v) (mTreeMgrDEM v) (mTreeMgrIMG v) (mViewport v) (mMatVM v) (mMatP v) (mLodData v) (mCullData v) (mStack v) (mStackTop v) (mLoadDEM v) (mLoadIMG v) (mRenderDEM v) (mRenderIMG v) (mFrameCount v) (mUpdateLOD v) x.
(** What a traversal works on: the visitor and the objects it points
    to. *)
Record VState := mkVState { vis : LODVisitor; heap : Heap }.

(** *** The monad of visitor code: state, and failure for a null
    dereference, a failed [assert] or [std::vector::at] out of range *)

Definition M (A : Type) : Type := VState -> option (A * VState).

Definition ret {A} (a : A) : M A := fun s => Some (a, s).
Definition bind {A B} (m : M A) (k : A -> M B) : M B :=
  fun s => match m s with
           | Some (a, s') => k a s'
           | None => None
           end.
Definition fail {A} : M A := fun _ => None.
Definition getV : M LODVisitor := fun s => Some (vis s, s).
Definition getH : M Heap := fun s => Some (heap s, s).
Definition modV (f : LODVisitor -> LODVisitor) : M unit :=
  fun s => Some (tt, mkVState (f (vis s)) (heap s)).
Definition modH (f : Heap -> Heap) : M unit :=
  fun s => Some (tt, mkVState (vis s) (f (heap s))).
Definition liftO {A} (o : option A) : M A :=
  match o with Some a => ret a | None => fail end.
Definition assert_ (b : bool) : M unit := if b then ret tt else fail.

Local Open Scope Z_scope.

Notation "x <- m ;; k" := (bind m (fun x => k))
  (at level 89, m at level 88, right associativity).
Notation "m ;;; k" := (bind m (fun _ => k))
  (at level 89, right associativity).

Fixpoint forEach {A} (l : list A) (body : A -> M unit) : M unit :=
  match l with
  | [] => ret tt
  | a :: rest => body a ;;; forEach rest body
  end.

(** *** The state stack *)

Definition pushState : M unit :=
  modV (fun v => set_mStackTop (mStackTop v + 1) v) ;;;
  v <- getV ;;
  assert_ (mStackTop v <? sMaxStackDepth).

Definition popState : M unit :=
  modV (fun v => set_mStackTop (mStackTop v - 1) v).

(** [getLODState(level)]: [mStack.at(level >= 0 ? level : mStackTop)]. *)
Definition getLODState (level : Z) : M LODState :=
  v <- getV ;;
  assert_ (0 <=? mStackTop v) ;;;
  liftO (mStack v !! Z.to_nat (if 0 <=? level then level else mStackTop v)).

(** An assignment through the reference [getLODState()] returns. *)
Definition modLODState (f : LODState -> LODState) : M unit :=
  state <- getLODState (-1) ;;
  modV (fun v => set_mStack (<[Z.to_nat (mStackTop v) := f state]> (mStack v)) v).

Definition setNodes (nodeDEM nodeIMG : TileNode) (st : LODState) : LODState :=
  mkLODState nodeDEM nodeIMG (mRdDEM st) (mRdIMG st).
Definition setRdDEM (rd : option RdPtr) (st : LODState) : LODState :=
  mkLODState (mNodeDEM st) (mNodeIMG st) rd (mRdIMG st).
Definition setRdIMG (rd : option RdPtr) (st : LODState) : LODState :=
  mkLODState (mNodeDEM st) (mNodeIMG st) (mRdDEM st) rd.

(** *** Writes through render data pointers *)

(** [rd->setLastFrame(frame)]. *)
Definition rdSetLastFrame (rd : option RdPtr) (frame : Z) : M unit :=
  ptr <- liftO rd ;;
  h <- getH ;;
  old <- liftO (readRd h ptr) ;;
  modH (writeRd ptr (setLastFrame frame old)).

(** [rd->addFlag(RenderDataDEM::Flags::eRender)]. *)
Definition rdAddRenderFlag (rd : option RdPtr) : M unit :=
  ptr <- liftO rd ;;
  h <- getH ;;
  old <- liftO (readRd h ptr) ;;
  modH (writeRd ptr (addRenderFlag old)).

(** *** [testVisible] *)

Definition testVisible (tileId : TileId) (treeMgrDEM : option TreeMgrAddr) : M bool :=
  state <- getLODState (-1) ;;
  v <- getV ;;
  h <- getH ;;
  ptr <- liftO (mRdDEM state) ;;
  rd <- liftO (readRd h ptr) ;;
  let tb := getBounds rd in
  if testInFrustum (mFrustumMS (mCullData v)) tb then
    liftO (testFrontFacing (mCamPos (mCullData v)) (hParams h) tb
             (option_map (treeMgr h) treeMgrDEM))
  else ret false.

(** *** [testNeedRefine] *)

(** The loop over [tbDirs]. *)
Fixpoint maxAngleLoop (centerDir : glm.dvec3) (tbDirs : list glm.dvec3) (maxAngle : R) : R :=
  match tbDirs with
  | [] => maxAngle
  | tbDir :: rest =>
      maxAngleLoop centerDir rest
        (Cmp.std_max (acos (Cmp.std_min 1 (glm.dot tbDir centerDir))) maxAngle)
  end.

(** The refinement ratio of a box seen from [camPos]. *)
Definition refineRatio (camPos : glm.dvec3) (frustumES : Frustum) (lodFactor : R)
    (tb : BoundingBox) : R :=
  let tbCenter := glm.scale (1 / 2) (glm.add (getMin tb) (getMax tb)) in
  let tbDirs := map (fun p => glm.normalize (glm.sub p camPos)) (tbPnts tb) in
  let centerDir := glm.normalize (glm.sub tbCenter camPos) in
  let maxAngle := maxAngleLoop centerDir tbDirs 0 in
  let fov := Cmp.std_max (getHorizontalFOV frustumES) (getVerticalFOV frustumES) in
  (maxAngle / fov * lodFactor)%R.

Definition testNeedRefine (tileId : TileId) : M bool :=
  state <- getLODState (-1) ;;
  if isNull (mNodeDEM state) then ret false
  else
    v <- getV ;;
    h <- getH ;;
    ptr <- liftO (mRdDEM state) ;;
    rd <- liftO (readRd h ptr) ;;
    let ratio := refineRatio (mCamPos (mCullData v)) (mFrustumES (mLodData v))
                   (mLodFactor (hParams h)) (getBounds rd) in
    let result := Cmp.gtb ratio 10 in
    ret (if mMinLevel (hParams h) >? level tileId then true else result).

(** *** [drawLevel] *)

Definition drawLevel : M unit :=
  state <- getLODState (-1) ;;
  v <- getV ;;
  (match mTreeMgrDEM v with
   | Some _ =>
       assert_ (negb (isNull (mNodeDEM state))) ;;;
       ptr <- liftO (mRdDEM state) ;;
       rdAddRenderFlag (Some ptr) ;;;
       modV (fun v => set_mRenderDEM (mRenderDEM v ++ [ptr]) v)
   | None => ret tt
   end) ;;;
  (match mTreeMgrIMG v with
   | Some _ =>
       assert_ (negb (isNull (mNodeIMG state))) ;;;
       ptr <- liftO (mRdIMG state) ;;
       modV (fun v => set_mRenderIMG (mRenderIMG v ++ [ptr]) v)
   | None => ret tt
   end).

(** *** [addLoadChildrenDEM], [addLoadChildrenIMG] *)

Definition addLoadChildrenDEM (node : TileNode) : M unit :=
  h <- getH ;;
  match node with
  | NullNode => ret tt
  | Node tile _ _ _ _ =>
      if getLevel tile <? mMaxLevel (hParams h) then
        tileId <- liftO (getTileId node) ;;
        forEach (zrange 4) (fun i =>
          child <- liftO (getChild node i) ;;
          if isNull child then
            modV (fun v => set_mLoadDEM (mLoadDEM v ++ [HEALPix.getChildTileId tileId i]) v)
          else
            v <- getV ;;
            h <- getH ;;
            mgr <- liftO (mTreeMgrDEM v) ;;
            rdSetLastFrame (findRData h mgr child) (mFrameCount v))
      else ret tt
  end.

Definition addLoadChildrenIMG (node : TileNode) : M unit :=
  h <- getH ;;
  match node with
  | NullNode => ret tt
  | Node tile _ _ _ _ =>
      if getLevel tile <? mMaxLevel (hParams h) then
        tileId <- liftO (getTileId node) ;;
        forEach (zrange 4) (fun i =>
          child <- liftO (getChild node i) ;;
          if isNull child then
            modV (fun v => set_mLoadIMG (mLoadIMG v ++ [HEALPix.getChildTileId tileId i]) v)
          else
            v <- getV ;;
            h <- getH ;;
            mgr <- liftO (mTreeMgrIMG v) ;;
            rdSetLastFrame (findRData h mgr child) (mFrameCount v))
      else ret tt
  end.

(** *** [handleRefine] *)

Definition handleRefine (tileId : TileId) : M bool :=
  state <- getLODState (-1) ;;
  v <- getV ;;
  h <- getH ;;
  childrenDemAvailable <-
    (if isNull (mNodeDEM state) then ret false
     else liftO (childrenAvailable h (mNodeDEM state) (mTreeMgrDEM v))) ;;
  childrenImgAvailable <-
    (if isNull (mNodeIMG state) then ret false
     else liftO (childrenAvailable h (mNodeIMG state) (mTreeMgrIMG v))) ;;
  match mTreeMgrDEM v, mTreeMgrIMG v with
  | Some _, Some _ =>
      (if negb childrenDemAvailable then addLoadChildrenDEM (mNodeDEM state) else ret tt) ;;;
      (if negb childrenImgAvailable then addLoadChildrenIMG (mNodeIMG state) else ret tt) ;;;
      if childrenDemAvailable && childrenImgAvailable then ret true
      else drawLevel ;;; ret false
  | Some _, None =>
      if childrenDemAvailable then ret true
      else addLoadChildrenDEM (mNodeDEM state) ;;; drawLevel ;;; ret false
  | None, _ => ret false
  end.

(** *** [visitNode], [preVisitRoot], [preVisit] *)

Definition visitNode (tileId : TileId) : M bool :=
  v <- getV ;;
  visible <- testVisible tileId (mTreeMgrDEM v) ;;
  if visible then
    needRefine <- testNeedRefine tileId ;;
    if needRefine then handleRefine tileId
    else drawLevel ;;; ret false
  else ret false.

Definition preVisitRoot (tileId : TileId) : M bool :=
  state <- getLODState (-1) ;;
  v <- getV ;;
  h <- getH ;;
  (match mTreeMgrDEM v with
   | Some mgr =>
       if negb (isNull (mNodeDEM state)) then
         let rd := findRData h mgr (mNodeDEM state) in
         modLODState (setRdDEM rd) ;;;
         rdSetLastFrame rd (mFrameCount v)
       else modLODState (setRdDEM None)
   | None => modLODState (setRdDEM None)
   end) ;;;
  h <- getH ;;
  (match mTreeMgrIMG v with
   | Some mgr =>
       if negb (isNull (mNodeIMG state)) then
         let rd := findRData h mgr (mNodeIMG state) in
         modLODState (setRdIMG rd) ;;;
         rdSetLastFrame rd (mFrameCount v)
       else modLODState (setRdIMG None)
   | None => modLODState (setRdIMG None)
   end) ;;;
  visitNode tileId.

Definition postVisitRoot (tileId : TileId) : M unit := ret tt.

Definition preVisit (tileId : TileId) : M bool :=
  state <- getLODState (-1) ;;
  stateP <- getLODState (level tileId - 1) ;;
  v <- getV ;;
  h <- getH ;;
  (match mTreeMgrDEM v with
   | Some mgr =>
       if negb (isNull (mNodeDEM state)) then
         let rd := findRData h mgr (mNodeDEM state) in
         modLODState (setRdDEM rd) ;;;
         rdSetLastFrame rd (mFrameCount v)
       else modLODState (setRdDEM (mRdDEM stateP))
   | None => modLODState (setRdDEM (mRdDEM stateP))
   end) ;;;
  h <- getH ;;
  (match mTreeMgrIMG v with
   | Some mgr =>
       if negb (isNull (mNodeIMG state)) then
         let rd := findRData h mgr (mNodeIMG state) in
         modLODState (setRdIMG rd) ;;;
         rdSetLastFrame rd (mFrameCount v)
       else modLODState (setRdIMG (mRdIMG stateP))
   | None => modLODState (setRdIMG (mRdIMG stateP))
   end) ;;;
  visitNode tileId.

(** *** [preTraverse] *)

(** The loop over the roots. *)
Fixpoint checkRoots (roots : list Z) (result : bool) : M bool :=
  match roots with
  | [] => ret result
  | i :: rest =>
      v <- getV ;;
      h <- getH ;;
      result <-
        (match mTreeDEM v with
         | Some tree =>
             if isNull (TileQuadTree.getRoot (getTree (treeMgr h tree)) i) then
               modV (fun v => set_mLoadDEM (mLoadDEM v ++ [mkTileId 0 i]) v) ;;;
               ret false
             else ret result
         | None => ret result
         end) ;;
      result <-
        (match mTreeIMG v with
         | Some tree =>
             if isNull (TileQuadTree.getRoot (getTree (treeMgr h tree)) i) then
               modV (fun v => set_mLoadIMG (mLoadIMG v ++ [mkTileId 0 i]) v) ;;;
               ret false
             else ret result
         | None => ret result
         end) ;;
      checkRoots rest result
  end.

Section WithExternals.
Context `{Externals}.

Definition preTraverse : M bool :=
  v <- getV ;;
  (if mUpdateLOD v then
     modV (set_mLodData
             (mkLODData (mMatVM v) (mMatP v) (Frustum_setFromMatrix (mMatP v))
                        (mViewport v)))
   else ret tt) ;;;
  (if mUpdateCulling v then
     let v4CamPos := glm.col3 (glm_inverse (mMatVM v)) in
     modV (set_mCullData
             (mkCullData (Frustum_setFromMatrix (glm.mul (mMatP v) (mMatVM v)))
                         (glm_inverseTranspose (glm.mat3_of (mMatVM v)))
                         (glm.mkvec3 (glm.x4 v4CamPos) (glm.y4 v4CamPos) (glm.z4 v4CamPos))))
   else ret tt) ;;;
  modV (set_mLoadDEM []) ;;;
  modV (set_mLoadIMG []) ;;;
  modV (set_mRenderDEM []) ;;;
  modV (set_mRenderIMG []) ;;;
  modV (set_mStackTop (-1)) ;;;
  checkRoots (zrange 12) true.

Definition postTraverse : M unit := ret tt.

(** *** The traversal of [TileVisitor] *)

(** Modelled from the spec: [TileVisitor<LODVisitor>::visit] and its
    helpers are declared in [TileVisitor.hpp], which is not among the
    sources. The spec's traversal: a state is pushed on descent and
    popped on return; a node's children are visited, in order, when
    the pre-visit of the node asks for it; a channel without a node
    at a level contributes a null node pointer to the child state;
    the stack holds at most [sMaxStackDepth] states.

    [visitChild] is the visit of child [i] of the node of the current
    state, [visitChildren] the visit of that child's own children. *)
Definition visitChild (visitChildren : TileId -> M unit) (tileId : TileId) (i : Z) : M unit :=
  state <- getLODState (-1) ;;
  childDEM <- (if isNull (mNodeDEM state) then ret NullNode
               else liftO (getChild (mNodeDEM state) i)) ;;
  childIMG <- (if isNull (mNodeIMG state) then ret NullNode
               else liftO (getChild (mNodeIMG state) i)) ;;
  let childId := HEALPix.getChildTileId tileId i in
  pushState ;;;
  modLODState (setNodes childDEM childIMG) ;;;
  descend <- preVisit childId ;;
  (if descend then visitChildren childId else ret tt) ;;;
  popState.

(** The recursion over the levels is bounded by [fuel]. The bound is
    never used up when it is at least the room left on the stack:
    [pushState] fails first. *)
Fixpoint visitLevel (fuel : nat) (tileId : TileId) : M unit :=
  match fuel with
  | O => fail
  | S fuel' => forEach (zrange 4) (visitChild (visitLevel fuel') tileId)
  end.

(** Modelled from the spec: the visit of one pair of roots (see
    [visitLevel]); a pair of null roots is skipped. *)
Definition visitRoot (rootDEM rootIMG : TileNode) : M unit :=
  match getTileId (if isNull rootDEM then rootIMG else rootDEM) with
  | None => ret tt
  | Some tileId =>
      pushState ;;;
      modLODState (setNodes rootDEM rootIMG) ;;;
      descend <- preVisitRoot tileId ;;
      (if descend then visitLevel (Z.to_nat sMaxStackDepth) tileId else ret tt) ;;;
      postVisitRoot tileId ;;;
      popState
  end.

(** Modelled from the spec: [visit] runs [preTraverse]; when that
    returns [false] the traversal is abandoned for the frame,
    otherwise the twelve root pairs are visited in order. *)
Definition visit : M unit :=
  proceed <- preTraverse ;;
  if proceed then
    forEach (zrange 12) (fun i =>
      v <- getV ;;
      h <- getH ;;
      let rootDEM := match mTreeDEM v with
                     | Some tree => TileQuadTree.getRoot (getTree (treeMgr h tree)) i
                     | None => NullNode
                     end in
      let rootIMG := match mTreeIMG v with
                     | Some tree => TileQuadTree.getRoot (getTree (treeMgr h tree)) i
                     | None => NullNode
                     end in
      visitRoot rootDEM rootIMG) ;;;
    postTraverse
  else ret tt.
End WithExternals.

(** *** [setTreeManagerDEM], [setTreeManagerIMG] *)

(** [setTreeDEM] of the base class stores the tree pointer; the tree
    of a manager is addressed by the manager. The reserved capacity of
    the lists is not modelled. *)
Definition setTreeManagerDEM (treeMgr : option TreeMgrAddr) (v : LODVisitor) : LODVisitor :=
  let v := match mTreeMgrDEM v with Some _ => set_mTreeDEM None v | None => v end in
  let v := set_mStack [] v in
  let v := set_mStack (replicate (Z.to_nat sMaxStackDepth) defaultState) v in
  let v := set_mTreeMgrDEM treeMgr v in
  match mTreeMgrDEM v with
  | Some a => set_mTreeDEM (Some a) v
  | None => v
  end.

Definition setTreeManagerIMG (treeMgr : option TreeMgrAddr) (v : LODVisitor) : LODVisitor :=
  let v := match mTreeMgrIMG v with Some _ => set_mTreeIMG None v | None => v end in
  let v := set_mTreeMgrIMG treeMgr v in
  match mTreeMgrIMG v with
  | Some a => set_mTreeIMG (Some a) v
  | None => v
  end.

End LODVisitor.

(** ** The angle loop of [testNeedRefine] in binary64 *)

(** The visitor above computes over the reals. In the program the
    dot product of [testNeedRefine] is a binary64 number, and rounding
    can take the dot product of two normalised vectors below [-1],
    where no real dot product of unit vectors lies. The expressions of
    [testNeedRefine] are embedded here once more, operation by
    operation, over the binary64 floats of the kernel (IEEE 754,
    round to nearest even).

    [glm::normalize(v)] is [v * inversesqrt(dot(v, v))],
    [inversesqrt(x)] is [1 / sqrt(x)] and [dot] sums the three products
    from left to right, as glm's [func_geometric.inl] and
    [func_exponential.inl] have them; the library is not among the
    sources. [std::acos] is the C library's and is a parameter: all
    that is used of it is that its result is NaN for an argument
    below [-1]. [mMinLevel] and the level of the tile are integers as
    in the visitor. *)
Module Binary64.
Import Floats.
Local Open Scope float_scope.

Record dvec3 := mkvec3 { x3 : float; y3 : float; z3 : float }.

Definition add (a b : dvec3) : dvec3 :=
  mkvec3 (x3 a + x3 b) (y3 a + y3 b) (z3 a + z3 b).
Definition sub (a b : dvec3) : dvec3 :=
  mkvec3 (x3 a - x3 b) (y3 a - y3 b) (z3 a - z3 b).
Definition scale (k : float) (a : dvec3) : dvec3 :=
  mkvec3 (k * x3 a) (k * y3 a) (k * z3 a).
Definition dot (a b : dvec3) : float :=
  x3 a * x3 b + y3 a * y3 b + z3 a * z3 b.
Definition normalize (a : dvec3) : dvec3 := scale (1 / sqrt (dot a a)) a.

(** [std::min(a, b)] is [(b < a) ? b : a], [std::max(a, b)] is
    [(a < b) ? b : a]; a comparison with NaN is false. *)
Definition std_min (a b : float) : float := if b <? a then b else a.
Definition std_max (a b : float) : float := if a <? b then b else a.

Definition tbPnts (tbMin tbMax : dvec3) : list dvec3 :=
  [ mkvec3 (x3 tbMin) (y3 tbMin) (z3 tbMin);
    mkvec3 (x3 tbMax) (y3 tbMin) (z3 tbMin);
    mkvec3 (x3 tbMax) (y3 tbMin) (z3 tbMax);
    mkvec3 (x3 tbMin) (y3 tbMin) (z3 tbMax);
    mkvec3 (x3 tbMin) (y3 tbMax) (z3 tbMin);
    mkvec3 (x3 tbMax) (y3 tbMax) (z3 tbMin);
    mkvec3 (x3 tbMax) (y3 tbMax) (z3 tbMax);
    mkvec3 (x3 tbMin) (y3 tbMax) (z3 tbMax) ].

(** The loop over [tbDirs]. *)
Fixpoint maxAngleLoop (acos : float -> float) (centerDir : dvec3) (tbDirs : list dvec3)
    (maxAngle : float) : float :=
  match tbDirs with
  | [] => maxAngle
  | tbDir :: rest =>
      maxAngleLoop acos centerDir rest
        (std_max (acos (std_min 1 (dot tbDir centerDir))) maxAngle)
  end.

(** The branch of [testNeedRefine] for a state with a DEM node, from
    the numbers it reads: the camera position, the two opening angles,
    the LOD factor, the minimum level, the level of the tile and the
    two corners of the box. *)
Definition testNeedRefine (acos : float -> float) (camPos : dvec3)
    (horizontalFOV verticalFOV lodFactor : float) (minLevel level : Z)
    (tbMin tbMax : dvec3) : bool :=
  let tbCenter := scale 0.5 (add tbMin tbMax) in
  let tbDirs := map (fun p => normalize (sub p camPos)) (tbPnts tbMin tbMax) in
  let centerDir := normalize (sub tbCenter camPos) in
  let maxAngle := maxAngleLoop acos centerDir tbDirs 0 in
  let fov := std_max horizontalFOV verticalFOV in
  let ratio := maxAngle / fov * lodFactor in
  let result := 10 <? ratio in
  if (minLevel >? level)%Z then true else result.

End Binary64.

(** ** What [preTraverse] is expected to request *)

(** The level-0 ids of the roots in [roots] that are absent from the
    tree [tree] points to; nothing for a null tree pointer. *)
Definition missingRoots (h : Heap) (tree : option TreeMgrAddr) (roots : list Z) : list TileId :=
  match tree with
  | None => []
  | Some a =>
      map (mkTileId 0)
          (List.filter (fun i => isNull (TileQuadTree.getRoot (getTree (treeMgr h a)) i)) roots)
  end.

Definition noneMissing (l : list TileId) : bool :=
  match l with [] => true | _ => false end.

(** The ids of the twelve roots. *)
Definition allRootIds : list TileId := map (mkTileId 0) (zrange 12).

(** A tree without any root. *)
Definition treeEmpty (tree : TileQuadTree.t) : Prop :=
  forall i, TileQuadTree.getRoot tree i = NullNode.

(** ** The renderer *)

Module TileRenderer.

(** The members of [TileRenderer] the planet assigns when sources
    change; matrices, shader and drawing switches play no part in what
    follows. *)
Record t := mk {
  mTreeMgrDEM : option TreeMgrAddr;
  mTreeMgrIMG : option TreeMgrAddr
}.

Definition setTreeManagerDEM (treeMgr : option TreeMgrAddr) (r : t) : t :=
  mk treeMgr (mTreeMgrIMG r).
Definition setTreeManagerIMG (treeMgr : option TreeMgrAddr) (r : t) : t :=
  mk (mTreeMgrDEM r) treeMgr.

(** [rd->getTexLayer()] through a pointer of a render list. *)
Definition texLayerOf (h : Heap) (p : RdPtr) : option Z :=
  match readRd h p with
  | Some rd => Some (getTexLayer rd)
  | None => None
  end.

(** The loop of [renderTiles] over the indices of [renderDEM]. The
    result lists the calls of [renderTile], in order: the DEM entry and
    the IMG entry paired with it (null past the end of [renderIMG]).
    The entries' data is read where the loop stands, that is when the
    renderer consumes the lists. *)
Fixpoint renderTilesLoop (h : Heap) (renderDEM renderIMG : list RdPtr) (indices : list nat)
    : option (list (RdPtr * option RdPtr)) :=
  match indices with
  | [] => Some []
  | i :: rest =>
      match renderDEM !! i with
      | None => None
      | Some rdDEM =>
          let rdIMG := renderIMG !! i in
          match texLayerOf h rdDEM with
          | None => None
          | Some layerDEM =>
              let missing :=
                if (layerDEM <? 0)%Z then Some true
                else match rdIMG with
                     | None => Some false
                     | Some p =>
                         match texLayerOf h p with
                         | None => None
                         | Some layerIMG => Some (layerIMG <? 0)%Z
                         end
                     end in
              match missing, renderTilesLoop h renderDEM renderIMG rest with
              | Some true, Some calls => Some calls
              | Some false, Some calls => Some ((rdDEM, rdIMG) :: calls)
              | _, _ => None
              end
          end
      end
  end.

Definition renderTiles (h : Heap) (renderDEM renderIMG : list RdPtr)
    : option (list (RdPtr * option RdPtr)) :=
  renderTilesLoop h renderDEM renderIMG (seq 0 (length renderDEM)).

(** An entry is resident when its texture layer is not negative. *)
Definition resident (h : Heap) (p : RdPtr) : Prop :=
  exists layer, texLayerOf h p = Some layer /\ (0 <= layer)%Z.

(** The pointer refers to render data that exists. *)
Definition live (h : Heap) (p : RdPtr) : Prop := is_Some (readRd h p).

End TileRenderer.

(** ** What [handleRefine] is expected to request and stamp *)

(** Child [i] of the node is absent. *)
Definition childAbsent (node : TileNode) (i : Z) : bool :=
  match getChild node i with
  | Some NullNode => true
  | _ => false
  end.

(** The ids of the absent children among [indices], in order. *)
Definition missingChildIds (node : TileNode) (indices : list Z) : list TileId :=
  match getTileId node with
  | None => []
  | Some tileId =>
      map (HEALPix.getChildTileId tileId) (List.filter (childAbsent node) indices)
  end.

(** The id of child [i] when it is present. *)
Definition presentChild (node : TileNode) (i : Z) : option TileId :=
  match getChild node i with
  | Some child => getTileId child
  | None => None
  end.

(** [p] points to the render data manager [a] holds for a present child
    of the node; as a test over [indices], and as a proposition. *)
Definition isChildRd (a : TreeMgrAddr) (node : TileNode) (indices : list Z) (p : RdPtr) : bool :=
  existsb (fun i => match presentChild node i with
                    | Some id => bool_decide (p = (a, id))
                    | None => false
                    end) indices.

Definition childRd (a : TreeMgrAddr) (node : TileNode) (p : RdPtr) : Prop :=
  exists i id, (0 <= i < 4)%Z /\ presentChild node i = Some id /\ p = (a, id).

Definition stampIf (b : bool) (frame : Z) (rd : RenderData) : RenderData :=
  if b then setLastFrame frame rd else rd.

Definition flagIf (b : bool) (rd : RenderData) : RenderData :=
  if b then addRenderFlag rd else rd.

(** Two heaps that differ in render data at most. *)
Definition sameTrees (h h' : Heap) : Prop :=
  hParams h' = hParams h /\
  forall a, getTree (treeMgr h' a) = getTree (treeMgr h a) /\
            mSrc (treeMgr h' a) = mSrc (treeMgr h a).

Definition nodeLevel (node : TileNode) : Z :=
  match node with
  | NullNode => 0
  | Node tile _ _ _ _ => getLevel tile
  end.

(** Whether [addLoadChildrenDEM] and [addLoadChildrenIMG] enter their
    loop for a node. *)
Definition loadsChildren (h : Heap) (node : TileNode) : bool :=
  negb (isNull node) && (nodeLevel node <? mMaxLevel (hParams h))%Z.

(** Child [i] of the node exists and its render data, held by manager
    [a], has a texture layer; all four children do. *)
Definition childReady (h : Heap) (a : TreeMgrAddr) (node : TileNode) (i : Z) : Prop :=
  exists id rd, presentChild node i = Some id /\ readRd h (a, id) = Some rd /\
                (0 <= getTexLayer rd)%Z.

Definition childrenReady (h : Heap) (a : TreeMgrAddr) (node : TileNode) : Prop :=
  forall i, (0 <= i < 4)%Z -> childReady h a node i.

(** The children of the node are requested: they are not all ready and
    the node lies above the maximum level. *)
Definition requestsChildren (h : Heap) (a : TreeMgrAddr) (node : TileNode) : Prop :=
  ~ childrenReady h a node /\ (nodeLevel node < mMaxLevel (hParams h))%Z.

(** The loop body shared by [addLoadChildrenDEM] and
    [addLoadChildrenIMG], over the member that holds the manager and the
    push onto the load list. *)
Definition loadBody (getMgr : LODVisitor.LODVisitor -> option TreeMgrAddr)
    (push : TileId -> LODVisitor.LODVisitor -> LODVisitor.LODVisitor)
    (node : TileNode) (tileId : TileId) (i : Z) : LODVisitor.M unit :=
  LODVisitor.bind (LODVisitor.liftO (getChild node i)) (fun child =>
    if isNull child then LODVisitor.modV (push (HEALPix.getChildTileId tileId i))
    else
      LODVisitor.bind LODVisitor.getV (fun v =>
      LODVisitor.bind LODVisitor.getH (fun h =>
      LODVisitor.bind (LODVisitor.liftO (getMgr v)) (fun mgr =>
      LODVisitor.rdSetLastFrame (findRData h mgr child) (LODVisitor.mFrameCount v))))).

Definition pushLoadDEM (id : TileId) (v : LODVisitor.LODVisitor) : LODVisitor.LODVisitor :=
  LODVisitor.set_mLoadDEM (LODVisitor.mLoadDEM v ++ [id]) v.
Definition pushLoadIMG (id : TileId) (v : LODVisitor.LODVisitor) : LODVisitor.LODVisitor :=
  LODVisitor.set_mLoadIMG (LODVisitor.mLoadIMG v ++ [id]) v.

(** ** The planet *)

Module VistaPlanet.

(** Calls made on tile sources, which are external objects. *)
Inductive SourceCall := CallInit (src : SrcPtr) | CallFini (src : SrcPtr).

(** The members of [VistaPlanet] that the setters and the bounds phase
    touch. [mHeap] holds [mParams], [mTreeMgrDEM] and [mTreeMgrIMG];
    [sourceCalls] is the trace of the calls made on sources so far. *)
Record t := mk {
  mLodVisitor : LODVisitor.LODVisitor;
  mRenderer : TileRenderer.t;
  mSrcDEM : option SrcPtr;
  mSrcIMG : option SrcPtr;
  mHeap : Heap;
  mFlags : Z;
  sourceCalls : list SourceCall
}.

Definition set_mLodVisitor (x : LODVisitor.LODVisitor) (p : t) : t :=
  mk x (mRenderer p) (mSrcDEM p) (mSrcIMG p) (mHeap p) (mFlags p) (sourceCalls p).
Definition set_mRenderer (x : TileRenderer.t) (p : t) : t :=
  mk (mLodVisitor p) x (mSrcDEM p) (mSrcIMG p) (mHeap p) (mFlags p) (sourceCalls p).
Definition set_mSrcDEM (x : option SrcPtr) (p : t) : t :=
  mk (mLodVisitor p) (mRenderer p) x (mSrcIMG p) (mHeap p) (mFlags p) (sourceCalls p).
Definition set_mSrcIMG (x : option SrcPtr) (p : t) : t :=
  mk (mLodVisitor p) (mRenderer p) (mSrcDEM p) x (mHeap p) (mFlags p) (sourceCalls p).
Definition set_mHeap (x : Heap) (p : t) : t :=
  mk (mLodVisitor p) (mRenderer p) (mSrcDEM p) (mSrcIMG p) x (mFlags p) (sourceCalls p).
Definition set_mFlags (x : Z) (p : t) : t :=
  mk (mLodVisitor p) (mRenderer p) (mSrcDEM p) (mSrcIMG p) (mHeap p) x (sourceCalls p).
Definition call (c : SourceCall) (p : t) : t :=
  mk (mLodVisitor p) (mRenderer p) (mSrcDEM p) (mSrcIMG p) (mHeap p) (mFlags p)
     (sourceCalls p ++ [c]).

Definition set_mParams (x : PlanetParameters) (p : t) : t :=
  set_mHeap (mkHeap x (hTreeMgrDEM (mHeap p)) (hTreeMgrIMG (mHeap p))) p.

(** Modelled from the spec: [TreeManagerBase::setSource] is not among
    the sources. The spec: attach or detach a source; on detach, drain
    the requests in flight and tear down the tree. *)
Definition TreeManager_setSource (src : option SrcPtr) (m : TreeManager) : TreeManager :=
  match src with
  | Some s => mkTreeManager (getTree m) (mRdMap m) (Some s)
  | None => mkTreeManager TileQuadTree.empty ∅ None
  end.

Definition setDEMSource (srcDEM : option SrcPtr) (p : t) : t :=
  if decide (mSrcDEM p = srcDEM) then p
  else
    let p :=
      match mSrcDEM p with
      | Some old =>
          let p := call (CallFini old) p in
          let p := set_mLodVisitor (LODVisitor.setTreeManagerDEM None (mLodVisitor p)) p in
          let p := set_mRenderer (TileRenderer.setTreeManagerDEM None (mRenderer p)) p in
          set_mHeap (setTreeMgr AddrDEM
                       (TreeManager_setSource None (hTreeMgrDEM (mHeap p))) (mHeap p)) p
      | None => p
      end in
    let p := set_mSrcDEM srcDEM p in
    match mSrcDEM p with
    | Some new =>
        let p := call (CallInit new) p in
        let p := set_mHeap (setTreeMgr AddrDEM
                              (TreeManager_setSource (Some new) (hTreeMgrDEM (mHeap p)))
                              (mHeap p)) p in
        let p := set_mLodVisitor
                   (LODVisitor.setTreeManagerDEM (Some AddrDEM) (mLodVisitor p)) p in
        set_mRenderer (TileRenderer.setTreeManagerDEM (Some AddrDEM) (mRenderer p)) p
    | None => p
    end.

Definition setIMGSource (srcIMG : option SrcPtr) (p : t) : t :=
  if decide (mSrcIMG p = srcIMG) then p
  else
    let p :=
      match mSrcIMG p with
      | Some old =>
          let p := call (CallFini old) p in
          let p := set_mLodVisitor (LODVisitor.setTreeManagerIMG None (mLodVisitor p)) p in
          let p := set_mRenderer (TileRenderer.setTreeManagerIMG None (mRenderer p)) p in
          set_mHeap (setTreeMgr AddrIMG
                       (TreeManager_setSource None (hTreeMgrIMG (mHeap p))) (mHeap p)) p
      | None => p
      end in
    let p := set_mSrcIMG srcIMG p in
    match mSrcIMG p with
    | Some new =>
        let p := call (CallInit new) p in
        let p := set_mHeap (setTreeMgr AddrIMG
                              (TreeManager_setSource (Some new) (hTreeMgrIMG (mHeap p)))
                              (mHeap p)) p in
        let p := set_mLodVisitor
                   (LODVisitor.setTreeManagerIMG (Some AddrIMG) (mLodVisitor p)) p in
        set_mRenderer (TileRenderer.setTreeManagerIMG (Some AddrIMG) (mRenderer p)) p
    | None => p
    end.

Section WithExternals.
Context `{Externals}.

Definition setRadii (radii : glm.dvec3) (p : t) : t :=
  let params := hParams (mHeap p) in
  let p := set_mParams (mkPlanetParameters radii (mHeightScale params) (mLodFactor params)
                          (mMinLevel params) (mMaxLevel params)) p in
  set_mFlags (Z.lor (mFlags p) sFlagTileBoundsInvalid) p.

Definition setHeightScale (scale : R) (p : t) : t :=
  let params := hParams (mHeap p) in
  let p := set_mParams (mkPlanetParameters (mRadii params) scale (mLodFactor params)
                          (mMinLevel params) (mMaxLevel params)) p in
  set_mFlags (Z.lor (mFlags p) sFlagTileBoundsInvalid) p.

(** The tile-bounds-invalid flag is set, as [updateTileBounds]
    tests it. *)
Definition boundsInvalid (p : t) : Prop :=
  Z.land (mFlags p) sFlagTileBoundsInvalid <> 0%Z.

Definition updateTileBounds (p : t) : t :=
  if negb (Z.land (mFlags p) sFlagTileBoundsInvalid =? 0)%Z then
    let p := set_mHeap (setTreeMgr AddrDEM
                          (UpdateBoundsVisitor_visit (hTreeMgrDEM (mHeap p))
                                                     (hParams (mHeap p)))
                          (mHeap p)) p in
    set_mFlags (Z.land (mFlags p) (Z.lnot sFlagTileBoundsInvalid)) p
  else p.
End WithExternals.

Definition setLODFactor (lodFactor : R) (p : t) : t :=
  let params := hParams (mHeap p) in
  set_mParams (mkPlanetParameters (mRadii params) (mHeightScale params) lodFactor
                 (mMinLevel params) (mMaxLevel params)) p.

Definition setMinLevel (minLevel : Z) (p : t) : t :=
  let params := hParams (mHeap p) in
  set_mParams (mkPlanetParameters (mRadii params) (mHeightScale params) (mLodFactor params)
                 minLevel (mMaxLevel params)) p.

Definition setMaxLevel (maxLevel : Z) (p : t) : t :=
  let params := hParams (mHeap p) in
  set_mParams (mkPlanetParameters (mRadii params) (mHeightScale params) (mLodFactor params)
                 (mMinLevel params) maxLevel) p.

(** The bounding boxes a manager holds, by tile. *)
Definition boundsOf (m : TreeManager) : gmap TileId BoundingBox :=
  getBounds <$> mRdMap m.

End VistaPlanet.

(** ** The proxy sphere and the rays to the corners *)

Section RaySphere.
Local Open Scope R_scope.







(** Root [i] of the tree holds an elevation tile whose minimum is a
    [float]. *)
Definition rootLoaded (tree : TileQuadTree.t) (i : Z) : Prop :=
  exists tile c0 c1 c2 c3,
    TileQuadTree.getRoot tree i = Node tile c0 c1 c2 c3 /\
    getDataType tile = eElevation /\
    MinMaxPyramid.getMin (getMinMaxPyramid tile) <= FLT_MAX.

Definition rootsLoaded (tree : TileQuadTree.t) : Prop :=
  forall i, (0 <= i < 12)%Z -> rootLoaded tree i.

(** The DEM minimum of the tile of a node. *)
Definition nodeMinimum (node : TileNode) : R :=
  match node with
  | NullNode => 0
  | Node tile _ _ _ _ => MinMaxPyramid.getMin (getMinMaxPyramid tile)
  end.

(** The DEM minima of the twelve base patches. *)
Definition basePatchMinima (tree : TileQuadTree.t) : list R :=
  map (fun i => nodeMinimum (TileQuadTree.getRoot tree i)) (zrange 12).

Definition isMinimumOf (m : R) (l : list R) : Prop :=
  In m l /\ forall x, In x l -> m <= x.

End RaySphere.

(** ** The refinement criterion as the spec words it *)

Section RefinementCriterion.
Local Open Scope R_scope.

Definition clamp (x lo hi : R) : R := Rmax lo (Rmin x hi).

(** The centre of a box. *)
Definition boxCenter (tb : BoundingBox) : glm.dvec3 :=
  glm.scale (1 / 2) (glm.add (getMin tb) (getMax tb)).

(** The angle, seen from the camera, between a point and the centre of
    the box. *)
Definition angleTo (camPos center p : glm.dvec3) : R :=
  acos (clamp (glm.dot (glm.normalize (glm.sub p camPos))
                       (glm.normalize (glm.sub center camPos))) (-1) 1).

Definition isMaximumOf (m : R) (l : list R) : Prop :=
  In m l /\ forall x, In x l -> x <= m.


End RefinementCriterion.

(** ** The requests of a traversal *)

Section Requests.
Import LODVisitor.
Local Open Scope Z_scope.

(** [atId tree tileId node]: [node] is the pointer found at the place
    [tileId] names, reached from root [patchIdx] of level 0 through
    child pointers. The pointer may be null. *)
Inductive atId (tree : TileQuadTree.t) : TileId -> TileNode -> Prop :=
| atRoot (i : Z) :
    0 <= i < 12 -> atId tree (mkTileId 0 i) (TileQuadTree.getRoot tree i)
| atChild (tileId : TileId) (node : TileNode) (i : Z) (child : TileNode) :
    atId tree tileId node -> getChild node i = Some child ->
    atId tree (HEALPix.getChildTileId tileId i) child.

(** Every node of the tree carries the id of its place. *)
Definition treeConsistent (tree : TileQuadTree.t) : Prop :=
  forall tileId node, atId tree tileId node -> isNull node = false ->
                      getTileId node = Some tileId.

(** Some node of the tree carries the id. *)
Definition nodeExists (tree : TileQuadTree.t) (tileId : TileId) : Prop :=
  exists place node, atId tree place node /\ getTileId node = Some tileId.

(** The tree a tree pointer of the visitor refers to. *)
Definition treeOf (h : Heap) (tree : option TreeMgrAddr) : TileQuadTree.t :=
  match tree with
  | Some a => getTree (treeMgr h a)
  | None => TileQuadTree.empty
  end.

(** A request that is in order: the id names no node of the tree, and
    its level lies between 0 and [max 0 maxLevel], the bound that
    holds for root ids too. *)
Definition requestOk (tree : TileQuadTree.t) (maxLevel : Z) (tileId : TileId) : Prop :=
  ~ nodeExists tree tileId /\ 0 <= level tileId <= Z.max 0 maxLevel.

(** A node pointer of the traversal state: null, or the pointer found
    at some place of the tree. *)
Definition inTree (tree : TileQuadTree.t) (node : TileNode) : Prop :=
  isNull node = true \/ exists place, atId tree place node.

(** The invariant a traversal keeps, relative to the heap [h0] and the
    pointers [tD], [tI], [mD], [mI] it started with: the pointers and
    the trees stay as they are, every requested id is in order, and the
    states on the stack hold nodes of the trees. *)
Record TraversalInv (h0 : Heap) (tD tI mD mI : option TreeMgrAddr) (st : VState) : Prop := {
  inv_treeDEM : mTreeDEM (vis st) = tD;
  inv_treeIMG : mTreeIMG (vis st) = tI;
  inv_mgrDEM : mTreeMgrDEM (vis st) = mD;
  inv_mgrIMG : mTreeMgrIMG (vis st) = mI;
  inv_heap : sameTrees h0 (heap st);
  inv_loadDEM : Forall (requestOk (treeOf h0 tD) (mMaxLevel (hParams h0))) (mLoadDEM (vis st));
  inv_loadIMG : Forall (requestOk (treeOf h0 tI) (mMaxLevel (hParams h0))) (mLoadIMG (vis st));
  inv_stack : forall k state,
      0 <= k <= mStackTop (vis st) ->
      mStack (vis st) !! Z.to_nat k = Some state ->
      inTree (treeOf h0 tD) (mNodeDEM state) /\ inTree (treeOf h0 tI) (mNodeIMG state)
}.

(** A computation keeps the invariant and the height of the stack. *)
Definition keepsInv (h0 : Heap) (tD tI mD mI : option TreeMgrAddr) {A} (m : M A) : Prop :=
  forall st a st', m st = Some (a, st') -> TraversalInv h0 tD tI mD mI st ->
                   TraversalInv h0 tD tI mD mI st' /\ mStackTop (vis st') = mStackTop (vis st).

End Requests.

(** ** What a visit leaves alone *)

Section Frames.
Import LODVisitor.

(** The visitor apart from its four lists. *)
Definition frame (v : LODVisitor) : LODVisitor :=
  set_mLoadDEM [] (set_mLoadIMG [] (set_mRenderDEM [] (set_mRenderIMG [] v))).

(** A computation that changes nothing of the visitor but its lists. *)
Definition frames {A} (m : M A) : Prop :=
  forall st a st', m st = Some (a, st') -> frame (vis st') = frame (vis st).

(** The render data of [h'] is that of [h] up to the frame stamps and
    the render flags. *)
Definition rdKept (h h' : Heap) : Prop :=
  forall p, exists f, readRd h' p = f <$> readRd h p /\
                      forall rd, getBounds (f rd) = getBounds rd /\
                                 getTexLayer (f rd) = getTexLayer rd.

(** What a visit of a root leaves alone of the visitor. *)
Definition settings (v : LODVisitor) :=
  (mTreeDEM v, mTreeIMG v, mTreeMgrDEM v, mTreeMgrIMG v, mLodData v, mCullData v,
   mFrameCount v).

(** A computation that leaves the height of the stack as it is. *)
Definition keepsTop {A} (m : M A) : Prop :=
  forall st a st', m st = Some (a, st') -> mStackTop (vis st') = mStackTop (vis st).

End Frames.

(** ** The visitor among the children of a node *)

Section Drawn.
Import LODVisitor.
Local Open Scope Z_scope.

(** The box passes the two visibility tests of the visitor [v] over
    the heap [h]. *)
Definition inView (v : LODVisitor) (h : Heap) (a : TreeMgrAddr) (tb : BoundingBox) : Prop :=
  testInFrustum (mFrustumMS (mCullData v)) tb = true /\
  testFrontFacing (mCamPos (mCullData v)) (hParams h) tb (Some (treeMgr h a)) = Some true.

(** The box is small enough on the screen: its refinement ratio does
    not exceed 10. *)
Definition smallEnough (v : LODVisitor) (h : Heap) (tb : BoundingBox) : Prop :=
  Cmp.gtb (refineRatio (mCamPos (mCullData v)) (mFrustumES (mLodData v))
             (mLodFactor (hParams h)) tb) 10 = false.

(** The visitor is at the node of [tileId], whose state is [state],
    on the way through its children: the stack is as high as the node
    lies deep, and visitor and heap are those of [v0] and [h0] up to
    the lists, the stack above the node, the frame stamps and the
    render flags. *)
Definition drawnAt (tileId : TileId) (state : LODState) (v0 : LODVisitor) (h0 : Heap)
    (st : VState) : Prop :=
  mStackTop (vis st) = level tileId /\
  mStack (vis st) !! Z.to_nat (level tileId) = Some state /\
  length (mStack (vis st)) = length (mStack v0) /\
  settings (vis st) = settings v0 /\
  sameTrees h0 (heap st) /\
  rdKept h0 (heap st).

End Drawn.

(** ** Points of a box, and the state of a planet's visitor *)

(** A point of the box: every coordinate lies between the box's
    minimum and maximum. *)
Definition inBox (tb : BoundingBox) (q : glm.dvec3) : Prop :=
  (glm.x3 (getMin tb) <= glm.x3 q <= glm.x3 (getMax tb) /\
   glm.y3 (getMin tb) <= glm.y3 q <= glm.y3 (getMax tb) /\
   glm.z3 (getMin tb) <= glm.z3 q <= glm.z3 (getMax tb))%R.

Section RefinementBounds.
Import LODVisitor.

(** The state the visitor of a planet runs on: the visitor and the
    parameters and tree managers it points to. *)
Definition planetState (p : VistaPlanet.t) : VState :=
  mkVState (VistaPlanet.mLodVisitor p) (VistaPlanet.mHeap p).

(** The field of view [testNeedRefine] divides by. *)
Definition lodFov (v : LODVisitor) : R :=
  Cmp.std_max (getHorizontalFOV (mFrustumES (mLodData v)))
              (getVerticalFOV (mFrustumES (mLodData v))).

End RefinementBounds.

(** ** The terrain grid of [TileRenderer]'s constructor *)

Module TerrainGrid.
Local Open Scope Z_scope.

(** Arithmetic on [uint32_t] and the conversion to [uint16_t]. *)
Definition wrap32 (z : Z) : Z := z mod 2 ^ 32.
Definition wrap16 (z : Z) : Z := z mod 2 ^ 16.

(** [mGridResolution(mTileResolution + 2)] and
    [mIndexCount((mGridResolution - 1) * (2 + 2 * mGridResolution))].
    [TileRenderer.hpp] is not among the sources; the members are
    taken to be [uint32_t], as the counters they are compared with. *)
Definition gridResolution (tileResolution : Z) : Z := wrap32 (tileResolution + 2).
Definition indexCount (gridResolution : Z) : Z :=
  wrap32 (wrap32 (gridResolution - 1) * wrap32 (2 + wrap32 (2 * gridResolution))).

(** [vec[i] = x] and [vec[i]] on a [std::vector]: the index is not
    checked, an access past the end has no defined result. *)
Definition store (i x : Z) (vec : list Z) : option (list Z) :=
  if i <? Z.of_nat (length vec) then Some (<[Z.to_nat i := x]> vec) else None.
Definition load (i : Z) (vec : list Z) : option Z := vec !! Z.to_nat i.

(** A counting loop whose body may fail. *)
Fixpoint forM {A S : Type} (l : list A) (body : A -> S -> option S) (s : S) : option S :=
  match l with
  | [] => Some s
  | a :: rest =>
      match body a s with
      | Some s' => forM rest body s'
      | None => None
      end
  end.

(** [std::vector<uint16_t> vertices(mGridResolution * mGridResolution * 2)]
    and the loop that fills it; [setVertex] is the body of the inner
    loop. *)
Definition newVertices (G : Z) : list Z :=
  replicate (Z.to_nat (wrap32 (wrap32 (G * G) * 2))) 0.

Definition setVertex (G x y : Z) (vertices : list Z) : option (list Z) :=
  let slot := wrap32 (wrap32 (wrap32 (x * G) + y) * 2) in
  match store (wrap32 (slot + 0)) (wrap16 x) vertices with
  | Some vertices => store (wrap32 (slot + 1)) (wrap16 y) vertices
  | None => None
  end.

Definition fillVertices (G : Z) (vertices : list Z) : option (list Z) :=
  forM (zrange (Z.to_nat G)) (fun x =>
    forM (zrange (Z.to_nat G)) (setVertex G x)) vertices.

(** [std::vector<uint32_t> indices(mIndexCount)] and the loop that
    fills it; the state is the running [index] and the vector.  [put]
    is [indices[index++] = x], [putPair] the body of the inner loop,
    [repeatLast] the two statements that close a row and [putStrip]
    the body of the outer loop. *)
Definition newIndices (G : Z) : list Z := replicate (Z.to_nat (indexCount G)) 0.

Definition put (x : Z) (s : Z * list Z) : option (Z * list Z) :=
  match store (fst s) x (snd s) with
  | Some indices => Some (wrap32 (fst s + 1), indices)
  | None => None
  end.

Definition putPair (G x y : Z) (s : Z * list Z) : option (Z * list Z) :=
  match put (wrap32 (wrap32 (x * G) + y)) s with
  | Some s => put (wrap32 (wrap32 (wrap32 (x + 1) * G) + y)) s
  | None => None
  end.

Definition repeatLast (s : Z * list Z) : option (Z * list Z) :=
  match load (wrap32 (fst s - 1)) (snd s) with
  | None => None
  | Some last =>
      match store (fst s) last (snd s) with
      | Some indices => Some (wrap32 (fst s + 1), indices)
      | None => None
      end
  end.

Definition putStrip (G x : Z) (s : Z * list Z) : option (Z * list Z) :=
  match put (wrap32 (x * G)) s with
  | None => None
  | Some s =>
      match forM (zrange (Z.to_nat G)) (putPair G x) s with
      | None => None
      | Some s => repeatLast s
      end
  end.

Definition fillIndices (G : Z) (indices : list Z) : option (Z * list Z) :=
  forM (zrange (Z.to_nat (wrap32 (G - 1)))) (putStrip G) (0, indices).

(** The vertices and the triangle strips the loops are meant to
    write: the grid points in row-major order, and for every row a
    strip that starts and ends with a repeated index. *)
Definition gridPoints (G : Z) : list Z :=
  flat_map (fun x => flat_map (fun y => [x; y]) (zrange (Z.to_nat G))) (zrange (Z.to_nat G)).

Definition strip (G x : Z) : list Z :=
  [x * G] ++
  flat_map (fun y => [x * G + y; (x + 1) * G + y]) (zrange (Z.to_nat G)) ++
  [(x + 1) * G + (G - 1)].

Definition strips (G : Z) : list Z :=
  flat_map (strip G) (zrange (Z.to_nat (G - 1))).

End TerrainGrid.

(** ** The planet, its sources and its managers *)

Section PlanetWiring.
Import VistaPlanet.
Local Open Scope Z_scope.

(** The manager a channel works with: its own while a source is
    attached, none otherwise. *)
Definition managerFor (a : TreeMgrAddr) (src : option SrcPtr) : option TreeMgrAddr :=
  match src with Some _ => Some a | None => None end.

(** Visitor and renderer point to the manager of every channel that
    has a source, and to nothing for a channel without one. *)
Definition wired (p : t) : Prop :=
  LODVisitor.mTreeMgrDEM (mLodVisitor p) = managerFor AddrDEM (mSrcDEM p) /\
  LODVisitor.mTreeDEM (mLodVisitor p) = managerFor AddrDEM (mSrcDEM p) /\
  TileRenderer.mTreeMgrDEM (mRenderer p) = managerFor AddrDEM (mSrcDEM p) /\
  LODVisitor.mTreeMgrIMG (mLodVisitor p) = managerFor AddrIMG (mSrcIMG p) /\
  LODVisitor.mTreeIMG (mLodVisitor p) = managerFor AddrIMG (mSrcIMG p) /\
  TileRenderer.mTreeMgrIMG (mRenderer p) = managerFor AddrIMG (mSrcIMG p).

(** [~VistaPlanet]: the calls the destructor makes on the sources,
    in order. [TreeManagerBase::clear], which it runs on both
    managers first, is not among the sources. *)
Definition destructorCalls (p : t) : list SourceCall :=
  match mSrcDEM p with Some s => [CallFini s] | None => [] end ++
  match mSrcIMG p with Some s => [CallFini s] | None => [] end.

(** The calls of [init] on [s] minus the calls of [fini] on it. *)
Fixpoint balance (s : SrcPtr) (calls : list SourceCall) : Z :=
  match calls with
  | [] => 0
  | CallInit s' :: rest => (if decide (s' = s) then 1 else 0) + balance s rest
  | CallFini s' :: rest => balance s rest - (if decide (s' = s) then 1 else 0)
  end.

(** The number of channels [s] is attached to. *)
Definition attachments (s : SrcPtr) (p : t) : Z :=
  (if decide (mSrcDEM p = Some s) then 1 else 0) +
  (if decide (mSrcIMG p = Some s) then 1 else 0).

(** The calls so far follow the protocol of a source: never more
    [fini] than [init] at any point, and as many [init] still open
    as there are channels the source is attached to. *)
Definition sourcesInUse (p : t) : Prop :=
  (forall s, balance s (sourceCalls p) = attachments s p) /\
  (forall s pre, pre `prefix_of` sourceCalls p -> 0 <= balance s pre).

End PlanetWiring.

(** ** What the visit of a node leaves alone *)

Section VisitKeeps.
Import LODVisitor.
Local Open Scope Z_scope.

(** Render data after a visit in frame [frameCount]: bounds and
    texture layer as before, the frame stamp as before or that of the
    frame, the render flag still set if it was. *)
Definition touched (frameCount : Z) (rd rd' : RenderData) : Prop :=
  getBounds rd' = getBounds rd /\
  getTexLayer rd' = getTexLayer rd /\
  (getLastFrame rd' = getLastFrame rd \/ getLastFrame rd' = frameCount) /\
  (hasRenderFlag rd = true -> hasRenderFlag rd' = true).

(** The visitor apart from its stack and its four lists. *)
Definition shell (v : LODVisitor) : LODVisitor := set_mStack [] (frame v).

(** [st'] differs from [st] by what the visit of the node on top of
    the stack may do in frame [frameCount]: the trees, the parameters
    and the set of render data are the same, render data is [touched]
    at most; of the visitor only the state on top of the stack and the
    four lists change, and the lists only grow. *)
Definition visitKeeps (frameCount : Z) (st st' : VState) : Prop :=
  sameTrees (heap st) (heap st') /\
  (forall p, option_Forall2 (touched frameCount) (readRd (heap st) p) (readRd (heap st') p)) /\
  shell (vis st') = shell (vis st) /\
  length (mStack (vis st')) = length (mStack (vis st)) /\
  (forall i, i <> Z.to_nat (mStackTop (vis st)) ->
             mStack (vis st') !! i = mStack (vis st) !! i) /\
  mLoadDEM (vis st) `prefix_of` mLoadDEM (vis st') /\
  mLoadIMG (vis st) `prefix_of` mLoadIMG (vis st') /\
  mRenderDEM (vis st) `prefix_of` mRenderDEM (vis st') /\
  mRenderIMG (vis st) `prefix_of` mRenderIMG (vis st').

(** A computation that, run in frame [frameCount], changes no more
    than [visitKeeps] allows. *)
Definition visits (frameCount : Z) {A} (m : M A) : Prop :=
  forall st a st',
    mFrameCount (vis st) = frameCount -> m st = Some (a, st') -> visitKeeps frameCount st st'.

End VisitKeeps.

(** ** The outcome of the visit of a node *)

Section VisitOutcome.
Import LODVisitor.
Local Open Scope Z_scope.

(** What [drawLevel] appends to the render list of a channel: the
    render data of the state, for a channel with a manager. *)
Definition drawnEntry (drawn : bool) (mgr : option TreeMgrAddr) (rd : option RdPtr)
    : list RdPtr :=
  if drawn then match mgr with Some _ => option_list rd | None => [] end else [].

(** The render data [preVisitRoot] and [preVisit] record for a node
    of a channel with manager [a], after the visit: it is the one the
    manager holds for the node, and carries the number of the frame. *)
Definition stampedFor (a : TreeMgrAddr) (node : TileNode) (recorded : option RdPtr)
    (frameCount : Z) (h' : Heap) : Prop :=
  exists id rd',
    getTileId node = Some id /\ recorded = Some (a, id) /\
    readRd h' (a, id) = Some rd' /\ getLastFrame rd' = frameCount.

(** The render lists after a visit that drew the node, or did not. *)
Definition rendered (drawn : bool) (state : LODState) (st st' : VState) : Prop :=
  mRenderDEM (vis st') =
    mRenderDEM (vis st) ++ drawnEntry drawn (mTreeMgrDEM (vis st)) (mRdDEM state) /\
  mRenderIMG (vis st') =
    mRenderIMG (vis st) ++ drawnEntry drawn (mTreeMgrIMG (vis st)) (mRdIMG state) /\
  (drawn = true -> mTreeMgrDEM (vis st) <> None ->
   exists p rd, mRdDEM state = Some p /\ readRd (heap st') p = Some rd /\
                hasRenderFlag rd = true) /\
  (drawn = true -> mTreeMgrIMG (vis st) <> None -> is_Some (mRdIMG state)).

End VisitOutcome.

(** ** What a traversal emits *)

Section Emission.
Import LODVisitor.
Local Open Scope Z_scope.

(** [p] points to the render data the manager [mgr] holds for one of
    the twelve roots of [tree]. *)
Definition isRootRd (tree : TileQuadTree.t) (mgr : option TreeMgrAddr) (p : RdPtr) : Prop :=
  exists i a id, 0 <= i < 12 /\ mgr = Some a /\
                 getTileId (TileQuadTree.getRoot tree i) = Some id /\ p = (a, id).

(** The texture layers of [h'] are those of [h]. *)
Definition layersKept (h h' : Heap) : Prop :=
  forall p, TileRenderer.texLayerOf h' p = TileRenderer.texLayerOf h p.

(** What a stretch of a traversal leaves behind, seen from the state
    [st] it starts in: trees, texture layers and the settings of the
    visitor are as before, so is the stack up to its top, and every
    entry appended to [mRenderDEM] is resident or the render data of a
    root. *)
Definition emits (tree : TileQuadTree.t) (mgr : option TreeMgrAddr) (st st' : VState) : Prop :=
  sameTrees (heap st) (heap st') /\
  layersKept (heap st) (heap st') /\
  mFrameCount (vis st') = mFrameCount (vis st) /\
  mTreeDEM (vis st') = mTreeDEM (vis st) /\
  mTreeMgrDEM (vis st') = mTreeMgrDEM (vis st) /\
  mStackTop (vis st') = mStackTop (vis st) /\
  (forall k, 0 <= k <= mStackTop (vis st) ->
             mStack (vis st') !! Z.to_nat k = mStack (vis st) !! Z.to_nat k) /\
  exists new,
    mRenderDEM (vis st') = mRenderDEM (vis st) ++ new /\
    Forall (fun p => TileRenderer.resident (heap st') p \/ isRootRd tree mgr p) new.

(** What [preVisit] and [preVisitRoot] have in common, for a DEM
    manager [a]. *)
Definition nodeVisit (a : TreeMgrAddr) (pre : M bool) : Prop :=
  (forall s b s', pre s = Some (b, s') -> visitKeeps (mFrameCount (vis s)) s s') /\
  (forall s b s' state,
     pre s = Some (b, s') ->
     mStack (vis s) !! Z.to_nat (mStackTop (vis s)) = Some state ->
     exists state',
       mStack (vis s') !! Z.to_nat (mStackTop (vis s)) = Some state' /\
       mNodeDEM state' = mNodeDEM state) /\
  (forall s b s' state,
     pre s = Some (b, s') ->
     mStack (vis s) !! Z.to_nat (mStackTop (vis s)) = Some state ->
     mTreeMgrDEM (vis s) = Some a ->
     isNull (mNodeDEM state) = false ->
     exists id,
       getTileId (mNodeDEM state) = Some id /\
       is_Some (readRd (heap s) (a, id)) /\
       (exists new, mRenderDEM (vis s') = mRenderDEM (vis s) ++ new /\
                    Forall (eq (a, id)) new) /\
       (b = true -> childrenReady (heap s') a (mNodeDEM state))).

(** The traversal below a node whose state is on top of the stack and
    all of whose DEM children are uploaded. *)
Definition emitsBelow (tree : TileQuadTree.t) (mgr : option TreeMgrAddr) (a : TreeMgrAddr)
    (below : M unit) : Prop :=
  forall s u s' state,
    below s = Some (u, s') ->
    0 <= mStackTop (vis s) ->
    mStack (vis s) !! Z.to_nat (mStackTop (vis s)) = Some state ->
    mTreeMgrDEM (vis s) = Some a ->
    isNull (mNodeDEM state) = false ->
    childrenReady (heap s) a (mNodeDEM state) ->
    emits tree mgr s s'.

End Emission.

(** ** What the horizon test needs of the tree *)

(** Root [i] of the tree is present and holds an elevation tile. *)
Definition rootUsable (tree : TileQuadTree.t) (i : Z) : Prop :=
  exists tile c0 c1 c2 c3,
    TileQuadTree.getRoot tree i = Node tile c0 c1 c2 c3 /\ getDataType tile = eElevation.

(** ** Example data *)

Module Examples.
Import LODVisitor.

Definition unitBox : BoundingBox :=
  mkBoundingBox (glm.mkvec3 (-1) (-1) (-1)) (glm.mkvec3 1 1 1).
Definition flatPyramid : MinMaxPyramid.t := MinMaxPyramid.mk 0 0 0.
Definition demTile (lvl patch : Z) : Tile := mkTile lvl patch eElevation flatPyramid.
Definition imgTile (lvl patch : Z) : Tile := mkTile lvl patch eColor flatPyramid.
Definition leaf (tile : Tile) : TileNode := Node tile NullNode NullNode NullNode NullNode.
Definition rd (frame layer : Z) : RenderData := mkRenderData unitBox frame layer false.

Definition col (x y z w : R) : glm.dvec4 := glm.mkvec4 x y z w.
Definition identity : glm.dmat4 :=
  glm.mkmat4 (col 1 0 0 0) (col 0 1 0 0) (col 0 0 1 0) (col 0 0 0 1).
Definition viewport : glm.ivec4 := glm.mkivec4 0 0 800 600.
Definition frustum : Frustum := mkFrustum [col 0 0 (-1) 9] 1 1.
Definition lodData : LODData := mkLODData identity identity frustum viewport.
Definition cullData : CullData :=
  mkCullData frustum (glm.mat3_of identity) (glm.mkvec3 0 0 10).

Definition params (maxLevel : Z) : PlanetParameters :=
  mkPlanetParameters (glm.mkvec3 1 1 1) 1 1 0 maxLevel.

(** A DEM root with one of its children loaded, and an IMG root
    without children. *)
Definition rootDEM : TileNode :=
  Node (demTile 0 0) (leaf (demTile 1 0)) NullNode NullNode NullNode.
Definition rootIMG : TileNode := leaf (imgTile 0 0).

Definition mgrDEM : TreeManager :=
  mkTreeManager (rootDEM :: replicate 11 NullNode)
    (<[mkTileId 1 0 := rd 3 0]> {[mkTileId 0 0 := rd 3 0]}) (Some 1%nat).
Definition mgrIMG : TreeManager :=
  mkTreeManager (rootIMG :: replicate 11 NullNode)
    {[mkTileId 0 0 := rd 3 0]} (Some 2%nat).

Definition heapAt (maxLevel : Z) : Heap := mkHeap (params maxLevel) mgrDEM mgrIMG.

Definition rootState : LODState :=
  mkLODState rootDEM rootIMG (Some (AddrDEM, mkTileId 0 0)) (Some (AddrIMG, mkTileId 0 0)).

Definition visitorAtRoot : LODVisitor :=
  mkLODVisitor (Some AddrDEM) (Some AddrIMG) (Some AddrDEM) (Some AddrIMG)
    viewport identity identity lodData cullData
    (rootState :: replicate 31 defaultState) 0 [] [] [] [] 7 true true.

Definition refineState (maxLevel : Z) : VState := mkVState visitorAtRoot (heapAt maxLevel).

(** An interpretation of the collaborators, for closed examples whose
    outcome does not depend on them: every matrix yields the same
    frustum, inversion is the identity (as it is on the identity
    matrix), the bounds visitor changes nothing, and the flag is bit
    0. *)
Definition externals : Externals :=
  {| Frustum_setFromMatrix := fun _ => frustum;
     glm_inverse := fun m => m;
     glm_inverseTranspose := fun m => m;
     UpdateBoundsVisitor_visit := fun m _ => m;
     sFlagTileBoundsInvalid := 1 |}.

(** A visitor before its first traversal, with both channels attached
    to empty trees. *)
Definition emptyMgr (src : SrcPtr) : TreeManager :=
  mkTreeManager TileQuadTree.empty ∅ (Some src).
Definition coldHeap : Heap := mkHeap (params 5) (emptyMgr 1) (emptyMgr 2).
Definition coldVisitor : LODVisitor :=
  mkLODVisitor (Some AddrDEM) (Some AddrIMG) (Some AddrDEM) (Some AddrIMG)
    viewport identity identity lodData cullData
    (replicate 32 defaultState) (-1) [] [] [] [] 1 true true.
Definition coldState : VState := mkVState coldVisitor coldHeap.

(** The same visitor with both update flags cleared, after the
    projection matrix was set to another matrix. *)
Definition otherMatrix : glm.dmat4 :=
  glm.mkmat4 (col 2 0 0 0) (col 0 2 0 0) (col 0 0 2 0) (col 0 0 0 1).
Definition frozenState : VState :=
  mkVState (set_mMatP otherMatrix
              (set_mUpdateCulling false (set_mUpdateLOD false coldVisitor)))
           coldHeap.

(** A root whose render data has no texture layer yet. *)
Definition pendingHeap : Heap :=
  mkHeap (params 5)
    (mkTreeManager (rootDEM :: replicate 11 NullNode)
       {[mkTileId 0 0 := rd 3 (-1)]} (Some 1%nat))
    mgrIMG.
Definition pendingState : VState := mkVState visitorAtRoot pendingHeap.

(** A planet with both sources attached. *)
Definition planet : VistaPlanet.t :=
  VistaPlanet.mk visitorAtRoot (TileRenderer.mk (Some AddrDEM) (Some AddrIMG))
    (Some 1%nat) (Some 2%nat) (heapAt 5) 0 [].

(** A DEM tree with all twelve roots, none of them uploaded yet. *)
Definition fullRoots : TileQuadTree.t := map (fun i => leaf (demTile 0 i)) (zrange 12).
Definition fullMgrDEM : TreeManager :=
  mkTreeManager fullRoots
    (list_to_map (map (fun i => (mkTileId 0 i, rd 3 (-1))) (zrange 12))) (Some 1%nat).

(** A visitor before its traversal, over trees that hold root 0 and
    lack the other eleven. *)
Definition partialState (maxLevel : Z) : VState := mkVState coldVisitor (heapAt maxLevel).

(** The cold start of a planet whose maximum level was set to -1. *)
Definition negativeState : VState :=
  mkVState coldVisitor (mkHeap (params (-1)) (emptyMgr 1) (emptyMgr 2)).

(** A planet whose twenty-four roots are in the trees, none of them
    uploaded yet, and whose minimum level asks for level 1. Both
    update flags of the visitor are off: the derived data is the one
    of an earlier frame, with the camera at (0, 0, 10). *)
Definition fullRootsIMG : TileQuadTree.t := map (fun i => leaf (imgTile 0 i)) (zrange 12).
Definition fullMgrIMG : TreeManager :=
  mkTreeManager fullRootsIMG
    (list_to_map (map (fun i => (mkTileId 0 i, rd 3 (-1))) (zrange 12))) (Some 2%nat).
Definition eagerParams : PlanetParameters :=
  mkPlanetParameters (glm.mkvec3 1 1 1) 1 1 1 5.
Definition eagerVisitor : LODVisitor :=
  mkLODVisitor (Some AddrDEM) (Some AddrIMG) (Some AddrDEM) (Some AddrIMG)
    viewport identity identity lodData cullData
    (replicate 32 defaultState) (-1) [] [] [] [] 7 false false.
Definition eagerState : VState :=
  mkVState eagerVisitor (mkHeap eagerParams fullMgrDEM fullMgrIMG).

(** What the visits of the roots keep of [eagerState]. *)
Definition eagerReady (st : VState) : Prop :=
  mStackTop (vis st) = (-1)%Z /\
  length (mStack (vis st)) = 32%nat /\
  settings (vis st) = settings eagerVisitor /\
  sameTrees (heap eagerState) (heap st) /\
  rdKept (heap eagerState) (heap st).

(** The ids of the children of the roots in [roots]. *)
Definition childIdsOf (roots : list Z) : list TileId :=
  flat_map (fun i => map (HEALPix.getChildTileId (mkTileId 0 i)) (zrange 4)) roots.

(** The visitor of the eager planet on its way down: the state of
    root 0 is on top of the stack. *)
Definition eagerRootState : LODState :=
  mkLODState (leaf (demTile 0 0)) (leaf (imgTile 0 0))
    (Some (AddrDEM, mkTileId 0 0)) (Some (AddrIMG, mkTileId 0 0)).
Definition eagerAtRoot : VState :=
  mkVState (set_mStackTop 0
              (set_mStack (eagerRootState :: replicate 31 defaultState) eagerVisitor))
           (heap eagerState).

(** The same visitor one level further down, at a child that is
    absent from both trees, with a frustum the unit box lies outside
    of. *)
Definition culledChild : VState :=
  mkVState (set_mCullData
              (mkCullData (mkFrustum [col 0 0 (-1) (-9)] 1 1) (glm.mat3_of identity)
                          (glm.mkvec3 0 0 10))
              (set_mStackTop 1 (vis eagerAtRoot)))
           (heap eagerState).

(** That state once [preVisit] has given the child the render data of
    the root. *)
Definition inheritedState : LODState :=
  mkLODState NullNode NullNode (Some (AddrDEM, mkTileId 0 0)) (Some (AddrIMG, mkTileId 0 0)).
Definition culledChildSet : VState :=
  mkVState (set_mStack (<[1%nat := inheritedState]> (mStack (vis culledChild)))
              (vis culledChild))
           (heap culledChild).


(** A planet before any source is attached. *)
Definition bareMgr : TreeManager := mkTreeManager TileQuadTree.empty ∅ None.
Definition bareVisitor : LODVisitor :=
  mkLODVisitor None None None None viewport identity identity lodData cullData
    (replicate 32 defaultState) (-1) [] [] [] [] 0 true true.
Definition barePlanet : VistaPlanet.t :=
  VistaPlanet.mk bareVisitor (TileRenderer.mk None None) None None
    (mkHeap (params 5) bareMgr bareMgr) 0 [].


(** A planet whose twenty-four roots have their four children, with
    all of it uploaded (texture layer 0), and whose minimum level
    asks for level 1. *)
Definition family (tileOf : Z -> Z -> Tile) (i : Z) : TileNode :=
  Node (tileOf 0%Z i)
       (leaf (tileOf 1 (4 * i + 0))%Z) (leaf (tileOf 1 (4 * i + 1))%Z)
       (leaf (tileOf 1 (4 * i + 2))%Z) (leaf (tileOf 1 (4 * i + 3))%Z).
Definition deepRoots : TileQuadTree.t := map (family demTile) (zrange 12).
Definition deepRootsIMG : TileQuadTree.t := map (family imgTile) (zrange 12).
Definition deepRd : gmap TileId RenderData :=
  list_to_map (map (fun i => (mkTileId 0 i, rd 3 0)) (zrange 12) ++
               map (fun k => (mkTileId 1 k, rd 3 0)) (zrange 48)).
Definition deepState : VState :=
  mkVState eagerVisitor
    (mkHeap eagerParams (mkTreeManager deepRoots deepRd (Some 1%nat))
                        (mkTreeManager deepRootsIMG deepRd (Some 2%nat))).

(** What the visits of the roots keep of [deepState]. *)
Definition deepReady (st : VState) : Prop :=
  mStackTop (vis st) = (-1)%Z /\
  length (mStack (vis st)) = 32%nat /\
  settings (vis st) = settings eagerVisitor /\
  sameTrees (heap deepState) (heap st) /\
  rdKept (heap deepState) (heap st).

(** The render data manager [a] holds for the children of the roots
    in [roots]. *)
Definition childRdOf (a : TreeMgrAddr) (roots : list Z) : list RdPtr :=
  flat_map (fun i => map (fun j => (a, HEALPix.getChildTileId (mkTileId 0 i) j)) (zrange 4))
           roots.

End Examples.

(** The same box and camera in binary64; every coordinate is a binary64
    number as it stands. *)
Module RoundingExample.
Import Floats.
Local Open Scope float_scope.

Definition camPos : Binary64.dvec3 := Binary64.mkvec3 (-0.5) 0.5 0.5.
Definition tbMin : Binary64.dvec3 := Binary64.mkvec3 (-1) (-1) (-1).
Definition tbMax : Binary64.dvec3 := Binary64.mkvec3 1 1 1.

End RoundingExample.


(* ===================================================================== *)
(** * Part II: theorems *)
(* ===================================================================== *)

Section Comparisons.
Local Open Scope R_scope.

Lemma geb_true (x y : R) : Cmp.geb x y = true <-> x >= y.
Proof. unfold Cmp.geb. destruct (Rge_dec x y); split; intros; try easy. Qed.

Lemma geb_false (x y : R) : Cmp.geb x y = false <-> x < y.
Proof. unfold Cmp.geb. destruct (Rge_dec x y); split; intros; try easy; lra. Qed.

Lemma gtb_true (x y : R) : Cmp.gtb x y = true <-> x > y.
Proof. unfold Cmp.gtb. destruct (Rgt_dec x y); split; intros; try easy. Qed.

Lemma ltb_true (x y : R) : Cmp.ltb x y = true <-> x < y.
Proof. unfold Cmp.ltb. destruct (Rlt_dec x y); split; intros; try easy. Qed.

Lemma ltb_false (x y : R) : Cmp.ltb x y = false <-> y <= x.
Proof. unfold Cmp.ltb. destruct (Rlt_dec x y); split; intros; try easy; lra. Qed.


Lemma eqb_false (x y : R) : Cmp.eqb x y = false <-> x <> y.
Proof. unfold Cmp.eqb. destruct (Req_dec_T x y); split; congruence. Qed.

Lemma std_min_Rmin (a b : R) : Cmp.std_min a b = Rmin a b.
Proof.
  unfold Cmp.std_min, Rmin.
  destruct (Cmp.ltb b a) eqn:E; destruct (Rle_dec a b) as [L | L]; trivial.
  - apply ltb_true in E. lra.
  - apply ltb_false in E. lra.
Qed.

Lemma std_max_Rmax (a b : R) : Cmp.std_max a b = Rmax a b.
Proof.
  unfold Cmp.std_max, Rmax.
  destruct (Cmp.ltb a b) eqn:E; destruct (Rle_dec a b) as [L | L]; trivial.
  - apply ltb_true in E. lra.
  - apply ltb_false in E. lra.
Qed.
End Comparisons.

Section FrustumTest.

Lemma cornersOutside_true normal d pnts :
  cornersOutside normal d pnts = true <->
  Forall (fun p => (glm.dot normal p < d)%R) pnts.
Proof.
  induction pnts as [| p rest IH]; simpl.
  - split; trivial.
  - destruct (Cmp.geb (glm.dot normal p) d) eqn:E.
    + apply geb_true in E. split; [discriminate |].
      intros H. inversion H; subst. lra.
    + apply geb_false in E. rewrite IH. split.
      * intros H. constructor; assumption.
      * intros H. inversion H; assumption.
Qed.

Lemma cornersOutside_negative plane pnts :
  cornersOutside (glm.xyz plane) (- glm.w4 plane) pnts = true <->
  Forall (negativeHalfSpace plane) pnts.
Proof.
  rewrite cornersOutside_true. unfold negativeHalfSpace.
  split; intros H; eapply Forall_impl; try exact H; simpl; intros; lra.
Qed.

Lemma testPlanes_false planes pnts :
  testPlanes planes pnts = false <->
  Exists (fun plane => Forall (negativeHalfSpace plane) pnts) planes.
Proof.
  induction planes as [| plane rest IH]; simpl.
  - split; [discriminate | intros H; inversion H].
  - destruct (cornersOutside _ _ pnts) eqn:E.
    + apply cornersOutside_negative in E. split; trivial.
      intros _. now constructor.
    + rewrite IH. split.
      * intros H. now apply Exists_cons_tl.
      * intros H. inversion H; subst; trivial.
        apply cornersOutside_negative in H1. congruence.
Qed.

Lemma cornersOutside_positive plane pnts :
  cornersOutside (glm.xyz plane) (- glm.w4 plane) pnts = false <->
  Exists (positiveHalfSpace plane) pnts.
Proof.
  unfold positiveHalfSpace.
  induction pnts as [| p rest IH]; simpl.
  - split; [discriminate | intros H; inversion H].
  - destruct (Cmp.geb _ _) eqn:E.
    + apply geb_true in E. split; trivial. intros _. constructor. lra.
    + apply geb_false in E. rewrite IH. split.
      * intros H. now apply Exists_cons_tl.
      * intros H. inversion H; subst; trivial. lra.
Qed.

Lemma testPlanes_true planes pnts :
  testPlanes planes pnts = true <->
  Forall (fun plane => Exists (positiveHalfSpace plane) pnts) planes.
Proof.
  induction planes as [| plane rest IH]; simpl.
  - split; trivial.
  - destruct (cornersOutside _ _ pnts) eqn:E.
    + split; [discriminate |]. intros H. inversion H; subst.
      apply cornersOutside_positive in H2. congruence.
    + apply cornersOutside_positive in E. rewrite IH. split.
      * intros H. now constructor.
      * intros H. now inversion H.
Qed.

Lemma halfSpaces_complement plane p :
  positiveHalfSpace plane p <-> ~ negativeHalfSpace plane p.
Proof. unfold positiveHalfSpace, negativeHalfSpace. lra. Qed.

(** [tbPnts] lists the corners of the box, all of them and nothing
    else, in eight entries. *)
Lemma tbPnts_corners (tb : BoundingBox) (p : glm.dvec3) :
  In p (tbPnts tb) <-> isCorner tb p.
Proof.
  unfold isCorner, tbPnts. cbv zeta. split.
  - intros Hin. cbn [In] in Hin.
    repeat (destruct Hin as [<- | Hin]; [cbn; auto |]). destruct Hin.
  - destruct p as [x y z]. cbn [glm.x3 glm.y3 glm.z3].
    intros ([-> | ->] & [-> | ->] & [-> | ->]); cbn [In]; auto 9.
Qed.

Lemma tbPnts_length (tb : BoundingBox) : length (tbPnts tb) = 8%nat.
Proof. reflexivity. Qed.

(** C5. The points the frustum test looks at are the eight corners of
    the box: [tbPnts] has eight entries and holds exactly the points
    each of whose coordinates is that of the minimum or of the maximum
    of the box. The test reports the box outside exactly when some
    frustum plane has every corner of the box in its negative
    half-space; the box is visible exactly when every plane has a
    corner of the box in its positive half-space. *)
Theorem testInFrustum_halfspaces (frustum : Frustum) (tb : BoundingBox) :
  (length (tbPnts tb) = 8%nat /\ forall p, In p (tbPnts tb) <-> isCorner tb p) /\
  (testInFrustum frustum tb = false <->
     exists plane, In plane (getPlanes frustum) /\
       forall p, isCorner tb p -> negativeHalfSpace plane p) /\
  (testInFrustum frustum tb = true <->
     forall plane, In plane (getPlanes frustum) ->
       exists p, isCorner tb p /\ positiveHalfSpace plane p).
Proof.
  split; [split; [apply tbPnts_length | apply tbPnts_corners] |].
  split.
  - unfold testInFrustum. rewrite testPlanes_false, List.Exists_exists.
    split; intros (plane & Hin & Hall); exists plane; split; trivial.
    + intros p Hp. apply tbPnts_corners in Hp. revert p Hp. now apply List.Forall_forall.
    + apply List.Forall_forall. intros p Hp. apply Hall. now apply tbPnts_corners.
  - unfold testInFrustum. rewrite testPlanes_true, List.Forall_forall.
    split; intros Hall plane Hin; specialize (Hall plane Hin).
    + apply List.Exists_exists in Hall. destruct Hall as (p & Hp & Hpos).
      exists p. split; [now apply tbPnts_corners | exact Hpos].
    + destruct Hall as (p & Hp & Hpos). apply List.Exists_exists.
      exists p. split; [now apply tbPnts_corners | exact Hpos].
Qed.

End FrustumTest.

(** ** The planet: source setters and the bounds phase *)

Section PlanetSetters.
Import VistaPlanet.

Lemma mSrcDEM_setDEMSource src p : mSrcDEM (setDEMSource src p) = src.
Proof.
  unfold setDEMSource. destruct (decide (mSrcDEM p = src)) as [E | E]; [exact E |].
  destruct (mSrcDEM p), src; reflexivity.
Qed.

Lemma mSrcIMG_setIMGSource src p : mSrcIMG (setIMGSource src p) = src.
Proof.
  unfold setIMGSource. destruct (decide (mSrcIMG p = src)) as [E | E]; [exact E |].
  destruct (mSrcIMG p), src; reflexivity.
Qed.

Lemma setDEMSource_attached p : setDEMSource (mSrcDEM p) p = p.
Proof. unfold setDEMSource. destruct (decide _) as [E | E]; [reflexivity | congruence]. Qed.

Lemma setIMGSource_attached p : setIMGSource (mSrcIMG p) p = p.
Proof. unfold setIMGSource. destruct (decide _) as [E | E]; [reflexivity | congruence]. Qed.

(** C10. Calling [setDEMSource] (or [setIMGSource]) with the source that
    is already attached changes nothing: no call is made on a source,
    the tree manager keeps its source, visitor and renderer keep their
    managers. Both setters are idempotent. *)
Theorem setSource_same_noop (p : VistaPlanet.t) (src : option SrcPtr) :
  (let p' := setDEMSource (mSrcDEM p) p in
   p' = p /\
   sourceCalls p' = sourceCalls p /\
   mSrc (hTreeMgrDEM (mHeap p')) = mSrc (hTreeMgrDEM (mHeap p)) /\
   LODVisitor.mTreeMgrDEM (mLodVisitor p') = LODVisitor.mTreeMgrDEM (mLodVisitor p) /\
   TileRenderer.mTreeMgrDEM (mRenderer p') = TileRenderer.mTreeMgrDEM (mRenderer p)) /\
  (let p' := setIMGSource (mSrcIMG p) p in
   p' = p /\
   sourceCalls p' = sourceCalls p /\
   mSrc (hTreeMgrIMG (mHeap p')) = mSrc (hTreeMgrIMG (mHeap p)) /\
   LODVisitor.mTreeMgrIMG (mLodVisitor p') = LODVisitor.mTreeMgrIMG (mLodVisitor p) /\
   TileRenderer.mTreeMgrIMG (mRenderer p') = TileRenderer.mTreeMgrIMG (mRenderer p)) /\
  setDEMSource src (setDEMSource src p) = setDEMSource src p /\
  setIMGSource src (setIMGSource src p) = setIMGSource src p.
Proof.
  cbv zeta. rewrite setDEMSource_attached, setIMGSource_attached.
  repeat split.
  - rewrite <- (mSrcDEM_setDEMSource src p) at 1. apply setDEMSource_attached.
  - rewrite <- (mSrcIMG_setIMGSource src p) at 1. apply setIMGSource_attached.
Qed.

Lemma land_lor_same (f s : Z) : Z.land (Z.lor f s) s = s.
Proof.
  apply Z.bits_inj'. intros n Hn.
  rewrite Z.land_spec, Z.lor_spec. destruct (Z.testbit f n), (Z.testbit s n); reflexivity.
Qed.

Lemma land_lnot_same (f s : Z) : Z.land (Z.land f (Z.lnot s)) s = 0%Z.
Proof.
  apply Z.bits_inj'. intros n Hn.
  rewrite !Z.land_spec, Z.lnot_spec, Z.bits_0 by exact Hn.
  destruct (Z.testbit f n), (Z.testbit s n); reflexivity.
Qed.

Context `{Externals}.

(** C9. [setRadii] and [setHeightScale] store the new value and set
    the tile-bounds-invalid flag. The bounds phase runs the
    [UpdateBoundsVisitor] on the DEM manager exactly when the flag is
    set, and clears the flag; with the flag clear it changes nothing,
    so every bounding box stays as it was. *)
Theorem bounds_flag_protocol (p : VistaPlanet.t) (radii : glm.dvec3) (scale : R) :
  sFlagTileBoundsInvalid <> 0%Z ->
  (mRadii (hParams (mHeap (setRadii radii p))) = radii /\
   boundsInvalid (setRadii radii p)) /\
  (mHeightScale (hParams (mHeap (setHeightScale scale p))) = scale /\
   boundsInvalid (setHeightScale scale p)) /\
  (boundsInvalid p ->
     hTreeMgrDEM (mHeap (updateTileBounds p)) =
       UpdateBoundsVisitor_visit (hTreeMgrDEM (mHeap p)) (hParams (mHeap p)) /\
     ~ boundsInvalid (updateTileBounds p)) /\
  (~ boundsInvalid p ->
     updateTileBounds p = p /\
     boundsOf (hTreeMgrDEM (mHeap (updateTileBounds p))) = boundsOf (hTreeMgrDEM (mHeap p)) /\
     boundsOf (hTreeMgrIMG (mHeap (updateTileBounds p))) = boundsOf (hTreeMgrIMG (mHeap p))).
Proof.
  intros Hflag. unfold boundsInvalid.
  split; [| split; [| split]].
  - simpl. rewrite land_lor_same. auto.
  - simpl. rewrite land_lor_same. auto.
  - intros Hset. unfold updateTileBounds.
    destruct (Z.eqb_spec (Z.land (mFlags p) sFlagTileBoundsInvalid) 0) as [E | E];
      [contradiction |].
    simpl. rewrite land_lnot_same. auto.
  - intros Hclear. unfold updateTileBounds.
    destruct (Z.eqb_spec (Z.land (mFlags p) sFlagTileBoundsInvalid) 0) as [E | E]; simpl.
    + auto.
    + exfalso. apply Hclear. exact E.
Qed.

End PlanetSetters.

(** ** Reasoning about visitor code *)

Import LODVisitor.

Ltac munfold := unfold bind, ret, fail, getV, getH, modV, modH, liftO, assert_ in *.

Arguments zrange : simpl never.

Lemma In_zrange (n : nat) (i : Z) : In i (zrange n) <-> (0 <= i < Z.of_nat n)%Z.
Proof.
  unfold zrange. rewrite in_map_iff. split.
  - intros (k & <- & Hk). apply in_seq in Hk. lia.
  - intros Hi. exists (Z.to_nat i). split; [lia |]. apply in_seq. lia.
Qed.

(** ** [preTraverse] *)

Section PreTraverse.
Context `{Externals}.

Lemma checkRoots_spec roots : forall result st,
  checkRoots roots result st =
  Some (result && noneMissing (missingRoots (heap st) (mTreeDEM (vis st)) roots)
               && noneMissing (missingRoots (heap st) (mTreeIMG (vis st)) roots),
        mkVState
          (set_mLoadIMG (mLoadIMG (vis st) ++ missingRoots (heap st) (mTreeIMG (vis st)) roots)
             (set_mLoadDEM (mLoadDEM (vis st) ++ missingRoots (heap st) (mTreeDEM (vis st)) roots)
                (vis st)))
          (heap st)).
Proof.
  induction roots as [| i rest IH]; intros result [v h].
  - simpl. unfold missingRoots. destruct (mTreeDEM v), (mTreeIMG v); simpl;
      rewrite ?app_nil_r, ?andb_true_r; destruct v; reflexivity.
  - simpl. munfold. simpl.
    destruct v as [tD tI mD mI vp mvm mp ld cd stk top lD lI rD rI fc uL uC]. simpl.
    destruct tD as [aD |], tI as [aI |]; simpl;
      repeat match goal with
      | |- context [isNull ?n] => destruct (isNull n) eqn:?; simpl
      end;
      rewrite IH; simpl; rewrite <- ?app_assoc; simpl;
      rewrite ?andb_false_r, ?andb_true_r; try reflexivity.
Qed.

Arguments checkRoots : simpl never.

Lemma preTraverse_eq (st : VState) :
  let v := vis st in
  let h := heap st in
  let missDEM := missingRoots h (mTreeDEM v) (zrange 12) in
  let missIMG := missingRoots h (mTreeIMG v) (zrange 12) in
  exists st',
    preTraverse st = Some (noneMissing missDEM && noneMissing missIMG, st') /\
    heap st' = h /\
    mLoadDEM (vis st') = missDEM /\ mLoadIMG (vis st') = missIMG /\
    mRenderDEM (vis st') = [] /\ mRenderIMG (vis st') = [] /\
    mStackTop (vis st') = (-1)%Z /\
    mLodData (vis st') =
      (if mUpdateLOD v
       then mkLODData (mMatVM v) (mMatP v) (Frustum_setFromMatrix (mMatP v)) (mViewport v)
       else mLodData v) /\
    mCullData (vis st') =
      (if mUpdateCulling v
       then let v4CamPos := glm.col3 (glm_inverse (mMatVM v)) in
            mkCullData (Frustum_setFromMatrix (glm.mul (mMatP v) (mMatVM v)))
                       (glm_inverseTranspose (glm.mat3_of (mMatVM v)))
                       (glm.mkvec3 (glm.x4 v4CamPos) (glm.y4 v4CamPos) (glm.z4 v4CamPos))
       else mCullData v) /\
    mTreeDEM (vis st') = mTreeDEM v /\ mTreeIMG (vis st') = mTreeIMG v /\
    mTreeMgrDEM (vis st') = mTreeMgrDEM v /\ mTreeMgrIMG (vis st') = mTreeMgrIMG v /\
    mFrameCount (vis st') = mFrameCount v /\ mStack (vis st') = mStack v.
Proof.
  destruct st as [v h]. cbv zeta.
  destruct v as [tD tI mD mI vp mvm mp ld cd stk top lD lI rD rI fc uL uC].
  unfold preTraverse. munfold. simpl.
  destruct uL, uC; simpl; rewrite checkRoots_spec; simpl;
    (eexists; split; [reflexivity |]); simpl; repeat split; reflexivity.
Qed.

Lemma In_missingRoots h tree (n : nat) id :
  In id (missingRoots h tree (zrange n)) <->
  exists a i, tree = Some a /\ (0 <= i < Z.of_nat n)%Z /\
              TileQuadTree.getRoot (getTree (treeMgr h a)) i = NullNode /\
              id = mkTileId 0 i.
Proof.
  unfold missingRoots. destruct tree as [a |].
  - rewrite in_map_iff. split.
    + intros (i & <- & Hi). apply filter_In in Hi. destruct Hi as [Hi Hnull].
      apply In_zrange in Hi. exists a, i. repeat split; try lia.
      destruct (TileQuadTree.getRoot _ i); [reflexivity | discriminate].
    + intros (a' & i & Ha & Hi & Hnull & ->). injection Ha as <-.
      exists i. split; trivial. apply filter_In. split.
      * now apply In_zrange.
      * now rewrite Hnull.
  - split; [intros [] | intros (a & i & Ha & _); discriminate].
Qed.

Lemma treeEmpty_empty : treeEmpty TileQuadTree.empty.
Proof.
  intros i. unfold TileQuadTree.getRoot, TileQuadTree.empty.
  destruct (_ !! _) as [n |] eqn:Hn; [| reflexivity].
  apply list_elem_of_lookup_2, elem_of_replicate in Hn. apply Hn.
Qed.

Lemma missingRoots_empty h a (roots : list Z) :
  treeEmpty (getTree (treeMgr h a)) ->
  missingRoots h (Some a) roots = map (mkTileId 0) roots.
Proof.
  intros He. unfold missingRoots. f_equal.
  induction roots as [| i rest IH]; simpl; trivial.
  rewrite He. simpl. now rewrite IH.
Qed.

(** C7. [preTraverse] pushes the level-0 id of every root that is
    missing from an attached tree onto that channel's load list and
    returns [false] exactly when there is such a root; the render
    lists are empty afterwards, and a traversal whose [preTraverse]
    returned [false] ends there. With both trees attached and empty,
    both load lists hold all twelve root ids. *)
Theorem preTraverse_missing_roots (st : VState) :
  let v := vis st in
  let h := heap st in
  let missDEM := missingRoots h (mTreeDEM v) (zrange 12) in
  let missIMG := missingRoots h (mTreeIMG v) (zrange 12) in
  exists result st',
    preTraverse st = Some (result, st') /\
    mLoadDEM (vis st') = missDEM /\
    mLoadIMG (vis st') = missIMG /\
    (forall id, In id missDEM <->
       exists a i, mTreeDEM v = Some a /\ (0 <= i < 12)%Z /\
                   TileQuadTree.getRoot (getTree (treeMgr h a)) i = NullNode /\
                   id = mkTileId 0 i) /\
    (forall id, In id missIMG <->
       exists a i, mTreeIMG v = Some a /\ (0 <= i < 12)%Z /\
                   TileQuadTree.getRoot (getTree (treeMgr h a)) i = NullNode /\
                   id = mkTileId 0 i) /\
    (result = false <-> missDEM ++ missIMG <> []) /\
    mRenderDEM (vis st') = [] /\
    mRenderIMG (vis st') = [] /\
    (result = false -> visit st = Some (tt, st')) /\
    (forall aD aI,
       mTreeDEM v = Some aD -> mTreeIMG v = Some aI ->
       treeEmpty (getTree (treeMgr h aD)) -> treeEmpty (getTree (treeMgr h aI)) ->
       missDEM = allRootIds /\ missIMG = allRootIds /\ result = false).
Proof.
  cbv zeta.
  destruct (preTraverse_eq st) as (st' & Hpre & Hheap & HlD & HlI & HrD & HrI & _).
  eexists _, st'. split; [exact Hpre |].
  split; [exact HlD |]. split; [exact HlI |].
  split; [intros id; apply (In_missingRoots _ _ 12) |].
  split; [intros id; apply (In_missingRoots _ _ 12) |].
  split.
  { destruct (missingRoots _ (mTreeDEM _) _), (missingRoots _ (mTreeIMG _) _); simpl;
      split; intros; congruence. }
  split; [exact HrD |]. split; [exact HrI |].
  split.
  { intros Hres. unfold visit, bind. rewrite Hpre, Hres. reflexivity. }
  intros aD aI HD HI HeD HeI. rewrite HD, HI.
  rewrite !missingRoots_empty by assumption. repeat split.
Qed.

(** C8. With [updateLOD] cleared, [preTraverse] leaves the data
    derived for LOD selection as it was; with [updateCulling] cleared,
    it leaves the data derived for culling as it was, whatever the
    matrices and viewport set from outside are. When a flag is set,
    the respective data is derived anew from them. *)
Theorem preTraverse_frozen (st : VState) :
  let v := vis st in
  exists result st',
    preTraverse st = Some (result, st') /\
    (mUpdateLOD v = false -> mLodData (vis st') = mLodData v) /\
    (mUpdateCulling v = false -> mCullData (vis st') = mCullData v) /\
    (mUpdateLOD v = true ->
       mLodData (vis st') =
         mkLODData (mMatVM v) (mMatP v) (Frustum_setFromMatrix (mMatP v)) (mViewport v)) /\
    (mUpdateCulling v = true ->
       mFrustumMS (mCullData (vis st')) =
         Frustum_setFromMatrix (glm.mul (mMatP v) (mMatVM v)) /\
       mMatN (mCullData (vis st')) = glm_inverseTranspose (glm.mat3_of (mMatVM v)) /\
       mCamPos (mCullData (vis st')) = glm.xyz (glm.col3 (glm_inverse (mMatVM v)))).
Proof.
  cbv zeta.
  destruct (preTraverse_eq st) as
    (st' & Hpre & _ & _ & _ & _ & _ & _ & Hlod & Hcull & _).
  eexists _, st'. split; [exact Hpre |].
  rewrite Hlod, Hcull.
  split; [intros ->; reflexivity |].
  split; [intros ->; reflexivity |].
  split; [intros ->; reflexivity |].
  intros ->. repeat split.
Qed.

End PreTraverse.

(** ** The renderer *)

Section Renderer.
Import TileRenderer.

Lemma renderTilesLoop_spec h renderDEM renderIMG indices :
  Forall (live h) renderDEM ->
  Forall (live h) renderIMG ->
  Forall (fun i => (i < length renderDEM)%nat) indices ->
  exists calls,
    renderTilesLoop h renderDEM renderIMG indices = Some calls /\
    forall rdDEM rdIMG,
      In (rdDEM, rdIMG) calls <->
      exists i, In i indices /\ renderDEM !! i = Some rdDEM /\ renderIMG !! i = rdIMG /\
                resident h rdDEM /\ (forall p, rdIMG = Some p -> resident h p).
Proof.
  intros HD HI. induction indices as [| i rest IH]; intros Hidx.
  - exists []. split; [reflexivity |]. intros d im. split; [intros [] |].
    intros (i & [] & _).
  - inversion Hidx as [| ? ? Hi Hrest]; subst.
    destruct (IH Hrest) as (calls & Hcalls & Hspec). clear IH.
    simpl. rewrite Hcalls.
    destruct (lookup_lt_is_Some_2 renderDEM i Hi) as [d Hd]. rewrite Hd.
    assert (HdS : is_Some (readRd h d)).
    { rewrite List.Forall_forall in HD. apply HD. apply list_elem_of_In.
      eapply list_elem_of_lookup_2; eauto. }
    destruct HdS as [rd Hrd]. unfold texLayerOf at 1. rewrite Hrd.
    destruct (Z.ltb_spec (getTexLayer rd) 0) as [Hneg | Hpos].
    + exists calls. split; [reflexivity |]. intros d' im'. rewrite Hspec. split.
      * intros (j & Hj & R). exists j. split; [now right | exact R].
      * intros (j & [-> | Hj] & Hdj & Himj & (l & Hl & Hl0) & Him).
        -- exfalso. rewrite Hd in Hdj. injection Hdj as <-.
           unfold texLayerOf in Hl. rewrite Hrd in Hl. injection Hl as <-. lia.
        -- exists j. repeat split; trivial. exists l. now split.
    + destruct (renderIMG !! i) as [im |] eqn:Him.
      * assert (HiS : is_Some (readRd h im)).
        { rewrite List.Forall_forall in HI. apply HI. apply list_elem_of_In.
          eapply list_elem_of_lookup_2; eauto. }
        destruct HiS as [rdi Hrdi]. unfold texLayerOf at 1. rewrite Hrdi.
        destruct (Z.ltb_spec (getTexLayer rdi) 0) as [Hnegi | Hposi].
        -- exists calls. split; [reflexivity |]. intros d' im'. rewrite Hspec. split.
           ++ intros (j & Hj & R). exists j. split; [now right | exact R].
           ++ intros (j & [-> | Hj] & Hdj & Himj & Hres & Himres).
              ** exfalso. rewrite Him in Himj. subst im'.
                 destruct (Himres im eq_refl) as (l & Hl & Hl0).
                 unfold texLayerOf in Hl. rewrite Hrdi in Hl. injection Hl as <-. lia.
              ** exists j. repeat split; trivial.
        -- exists ((d, Some im) :: calls). split; [reflexivity |]. intros d' im'.
           simpl. rewrite Hspec. split.
           ++ intros [E | (j & Hj & R)].
              ** injection E as <- <-. exists i. split; [now left |].
                 split; [exact Hd |]. split; [exact Him |]. split.
                 --- exists (getTexLayer rd). unfold texLayerOf. rewrite Hrd. now split.
                 --- intros p Hp. injection Hp as <-.
                     exists (getTexLayer rdi). unfold texLayerOf. rewrite Hrdi. now split.
              ** exists j. split; [now right | exact R].
           ++ intros (j & [-> | Hj] & Hdj & Himj & R).
              ** left. rewrite Hd in Hdj. rewrite Him in Himj. congruence.
              ** right. exists j. split; [exact Hj |]. split; [exact Hdj |]. split; [exact Himj |]. exact R.
      * exists ((d, None) :: calls). split; [reflexivity |]. intros d' im'.
        simpl. rewrite Hspec. split.
        -- intros [E | (j & Hj & R)].
           ++ injection E as <- <-. exists i. split; [now left |].
              split; [exact Hd |]. split; [exact Him |]. split.
              ** exists (getTexLayer rd). unfold texLayerOf. rewrite Hrd. now split.
              ** intros p Hp. discriminate.
           ++ exists j. split; [now right | exact R].
        -- intros (j & [-> | Hj] & Hdj & Himj & R).
           ++ left. rewrite Hd in Hdj. rewrite Him in Himj. congruence.
           ++ right. exists j. split; [exact Hj |]. split; [exact Hdj |]. split; [exact Himj |]. exact R.
Qed.

(** Every pair [renderTiles] passes on to [renderTile] has a DEM entry
    with a texture layer of at least 0, and so has the IMG entry paired
    with it, read when the renderer consumes the lists; the pairs
    drawn are exactly the resident ones. *)
Lemma renderTiles_spec (h : Heap) (renderDEM renderIMG : list RdPtr) :
  Forall (live h) renderDEM ->
  Forall (live h) renderIMG ->
  exists calls,
    renderTiles h renderDEM renderIMG = Some calls /\
    forall rdDEM rdIMG,
      In (rdDEM, rdIMG) calls <->
      exists i, renderDEM !! i = Some rdDEM /\ renderIMG !! i = rdIMG /\
                resident h rdDEM /\ (forall p, rdIMG = Some p -> resident h p).
Proof.
  intros HD HI.
  destruct (renderTilesLoop_spec h renderDEM renderIMG (seq 0 (length renderDEM)) HD HI)
    as (calls & Hcalls & Hspec).
  { apply List.Forall_forall. intros i Hi. apply in_seq in Hi. lia. }
  exists calls. split; [exact Hcalls |].
  intros d im. rewrite Hspec. split.
  - intros (i & _ & R). now exists i.
  - intros (i & Hd & R). exists i. split; [| now split].
    apply in_seq. apply lookup_lt_Some in Hd. lia.
Qed.
End Renderer.

(** ** Culling is conservative *)

Section FrustumConservative.
Local Open Scope R_scope.

(** A linear form is at least as large at some corner of the box as
    at any point of the box. *)
Lemma corner_dominates (normal : glm.dvec3) (tb : BoundingBox) (q : glm.dvec3) :
  inBox tb q ->
  exists corner, In corner (tbPnts tb) /\ glm.dot normal q <= glm.dot normal corner.
Proof.
  intros (Hx & Hy & Hz).
  destruct normal as [nx ny nz], q as [qx qy qz], tb as [[ax ay az] [bx by' bz]].
  unfold glm.dot. cbn in *.
  destruct (Rle_dec 0 nx) as [Sx | Sx], (Rle_dec 0 ny) as [Sy | Sy],
           (Rle_dec 0 nz) as [Sz | Sz].
  - exists (glm.mkvec3 bx by' bz). split; [cbn; tauto | cbn; nra].
  - exists (glm.mkvec3 bx by' az). split; [cbn; tauto | cbn; nra].
  - exists (glm.mkvec3 bx ay bz). split; [cbn; tauto | cbn; nra].
  - exists (glm.mkvec3 bx ay az). split; [cbn; tauto | cbn; nra].
  - exists (glm.mkvec3 ax by' bz). split; [cbn; tauto | cbn; nra].
  - exists (glm.mkvec3 ax by' az). split; [cbn; tauto | cbn; nra].
  - exists (glm.mkvec3 ax ay bz). split; [cbn; tauto | cbn; nra].
  - exists (glm.mkvec3 ax ay az). split; [cbn; tauto | cbn; nra].
Qed.

(** X1. The frustum test never culls a box that holds a point inside
    the frustum: if some point of the box lies in the positive
    half-space of every plane, the box is reported visible. *)
Theorem testInFrustum_no_false_cull (frustum : Frustum) (tb : BoundingBox) (q : glm.dvec3) :
  inBox tb q ->
  (forall plane, In plane (getPlanes frustum) -> positiveHalfSpace plane q) ->
  testInFrustum frustum tb = true.
Proof.
  intros Hq Hin. unfold testInFrustum. apply testPlanes_true.
  apply List.Forall_forall. intros plane Hp. apply List.Exists_exists.
  destruct (corner_dominates (glm.xyz plane) tb q Hq) as (corner & Hc & Hle).
  exists corner. split; [exact Hc |].
  specialize (Hin plane Hp). unfold positiveHalfSpace in *. lra.
Qed.

End FrustumConservative.

(** ** The planet, its sources and its managers *)

Section PlanetWiring.
Import VistaPlanet.
Local Open Scope Z_scope.

(** X7. The planet's setters keep visitor and renderer in step with
    the sources. Suppose that on each channel the visitor's manager,
    the visitor's tree and the renderer's manager are the channel's
    own exactly when a source is attached, and null otherwise. Then
    the same holds after [setDEMSource] and after [setIMGSource],
    whatever source, or none, is passed. *)
Theorem setSource_keeps_wired (p : VistaPlanet.t) (src : option SrcPtr) :
  wired p -> wired (setDEMSource src p) /\ wired (setIMGSource src p).
Proof.
  intros (HvD & HtD & HrD & HvI & HtI & HrI).
  destruct p as [v r sD sI h f calls]. cbn [mLodVisitor mRenderer mSrcDEM mSrcIMG] in *.
  split.
  - unfold setDEMSource. cbn [mSrcDEM]. destruct (decide (sD = src)) as [-> | Hne].
    + repeat split; assumption.
    + unfold wired.
      destruct sD as [old |], src as [new |]; try congruence;
        cbn -[LODVisitor.sMaxStackDepth] in *;
        unfold LODVisitor.setTreeManagerDEM; cbn -[LODVisitor.sMaxStackDepth];
        rewrite ?HvD; cbn -[LODVisitor.sMaxStackDepth]; repeat split; assumption.
  - unfold setIMGSource. cbn [mSrcIMG]. destruct (decide (sI = src)) as [-> | Hne].
    + repeat split; assumption.
    + unfold wired.
      destruct sI as [old |], src as [new |]; try congruence;
        cbn in *; unfold LODVisitor.setTreeManagerIMG; cbn;
        rewrite ?HvI; cbn; repeat split; assumption.
Qed.

Lemma balance_app s l1 l2 : balance s (l1 ++ l2) = balance s l1 + balance s l2.
Proof.
  induction l1 as [| [s' | s'] l1 IH]; cbn [app balance]; [lia | |]; rewrite IH; lia.
Qed.

Lemma prefix_app_split {A} (pre l1 l2 : list A) :
  pre `prefix_of` l1 ++ l2 ->
  pre `prefix_of` l1 \/ exists k, k `prefix_of` l2 /\ pre = l1 ++ k.
Proof.
  revert pre. induction l1 as [| a l1 IH]; intros pre Hp.
  - right. exists pre. auto.
  - destruct pre as [| b pre]; [left; apply prefix_nil |].
    cbn [app] in Hp. pose proof (prefix_cons_inv_1 _ _ _ _ Hp) as ->.
    apply prefix_cons_inv_2 in Hp. destruct (IH _ Hp) as [H1 | (k & Hk & ->)].
    + left. now apply prefix_cons.
    + right. exists k. auto.
Qed.

(** A change of source on one channel, as the two setters make it:
    the old source is finished, then the new one is initialised. *)
Lemma swap_keeps_balance (calls : list SourceCall) (old new other : option SrcPtr) :
  let count (src : option SrcPtr) (s : SrcPtr) := if decide (src = Some s) then 1 else 0 in
  let extra := match old with Some s => [CallFini s] | None => [] end ++
               match new with Some s => [CallInit s] | None => [] end in
  (forall s, balance s calls = count old s + count other s) ->
  (forall s pre, pre `prefix_of` calls -> 0 <= balance s pre) ->
  (forall s, balance s (calls ++ extra) = count new s + count other s) /\
  (forall s pre, pre `prefix_of` calls ++ extra -> 0 <= balance s pre).
Proof.
  intros count extra Hbal Hpre.
  assert (Hother : forall s, 0 <= count other s) by (intros s; unfold count; case_decide; lia).
  split.
  - intros s. rewrite balance_app, Hbal. unfold extra, count.
    destruct old as [o |], new as [n |]; cbn [app balance];
      repeat case_decide; try congruence; lia.
  - intros s pre Hp. apply prefix_app_split in Hp as [Hp | (k & Hk & ->)]; [now apply Hpre |].
    rewrite balance_app, Hbal. specialize (Hother s). unfold extra, count in *.
    destruct old as [o |], new as [n |]; cbn [app] in Hk.
    + destruct k as [| c1 k]; [cbn; repeat case_decide; lia |].
      pose proof (prefix_cons_inv_1 _ _ _ _ Hk) as ->. apply prefix_cons_inv_2 in Hk.
      destruct k as [| c2 k]; [cbn; repeat case_decide; try congruence; lia |].
      pose proof (prefix_cons_inv_1 _ _ _ _ Hk) as ->. apply prefix_cons_inv_2 in Hk.
      apply prefix_nil_inv in Hk as ->. cbn. repeat case_decide; try congruence; lia.
    + destruct k as [| c1 k]; [cbn; repeat case_decide; lia |].
      pose proof (prefix_cons_inv_1 _ _ _ _ Hk) as ->. apply prefix_cons_inv_2 in Hk.
      apply prefix_nil_inv in Hk as ->. cbn. repeat case_decide; try congruence; lia.
    + destruct k as [| c1 k]; [cbn; repeat case_decide; lia |].
      pose proof (prefix_cons_inv_1 _ _ _ _ Hk) as ->. apply prefix_cons_inv_2 in Hk.
      apply prefix_nil_inv in Hk as ->. cbn. repeat case_decide; try congruence; lia.
    + apply prefix_nil_inv in Hk as ->. cbn. repeat case_decide; lia.
Qed.

Lemma sourceCalls_setDEMSource src p :
  mSrcDEM p <> src ->
  sourceCalls (setDEMSource src p) =
  sourceCalls p ++ (match mSrcDEM p with Some s => [CallFini s] | None => [] end ++
                    match src with Some s => [CallInit s] | None => [] end) /\
  mSrcIMG (setDEMSource src p) = mSrcIMG p.
Proof.
  intros Hne. unfold setDEMSource. rewrite decide_False by exact Hne.
  destruct p as [v r sD sI h f calls]. cbn [mSrcDEM] in *.
  destruct sD as [old |], src as [new |]; cbn; rewrite ?app_nil_r, <- ?app_assoc; auto.
Qed.

Lemma sourceCalls_setIMGSource src p :
  mSrcIMG p <> src ->
  sourceCalls (setIMGSource src p) =
  sourceCalls p ++ (match mSrcIMG p with Some s => [CallFini s] | None => [] end ++
                    match src with Some s => [CallInit s] | None => [] end) /\
  mSrcDEM (setIMGSource src p) = mSrcDEM p.
Proof.
  intros Hne. unfold setIMGSource. rewrite decide_False by exact Hne.
  destruct p as [v r sD sI h f calls]. cbn [mSrcIMG] in *.
  destruct sI as [old |], src as [new |]; cbn; rewrite ?app_nil_r, <- ?app_assoc; auto.
Qed.

(** X8. The calls on tile sources follow the protocol of [init] and
    [fini]. If, so far, no source was finished more often than
    initialised and every source has as many calls of [init] open as
    there are channels it is attached to, then the same holds after
    [setDEMSource] and after [setIMGSource]; and the calls of [fini]
    the destructor makes close every call of [init] that is still
    open. *)
Theorem sources_init_fini_protocol (p : VistaPlanet.t) (src : option SrcPtr) :
  sourcesInUse p ->
  sourcesInUse (setDEMSource src p) /\
  sourcesInUse (setIMGSource src p) /\
  forall s, balance s (sourceCalls p ++ destructorCalls p) = 0.
Proof.
  intros [Hbal Hpre]. split; [| split].
  - destruct (decide (mSrcDEM p = src)) as [E | Hne].
    + unfold setDEMSource. rewrite decide_True by exact E. now split.
    + destruct (sourceCalls_setDEMSource src p Hne) as [Ecalls EI].
      unfold sourcesInUse, attachments. rewrite Ecalls, EI, mSrcDEM_setDEMSource.
      apply (swap_keeps_balance (sourceCalls p) (mSrcDEM p) src (mSrcIMG p)); assumption.
  - destruct (decide (mSrcIMG p = src)) as [E | Hne].
    + unfold setIMGSource. rewrite decide_True by exact E. now split.
    + destruct (sourceCalls_setIMGSource src p Hne) as [Ecalls ED].
      unfold sourcesInUse, attachments. rewrite Ecalls, ED, mSrcIMG_setIMGSource.
      destruct (swap_keeps_balance (sourceCalls p) (mSrcIMG p) src (mSrcDEM p)) as [H1 H2].
      * intros s. rewrite Hbal. unfold attachments. lia.
      * exact Hpre.
      * split; [| exact H2]. intros s. rewrite H1. lia.
  - intros s. rewrite balance_app, Hbal. unfold attachments, destructorCalls.
    destruct (mSrcDEM p) as [d |], (mSrcIMG p) as [i |]; cbn [app balance];
      repeat case_decide; try congruence; lia.
Qed.

End PlanetWiring.

(** ** The terrain grid *)

Section TerrainGridFacts.
Import TerrainGrid.
Local Open Scope Z_scope.

Lemma wrap32_small z : 0 <= z < 2 ^ 32 -> wrap32 z = z.
Proof. intros Hz. unfold wrap32. now apply Z.mod_small. Qed.

Lemma wrap16_small z : 0 <= z < 2 ^ 16 -> wrap16 z = z.
Proof. intros Hz. unfold wrap16. now apply Z.mod_small. Qed.

Lemma forM_cons {A S : Type} (a : A) (l : list A) (body : A -> S -> option S) (s : S) :
  forM (a :: l) body s = match body a s with Some s' => forM l body s' | None => None end.
Proof. reflexivity. Qed.

Lemma forM_app {A S : Type} (l1 l2 : list A) (body : A -> S -> option S) (s : S) :
  forM (l1 ++ l2) body s =
  match forM l1 body s with Some s' => forM l2 body s' | None => None end.
Proof.
  revert s. induction l1 as [| a l1 IH]; intros s; [reflexivity |].
  cbn [app forM]. destruct (body a s); [apply IH | reflexivity].
Qed.

(** A store into the first slot after [done]. *)
Lemma store_next (done rest : list Z) (i old x : Z) :
  i = Z.of_nat (length done) ->
  store i x (done ++ old :: rest) = Some (done ++ x :: rest).
Proof.
  intros ->. unfold store. rewrite length_app. cbn [length].
  destruct (Z.ltb_spec (Z.of_nat (length done)) (Z.of_nat (length done + S (length rest))));
    [| lia].
  rewrite Nat2Z.id. f_equal.
  rewrite insert_app_r_alt by lia. now rewrite Nat.sub_diag.
Qed.

Lemma store_None i x vec : Z.of_nat (length vec) <= i -> store i x vec = None.
Proof.
  intros Hi. unfold store.
  destruct (Z.ltb_spec i (Z.of_nat (length vec))); [lia | reflexivity].
Qed.

Lemma length_flat_map_const {A B} (f : A -> list B) (l : list A) (n : nat) :
  (forall a, length (f a) = n) -> length (flat_map f l) = (n * length l)%nat.
Proof.
  intros Hf. induction l as [| a rest IH]; cbn; [lia |].
  rewrite length_app, Hf, IH. lia.
Qed.

Lemma length_zrange n : length (zrange n) = n.
Proof. unfold zrange. now rewrite length_map, length_seq. Qed.

Lemma zrange_S n : zrange (S n) = zrange n ++ [Z.of_nat n].
Proof. unfold zrange. rewrite seq_S, map_app. reflexivity. Qed.

Lemma length_gridPoints G : 0 <= G -> Z.of_nat (length (gridPoints G)) = 2 * (G * G).
Proof.
  intros HG. unfold gridPoints.
  rewrite (length_flat_map_const _ _ (2 * Z.to_nat G)), length_zrange; [nia |].
  intros x. rewrite (length_flat_map_const _ _ 2), length_zrange by reflexivity. lia.
Qed.

Lemma length_strip G x : 0 <= G -> Z.of_nat (length (strip G x)) = 2 * G + 2.
Proof.
  intros HG. unfold strip. rewrite !length_app.
  rewrite (length_flat_map_const _ _ 2), length_zrange by reflexivity. cbn [length]. lia.
Qed.

Lemma length_strips G : 1 <= G -> Z.of_nat (length (strips G)) = (G - 1) * (2 * G + 2).
Proof.
  intros HG. unfold strips.
  rewrite (length_flat_map_const _ _ (Z.to_nat (2 * G + 2))), length_zrange; [nia |].
  intros x. apply Nat2Z.inj. rewrite length_strip by lia. lia.
Qed.

Section Grid.
Variable G : Z.
Hypothesis HG : 0 <= G.
Hypothesis Hfit : 2 * (G * G) < 2 ^ 32.

Lemma G_small : G < 2 ^ 16.
Proof using HG Hfit. assert (2 ^ 16 * 2 ^ 16 = 2 ^ 32) by reflexivity. nia. Qed.

Lemma setVertex_next (x y : Z) (done rest : list Z) :
  0 <= x < G -> 0 <= y < G ->
  Z.of_nat (length done) = 2 * (x * G + y) ->
  setVertex G x y (done ++ 0 :: 0 :: rest) = Some (done ++ x :: y :: rest).
Proof using HG Hfit.
  intros Hx Hy Hlen. pose proof G_small as Hs. unfold setVertex. cbv zeta.
  assert (Hxy : 0 <= x * G + y < G * G) by nia.
  rewrite (wrap32_small (x * G)) by nia.
  rewrite (wrap32_small (x * G + y)) by lia.
  rewrite (wrap32_small ((x * G + y) * 2)) by lia.
  rewrite (wrap32_small ((x * G + y) * 2 + 0)) by lia.
  rewrite (wrap32_small ((x * G + y) * 2 + 1)) by lia.
  rewrite (wrap16_small x), (wrap16_small y) by lia.
  rewrite (store_next done _ _ 0 x) by lia.
  replace (done ++ x :: 0 :: rest) with ((done ++ [x]) ++ 0 :: rest)
    by (now rewrite <- app_assoc).
  rewrite (store_next (done ++ [x]) _ _ 0 y) by (rewrite length_app; cbn [length]; lia).
  now rewrite <- app_assoc.
Qed.

(** The inner loop over [y], from [y0] on. *)
Lemma fill_row (x : Z) : 0 <= x < G ->
  forall (n y0 : nat) (done rest : list Z),
    Z.of_nat (y0 + n) = G ->
    Z.of_nat (length done) = 2 * (x * G + Z.of_nat y0) ->
    forM (map Z.of_nat (seq y0 n)) (setVertex G x) (done ++ replicate (2 * n) 0 ++ rest) =
    Some (done ++ flat_map (fun y => [x; y]) (map Z.of_nat (seq y0 n)) ++ rest).
Proof using HG Hfit.
  intros Hx.
  induction n as [| n IH]; intros y0 done rest Hsum Hlen; [reflexivity |].
  cbn [seq map flat_map]. rewrite forM_cons.
  replace (2 * S n)%nat with (S (S (2 * n))) by lia. cbn [replicate app].
  rewrite setVertex_next by lia.
  replace (done ++ x :: Z.of_nat y0 :: replicate (2 * n) 0 ++ rest)
    with ((done ++ [x; Z.of_nat y0]) ++ replicate (2 * n) 0 ++ rest)
    by (now rewrite <- !app_assoc).
  rewrite (IH (S y0)); [| lia | rewrite length_app; cbn [length]; lia].
  f_equal. now rewrite <- !app_assoc.
Qed.

(** The outer loop over [x], from [x0] on. *)
Lemma fill_rows : forall (m x0 : nat) (done : list Z),
  Z.of_nat (x0 + m) = G ->
  Z.of_nat (length done) = 2 * (Z.of_nat x0 * G) ->
  forM (map Z.of_nat (seq x0 m)) (fun x => forM (zrange (Z.to_nat G)) (setVertex G x))
    (done ++ replicate (m * (2 * Z.to_nat G)) 0) =
  Some (done ++
        flat_map (fun x => flat_map (fun y => [x; y]) (zrange (Z.to_nat G)))
          (map Z.of_nat (seq x0 m))).
Proof using HG Hfit.
  induction m as [| m IH]; intros x0 done Hsum Hlen; [reflexivity |].
  cbn [seq map flat_map]. rewrite forM_cons.
  replace (S m * (2 * Z.to_nat G))%nat with (2 * Z.to_nat G + m * (2 * Z.to_nat G))%nat by lia.
  rewrite replicate_add. unfold zrange at 1.
  rewrite (fill_row (Z.of_nat x0) ltac:(lia) (Z.to_nat G) 0 done) by lia.
  fold (zrange (Z.to_nat G)).
  rewrite app_assoc. rewrite (IH (S x0)).
  - f_equal. now rewrite <- app_assoc.
  - lia.
  - rewrite length_app.
    rewrite (length_flat_map_const _ _ 2) by reflexivity.
    rewrite length_zrange. nia.
Qed.

Lemma fillVertices_run : fillVertices G (newVertices G) = Some (gridPoints G).
Proof using HG Hfit.
  unfold fillVertices, newVertices, gridPoints.
  rewrite (wrap32_small (G * G)) by nia. rewrite (wrap32_small (G * G * 2)) by lia.
  replace (Z.to_nat (G * G * 2)) with (Z.to_nat G * (2 * Z.to_nat G))%nat by nia.
  apply (fill_rows (Z.to_nat G) 0 []); [lia | cbn; lia].
Qed.

End Grid.

(** Where the entries of a block sit in a [flat_map] of blocks of
    one length. *)
Lemma flat_map_lookup_block {A B} (f : A -> list B) (n : nat) (l : list A)
    (i j : nat) (a : A) :
  (forall a, length (f a) = n) -> l !! i = Some a -> (j < n)%nat ->
  flat_map f l !! (i * n + j)%nat = f a !! j.
Proof.
  intros Hf. revert i. induction l as [| b l IH]; intros i Hi Hj; [discriminate |].
  cbn [flat_map]. destruct i as [| i].
  - injection Hi as ->. cbn [Nat.mul Nat.add]. apply lookup_app_l. now rewrite Hf.
  - cbn [lookup list_lookup] in Hi. rewrite lookup_app_r by (rewrite Hf; lia).
    rewrite Hf. replace (S i * n + j - n)%nat with (i * n + j)%nat by lia. now apply IH.
Qed.

Lemma zrange_lookup (n i : nat) : (i < n)%nat -> zrange n !! i = Some (Z.of_nat i).
Proof.
  intros Hi. unfold zrange. rewrite list_lookup_fmap.
  rewrite lookup_seq_lt by exact Hi. reflexivity.
Qed.

Lemma gridPoints_lookup (G x y : Z) :
  0 <= x < G -> 0 <= y < G ->
  load (2 * (x * G + y)) (gridPoints G) = Some x /\
  load (2 * (x * G + y) + 1) (gridPoints G) = Some y.
Proof.
  intros Hx Hy. unfold load, gridPoints.
  assert (Hrow : forall j, (j < 2 * Z.to_nat G)%nat ->
    flat_map (fun x => flat_map (fun y => [x; y]) (zrange (Z.to_nat G))) (zrange (Z.to_nat G))
      !! (Z.to_nat x * (2 * Z.to_nat G) + j)%nat =
    flat_map (fun y => [x; y]) (zrange (Z.to_nat G)) !! j).
  { intros j Hj.
    rewrite (flat_map_lookup_block _ (2 * Z.to_nat G) _ _ j x); [reflexivity | | | exact Hj].
    - intros a. rewrite (length_flat_map_const _ _ 2), length_zrange by reflexivity. lia.
    - rewrite zrange_lookup by lia. f_equal. lia. }
  assert (Hcell : forall j, (j < 2)%nat ->
    flat_map (fun y => [x; y]) (zrange (Z.to_nat G)) !! (Z.to_nat y * 2 + j)%nat =
    [x; y] !! j).
  { intros j Hj.
    rewrite (flat_map_lookup_block _ 2 _ _ j y); [reflexivity | reflexivity | | exact Hj].
    rewrite zrange_lookup by lia. f_equal. lia. }
  split.
  - replace (Z.to_nat (2 * (x * G + y)))
      with (Z.to_nat x * (2 * Z.to_nat G) + (Z.to_nat y * 2 + 0))%nat by nia.
    rewrite Hrow by lia. now rewrite Hcell by lia.
  - replace (Z.to_nat (2 * (x * G + y) + 1))
      with (Z.to_nat x * (2 * Z.to_nat G) + (Z.to_nat y * 2 + 1))%nat by nia.
    rewrite Hrow by lia. now rewrite Hcell by lia.
Qed.

Lemma gridResolution_eq (tileResolution : Z) :
  0 <= tileResolution -> tileResolution + 2 < 2 ^ 32 ->
  gridResolution tileResolution = tileResolution + 2.
Proof. intros H0 H1. unfold gridResolution. apply wrap32_small. lia. Qed.

(** X4. The vertex loop of the constructor of [TileRenderer]: when
    twice the square of the grid resolution [tileResolution + 2] fits
    32 bits, every store stays inside the vector, the vector has two
    entries per grid point, and the entries of grid point [(x, y)],
    at position [x * G + y], are [x] and [y]. *)
Theorem fillVertices_grid (tileResolution : Z) :
  0 <= tileResolution ->
  2 * ((tileResolution + 2) * (tileResolution + 2)) < 2 ^ 32 ->
  exists vertices,
    fillVertices (gridResolution tileResolution)
      (newVertices (gridResolution tileResolution)) = Some vertices /\
    Z.of_nat (length vertices) = 2 * ((tileResolution + 2) * (tileResolution + 2)) /\
    forall x y, 0 <= x < tileResolution + 2 -> 0 <= y < tileResolution + 2 ->
      load (2 * (x * (tileResolution + 2) + y)) vertices = Some x /\
      load (2 * (x * (tileResolution + 2) + y) + 1) vertices = Some y.
Proof.
  intros H0 Hfit. rewrite gridResolution_eq by nia.
  exists (gridPoints (tileResolution + 2)). split; [| split].
  - apply fillVertices_run; lia.
  - apply length_gridPoints. lia.
  - intros x y. apply gridPoints_lookup.
Qed.

End TerrainGridFacts.

Section TerrainStripFacts.
Import TerrainGrid.
Local Open Scope Z_scope.

Lemma put_next (done rest : list Z) (old x : Z) :
  Z.of_nat (length done) + 1 < 2 ^ 32 ->
  put x (Z.of_nat (length done), done ++ old :: rest) =
  Some (Z.of_nat (length (done ++ [x])), (done ++ [x]) ++ rest).
Proof.
  intros Hlen. unfold put. cbn [fst snd].
  rewrite (store_next done rest _ old x) by reflexivity.
  rewrite wrap32_small by lia. rewrite length_app, <- app_assoc. cbn [length app].
  do 2 f_equal. lia.
Qed.

Section Strips.
Variable G : Z.
Hypothesis HG : 1 <= G.
Hypothesis Hfit : 2 * (G * G) < 2 ^ 32.

Lemma putPair_next (x y : Z) (done rest : list Z) :
  0 <= x < G - 1 -> 0 <= y < G ->
  Z.of_nat (length done) + 2 < 2 ^ 32 ->
  putPair G x y (Z.of_nat (length done), done ++ 0 :: 0 :: rest) =
  Some (Z.of_nat (length (done ++ [x * G + y; (x + 1) * G + y])),
        (done ++ [x * G + y; (x + 1) * G + y]) ++ rest).
Proof using HG Hfit.
  intros Hx Hy Hlen. unfold putPair.
  rewrite (wrap32_small (x * G)) by nia.
  rewrite (wrap32_small (x * G + y)) by nia.
  rewrite (wrap32_small (x + 1)) by nia.
  rewrite (wrap32_small ((x + 1) * G)) by nia.
  rewrite (wrap32_small ((x + 1) * G + y)) by nia.
  rewrite put_next by lia.
  rewrite put_next by (rewrite length_app; cbn [length]; lia).
  now rewrite <- !app_assoc.
Qed.

Lemma put_pairs (x : Z) : 0 <= x < G - 1 ->
  forall (n y0 : nat) (done rest : list Z),
    Z.of_nat (y0 + n) = G ->
    Z.of_nat (length done) + 2 * Z.of_nat n < 2 ^ 32 ->
    forM (map Z.of_nat (seq y0 n)) (putPair G x)
      (Z.of_nat (length done), done ++ replicate (2 * n) 0 ++ rest) =
    Some (Z.of_nat (length done) + 2 * Z.of_nat n,
          done ++ flat_map (fun y => [x * G + y; (x + 1) * G + y]) (map Z.of_nat (seq y0 n))
            ++ rest).
Proof using HG Hfit.
  intros Hx.
  induction n as [| n IH]; intros y0 done rest Hsum Hlen.
  { cbn. do 2 f_equal. lia. }
  cbn [seq map flat_map]. rewrite forM_cons.
  replace (2 * S n)%nat with (S (S (2 * n))) by lia. cbn [replicate app].
  rewrite putPair_next by lia.
  rewrite (IH (S y0)); [| lia | rewrite length_app; cbn [length]; lia].
  rewrite length_app. cbn [length]. rewrite <- !app_assoc. cbn [app].
  do 2 f_equal. lia.
Qed.

Lemma pairs_last (x : Z) (n : nat) :
  flat_map (fun y => [x * G + y; (x + 1) * G + y]) (zrange (S n)) =
  (flat_map (fun y => [x * G + y; (x + 1) * G + y]) (zrange n) ++ [x * G + Z.of_nat n]) ++
  [(x + 1) * G + Z.of_nat n].
Proof.
  rewrite zrange_S, flat_map_app. cbn [flat_map app]. now rewrite <- app_assoc.
Qed.

Lemma putStrip_next (x : Z) (done rest : list Z) :
  0 <= x < G - 1 ->
  Z.of_nat (length done) + (2 * G + 2) < 2 ^ 32 ->
  putStrip G x (Z.of_nat (length done),
                done ++ replicate (Z.to_nat (2 * G + 2)) 0 ++ rest) =
  Some (Z.of_nat (length (done ++ strip G x)), (done ++ strip G x) ++ rest).
Proof using HG Hfit.
  intros Hx Hlen. unfold putStrip.
  replace (replicate (Z.to_nat (2 * G + 2)) 0 ++ rest)
    with (0 :: replicate (2 * Z.to_nat G) 0 ++ [0] ++ rest).
  2:{ replace (Z.to_nat (2 * G + 2)) with (S (2 * Z.to_nat G + 1)) by lia.
      cbn [replicate app]. rewrite replicate_add, <- app_assoc. reflexivity. }
  rewrite (wrap32_small (x * G)) by nia.
  rewrite put_next by lia.
  unfold zrange at 1.
  rewrite (put_pairs x Hx (Z.to_nat G) 0 (done ++ [x * G]))
    by (try rewrite length_app; cbn [length]; lia).
  fold (zrange (Z.to_nat G)).
  unfold repeatLast. cbn [fst snd].
  rewrite length_app. cbn [length].
  rewrite wrap32_small by lia.
  destruct (Z.to_nat G) as [| n] eqn:EG; [lia |].
  rewrite pairs_last.
  set (body := flat_map _ (zrange n) ++ _).
  assert (Hbody : Z.of_nat (length body) = 2 * Z.of_nat n + 1).
  { unfold body. rewrite length_app, (length_flat_map_const _ _ 2), length_zrange
      by reflexivity. cbn [length]. lia. }
  set (last := (x + 1) * G + Z.of_nat n).
  assert (Hload : load (Z.of_nat (length done + 1) + 2 * Z.of_nat (S n) - 1)
                    ((done ++ [x * G]) ++ (body ++ [last]) ++ [0] ++ rest) = Some last).
  { unfold load.
    replace ((done ++ [x * G]) ++ (body ++ [last]) ++ [0] ++ rest)
      with ((((done ++ [x * G]) ++ body) ++ [last]) ++ [0] ++ rest)
      by (now rewrite <- !app_assoc).
    rewrite lookup_app_l by (rewrite !length_app; cbn [length]; lia).
    rewrite lookup_app_r by (rewrite !length_app; cbn [length]; lia).
    rewrite !length_app. cbn [length].
    replace (Z.to_nat _ - _)%nat with 0%nat by lia. reflexivity. }
  rewrite Hload.
  replace ((done ++ [x * G]) ++ (body ++ [last]) ++ [0] ++ rest)
    with (((done ++ [x * G]) ++ body ++ [last]) ++ 0 :: rest)
    by (now rewrite <- !app_assoc).
  rewrite (store_next _ rest _ 0 last) by (rewrite !length_app; cbn [length]; lia).
  rewrite wrap32_small by lia.
  assert (Estrip : strip G x = [x * G] ++ (body ++ [last]) ++ [last]).
  { unfold strip, body, last. rewrite EG, pairs_last.
    do 3 f_equal. lia. }
  rewrite Estrip. rewrite !length_app. cbn [length]. rewrite <- !app_assoc. cbn [app].
  do 2 f_equal. lia.
Qed.

Lemma put_strips : forall (m x0 : nat) (done : list Z),
  Z.of_nat (x0 + m) = G - 1 ->
  Z.of_nat (length done) = Z.of_nat x0 * (2 * G + 2) ->
  forM (map Z.of_nat (seq x0 m)) (putStrip G)
    (Z.of_nat (length done), done ++ replicate (m * Z.to_nat (2 * G + 2)) 0) =
  Some (Z.of_nat (length (done ++ flat_map (strip G) (map Z.of_nat (seq x0 m)))),
        done ++ flat_map (strip G) (map Z.of_nat (seq x0 m))).
Proof using HG Hfit.
  induction m as [| m IH]; intros x0 done Hsum Hlen.
  { cbn. now rewrite !app_nil_r. }
  cbn [seq map flat_map]. rewrite forM_cons.
  replace (S m * Z.to_nat (2 * G + 2))%nat
    with (Z.to_nat (2 * G + 2) + m * Z.to_nat (2 * G + 2))%nat by lia.
  rewrite replicate_add.
  rewrite putStrip_next by nia.
  rewrite (IH (S x0)).
  - now rewrite <- !app_assoc.
  - lia.
  - rewrite length_app. pose proof (length_strip G (Z.of_nat x0) ltac:(lia)). lia.
Qed.

Lemma indexCount_eq : indexCount G = (G - 1) * (2 * G + 2).
Proof using HG Hfit.
  unfold indexCount.
  rewrite (wrap32_small (G - 1)) by nia.
  rewrite (wrap32_small (2 * G)) by nia.
  rewrite (wrap32_small (2 + 2 * G)) by nia.
  rewrite wrap32_small by nia. lia.
Qed.

Lemma fillIndices_run : fillIndices G (newIndices G) = Some (indexCount G, strips G).
Proof using HG Hfit.
  unfold fillIndices, newIndices. rewrite indexCount_eq.
  rewrite (wrap32_small (G - 1)) by nia.
  replace (Z.to_nat ((G - 1) * (2 * G + 2)))
    with (Z.to_nat (G - 1) * Z.to_nat (2 * G + 2))%nat by nia.
  pose proof (put_strips (Z.to_nat (G - 1)) 0 [] ltac:(lia) ltac:(cbn; lia)) as E.
  cbn [app length] in E. fold (zrange (Z.to_nat (G - 1))) in E. fold (strips G) in E.
  change (Z.of_nat 0) with 0 in E. rewrite E.
  now rewrite length_strips by lia.
Qed.

Lemma strip_bounds (x : Z) : 0 <= x < G - 1 ->
  List.Forall (fun i => 0 <= i < G * G) (strip G x).
Proof using HG Hfit.
  intros Hx. unfold strip. rewrite !List.Forall_app. repeat split.
  - repeat constructor; nia.
  - rewrite List.Forall_flat_map. rewrite List.Forall_forall. intros y Hy.
    apply In_zrange in Hy. repeat constructor; nia.
  - repeat constructor; nia.
Qed.

Lemma strips_bounds : List.Forall (fun i => 0 <= i < G * G) (strips G).
Proof using HG Hfit.
  unfold strips. rewrite List.Forall_flat_map. rewrite List.Forall_forall. intros x Hx.
  apply In_zrange in Hx. apply strip_bounds. lia.
Qed.

End Strips.

(** X5. The index loop of the constructor, under the same bound:
    every store stays inside the vector; the running index ends at
    [mIndexCount], which is the length of the vector; the indices are,
    row after row, the strip of the row, which starts with the first
    index of the row twice and ends with its last index twice; and
    every index refers to a point of the grid. *)
Theorem fillIndices_strips (tileResolution : Z) :
  0 <= tileResolution ->
  2 * ((tileResolution + 2) * (tileResolution + 2)) < 2 ^ 32 ->
  fillIndices (gridResolution tileResolution) (newIndices (gridResolution tileResolution)) =
    Some (indexCount (gridResolution tileResolution), strips (tileResolution + 2)) /\
  Z.of_nat (length (strips (tileResolution + 2))) = indexCount (gridResolution tileResolution) /\
  List.Forall (fun i => 0 <= i < (tileResolution + 2) * (tileResolution + 2))
    (strips (tileResolution + 2)).
Proof.
  intros H0 Hfit. rewrite gridResolution_eq by nia.
  assert (HG : 1 <= tileResolution + 2) by lia.
  split; [| split].
  - now apply fillIndices_run.
  - rewrite indexCount_eq by assumption. now apply length_strips.
  - now apply strips_bounds.
Qed.

End TerrainStripFacts.

Section TerrainGridOverflow.
Import TerrainGrid.
Local Open Scope Z_scope.

Lemma store_length i x vec vec' : store i x vec = Some vec' -> length vec' = length vec.
Proof.
  unfold store. destruct (_ <? _); [| discriminate].
  intros E. injection E as <-. apply length_insert.
Qed.

Lemma forM_inv {A S : Type} (P : S -> Prop) (body : A -> S -> option S) :
  (forall a s s', P s -> body a s = Some s' -> P s') ->
  forall l s s', P s -> forM l body s = Some s' -> P s'.
Proof.
  intros Hbody. induction l as [| a l IH]; intros s s' Hs E.
  - injection E as <-. exact Hs.
  - rewrite forM_cons in E. destruct (body a s) as [s1 |] eqn:E1; [| discriminate].
    eapply IH; [| exact E]. eapply Hbody; eassumption.
Qed.

Lemma forM_fails {A S : Type} (P : S -> Prop) (body : A -> S -> option S) (a : A) :
  (forall a s s', P s -> body a s = Some s' -> P s') ->
  (forall s, P s -> body a s = None) ->
  forall l s, P s -> In a l -> forM l body s = None.
Proof.
  intros Hbody Hfail. induction l as [| b l IH]; intros s Hs Hin; [destruct Hin |].
  rewrite forM_cons. destruct (body b s) as [s1 |] eqn:E1; [| reflexivity].
  destruct Hin as [-> | Hin].
  - rewrite Hfail in E1 by exact Hs. discriminate.
  - apply IH; [| exact Hin]. eapply Hbody; eassumption.
Qed.

Lemma setVertex_length G x y vertices vertices' :
  setVertex G x y vertices = Some vertices' -> length vertices' = length vertices.
Proof.
  unfold setVertex. cbv zeta.
  destruct (store _ (wrap16 x) vertices) as [v1 |] eqn:E1; [| discriminate].
  intros E2. apply store_length in E1, E2. congruence.
Qed.

Lemma fillVertices_short (G : Z) :
  0 <= G < 2 ^ 16 -> 2 ^ 32 <= 2 * (G * G) ->
  fillVertices G (newVertices G) = None.
Proof.
  intros [H0 Hs] Hbig.
  assert (H16 : 2 ^ 16 * 2 ^ 16 = 2 ^ 32) by reflexivity.
  assert (HG : 0 < G) by (destruct (Z.eq_dec G 0) as [-> |]; lia).
  assert (HGG : G * G < 2 ^ 32)
    by (rewrite <- H16; apply Z.mul_lt_mono_nonneg; lia).
  set (N := 2 * (G * G) - 2 ^ 32).
  assert (HN : 0 <= N < 2 ^ 32) by (unfold N; lia).
  assert (Hlen : Z.of_nat (length (newVertices G)) = N).
  { unfold newVertices. rewrite length_replicate.
    rewrite (wrap32_small (G * G)) by nia.
    unfold wrap32 at 1. replace (G * G * 2) with (N + 1 * 2 ^ 32) by (unfold N; lia).
    rewrite Z_mod_plus_full, Z.mod_small by lia. lia. }
  set (k := G * G - 2 ^ 31).
  assert (H31 : 2 * 2 ^ 31 = 2 ^ 32) by reflexivity.
  assert (Hk : 0 <= k < G * G) by (unfold k; lia).
  pose proof (Z.div_mod k G ltac:(lia)) as Ediv.
  pose proof (Z.mod_pos_bound k G HG) as Hy.
  assert (Hx : 0 <= k / G < G).
  { split; [apply Z.div_pos; lia |]. apply Z.div_lt_upper_bound; lia. }
  set (P := fun vertices : list Z => Z.of_nat (length vertices) = N).
  unfold fillVertices.
  apply (forM_fails P _ (k / G)).
  - intros a s s' Ps E. revert E. apply forM_inv; [| exact Ps].
    intros y v v' Pv E. unfold P in *. apply setVertex_length in E. lia.
  - intros s Ps. apply (forM_fails P _ (k mod G)).
    + intros y v v' Pv E. unfold P in *. apply setVertex_length in E. lia.
    + intros v Pv. unfold setVertex. cbv zeta.
      rewrite (wrap32_small (k / G * G)) by nia.
      replace (k / G * G + k mod G) with k by lia.
      rewrite (wrap32_small k) by lia.
      rewrite (wrap32_small (k * 2)) by (unfold k; lia).
      rewrite (wrap32_small (k * 2 + 0)) by (unfold k; lia).
      rewrite store_None; [reflexivity |]. unfold P in Pv. unfold k, N in *. lia.
    + exact Ps.
    + apply In_zrange. lia.
  - exact Hlen.
  - apply In_zrange. lia.
Qed.

(** X6. When twice the square of the grid resolution does not fit 32
    bits while the grid resolution fits 16 (a tile resolution from
    46339 to 65533), the vertex vector is allocated with the wrapped
    size and the vertex loop stores past its end. *)
Theorem fillVertices_overflow (tileResolution : Z) :
  0 <= tileResolution -> tileResolution + 2 < 2 ^ 16 ->
  2 ^ 32 <= 2 * ((tileResolution + 2) * (tileResolution + 2)) ->
  fillVertices (gridResolution tileResolution)
    (newVertices (gridResolution tileResolution)) = None.
Proof.
  intros H0 Hs Hbig. rewrite gridResolution_eq by lia.
  apply fillVertices_short; [lia | exact Hbig].
Qed.

End TerrainGridOverflow.

(** ** Refinement: requests, stamps and drawing *)

Opaque zrange.

Lemma readRd_writeRd p rd h q :
  readRd (writeRd p rd h) q = if decide (p = q) then Some rd else readRd h q.
Proof.
  destruct (decide (p = q)) as [<- | E].
  - destruct p as [a k]. unfold readRd, writeRd. simpl.
    destruct a; simpl; apply lookup_insert_eq.
  - destruct p as [a k], q as [a' k']. unfold readRd, writeRd. simpl.
    destruct a, a'; simpl; try reflexivity; apply lookup_insert_ne; congruence.
Qed.

Lemma sameTrees_refl h : sameTrees h h.
Proof. split; [reflexivity | intros a; split; reflexivity]. Qed.

Lemma sameTrees_trans h1 h2 h3 : sameTrees h1 h2 -> sameTrees h2 h3 -> sameTrees h1 h3.
Proof.
  intros [P1 T1] [P2 T2]. split; [congruence |].
  intros a. destruct (T1 a), (T2 a). split; congruence.
Qed.

Lemma sameTrees_writeRd p rd h : sameTrees h (writeRd p rd h).
Proof.
  destruct p as [a k]. split; [destruct a; reflexivity |].
  intros a'. destruct a, a'; split; reflexivity.
Qed.

Lemma heap_ext h h' :
  sameTrees h h' -> (forall p, readRd h' p = readRd h p) -> h' = h.
Proof.
  intros [HP HT] HR. destruct h as [P D I], h' as [P' D' I']. simpl in *. subst P'.
  destruct (HT AddrDEM) as [TD SD], (HT AddrIMG) as [TI SI]. simpl in *.
  f_equal.
  - destruct D, D'; simpl in *. subst. f_equal. apply map_eq. intros k.
    apply (HR (AddrDEM, k)).
  - destruct I, I'; simpl in *. subst. f_equal. apply map_eq. intros k.
    apply (HR (AddrIMG, k)).
Qed.

Lemma findRData_Some h a node :
  findRData h a node =
  match getTileId node with
  | Some id => match readRd h (a, id) with Some _ => Some (a, id) | None => None end
  | None => None
  end.
Proof. unfold findRData, readRd. simpl. destruct (getTileId node); reflexivity. Qed.

Lemma rdSetLastFrame_eq p frame st :
  rdSetLastFrame (Some p) frame st =
  match readRd (heap st) p with
  | Some old => Some (tt, mkVState (vis st) (writeRd p (setLastFrame frame old) (heap st)))
  | None => None
  end.
Proof. unfold rdSetLastFrame. munfold. simpl. destruct (readRd (heap st) p); reflexivity. Qed.

Lemma rdSetLastFrame_null frame st : rdSetLastFrame None frame st = None.
Proof. reflexivity. Qed.


Lemma isNull_getTileId n : isNull n = false -> exists id, getTileId n = Some id.
Proof. destruct n; [discriminate | eexists; reflexivity]. Qed.

Lemma getChild_total node i :
  isNull node = false -> (0 <= i < 4)%Z -> exists child, getChild node i = Some child.
Proof.
  intros Hn Hi. destruct node; [discriminate |].
  assert (i = 0 \/ i = 1 \/ i = 2 \/ i = 3)%Z as [-> | [-> | [-> | ->]]] by lia;
    simpl; eauto.
Qed.

Section AddLoad.
Variable getMgr : LODVisitor -> option TreeMgrAddr.
Variable push : TileId -> LODVisitor -> LODVisitor.
Hypothesis push_mgr : forall id v, getMgr (push id v) = getMgr v.
Hypothesis push_frame : forall id v, mFrameCount (push id v) = mFrameCount v.

Variables (node : TileNode) (a : TreeMgrAddr) (tileId : TileId).
Hypothesis Hid : getTileId node = Some tileId.

Lemma forEach_loadBody indices : forall st,
  Forall (fun i => (0 <= i < 4)%Z) indices ->
  getMgr (vis st) = Some a ->
  match forEach indices (loadBody getMgr push node tileId) st with
  | Some (_, st') =>
      vis st' = fold_left (fun v id => push id v) (missingChildIds node indices) (vis st) /\
      sameTrees (heap st) (heap st') /\
      (forall p, readRd (heap st') p =
                 stampIf (isChildRd a node indices p) (mFrameCount (vis st))
                   <$> readRd (heap st) p) /\
      (forall i id, In i indices -> presentChild node i = Some id ->
                    is_Some (readRd (heap st) (a, id)))
  | None =>
      exists i id, In i indices /\ presentChild node i = Some id /\
                   readRd (heap st) (a, id) = None
  end.
Proof.
  assert (Hnn : isNull node = false) by (destruct node; [discriminate | reflexivity]).
  induction indices as [| i rest IH]; intros [v h] Hidx Hmgr; simpl in *.
  - unfold missingChildIds. rewrite Hid. simpl.
    split; [reflexivity |]. split; [apply sameTrees_refl |].
    split; [| intros ? ? []].
    intros p. destruct (readRd h p); reflexivity.
  - inversion Hidx as [| ? ? Hi Hrest]; subst.
    unfold bind at 1. unfold loadBody at 1.
    destruct (getChild_total node i Hnn Hi) as [child Hc].
    unfold bind at 1. rewrite Hc. simpl.
    destruct (isNull child) eqn:Hnull.
    + (* an absent child: its id is requested *)
      munfold. simpl.
      specialize (IH (mkVState (push (HEALPix.getChildTileId tileId i) v) h) Hrest).
      simpl in IH. rewrite push_mgr, push_frame in IH. specialize (IH Hmgr).
      assert (Hpc : presentChild node i = None).
      { unfold presentChild. rewrite Hc. destruct child; [reflexivity | discriminate]. }
      assert (Hmiss : missingChildIds node (i :: rest) =
                      HEALPix.getChildTileId tileId i :: missingChildIds node rest).
      { unfold missingChildIds. rewrite Hid. simpl. unfold childAbsent at 1. rewrite Hc.
        destruct child; [reflexivity | discriminate]. }
      destruct (forEach rest _ _) as [[[] st'] |].
      * destruct IH as (Hv & Ht & Hr & Hlive). rewrite Hmiss.
        split; [exact Hv |]. split; [exact Ht |]. split.
        -- intros p. rewrite Hr. unfold isChildRd. simpl. rewrite Hpc. reflexivity.
        -- intros j id [-> | Hj] Hp; [congruence | eauto].
      * destruct IH as (j & id & Hj & Hp & Hr). exists j, id. auto.
    + (* a present child: its render data is stamped *)
      destruct (isNull_getTileId _ Hnull) as [cid Hcid].
      assert (Hpc : presentChild node i = Some cid).
      { unfold presentChild. now rewrite Hc. }
      munfold. simpl. rewrite Hmgr. simpl. rewrite findRData_Some, Hcid.
      destruct (readRd h (a, cid)) as [old |] eqn:Hold; simpl.
      2: { exists i, cid. auto. }
      rewrite rdSetLastFrame_eq. simpl. rewrite Hold.
      specialize (IH (mkVState v (writeRd (a, cid) (setLastFrame (mFrameCount v) old) h))
                     Hrest Hmgr).
      simpl in IH.
      assert (Hmiss : missingChildIds node (i :: rest) = missingChildIds node rest).
      { unfold missingChildIds. rewrite Hid. simpl. unfold childAbsent at 1. rewrite Hc.
        destruct child; [discriminate | reflexivity]. }
      destruct (forEach rest _ _) as [[[] st'] |].
      * destruct IH as (Hv & Ht & Hr & Hlive). rewrite Hmiss.
        split; [exact Hv |].
        split; [eapply sameTrees_trans; [apply sameTrees_writeRd | exact Ht] |].
        split.
        -- intros p. rewrite Hr, readRd_writeRd. unfold isChildRd. simpl. rewrite Hpc.
           case_decide as E.
           ++ subst p. rewrite bool_decide_eq_true_2 by reflexivity. simpl.
              rewrite Hold. simpl. destruct (existsb _ rest); reflexivity.
           ++ rewrite bool_decide_eq_false_2 by congruence. simpl. reflexivity.
        -- intros j id [-> | Hj] Hp.
           ++ rewrite Hpc in Hp. injection Hp as <-. eauto.
           ++ specialize (Hlive j id Hj Hp). rewrite readRd_writeRd in Hlive.
              case_decide as E; [injection E as <-; eauto | exact Hlive].
      * destruct IH as (j & id & Hj & Hp & Hr).
        rewrite readRd_writeRd in Hr. case_decide; [discriminate |].
        exists j, id. auto.
Qed.
End AddLoad.

Lemma fold_pushDEM ids : forall v,
  fold_left (fun v id => set_mLoadDEM (mLoadDEM v ++ [id]) v) ids v =
  set_mLoadDEM (mLoadDEM v ++ ids) v.
Proof.
  induction ids as [| id rest IH]; intros v; simpl.
  - rewrite app_nil_r. destruct v; reflexivity.
  - rewrite IH. destruct v; simpl. now rewrite <- app_assoc.
Qed.

Lemma fold_pushIMG ids : forall v,
  fold_left (fun v id => set_mLoadIMG (mLoadIMG v ++ [id]) v) ids v =
  set_mLoadIMG (mLoadIMG v ++ ids) v.
Proof.
  induction ids as [| id rest IH]; intros v; simpl.
  - rewrite app_nil_r. destruct v; reflexivity.
  - rewrite IH. destruct v; simpl. now rewrite <- app_assoc.
Qed.

Lemma In_zrange' (n : nat) : Forall (fun i => (0 <= i < Z.of_nat n)%Z) (zrange n).
Proof. apply List.Forall_forall. intros i. apply In_zrange. Qed.

Lemma addLoadChildrenDEM_eq node st :
  addLoadChildrenDEM node st =
  match node with
  | NullNode => Some (tt, st)
  | Node tile _ _ _ _ =>
      if (getLevel tile <? mMaxLevel (hParams (heap st)))%Z then
        forEach (zrange 4)
          (loadBody mTreeMgrDEM pushLoadDEM node (mkTileId (getLevel tile) (getPatchIdx tile))) st
      else Some (tt, st)
  end.
Proof.
  destruct node as [| tile c0 c1 c2 c3]; [reflexivity |].
  unfold addLoadChildrenDEM, bind at 1, getH.
  destruct (getLevel tile <? _)%Z; reflexivity.
Qed.

Lemma addLoadChildrenIMG_eq node st :
  addLoadChildrenIMG node st =
  match node with
  | NullNode => Some (tt, st)
  | Node tile _ _ _ _ =>
      if (getLevel tile <? mMaxLevel (hParams (heap st)))%Z then
        forEach (zrange 4)
          (loadBody mTreeMgrIMG pushLoadIMG node (mkTileId (getLevel tile) (getPatchIdx tile))) st
      else Some (tt, st)
  end.
Proof.
  destruct node as [| tile c0 c1 c2 c3]; [reflexivity |].
  unfold addLoadChildrenIMG, bind at 1, getH.
  destruct (getLevel tile <? _)%Z; reflexivity.
Qed.

Section AddLoadSpec.
Variable getMgr : LODVisitor -> option TreeMgrAddr.
Variable push : TileId -> LODVisitor -> LODVisitor.
Hypothesis push_mgr : forall id v, getMgr (push id v) = getMgr v.
Hypothesis push_frame : forall id v, mFrameCount (push id v) = mFrameCount v.
Variable addLoad : TileNode -> M unit.
Hypothesis addLoad_eq : forall node st,
  addLoad node st =
  match node with
  | NullNode => Some (tt, st)
  | Node tile _ _ _ _ =>
      if (getLevel tile <? mMaxLevel (hParams (heap st)))%Z then
        forEach (zrange 4)
          (loadBody getMgr push node (mkTileId (getLevel tile) (getPatchIdx tile))) st
      else Some (tt, st)
  end.

Lemma addLoadChildren_spec node a st :
  getMgr (vis st) = Some a ->
  let doLoad := loadsChildren (heap st) node in
  match addLoad node st with
  | Some (_, st') =>
      vis st' = fold_left (fun v id => push id v)
                  (if doLoad then missingChildIds node (zrange 4) else []) (vis st) /\
      sameTrees (heap st) (heap st') /\
      (forall p, readRd (heap st') p =
                 stampIf (doLoad && isChildRd a node (zrange 4) p) (mFrameCount (vis st))
                   <$> readRd (heap st) p) /\
      (doLoad = true -> forall i id, (0 <= i < 4)%Z -> presentChild node i = Some id ->
                                     is_Some (readRd (heap st) (a, id)))
  | None =>
      doLoad = true /\
      exists i id, (0 <= i < 4)%Z /\ presentChild node i = Some id /\
                   readRd (heap st) (a, id) = None
  end.
Proof.
  intros Hmgr. cbv zeta. rewrite addLoad_eq. unfold loadsChildren.
  destruct node as [| tile c0 c1 c2 c3].
  - simpl. split; [reflexivity |]. split; [apply sameTrees_refl |]. split; [| discriminate].
    intros p. destruct (readRd (heap st) p); reflexivity.
  - cbn [isNull negb andb nodeLevel].
    destruct (getLevel tile <? mMaxLevel (hParams (heap st)))%Z eqn:Hlvl.
    + pose proof (forEach_loadBody getMgr push push_mgr push_frame
                    (Node tile c0 c1 c2 c3) a _ eq_refl (zrange 4) st (In_zrange' 4) Hmgr) as L.
      destruct (forEach (zrange 4) _ st) as [[[] st'] |].
      * destruct L as (Hv & Ht & Hr & Hlive).
        split; [exact Hv |]. split; [exact Ht |]. split; [exact Hr |].
        intros _ i id Hi. apply Hlive. now apply In_zrange.
      * split; trivial. destruct L as (i & id & Hi & R). exists i, id.
        apply In_zrange in Hi. auto.
    + simpl. split; [reflexivity |]. split; [apply sameTrees_refl |]. split; [| discriminate].
      intros p. destruct (readRd (heap st) p); reflexivity.
Qed.
End AddLoadSpec.

Lemma childrenAvailableLoop_spec h node a indices :
  isNull node = false ->
  Forall (fun i => (0 <= i < 4)%Z) indices ->
  exists b, childrenAvailableLoop h node (Some a) indices = Some b /\
            (b = true <-> forall i, In i indices -> childReady h a node i).
Proof.
  intros Hnn. induction indices as [| i rest IH]; intros Hidx.
  - exists true. split; [reflexivity |]. split; [intros _ ? [] | reflexivity].
  - inversion Hidx as [| ? ? Hi Hrest]; subst.
    destruct (IH Hrest) as (b & Hb & Hspec). clear IH.
    destruct (getChild_total node i Hnn Hi) as [child Hc].
    cbn [childrenAvailableLoop]. rewrite Hc.
    destruct child as [| tile c0 c1 c2 c3].
    + exists false. split; [reflexivity |]. split; [discriminate |].
      intros Hall. destruct (Hall i (or_introl eq_refl)) as (id & rd & Hp & _).
      unfold presentChild in Hp. rewrite Hc in Hp. discriminate.
    + set (child := Node tile c0 c1 c2 c3) in *.
      assert (Hpc : presentChild node i = Some (mkTileId (getLevel tile) (getPatchIdx tile))).
      { unfold presentChild. rewrite Hc. reflexivity. }
      rewrite findRData_Some. cbn [getTileId child].
      destruct (readRd h (a, _)) as [rd |] eqn:Hrd.
      * rewrite Hrd. destruct (Z.ltb_spec (getTexLayer rd) 0) as [Hneg | Hpos].
        -- exists false. split; [reflexivity |]. split; [discriminate |].
           intros Hall. destruct (Hall i (or_introl eq_refl)) as (id & rd' & Hp & Hr & Hl).
           rewrite Hpc in Hp. injection Hp as <-. rewrite Hrd in Hr. injection Hr as <-. lia.
        -- exists b. split; [exact Hb |]. rewrite Hspec. split.
           ++ intros Hall j [<- | Hj]; [| now apply Hall].
              eexists _, rd. eauto.
           ++ intros Hall j Hj. apply Hall. now right.
      * exists false. split; [reflexivity |]. split; [discriminate |].
        intros Hall. destruct (Hall i (or_introl eq_refl)) as (id & rd' & Hp & Hr & Hl).
        rewrite Hpc in Hp. injection Hp as <-. rewrite Hrd in Hr. discriminate.
Qed.

Lemma childrenAvailable_spec h node a :
  isNull node = false ->
  exists b, childrenAvailable h node (Some a) = Some b /\
            (b = true <-> childrenReady h a node).
Proof.
  intros Hnn.
  destruct (childrenAvailableLoop_spec h node a (zrange 4) Hnn (In_zrange' 4))
    as (b & Hb & Hspec).
  exists b. split; [exact Hb |]. rewrite Hspec. unfold childrenReady.
  split; intros Hall i Hi; apply Hall; now apply (In_zrange 4).
Qed.

(** ** drawLevel *)

Lemma getLODState_top st state :
  (0 <= mStackTop (vis st))%Z ->
  mStack (vis st) !! Z.to_nat (mStackTop (vis st)) = Some state ->
  getLODState (-1) st = Some (state, st).
Proof.
  intros Htop Hlook. unfold getLODState. munfold.
  destruct (Z.leb_spec 0 (mStackTop (vis st))) as [_ | ?]; [| lia].
  simpl. rewrite Hlook. reflexivity.
Qed.

Lemma rdAddRenderFlag_eq p st :
  rdAddRenderFlag (Some p) st =
  match readRd (heap st) p with
  | Some old => Some (tt, mkVState (vis st) (writeRd p (addRenderFlag old) (heap st)))
  | None => None
  end.
Proof. unfold rdAddRenderFlag. munfold. simpl. destruct (readRd (heap st) p); reflexivity. Qed.

Lemma drawLevel_both st state aD aI pD pI rd :
  (0 <= mStackTop (vis st))%Z ->
  mStack (vis st) !! Z.to_nat (mStackTop (vis st)) = Some state ->
  mTreeMgrDEM (vis st) = Some aD -> mTreeMgrIMG (vis st) = Some aI ->
  isNull (mNodeDEM state) = false -> isNull (mNodeIMG state) = false ->
  mRdDEM state = Some pD -> mRdIMG state = Some pI ->
  readRd (heap st) pD = Some rd ->
  drawLevel st =
    Some (tt, mkVState
                (set_mRenderIMG (mRenderIMG (vis st) ++ [pI])
                   (set_mRenderDEM (mRenderDEM (vis st) ++ [pD]) (vis st)))
                (writeRd pD (addRenderFlag rd) (heap st))).
Proof.
  intros Htop Hlook HmD HmI HnD HnI HpD HpI Hrd.
  unfold drawLevel. unfold bind at 1. rewrite (getLODState_top _ _ Htop Hlook).
  unfold bind at 1, getV at 1. rewrite HmD, HmI, HnD, HnI, HpD, HpI. simpl.
  unfold bind at 1. unfold bind at 1. unfold assert_, ret at 1. unfold bind at 1.
  unfold liftO, ret at 1. unfold bind at 1. rewrite rdAddRenderFlag_eq, Hrd.
  unfold modV at 1. simpl. destruct (vis st); reflexivity.
Qed.

Lemma isChildRd_true a node p :
  isChildRd a node (zrange 4) p = true <-> childRd a node p.
Proof.
  unfold isChildRd, childRd. rewrite existsb_exists. split.
  - intros (i & Hi & Hp). apply (In_zrange 4) in Hi.
    destruct (presentChild node i) as [id |] eqn:E; [| discriminate].
    apply bool_decide_eq_true in Hp. eauto.
  - intros (i & id & Hi & Hp & ->). exists i. split; [now apply (In_zrange 4) |].
    rewrite Hp. now apply bool_decide_eq_true.
Qed.

Lemma In_missingChildIds node tileId id :
  getTileId node = Some tileId ->
  In id (missingChildIds node (zrange 4)) <->
  exists i, (0 <= i < 4)%Z /\ getChild node i = Some NullNode /\
            id = HEALPix.getChildTileId tileId i.
Proof.
  intros Hid. unfold missingChildIds. rewrite Hid, in_map_iff. split.
  - intros (i & <- & Hi). apply filter_In in Hi. destruct Hi as [Hi Habs].
    apply (In_zrange 4) in Hi. exists i. split; [exact Hi |]. split; [| reflexivity].
    unfold childAbsent in Habs. destruct (getChild node i) as [[|] |]; congruence.
  - intros (i & Hi & Hc & ->). exists i. split; [reflexivity |].
    apply filter_In. split; [now apply (In_zrange 4) |].
    unfold childAbsent. now rewrite Hc.
Qed.


Lemma live_stamped h h' (f : RdPtr -> RenderData -> RenderData) p :
  (forall q, readRd h' q = f q <$> readRd h q) ->
  TileRenderer.live h p -> TileRenderer.live h' p.
Proof. intros Hr [rd Hrd]. unfold TileRenderer.live. rewrite Hr, Hrd. simpl. eauto. Qed.

(** A request for the children of a node whose present children all
    have render data succeeds. *)
Lemma addLoadChildrenDEM_total node a st :
  mTreeMgrDEM (vis st) = Some a ->
  (forall p, childRd a node p -> TileRenderer.live (heap st) p) ->
  exists st',
    addLoadChildrenDEM node st = Some (tt, st') /\
    vis st' = set_mLoadDEM
                (mLoadDEM (vis st) ++
                 if loadsChildren (heap st) node then missingChildIds node (zrange 4) else [])
                (vis st) /\
    sameTrees (heap st) (heap st') /\
    (forall p, readRd (heap st') p =
               stampIf (loadsChildren (heap st) node && isChildRd a node (zrange 4) p)
                       (mFrameCount (vis st)) <$> readRd (heap st) p).
Proof.
  intros Hmgr Hlive.
  pose proof (addLoadChildren_spec mTreeMgrDEM pushLoadDEM
                ltac:(intros ? []; reflexivity) ltac:(intros ? []; reflexivity)
                addLoadChildrenDEM addLoadChildrenDEM_eq node a st Hmgr) as L.
  cbv zeta in L. destruct (addLoadChildrenDEM node st) as [[[] st'] |].
  - destruct L as (Hv & Ht & Hr & _). exists st'. split; [reflexivity |].
    split; [| now split]. rewrite Hv. apply fold_pushDEM.
  - exfalso. destruct L as (_ & i & id & Hi & Hp & Hnone).
    destruct (Hlive (a, id)) as [rd Hrd]; [exists i, id; auto | congruence].
Qed.

Lemma addLoadChildrenIMG_total node a st :
  mTreeMgrIMG (vis st) = Some a ->
  (forall p, childRd a node p -> TileRenderer.live (heap st) p) ->
  exists st',
    addLoadChildrenIMG node st = Some (tt, st') /\
    vis st' = set_mLoadIMG
                (mLoadIMG (vis st) ++
                 if loadsChildren (heap st) node then missingChildIds node (zrange 4) else [])
                (vis st) /\
    sameTrees (heap st) (heap st') /\
    (forall p, readRd (heap st') p =
               stampIf (loadsChildren (heap st) node && isChildRd a node (zrange 4) p)
                       (mFrameCount (vis st)) <$> readRd (heap st) p).
Proof.
  intros Hmgr Hlive.
  pose proof (addLoadChildren_spec mTreeMgrIMG pushLoadIMG
                ltac:(intros ? []; reflexivity) ltac:(intros ? []; reflexivity)
                addLoadChildrenIMG addLoadChildrenIMG_eq node a st Hmgr) as L.
  cbv zeta in L. destruct (addLoadChildrenIMG node st) as [[[] st'] |].
  - destruct L as (Hv & Ht & Hr & _). exists st'. split; [reflexivity |].
    split; [| now split]. rewrite Hv. apply fold_pushIMG.
  - exfalso. destruct L as (_ & i & id & Hi & Hp & Hnone).
    destruct (Hlive (a, id)) as [rd Hrd]; [exists i, id; auto | congruence].
Qed.

(** The same with the condition under which [handleRefine] requests. *)
Lemma requestDEM_total (request : bool) node a st :
  mTreeMgrDEM (vis st) = Some a ->
  (forall p, childRd a node p -> TileRenderer.live (heap st) p) ->
  exists st',
    (if request then addLoadChildrenDEM node else ret tt) st = Some (tt, st') /\
    vis st' = set_mLoadDEM
                (mLoadDEM (vis st) ++
                 if request && loadsChildren (heap st) node
                 then missingChildIds node (zrange 4) else [])
                (vis st) /\
    sameTrees (heap st) (heap st') /\
    (forall p, readRd (heap st') p =
               stampIf (request && loadsChildren (heap st) node && isChildRd a node (zrange 4) p)
                       (mFrameCount (vis st)) <$> readRd (heap st) p).
Proof.
  intros Hmgr Hlive. destruct request; cbn [andb].
  - now apply addLoadChildrenDEM_total.
  - exists st. split; [reflexivity |]. rewrite app_nil_r.
    split; [destruct st as [[] ?]; reflexivity |]. split; [apply sameTrees_refl |].
    intros p. destruct (readRd (heap st) p); reflexivity.
Qed.

Lemma requestIMG_total (request : bool) node a st :
  mTreeMgrIMG (vis st) = Some a ->
  (forall p, childRd a node p -> TileRenderer.live (heap st) p) ->
  exists st',
    (if request then addLoadChildrenIMG node else ret tt) st = Some (tt, st') /\
    vis st' = set_mLoadIMG
                (mLoadIMG (vis st) ++
                 if request && loadsChildren (heap st) node
                 then missingChildIds node (zrange 4) else [])
                (vis st) /\
    sameTrees (heap st) (heap st') /\
    (forall p, readRd (heap st') p =
               stampIf (request && loadsChildren (heap st) node && isChildRd a node (zrange 4) p)
                       (mFrameCount (vis st)) <$> readRd (heap st) p).
Proof.
  intros Hmgr Hlive. destruct request; cbn [andb].
  - now apply addLoadChildrenIMG_total.
  - exists st. split; [reflexivity |]. rewrite app_nil_r.
    split; [destruct st as [[] ?]; reflexivity |]. split; [apply sameTrees_refl |].
    intros p. destruct (readRd (heap st) p); reflexivity.
Qed.

Lemma loadsChildren_sameTrees h h' node :
  sameTrees h h' -> loadsChildren h' node = loadsChildren h node.
Proof. intros [HP _]. unfold loadsChildren. now rewrite HP. Qed.

Lemma stampIf_stampIf b1 b2 frame rd :
  stampIf b2 frame (stampIf b1 frame rd) = stampIf (b1 || b2) frame rd.
Proof. destruct b1, b2; reflexivity. Qed.

Section HandleRefine.
Variables (st : VState) (tileId : TileId) (state : LODState).
Variables (aD aI : TreeMgrAddr) (pD pI : RdPtr).
Let v := vis st.
Let h := heap st.
Let nodeDEM := mNodeDEM state.
Let nodeIMG := mNodeIMG state.

Hypothesis Htop : (0 <= mStackTop v)%Z.
Hypothesis Hstate : mStack v !! Z.to_nat (mStackTop v) = Some state.
Hypothesis HmgrD : mTreeMgrDEM v = Some aD.
Hypothesis HmgrI : mTreeMgrIMG v = Some aI.
Hypothesis HnodeD : isNull nodeDEM = false.
Hypothesis HnodeI : isNull nodeIMG = false.
Hypothesis HrdD : mRdDEM state = Some pD.
Hypothesis HrdI : mRdIMG state = Some pI.
Hypothesis HliveD : TileRenderer.live h pD.
Hypothesis HchildD : forall p, childRd aD nodeDEM p -> TileRenderer.live h p.
Hypothesis HchildI : forall p, childRd aI nodeIMG p -> TileRenderer.live h p.

(** What [handleRefine] does when it cannot descend. *)
Lemma handleRefine_draw (demOK imgOK : bool) :
  demOK && imgOK = false ->
  let loadD := negb demOK && loadsChildren h nodeDEM in
  let loadI := negb imgOK && loadsChildren h nodeIMG in
  exists st',
    ((if negb demOK then addLoadChildrenDEM nodeDEM else ret tt) ;;;
     (if negb imgOK then addLoadChildrenIMG nodeIMG else ret tt) ;;;
     if demOK && imgOK then ret true else drawLevel ;;; ret false) st
      = Some (false, st') /\
    mLoadDEM (vis st') =
      mLoadDEM v ++ (if loadD then missingChildIds nodeDEM (zrange 4) else []) /\
    mLoadIMG (vis st') =
      mLoadIMG v ++ (if loadI then missingChildIds nodeIMG (zrange 4) else []) /\
    mRenderDEM (vis st') = mRenderDEM v ++ [pD] /\
    mRenderIMG (vis st') = mRenderIMG v ++ [pI] /\
    sameTrees h (heap st') /\
    forall p,
      readRd (heap st') p =
      (fun rd => flagIf (bool_decide (p = pD))
                   (stampIf ((loadD && isChildRd aD nodeDEM (zrange 4) p)
                             || (loadI && isChildRd aI nodeIMG (zrange 4) p))
                            (mFrameCount v) rd))
        <$> readRd h p.
Proof.
  intros Hno. cbv zeta. rewrite Hno.
  destruct (requestDEM_total (negb demOK) nodeDEM aD st HmgrD HchildD)
    as (st1 & E1 & Hv1 & Ht1 & Hr1).
  fold v h in Hv1, Ht1, Hr1.
  destruct (requestIMG_total (negb imgOK) nodeIMG aI st1) as (st2 & E2 & Hv2 & Ht2 & Hr2).
  { rewrite Hv1. exact HmgrI. }
  { intros p Hp. eapply live_stamped; [exact Hr1 | auto]. }
  rewrite (loadsChildren_sameTrees _ _ _ Ht1) in Hv2, Hr2.
  assert (Hframe : mFrameCount (vis st1) = mFrameCount v) by (rewrite Hv1; reflexivity).
  rewrite Hframe in Hr2.
  destruct (live_stamped _ _ _ pD Hr2 (live_stamped _ _ _ pD Hr1 HliveD)) as [rd2 Hrd2].
  unfold bind at 1. rewrite E1. unfold bind at 1. rewrite E2.
  unfold bind at 1.
  rewrite (drawLevel_both st2 state aD aI pD pI rd2);
    try (rewrite Hv2, Hv1; assumption); try assumption.
  eexists. split; [reflexivity |]. cbn [vis heap].
  rewrite Hv2, Hv1. cbn.
  repeat split.
  - apply (sameTrees_trans _ _ _ Ht1). apply (sameTrees_trans _ _ _ Ht2).
    apply sameTrees_writeRd.
  - apply (sameTrees_trans _ _ _ Ht1). apply (sameTrees_trans _ _ _ Ht2).
    apply sameTrees_writeRd.
  - apply (sameTrees_trans _ _ _ Ht1). apply (sameTrees_trans _ _ _ Ht2).
    apply sameTrees_writeRd.
  - intros p. rewrite readRd_writeRd. case_decide as E.
    + subst p. rewrite bool_decide_eq_true_2 by reflexivity.
      rewrite Hr2, Hr1 in Hrd2. destruct (readRd h pD) as [rd |]; [| discriminate].
      cbn in Hrd2. injection Hrd2 as <-. cbn. now rewrite stampIf_stampIf.
    + rewrite bool_decide_eq_false_2 by congruence.
      rewrite Hr2, Hr1. destruct (readRd h p) as [rd |]; [| reflexivity].
      cbn. now rewrite stampIf_stampIf.
Qed.

Lemma handleRefine_both_eq :
  exists demOK imgOK st',
    handleRefine tileId st = Some (demOK && imgOK, st') /\
    (demOK = true <-> childrenReady h aD nodeDEM) /\
    (imgOK = true <-> childrenReady h aI nodeIMG) /\
    (demOK && imgOK = true -> st' = st) /\
    (demOK && imgOK = false ->
       let loadD := negb demOK && loadsChildren h nodeDEM in
       let loadI := negb imgOK && loadsChildren h nodeIMG in
       mLoadDEM (vis st') =
         mLoadDEM v ++ (if loadD then missingChildIds nodeDEM (zrange 4) else []) /\
       mLoadIMG (vis st') =
         mLoadIMG v ++ (if loadI then missingChildIds nodeIMG (zrange 4) else []) /\
       mRenderDEM (vis st') = mRenderDEM v ++ [pD] /\
       mRenderIMG (vis st') = mRenderIMG v ++ [pI] /\
       sameTrees h (heap st') /\
       forall p,
         readRd (heap st') p =
         (fun rd => flagIf (bool_decide (p = pD))
                      (stampIf ((loadD && isChildRd aD nodeDEM (zrange 4) p)
                                || (loadI && isChildRd aI nodeIMG (zrange 4) p))
                               (mFrameCount v) rd))
           <$> readRd h p).
Proof.
  destruct (childrenAvailable_spec h nodeDEM aD HnodeD) as (demOK & HavD & HokD).
  destruct (childrenAvailable_spec h nodeIMG aI HnodeI) as (imgOK & HavI & HokI).
  exists demOK, imgOK.
  unfold handleRefine. unfold bind at 1. rewrite (getLODState_top _ _ Htop Hstate).
  unfold bind at 1, getV at 1. unfold bind at 1, getH at 1.
  fold v h nodeDEM nodeIMG. rewrite HnodeD, HnodeI, HmgrD, HmgrI, HavD, HavI.
  unfold bind at 1. cbn [liftO]. unfold ret at 1. unfold bind at 1. unfold ret at 1.
  destruct (demOK && imgOK) eqn:Hboth.
  - apply andb_true_iff in Hboth. destruct Hboth as [-> ->]. cbn [negb andb].
    exists st. split; [reflexivity |]. repeat split; try tauto; discriminate.
  - destruct (handleRefine_draw demOK imgOK Hboth) as (st' & E & R).
    rewrite Hboth in E. exists st'. split; [exact E |].
    split; [exact HokD |]. split; [exact HokI |]. split; [discriminate |].
    intros _. exact R.
Qed.
End HandleRefine.

Lemma requests_iff h a node (ok : bool) :
  isNull node = false ->
  (ok = true <-> childrenReady h a node) ->
  negb ok && loadsChildren h node = true <-> requestsChildren h a node.
Proof.
  intros Hnn Hok. unfold requestsChildren, loadsChildren. rewrite Hnn. cbn [negb andb].
  rewrite andb_true_iff, negb_true_iff, Z.ltb_lt, <- Hok.
  destruct ok; intuition congruence.
Qed.

(** C3 (as amended). With both channels active, [handleRefine] descends
    exactly when all four DEM children and all four IMG children exist
    with a texture layer of at least 0, and then changes nothing.
    Otherwise, for each channel whose children are not all available
    and only when the node's level is below [maxLevel], it appends the
    ids of the missing children to that channel's load list and stamps
    the current frame on every present child of that channel; no other
    render data changes its frame, no render data changes its layer or
    bounds; and the current node's render data is appended to both
    render lists. *)
Theorem handleRefine_both_channels
    (st : VState) (tileId : TileId) (state : LODState) (aD aI : TreeMgrAddr) (pD pI : RdPtr) :
  let v := vis st in
  let h := heap st in
  let nodeDEM := mNodeDEM state in
  let nodeIMG := mNodeIMG state in
  let stamped p := (requestsChildren h aD nodeDEM /\ childRd aD nodeDEM p) \/
                   (requestsChildren h aI nodeIMG /\ childRd aI nodeIMG p) in
  (0 <= mStackTop v)%Z ->
  mStack v !! Z.to_nat (mStackTop v) = Some state ->
  mTreeMgrDEM v = Some aD ->
  mTreeMgrIMG v = Some aI ->
  isNull nodeDEM = false ->
  isNull nodeIMG = false ->
  mRdDEM state = Some pD ->
  mRdIMG state = Some pI ->
  TileRenderer.live h pD ->
  (forall p, childRd aD nodeDEM p -> TileRenderer.live h p) ->
  (forall p, childRd aI nodeIMG p -> TileRenderer.live h p) ->
  exists result st',
    handleRefine tileId st = Some (result, st') /\
    (result = true <-> childrenReady h aD nodeDEM /\ childrenReady h aI nodeIMG) /\
    (result = true -> st' = st) /\
    (result = false ->
       (exists reqDEM reqIMG,
          mLoadDEM (vis st') = mLoadDEM v ++ reqDEM /\
          mLoadIMG (vis st') = mLoadIMG v ++ reqIMG /\
          (requestsChildren h aD nodeDEM -> reqDEM = missingChildIds nodeDEM (zrange 4)) /\
          (~ requestsChildren h aD nodeDEM -> reqDEM = []) /\
          (requestsChildren h aI nodeIMG -> reqIMG = missingChildIds nodeIMG (zrange 4)) /\
          (~ requestsChildren h aI nodeIMG -> reqIMG = [])) /\
       (forall p rd, readRd h p = Some rd ->
          exists rd', readRd (heap st') p = Some rd' /\
                      getBounds rd' = getBounds rd /\
                      getTexLayer rd' = getTexLayer rd /\
                      (stamped p -> getLastFrame rd' = mFrameCount v) /\
                      (~ stamped p -> getLastFrame rd' = getLastFrame rd)) /\
       mRenderDEM (vis st') = mRenderDEM v ++ [pD] /\
       mRenderIMG (vis st') = mRenderIMG v ++ [pI]).
Proof.
  cbv zeta. intros Htop Hstate HmD HmI HnD HnI HrD HrI HlD HcD HcI.
  destruct (handleRefine_both_eq st tileId state aD aI pD pI
              Htop Hstate HmD HmI HnD HnI HrD HrI HlD HcD HcI)
    as (demOK & imgOK & st' & E & HokD & HokI & Hsame & Hdraw).
  exists (demOK && imgOK), st'. split; [exact E |].
  split; [rewrite andb_true_iff, HokD, HokI; tauto |].
  split; [exact Hsame |].
  intros Hno. destruct (Hdraw Hno) as (HlDEM & HlIMG & HrDEM & HrIMG & _ & Hheap).
  clear Hdraw Hsame.
  pose proof (requests_iff (heap st) aD (mNodeDEM state) demOK HnD HokD) as RD.
  pose proof (requests_iff (heap st) aI (mNodeIMG state) imgOK HnI HokI) as RI.
  split; [| split; [| split; assumption]].
  - eexists _, _. split; [exact HlDEM |]. split; [exact HlIMG |].
    destruct (negb demOK && loadsChildren (heap st) (mNodeDEM state));
      destruct (negb imgOK && loadsChildren (heap st) (mNodeIMG state));
      repeat split; intros; trivial;
        try (exfalso; tauto);
        match goal with
        | H : requestsChildren _ _ _ |- _ => apply RD in H || apply RI in H; discriminate
        end.
  - intros p rd Hrd. rewrite Hheap, Hrd. cbn. eexists. split; [reflexivity |].
    set (s := _ || _).
    assert (Hs : s = true <->
                 (requestsChildren (heap st) aD (mNodeDEM state) /\ childRd aD (mNodeDEM state) p) \/
                 (requestsChildren (heap st) aI (mNodeIMG state) /\ childRd aI (mNodeIMG state) p)).
    { unfold s. rewrite orb_true_iff, !andb_true_iff, !isChildRd_true.
      rewrite <- RD, <- RI. rewrite !andb_true_iff. tauto. }
    split; [destruct (bool_decide _), s; reflexivity |].
    split; [destruct (bool_decide _), s; reflexivity |].
    split.
    + intros Hst. apply Hs in Hst. rewrite Hst. destruct (bool_decide _); reflexivity.
    + intros Hst. destruct s.
      * exfalso. apply Hst, Hs. reflexivity.
      * destruct (bool_decide _); reflexivity.
Qed.

(** ** The horizon test *)

Section FrontFacing.
Local Open Scope R_scope.

Lemma dot_self_nonneg v : 0 <= glm.dot v v.
Proof. unfold glm.dot. nra. Qed.

Lemma dot_self_zero v : glm.dot v v = 0 -> v = glm.mkvec3 0 0 0.
Proof.
  destruct v as [x y z]. unfold glm.dot. simpl. intros H.
  assert (x = 0) by nra. assert (y = 0) by nra. assert (z = 0) by nra. subst. reflexivity.
Qed.

Lemma length_pos v : v <> glm.mkvec3 0 0 0 -> 0 < glm.length v.
Proof.
  intros Hv. unfold glm.length. apply sqrt_lt_R0.
  destruct (Rle_lt_or_eq_dec _ _ (dot_self_nonneg v)) as [L | E]; [exact L |].
  exfalso. apply Hv. apply dot_self_zero. symmetry. exact E.
Qed.

Lemma length_sqr v : glm.length v * glm.length v = glm.dot v v.
Proof. unfold glm.length. apply sqrt_sqrt, dot_self_nonneg. Qed.

Lemma normalize_unit v :
  v <> glm.mkvec3 0 0 0 -> glm.dot (glm.normalize v) (glm.normalize v) = 1.
Proof.
  intros Hv. pose proof (length_pos v Hv) as HL. pose proof (length_sqr v) as HS.
  unfold glm.normalize, glm.divs. set (L := glm.length v) in *.
  unfold glm.dot in *. simpl.
  destruct v as [x y z]. simpl in *.
  replace (x / L * (x / L) + y / L * (y / L) + z / L * (z / L))
    with ((x * x + y * y + z * z) / (L * L)) by (field; lra).
  rewrite <- HS. field. lra.
Qed.









Lemma minHeightLoop_fold tree indices : forall m0,
  (forall i, In i indices -> rootLoaded tree i) ->
  minHeightLoop tree indices m0 =
  Some (fold_left Rmin (map (fun i => nodeMinimum (TileQuadTree.getRoot tree i)) indices) m0).
Proof.
  induction indices as [| i rest IH]; intros m0 Hall; [reflexivity |].
  destruct (Hall i (or_introl eq_refl)) as (tile & c0 & c1 & c2 & c3 & Hroot & Htype & _).
  cbn [minHeightLoop map fold_left]. rewrite Hroot, Htype. cbn [nodeMinimum].
  rewrite std_min_Rmin. apply IH. intros j Hj. apply Hall. now right.
Qed.

Lemma fold_Rmin_spec l : forall m0,
  let m := fold_left Rmin l m0 in
  m <= m0 /\ (forall x, In x l -> m <= x) /\ (m = m0 \/ In m l).
Proof.
  induction l as [| x rest IH]; intros m0; cbn [fold_left].
  - cbv zeta. split; [lra |]. split; [intros ? [] | now left].
  - specialize (IH (Rmin m0 x)). cbv zeta in *. destruct IH as (Hle & Hall & Hin).
    pose proof (Rmin_l m0 x). pose proof (Rmin_r m0 x).
    split; [lra |]. split.
    + intros y [<- | Hy]; [lra | now apply Hall].
    + destruct Hin as [E | Hin]; [| right; now right].
      rewrite E. unfold Rmin. destruct (Rle_dec m0 x); [now left | right; now left].
Qed.

Lemma minHeight_minimum tree :
  rootsLoaded tree ->
  exists minHeight,
    minHeightLoop tree (zrange 12) FLT_MAX = Some minHeight /\
    isMinimumOf minHeight (basePatchMinima tree).
Proof.
  intros Hroots. eexists. split.
  - apply minHeightLoop_fold. intros i Hi. apply Hroots. now apply (In_zrange 12).
  - fold (basePatchMinima tree).
    destruct (fold_Rmin_spec (basePatchMinima tree) FLT_MAX) as (Hle & Hall & Hin).
    cbv zeta in *. split; [| exact Hall].
    destruct Hin as [E | Hin]; [| exact Hin].
    (* every minimum is a float: the initial value is attained *)
    assert (H0 : In (nodeMinimum (TileQuadTree.getRoot tree 0)) (basePatchMinima tree)).
    { unfold basePatchMinima.
      apply (in_map (fun i => nodeMinimum (TileQuadTree.getRoot tree i))).
      now apply (In_zrange 12). }
    destruct (Hroots 0%Z ltac:(lia)) as (tile & c0 & c1 & c2 & c3 & Hroot & _ & Hflt).
    rewrite Hroot in H0. cbn [nodeMinimum] in H0.
    pose proof (Hall _ H0) as Hm. rewrite E in Hm |- *.
    replace FLT_MAX with (MinMaxPyramid.getMin (getMinMaxPyramid tile)) by lra.
    exact H0.
Qed.

Lemma anyCornerUnoccluded_exists camPos radius pnts :
  anyCornerUnoccluded camPos radius pnts = true <->
  exists corner, In corner pnts /\ cornerUnoccluded camPos radius corner = true.
Proof.
  induction pnts as [| p rest IH]; cbn [anyCornerUnoccluded].
  - split; [discriminate | intros (c & [] & _)].
  - destruct (cornerUnoccluded camPos radius p) eqn:E.
    + split; [| reflexivity]. intros _. exists p. split; [now left | exact E].
    + rewrite IH. split.
      * intros (c & Hc & Hu). exists c. split; [now right | exact Hu].
      * intros (c & [<- | Hc] & Hu); [congruence |]. now exists c.
Qed.


End FrontFacing.

(** ** The refinement test *)

Section NeedRefine.
Local Open Scope R_scope.

Lemma normalize_zero : glm.normalize (glm.mkvec3 0 0 0) = glm.mkvec3 0 0 0.
Proof.
  unfold glm.normalize, glm.divs. simpl. f_equal; unfold Rdiv; apply Rmult_0_l.
Qed.

Lemma normalize_norm_le v : glm.dot (glm.normalize v) (glm.normalize v) <= 1.
Proof.
  destruct (Req_dec (glm.dot v v) 0) as [E | Hv].
  - apply dot_self_zero in E. subst v.
    rewrite normalize_zero. unfold glm.dot. simpl. lra.
  - rewrite normalize_unit; [lra |]. intros ->. apply Hv. unfold glm.dot. simpl. lra.
Qed.

Lemma cauchy_schwarz u w :
  glm.dot u w * glm.dot u w <= glm.dot u u * glm.dot w w.
Proof.
  destruct u as [a b c], w as [x y z]. unfold glm.dot. simpl.
  pose proof (Rle_0_sqr (b * z - c * y)) as H1.
  pose proof (Rle_0_sqr (c * x - a * z)) as H2.
  pose proof (Rle_0_sqr (a * y - b * x)) as H3.
  unfold Rsqr in *. nra.
Qed.

Lemma dot_normalized_bounds u w :
  -1 <= glm.dot (glm.normalize u) (glm.normalize w) <= 1.
Proof.
  pose proof (cauchy_schwarz (glm.normalize u) (glm.normalize w)) as Hcs.
  pose proof (normalize_norm_le u) as Hu. pose proof (normalize_norm_le w) as Hw.
  pose proof (dot_self_nonneg (glm.normalize u)) as Hu0.
  pose proof (dot_self_nonneg (glm.normalize w)) as Hw0.
  set (d := glm.dot (glm.normalize u) (glm.normalize w)) in *.
  assert (d * d <= 1) by nra. split; nra.
Qed.

Lemma clamp_upper_only x : -1 <= x -> Cmp.std_min 1 x = clamp x (-1) 1.
Proof.
  intros Hx. rewrite std_min_Rmin. unfold clamp, Rmax, Rmin.
  destruct (Rle_dec 1 x), (Rle_dec x 1); destruct (Rle_dec (-1) _); lra.
Qed.

Lemma maxAngleLoop_fold camPos center tbDirsOf : forall pnts maxAngle,
  tbDirsOf = (fun p => glm.normalize (glm.sub p camPos)) ->
  maxAngleLoop (glm.normalize (glm.sub center camPos)) (map tbDirsOf pnts) maxAngle =
  fold_left Rmax (map (angleTo camPos center) pnts) maxAngle.
Proof.
  intros pnts maxAngle ->. revert maxAngle.
  induction pnts as [| p rest IH]; intros maxAngle; [reflexivity |].
  cbn [map maxAngleLoop fold_left]. rewrite IH. f_equal.
  rewrite std_max_Rmax, Rmax_comm. unfold angleTo.
  rewrite clamp_upper_only by apply dot_normalized_bounds. reflexivity.
Qed.

Lemma fold_Rmax_spec l : forall m0,
  let m := fold_left Rmax l m0 in
  m0 <= m /\ (forall x, In x l -> x <= m) /\ (m = m0 \/ In m l).
Proof.
  induction l as [| x rest IH]; intros m0; cbn [fold_left].
  - cbv zeta. split; [lra |]. split; [intros ? [] | now left].
  - specialize (IH (Rmax m0 x)). cbv zeta in *. destruct IH as (Hle & Hall & Hin).
    pose proof (Rmax_l m0 x). pose proof (Rmax_r m0 x).
    split; [lra |]. split.
    + intros y [<- | Hy]; [lra | now apply Hall].
    + destruct Hin as [E | Hin]; [| right; now right].
      rewrite E. unfold Rmax. destruct (Rle_dec m0 x); [right; now left | now left].
Qed.

Lemma angleTo_nonneg camPos center p : 0 <= angleTo camPos center p <= PI.
Proof. unfold angleTo. apply acos_bound. Qed.

(** The angle [refineRatio] takes is the largest corner angle. *)
Lemma maxAngle_maximum camPos tb :
  isMaximumOf
    (maxAngleLoop (glm.normalize (glm.sub (boxCenter tb) camPos))
       (map (fun p => glm.normalize (glm.sub p camPos)) (tbPnts tb)) 0)
    (map (angleTo camPos (boxCenter tb)) (tbPnts tb)).
Proof.
  rewrite (maxAngleLoop_fold camPos (boxCenter tb) _ (tbPnts tb) 0 eq_refl).
  destruct (fold_Rmax_spec (map (angleTo camPos (boxCenter tb)) (tbPnts tb)) 0)
    as (Hle & Hall & Hin).
  cbv zeta in *. split; [| exact Hall].
  destruct Hin as [E | Hin]; [| exact Hin].
  set (a0 := angleTo camPos (boxCenter tb)
               (glm.mkvec3 (glm.x3 (getMin tb)) (glm.y3 (getMin tb)) (glm.z3 (getMin tb)))).
  assert (H0 : In a0 (map (angleTo camPos (boxCenter tb)) (tbPnts tb))) by (left; reflexivity).
  pose proof (Hall _ H0) as Hm. pose proof (angleTo_nonneg camPos (boxCenter tb)
    (glm.mkvec3 (glm.x3 (getMin tb)) (glm.y3 (getMin tb)) (glm.z3 (getMin tb)))) as Hn.
  fold a0 in Hn. rewrite E in Hm |- *. replace 0 with a0 by lra. exact H0.
Qed.





End NeedRefine.

(** ** The requests of a traversal *)

Section Requests.
Local Open Scope Z_scope.

Lemma atId_level tree tileId node : atId tree tileId node -> 0 <= level tileId.
Proof. induction 1; simpl; lia. Qed.

Lemma getChild_index node i child : getChild node i = Some child -> 0 <= i < 4.
Proof.
  destruct node; [discriminate |]. simpl.
  destruct i as [| [[| |] | [| |] |] |]; try discriminate; lia.
Qed.

Lemma childId_inj t t' i i' :
  0 <= i < 4 -> 0 <= i' < 4 ->
  HEALPix.getChildTileId t i = HEALPix.getChildTileId t' i' -> t = t' /\ i = i'.
Proof.
  intros Hi Hi' E. destruct t as [l p], t' as [l' p'].
  unfold HEALPix.getChildTileId in E. simpl in E. injection E as E1 E2.
  assert (l' = l) by lia. assert (p' = p) by lia. subst. split; [reflexivity | lia].
Qed.

Lemma atId_functional tree tileId node :
  atId tree tileId node -> forall node', atId tree tileId node' -> node' = node.
Proof.
  induction 1 as [i Hi | tileId node i child Hat IH Hc]; intros node' H'.
  - remember (mkTileId 0 i) as t eqn:Et.
    destruct H' as [i' Hi' | t' n' i' c' Hat' Hc'].
    + injection Et as ->. reflexivity.
    + apply atId_level in Hat'. unfold HEALPix.getChildTileId in Et.
      injection Et as E1 E2. lia.
  - remember (HEALPix.getChildTileId tileId i) as t eqn:Et.
    destruct H' as [i' Hi' | t' n' i' c' Hat' Hc'].
    + apply atId_level in Hat. unfold HEALPix.getChildTileId in Et.
      injection Et as E1 E2. lia.
    + pose proof (getChild_index _ _ _ Hc). pose proof (getChild_index _ _ _ Hc').
      symmetry in Et. apply childId_inj in Et; trivial. destruct Et as [<- <-].
      rewrite (IH _ Hat') in Hc'. congruence.
Qed.

Lemma null_place_free tree tileId :
  treeConsistent tree -> atId tree tileId NullNode -> ~ nodeExists tree tileId.
Proof.
  intros Hcons Hnull (place & node & Hat & Hid).
  assert (Hnn : isNull node = false) by (destruct node; [discriminate | reflexivity]).
  pose proof (Hcons _ _ Hat Hnn) as Hplace. rewrite Hid in Hplace.
  injection Hplace as <-.
  rewrite <- (atId_functional _ _ _ Hat _ Hnull) in Hnn. discriminate.
Qed.

Lemma empty_tree_free tileId : ~ nodeExists TileQuadTree.empty tileId.
Proof.
  intros (place & node & Hat & Hid).
  assert (Hnull : forall place node, atId TileQuadTree.empty place node -> node = NullNode).
  { clear. induction 1 as [i Hi | t n i c Hat IH Hc].
    - apply treeEmpty_empty.
    - subst n. discriminate. }
  rewrite (Hnull _ _ Hat) in Hid. discriminate.
Qed.

(** The ids [addLoadChildren*] requests for a node of the tree. *)
Lemma missingChildIds_ok tree maxLevel place node :
  treeConsistent tree ->
  atId tree place node ->
  nodeLevel node < maxLevel ->
  Forall (requestOk tree maxLevel) (missingChildIds node (zrange 4)).
Proof.
  intros Hcons Hat Hlvl. apply List.Forall_forall. intros id Hin.
  destruct node as [| tile c0 c1 c2 c3]; [contradiction |].
  pose proof (Hcons _ _ Hat eq_refl) as Hid.
  apply (In_missingChildIds _ _ _ Hid) in Hin. destruct Hin as (i & Hi & Hc & ->).
  split.
  - apply (null_place_free _ _ Hcons). eapply atChild; eauto.
  - pose proof (atId_level _ _ _ Hat). simpl in Hid. injection Hid as <-.
    simpl in *. lia.
Qed.

(** The ids [preTraverse] requests. *)
Lemma missingRoots_ok h tree maxLevel :
  treeConsistent (treeOf h tree) ->
  Forall (requestOk (treeOf h tree) maxLevel) (missingRoots h tree (zrange 12)).
Proof.
  intros Hcons. apply List.Forall_forall. intros id Hin.
  apply (In_missingRoots _ _ 12) in Hin. destruct Hin as (a & i & -> & Hi & Hnull & ->).
  split; [| simpl; lia].
  apply (null_place_free _ _ Hcons). simpl. rewrite <- Hnull. now apply atRoot.
Qed.

Lemma bind_Some {A B} (m : M A) (k : A -> M B) st r :
  bind m k st = Some r -> exists a s, m st = Some (a, s) /\ k a s = Some r.
Proof.
  unfold bind. destruct (m st) as [[a s] |]; [eauto | discriminate].
Qed.

Lemma getLODState_Some lvl st state st' :
  getLODState lvl st = Some (state, st') ->
  st' = st /\ 0 <= mStackTop (vis st) /\
  mStack (vis st) !! Z.to_nat (if 0 <=? lvl then lvl else mStackTop (vis st)) = Some state.
Proof.
  unfold getLODState. munfold.
  destruct (Z.leb_spec 0 (mStackTop (vis st))) as [Htop | Htop]; [| discriminate].
  simpl. destruct (mStack (vis st) !! _) as [s |]; [| discriminate].
  intros E. injection E as <- <-. auto.
Qed.

Lemma modLODState_Some f st u st' :
  modLODState f st = Some (u, st') ->
  exists state,
    0 <= mStackTop (vis st) /\
    mStack (vis st) !! Z.to_nat (mStackTop (vis st)) = Some state /\
    st' = mkVState (set_mStack (<[Z.to_nat (mStackTop (vis st)) := f state]> (mStack (vis st)))
                      (vis st)) (heap st).
Proof.
  unfold modLODState. intros H. apply bind_Some in H. destruct H as (state & s & Hg & Hm).
  apply getLODState_Some in Hg. destruct Hg as (-> & Htop & Hlook). simpl in Hlook.
  unfold modV in Hm. injection Hm as _ <-. eauto.
Qed.

Lemma pushState_Some st u st' :
  pushState st = Some (u, st') ->
  st' = mkVState (set_mStackTop (mStackTop (vis st) + 1) (vis st)) (heap st) /\
  mStackTop (vis st) + 1 < sMaxStackDepth.
Proof.
  unfold pushState. munfold. cbn.
  destruct (Z.ltb_spec (mStackTop (vis st) + 1) sMaxStackDepth) as [Hlt | Hge];
    [| discriminate].
  intros E. injection E as _ <-. auto.
Qed.

Lemma popState_Some st u st' :
  popState st = Some (u, st') ->
  st' = mkVState (set_mStackTop (mStackTop (vis st) - 1) (vis st)) (heap st).
Proof. unfold popState, modV. intros E. injection E as _ <-. reflexivity. Qed.

Section Invariant.
Variables (h0 : Heap) (tD tI mD mI : option TreeMgrAddr).
Hypothesis consD : treeConsistent (treeOf h0 tD).
Hypothesis consI : treeConsistent (treeOf h0 tI).

Local Abbreviation Inv := (TraversalInv h0 tD tI mD mI).
Local Abbreviation keeps := (keepsInv h0 tD tI mD mI).

Lemma keeps_ret {A} (a : A) : keeps (ret a).
Proof. intros st a' st' H I. injection H as _ <-. auto. Qed.

Lemma keeps_fail {A} : keeps (@fail A).
Proof. intros st a st' H. discriminate. Qed.

Lemma keeps_bind {A B} (m : M A) (k : A -> M B) :
  keeps m -> (forall a, keeps (k a)) -> keeps (bind m k).
Proof.
  intros Hm Hk st b st' H I. apply bind_Some in H. destruct H as (a & s & H1 & H2).
  destruct (Hm _ _ _ H1 I) as [I1 T1]. destruct (Hk a _ _ _ H2 I1) as [I2 T2].
  split; [exact I2 | congruence].
Qed.

Lemma keeps_liftO {A} (o : option A) : keeps (liftO o).
Proof. destruct o; [apply keeps_ret | apply keeps_fail]. Qed.

Lemma keeps_assert b : keeps (assert_ b).
Proof. destruct b; [apply keeps_ret | apply keeps_fail]. Qed.

Lemma keeps_getV : keeps getV.
Proof. intros st a st' H I. injection H as _ <-. auto. Qed.

Lemma keeps_getH : keeps getH.
Proof. intros st a st' H I. injection H as _ <-. auto. Qed.

Lemma keeps_forEach {A} (l : list A) (body : A -> M unit) :
  (forall a, keeps (body a)) -> keeps (forEach l body).
Proof.
  intros Hb. induction l as [| a rest IH]; [apply keeps_ret |].
  cbn [forEach]. apply keeps_bind; [apply Hb | intros _; exact IH].
Qed.

(** The invariant reads the tree pointers, the trees, the load lists
    and the stack only. *)
Lemma Inv_ext st st' :
  mTreeDEM (vis st') = mTreeDEM (vis st) ->
  mTreeIMG (vis st') = mTreeIMG (vis st) ->
  mTreeMgrDEM (vis st') = mTreeMgrDEM (vis st) ->
  mTreeMgrIMG (vis st') = mTreeMgrIMG (vis st) ->
  sameTrees (heap st) (heap st') ->
  mLoadDEM (vis st') = mLoadDEM (vis st) ->
  mLoadIMG (vis st') = mLoadIMG (vis st) ->
  mStack (vis st') = mStack (vis st) ->
  mStackTop (vis st') = mStackTop (vis st) ->
  Inv st -> Inv st'.
Proof.
  intros E1 E2 E3 E4 Hh E5 E6 E7 E8 [].
  constructor; rewrite ?E1, ?E2, ?E3, ?E4, ?E5, ?E6, ?E7, ?E8; trivial.
  eapply sameTrees_trans; eauto.
Qed.

Lemma keeps_rdSetLastFrame rd frame : keeps (rdSetLastFrame rd frame).
Proof.
  intros st a st' H I. destruct rd as [p |]; [| discriminate].
  rewrite rdSetLastFrame_eq in H. destruct (readRd (heap st) p); [| discriminate].
  injection H as _ <-. split; [| reflexivity].
  eapply Inv_ext; try exact I; try reflexivity. apply sameTrees_writeRd.
Qed.

Lemma keeps_rdAddRenderFlag rd : keeps (rdAddRenderFlag rd).
Proof.
  intros st a st' H I. destruct rd as [p |]; [| discriminate].
  rewrite rdAddRenderFlag_eq in H. destruct (readRd (heap st) p); [| discriminate].
  injection H as _ <-. split; [| reflexivity].
  eapply Inv_ext; try exact I; try reflexivity. apply sameTrees_writeRd.
Qed.

Lemma keeps_getLODState lvl : keeps (getLODState lvl).
Proof.
  intros st a st' H I. apply getLODState_Some in H. destruct H as (-> & _). auto.
Qed.

(** Updates of the current state that leave its nodes alone. *)
Lemma keeps_modLODState f :
  (forall s, mNodeDEM (f s) = mNodeDEM s /\ mNodeIMG (f s) = mNodeIMG s) ->
  keeps (modLODState f).
Proof.
  intros Hf st a st' H I. apply modLODState_Some in H.
  destruct H as (state & Htop & Hlook & ->). split; [| destruct (vis st); reflexivity].
  destruct I. constructor; try (destruct (vis st); assumption).
  intros k s Hk Hs.
  assert (Hk' : 0 <= k <= mStackTop (vis st)) by (destruct (vis st); exact Hk).
  assert (Hs' : <[Z.to_nat (mStackTop (vis st)) := f state]> (mStack (vis st))
                  !! Z.to_nat k = Some s) by (destruct (vis st); exact Hs).
  destruct (decide (Z.to_nat (mStackTop (vis st)) = Z.to_nat k)) as [E | E].
  - rewrite E in Hs'. rewrite list_lookup_insert_eq in Hs'.
    2: { rewrite <- E. eapply lookup_lt_Some; eauto. }
    injection Hs' as <-. destruct (Hf state) as [-> ->].
    apply (inv_stack0 (mStackTop (vis st))); [lia | exact Hlook].
  - rewrite list_lookup_insert_ne in Hs' by exact E. eauto.
Qed.

Lemma keeps_modV_render f :
  (forall v, mTreeDEM (f v) = mTreeDEM v /\ mTreeIMG (f v) = mTreeIMG v /\
             mTreeMgrDEM (f v) = mTreeMgrDEM v /\ mTreeMgrIMG (f v) = mTreeMgrIMG v /\
             mLoadDEM (f v) = mLoadDEM v /\ mLoadIMG (f v) = mLoadIMG v /\
             mStack (f v) = mStack v /\ mStackTop (f v) = mStackTop v) ->
  keeps (modV f).
Proof.
  intros Hf st a st' H I. injection H as _ <-.
  destruct (Hf (vis st)) as (E1 & E2 & E3 & E4 & E5 & E6 & E7 & E8).
  split; [| exact E8].
  eapply Inv_ext; try exact I; trivial. apply sameTrees_refl.
Qed.

Lemma keeps_drawLevel : keeps drawLevel.
Proof.
  unfold drawLevel.
  apply keeps_bind; [apply keeps_getLODState | intros state].
  apply keeps_bind; [apply keeps_getV | intros v].
  apply keeps_bind.
  - destruct (mTreeMgrDEM v); [| apply keeps_ret].
    apply keeps_bind; [apply keeps_assert | intros _].
    apply keeps_bind; [apply keeps_liftO | intros ptr].
    apply keeps_bind; [apply keeps_rdAddRenderFlag | intros _].
    apply keeps_modV_render. intros []. repeat split.
  - intros _. destruct (mTreeMgrIMG v); [| apply keeps_ret].
    apply keeps_bind; [apply keeps_assert | intros _].
    apply keeps_bind; [apply keeps_liftO | intros ptr].
    apply keeps_modV_render. intros []. repeat split.
Qed.

Lemma keeps_testVisible tileId mgr : keeps (testVisible tileId mgr).
Proof.
  unfold testVisible.
  apply keeps_bind; [apply keeps_getLODState | intros state].
  apply keeps_bind; [apply keeps_getV | intros v].
  apply keeps_bind; [apply keeps_getH | intros h].
  apply keeps_bind; [apply keeps_liftO | intros ptr].
  apply keeps_bind; [apply keeps_liftO | intros rd].
  destruct (testInFrustum _ _); [apply keeps_liftO | apply keeps_ret].
Qed.

Lemma keeps_testNeedRefine tileId : keeps (testNeedRefine tileId).
Proof.
  unfold testNeedRefine.
  apply keeps_bind; [apply keeps_getLODState | intros state].
  destruct (isNull _); [apply keeps_ret |].
  apply keeps_bind; [apply keeps_getV | intros v].
  apply keeps_bind; [apply keeps_getH | intros h].
  apply keeps_bind; [apply keeps_liftO | intros ptr].
  apply keeps_bind; [apply keeps_liftO | intros rd].
  apply keeps_ret.
Qed.

(** Requests for the children of a node of the tree. *)
Lemma keeps_addLoadChildrenDEM node a :
  mD = Some a -> inTree (treeOf h0 tD) node -> keeps (addLoadChildrenDEM node).
Proof.
  intros Hmgr Hin st u st' H I.
  pose proof (addLoadChildren_spec mTreeMgrDEM pushLoadDEM
                ltac:(intros ? []; reflexivity) ltac:(intros ? []; reflexivity)
                addLoadChildrenDEM addLoadChildrenDEM_eq node a st) as L.
  cbv zeta in L. rewrite H in L.
  destruct L as (Hv & Ht & _); [rewrite (inv_mgrDEM _ _ _ _ _ _ I); exact Hmgr |].
  rewrite fold_pushDEM in Hv.
  split; [| rewrite Hv; reflexivity].
  destruct I. constructor; rewrite ?Hv; trivial.
  - eapply sameTrees_trans; eauto.
  - cbn. apply Forall_app. split; [exact inv_loadDEM0 |].
    unfold loadsChildren. destruct node as [| tile c0 c1 c2 c3]; [constructor |].
    cbn [isNull negb andb nodeLevel].
    destruct (Z.ltb_spec (getLevel tile) (mMaxLevel (hParams (heap st)))) as [Hl | Hl];
      [| constructor].
    destruct Hin as [Hnull | [place Hat]]; [discriminate |].
    apply (missingChildIds_ok _ _ place); trivial.
    destruct inv_heap0 as [HP _]. rewrite <- HP. exact Hl.
Qed.

Lemma keeps_addLoadChildrenIMG node a :
  mI = Some a -> inTree (treeOf h0 tI) node -> keeps (addLoadChildrenIMG node).
Proof.
  intros Hmgr Hin st u st' H I.
  pose proof (addLoadChildren_spec mTreeMgrIMG pushLoadIMG
                ltac:(intros ? []; reflexivity) ltac:(intros ? []; reflexivity)
                addLoadChildrenIMG addLoadChildrenIMG_eq node a st) as L.
  cbv zeta in L. rewrite H in L.
  destruct L as (Hv & Ht & _); [rewrite (inv_mgrIMG _ _ _ _ _ _ I); exact Hmgr |].
  rewrite fold_pushIMG in Hv.
  split; [| rewrite Hv; reflexivity].
  destruct I. constructor; rewrite ?Hv; trivial.
  - eapply sameTrees_trans; eauto.
  - cbn. apply Forall_app. split; [exact inv_loadIMG0 |].
    unfold loadsChildren. destruct node as [| tile c0 c1 c2 c3]; [constructor |].
    cbn [isNull negb andb nodeLevel].
    destruct (Z.ltb_spec (getLevel tile) (mMaxLevel (hParams (heap st)))) as [Hl | Hl];
      [| constructor].
    destruct Hin as [Hnull | [place Hat]]; [discriminate |].
    apply (missingChildIds_ok _ _ place); trivial.
    destruct inv_heap0 as [HP _]. rewrite <- HP. exact Hl.
Qed.

(** The nodes of the current state belong to the trees. *)
Lemma top_inTree st state :
  Inv st -> 0 <= mStackTop (vis st) ->
  mStack (vis st) !! Z.to_nat (mStackTop (vis st)) = Some state ->
  inTree (treeOf h0 tD) (mNodeDEM state) /\ inTree (treeOf h0 tI) (mNodeIMG state).
Proof. intros I Htop Hs. apply (inv_stack _ _ _ _ _ _ I (mStackTop (vis st))); [lia | exact Hs]. Qed.

Lemma liftO_Some {A} (o : option A) st a st' :
  liftO o st = Some (a, st') -> st' = st /\ o = Some a.
Proof. destruct o; [| discriminate]. intros E. injection E as <- <-. auto. Qed.

Lemma available_Some (node : TileNode) (o : option bool) st b st' :
  (if isNull node then ret false else liftO o) st = Some (b, st') -> st' = st.
Proof.
  destruct (isNull node).
  - intros E. injection E as _ <-. reflexivity.
  - intros E. now apply liftO_Some in E.
Qed.

(** What [handleRefine] does once it knows which children are
    available. *)
Lemma keeps_refine nodeDEM nodeIMG mgrDEM mgrIMG (demOK imgOK : bool) :
  mgrDEM = mD -> mgrIMG = mI ->
  inTree (treeOf h0 tD) nodeDEM -> inTree (treeOf h0 tI) nodeIMG ->
  keeps (match mgrDEM, mgrIMG with
         | Some _, Some _ =>
             (if negb demOK then addLoadChildrenDEM nodeDEM else ret tt) ;;;
             (if negb imgOK then addLoadChildrenIMG nodeIMG else ret tt) ;;;
             if demOK && imgOK then ret true else drawLevel ;;; ret false
         | Some _, None =>
             if demOK then ret true
             else addLoadChildrenDEM nodeDEM ;;; drawLevel ;;; ret false
         | None, _ => ret false
         end).
Proof.
  intros HmD HmI HinD HinI.
  destruct mgrDEM as [aD |]; [| apply keeps_ret].
  destruct mgrIMG as [aI |].
  - apply keeps_bind.
    { destruct (negb demOK); [| apply keeps_ret].
      now apply (keeps_addLoadChildrenDEM _ aD). }
    intros _. apply keeps_bind.
    { destruct (negb imgOK); [| apply keeps_ret].
      now apply (keeps_addLoadChildrenIMG _ aI). }
    intros _. destruct (demOK && imgOK); [apply keeps_ret |].
    apply keeps_bind; [apply keeps_drawLevel | intros _; apply keeps_ret].
  - destruct demOK; [apply keeps_ret |].
    apply keeps_bind; [now apply (keeps_addLoadChildrenDEM _ aD) | intros _].
    apply keeps_bind; [apply keeps_drawLevel | intros _; apply keeps_ret].
Qed.

Lemma keeps_handleRefine tileId : keeps (handleRefine tileId).
Proof.
  intros st r st' H I. unfold handleRefine in H.
  apply bind_Some in H. destruct H as (state & s & Hg & H).
  apply getLODState_Some in Hg. destruct Hg as (-> & Htop & Hs). simpl in Hs.
  destruct (top_inTree _ _ I Htop Hs) as [HinD HinI].
  apply bind_Some in H. destruct H as (v & s & Hv & H). injection Hv as <- <-.
  apply bind_Some in H. destruct H as (h & s & Hh & H). injection Hh as <- <-.
  apply bind_Some in H. destruct H as (demOK & s & Hd & H).
  apply available_Some in Hd. subst s.
  apply bind_Some in H. destruct H as (imgOK & s & Hi & H).
  apply available_Some in Hi. subst s.
  eapply keeps_refine; try exact H; try exact I; trivial.
  - apply (inv_mgrDEM _ _ _ _ _ _ I).
  - apply (inv_mgrIMG _ _ _ _ _ _ I).
Qed.

Lemma keeps_visitNode tileId : keeps (visitNode tileId).
Proof.
  unfold visitNode.
  apply keeps_bind; [apply keeps_getV | intros v].
  apply keeps_bind; [apply keeps_testVisible | intros visible].
  destruct visible; [| apply keeps_ret].
  apply keeps_bind; [apply keeps_testNeedRefine | intros needRefine].
  destruct needRefine; [apply keeps_handleRefine |].
  apply keeps_bind; [apply keeps_drawLevel | intros _; apply keeps_ret].
Qed.

Lemma keeps_setRd rd :
  keeps (modLODState (setRdDEM rd)) /\ keeps (modLODState (setRdIMG rd)).
Proof. split; apply keeps_modLODState; intros []; split; reflexivity. Qed.

Lemma keeps_preVisitRoot tileId : keeps (preVisitRoot tileId).
Proof.
  unfold preVisitRoot.
  apply keeps_bind; [apply keeps_getLODState | intros state].
  apply keeps_bind; [apply keeps_getV | intros v].
  apply keeps_bind; [apply keeps_getH | intros h].
  apply keeps_bind.
  { destruct (mTreeMgrDEM v); [| apply keeps_setRd].
    destruct (negb _); [| apply keeps_setRd].
    apply keeps_bind; [apply keeps_setRd | intros _; apply keeps_rdSetLastFrame]. }
  intros _. apply keeps_bind; [apply keeps_getH | intros h'].
  apply keeps_bind.
  { destruct (mTreeMgrIMG v); [| apply keeps_setRd].
    destruct (negb _); [| apply keeps_setRd].
    apply keeps_bind; [apply keeps_setRd | intros _; apply keeps_rdSetLastFrame]. }
  intros _. apply keeps_visitNode.
Qed.

Lemma keeps_preVisit tileId : keeps (preVisit tileId).
Proof.
  unfold preVisit.
  apply keeps_bind; [apply keeps_getLODState | intros state].
  apply keeps_bind; [apply keeps_getLODState | intros stateP].
  apply keeps_bind; [apply keeps_getV | intros v].
  apply keeps_bind; [apply keeps_getH | intros h].
  apply keeps_bind.
  { destruct (mTreeMgrDEM v); [| apply keeps_setRd].
    destruct (negb _); [| apply keeps_setRd].
    apply keeps_bind; [apply keeps_setRd | intros _; apply keeps_rdSetLastFrame]. }
  intros _. apply keeps_bind; [apply keeps_getH | intros h'].
  apply keeps_bind.
  { destruct (mTreeMgrIMG v); [| apply keeps_setRd].
    destruct (negb _); [| apply keeps_setRd].
    apply keeps_bind; [apply keeps_setRd | intros _; apply keeps_rdSetLastFrame]. }
  intros _. apply keeps_visitNode.
Qed.

Lemma keeps_forEach_In {A} (l : list A) (body : A -> M unit) :
  (forall a, In a l -> keeps (body a)) -> keeps (forEach l body).
Proof.
  induction l as [| a rest IH]; intros Hb; [apply keeps_ret |].
  cbn [forEach]. apply keeps_bind; [apply Hb; now left | intros _].
  apply IH. intros b Hin. apply Hb. now right.
Qed.

(** Descending: a state is pushed and given its nodes. *)
Lemma enter_Some nodeDEM nodeIMG st u s u' st' :
  pushState st = Some (u, s) ->
  modLODState (setNodes nodeDEM nodeIMG) s = Some (u', st') ->
  inTree (treeOf h0 tD) nodeDEM -> inTree (treeOf h0 tI) nodeIMG ->
  -1 <= mStackTop (vis st) ->
  Inv st -> Inv st' /\ mStackTop (vis st') = mStackTop (vis st) + 1.
Proof.
  intros Hp Hm HinD HinI Hge I.
  apply pushState_Some in Hp. destruct Hp as [-> _].
  apply modLODState_Some in Hm. destruct Hm as (state & Htop & Hlook & ->).
  destruct st as [v h]. destruct v as [? ? ? ? ? ? ? ? ? stack top ? ? ? ? ? ? ?]. cbn in *.
  split; [| reflexivity]. destruct I. constructor; cbn in *; trivial.
  intros k s Hk Hs.
  destruct (decide (k = top + 1)) as [-> | Hne].
  - rewrite list_lookup_insert_eq in Hs by (eapply lookup_lt_Some; eauto).
    injection Hs as <-. cbn. auto.
  - rewrite list_lookup_insert_ne in Hs by lia.
    apply (inv_stack0 k); [lia | exact Hs].
Qed.

(** Returning: the state is popped. *)
Lemma leave_Some st u st' :
  popState st = Some (u, st') ->
  Inv st -> Inv st' /\ mStackTop (vis st') = mStackTop (vis st) - 1.
Proof.
  intros Hp I. apply popState_Some in Hp. subst st'.
  destruct st as [v h]. destruct v. cbn in *.
  split; [| reflexivity]. destruct I. constructor; cbn in *; trivial.
  intros k s Hk Hs. apply (inv_stack0 k); [lia | exact Hs].
Qed.

(** The child pointer a state's node contributes to the child state. *)
Lemma child_Some tree node i st child st' :
  inTree tree node ->
  (if isNull node then ret NullNode else liftO (getChild node i)) st = Some (child, st') ->
  st' = st /\ inTree tree child.
Proof.
  intros Hin. destruct (isNull node) eqn:Hnull.
  - intros E. injection E as <- <-. split; [reflexivity | now left].
  - intros E. apply liftO_Some in E. destruct E as [-> Hc]. split; [reflexivity |].
    destruct Hin as [Hn | [place Hat]]; [congruence |].
    right. exists (HEALPix.getChildTileId place i). eapply atChild; eauto.
Qed.

Section Traversal.
Context `{Externals}.

Lemma keeps_visitLevel fuel tileId : keeps (visitLevel fuel tileId).
Proof.
  revert tileId. induction fuel as [| fuel IH]; intros tileId; [apply keeps_fail |].
  cbn [visitLevel]. apply keeps_forEach. intros i st u st' H0 I. unfold visitChild in H0.
  apply bind_Some in H0. destruct H0 as (state & s & Hg & H0).
  apply getLODState_Some in Hg. destruct Hg as (-> & Htop & Hs). simpl in Hs.
  destruct (top_inTree _ _ I Htop Hs) as [HinD HinI].
  apply bind_Some in H0. destruct H0 as (childDEM & s & Hc & H0).
  apply (child_Some _ _ _ _ _ _ HinD) in Hc. destruct Hc as [-> HcD].
  apply bind_Some in H0. destruct H0 as (childIMG & s & Hc & H0).
  apply (child_Some _ _ _ _ _ _ HinI) in Hc. destruct Hc as [-> HcI].
  apply bind_Some in H0. destruct H0 as (u1 & s1 & Hpush & H0).
  apply bind_Some in H0. destruct H0 as (u2 & s2 & Hset & H0).
  destruct (enter_Some _ _ _ _ _ _ _ Hpush Hset HcD HcI ltac:(lia) I) as [I2 T2].
  apply bind_Some in H0. destruct H0 as (descend & s3 & Hpre & H0).
  destruct (keeps_preVisit _ _ _ _ Hpre I2) as [I3 T3].
  apply bind_Some in H0. destruct H0 as (u4 & s4 & Hrec & Hpop).
  assert (K : keeps (if descend then visitLevel fuel (HEALPix.getChildTileId tileId i)
                     else ret tt))
    by (destruct descend; [apply IH | apply keeps_ret]).
  destruct (K _ _ _ Hrec I3) as [I4 T4].
  destruct (leave_Some _ _ _ Hpop I4) as [I5 T5].
  split; [exact I5 | lia].
Qed.

Lemma keeps_visitRoot rootDEM rootIMG st u st' :
  inTree (treeOf h0 tD) rootDEM -> inTree (treeOf h0 tI) rootIMG ->
  visitRoot rootDEM rootIMG st = Some (u, st') ->
  -1 <= mStackTop (vis st) ->
  Inv st -> Inv st' /\ mStackTop (vis st') = mStackTop (vis st).
Proof.
  intros HinD HinI H0 Hge I. unfold visitRoot in H0.
  destruct (getTileId _) as [tileId |]; [| injection H0 as _ <-; auto].
  apply bind_Some in H0. destruct H0 as (u1 & s1 & Hpush & H0).
  apply bind_Some in H0. destruct H0 as (u2 & s2 & Hset & H0).
  destruct (enter_Some _ _ _ _ _ _ _ Hpush Hset HinD HinI Hge I) as [I2 T2].
  apply bind_Some in H0. destruct H0 as (descend & s3 & Hpre & H0).
  destruct (keeps_preVisitRoot _ _ _ _ Hpre I2) as [I3 T3].
  apply bind_Some in H0. destruct H0 as (u4 & s4 & Hrec & H0).
  assert (K : keeps (if descend then visitLevel (Z.to_nat sMaxStackDepth) tileId
                     else ret tt))
    by (destruct descend; [apply keeps_visitLevel | apply keeps_ret]).
  destruct (K _ _ _ Hrec I3) as [I4 T4].
  apply bind_Some in H0. destruct H0 as (u5 & s5 & Hpost & Hpop).
  injection Hpost as _ <-.
  destruct (leave_Some _ _ _ Hpop I4) as [I5 T5].
  split; [exact I5 | lia].
Qed.

End Traversal.
End Invariant.

Lemma root_inTree h tree i : 0 <= i < 12 ->
  inTree (treeOf h tree)
    (match tree with
     | Some a => TileQuadTree.getRoot (getTree (treeMgr h a)) i
     | None => NullNode
     end).
Proof.
  intros Hi. destruct tree as [a |]; [| now left].
  right. exists (mkTileId 0 i). now apply atRoot.
Qed.

Lemma forEach_roots_Some `{Externals} (h0 : Heap) (tD tI mD mI : option TreeMgrAddr)
    (body : Z -> M unit) (l : list Z) :
  (forall i st u st', In i l -> body i st = Some (u, st') ->
     mStackTop (vis st) = -1 -> TraversalInv h0 tD tI mD mI st ->
     TraversalInv h0 tD tI mD mI st' /\ mStackTop (vis st') = -1) ->
  forall st u st', forEach l body st = Some (u, st') ->
     mStackTop (vis st) = -1 -> TraversalInv h0 tD tI mD mI st ->
     TraversalInv h0 tD tI mD mI st'.
Proof.
  induction l as [| i rest IH]; intros Hb st u st' H0 Htop I.
  - injection H0 as _ <-. exact I.
  - cbn [forEach] in H0. apply bind_Some in H0. destruct H0 as (u1 & s1 & H1 & H2).
    destruct (Hb i _ _ _ ltac:(now left) H1 Htop I) as [I1 T1].
    apply (IH ltac:(intros; eapply Hb; eauto; now right) _ _ _ H2 T1 I1).
Qed.

(** [preTraverse] returns, and sets the invariant up. *)
Lemma preTraverse_inv `{Externals} (st : VState) :
  treeConsistent (treeOf (heap st) (mTreeDEM (vis st))) ->
  treeConsistent (treeOf (heap st) (mTreeIMG (vis st))) ->
  exists proceed st1,
    preTraverse st = Some (proceed, st1) /\
    mStackTop (vis st1) = -1 /\
    TraversalInv (heap st) (mTreeDEM (vis st)) (mTreeIMG (vis st))
      (mTreeMgrDEM (vis st)) (mTreeMgrIMG (vis st)) st1.
Proof.
  intros consD consI.
  destruct (preTraverse_eq st) as (st1 & Hpre & Hh & HlD & HlI & _ & _ & Htop & _ & _ &
                                   HtD & HtI & HmD & HmI & _ & _).
  cbv zeta in *. eexists _, st1. split; [exact Hpre |]. split; [exact Htop |].
  constructor; trivial.
  - rewrite Hh. apply sameTrees_refl.
  - rewrite HlD. now apply missingRoots_ok.
  - rewrite HlI. now apply missingRoots_ok.
  - intros k state Hk. lia.
Qed.

(** A traversal that returns leaves the invariant behind. *)
Lemma visit_inv `{Externals} (st st' : VState) :
  treeConsistent (treeOf (heap st) (mTreeDEM (vis st))) ->
  treeConsistent (treeOf (heap st) (mTreeIMG (vis st))) ->
  visit st = Some (tt, st') ->
  TraversalInv (heap st) (mTreeDEM (vis st)) (mTreeIMG (vis st))
    (mTreeMgrDEM (vis st)) (mTreeMgrIMG (vis st)) st'.
Proof.
  intros consD consI Hv.
  unfold visit in Hv. apply bind_Some in Hv. destruct Hv as (proceed & s1 & Hpre & Hv).
  destruct (preTraverse_inv st consD consI) as (proceed' & s1' & Hpre' & Htop & I1).
  rewrite Hpre in Hpre'. injection Hpre' as <- <-.
  destruct proceed.
  - apply bind_Some in Hv. destruct Hv as (u & s2 & Hloop & Hpost).
    injection Hpost as <-.
    refine (forEach_roots_Some _ _ _ _ _ _ _ _ _ _ _ Hloop Htop I1).
    intros i s u' s' Hin Hbody Ht I.
    apply bind_Some in Hbody. destruct Hbody as (v & s0 & Hg & Hbody). injection Hg as <- <-.
    apply bind_Some in Hbody. destruct Hbody as (h & s0 & Hg & Hbody). injection Hg as <- <-.
    apply In_zrange in Hin.
    assert (EH : forall a, getTree (treeMgr (heap s) a) = getTree (treeMgr (heap st) a))
      by (intros a; apply (inv_heap _ _ _ _ _ _ I)).
    destruct (keeps_visitRoot (heap st) _ _ _ _ consD consI _ _ _ _ _
                (root_inTree (heap st) (mTreeDEM (vis st)) i ltac:(lia))
                (root_inTree (heap st) (mTreeIMG (vis st)) i ltac:(lia))
                ltac:(rewrite <- (inv_treeDEM _ _ _ _ _ _ I), <- (inv_treeIMG _ _ _ _ _ _ I);
                      destruct (mTreeDEM (vis s)), (mTreeIMG (vis s));
                      rewrite <- ?EH; exact Hbody)
                ltac:(lia) I) as [I2 T2].
    split; [exact I2 | lia].
  - injection Hv as <-. exact I1.
Qed.

(** The invariant, read in the state it holds of. *)
Lemma inv_requests (h0 : Heap) (tD tI mD mI : option TreeMgrAddr) (st : VState) :
  TraversalInv h0 tD tI mD mI st ->
  sameTrees h0 (heap st) /\ mTreeDEM (vis st) = tD /\ mTreeIMG (vis st) = tI /\
  Forall (requestOk (treeOf (heap st) (mTreeDEM (vis st))) (mMaxLevel (hParams (heap st))))
         (mLoadDEM (vis st)) /\
  Forall (requestOk (treeOf (heap st) (mTreeIMG (vis st))) (mMaxLevel (hParams (heap st))))
         (mLoadIMG (vis st)).
Proof.
  intros [E1 E2 _ _ Hs LD LI _].
  assert (ED : treeOf (heap st) (mTreeDEM (vis st)) = treeOf h0 tD).
  { rewrite E1. destruct tD; [apply Hs | reflexivity]. }
  assert (EI : treeOf (heap st) (mTreeIMG (vis st)) = treeOf h0 tI).
  { rewrite E2. destruct tI; [apply Hs | reflexivity]. }
  rewrite ED, EI. pose proof Hs as [EP Ht]. rewrite EP.
  split; [exact Hs |]. repeat split; trivial.
Qed.

(** C4, as amended. Over trees that carry, at every place, a node with
    the id of that place: [preTraverse] returns, and a traversal that
    returns has left the trees as they were; after either, every id
    of [mLoadDEM] and of [mLoadIMG] names no node of the corresponding
    tree and has a level between 0 and [max 0 mMaxLevel]: an id of
    level 1 or more is at most [mMaxLevel], an id of level 0 is
    requested whatever [mMaxLevel] is. *)
Theorem visit_requests_absent_and_bounded `{Externals} (st : VState) :
  treeConsistent (treeOf (heap st) (mTreeDEM (vis st))) ->
  treeConsistent (treeOf (heap st) (mTreeIMG (vis st))) ->
  (exists proceed st1,
     preTraverse st = Some (proceed, st1) /\
     sameTrees (heap st) (heap st1) /\
     mTreeDEM (vis st1) = mTreeDEM (vis st) /\ mTreeIMG (vis st1) = mTreeIMG (vis st) /\
     Forall (requestOk (treeOf (heap st1) (mTreeDEM (vis st1))) (mMaxLevel (hParams (heap st1))))
            (mLoadDEM (vis st1)) /\
     Forall (requestOk (treeOf (heap st1) (mTreeIMG (vis st1))) (mMaxLevel (hParams (heap st1))))
            (mLoadIMG (vis st1))) /\
  (forall st',
     visit st = Some (tt, st') ->
     sameTrees (heap st) (heap st') /\
     mTreeDEM (vis st') = mTreeDEM (vis st) /\ mTreeIMG (vis st') = mTreeIMG (vis st) /\
     Forall (requestOk (treeOf (heap st') (mTreeDEM (vis st'))) (mMaxLevel (hParams (heap st'))))
            (mLoadDEM (vis st')) /\
     Forall (requestOk (treeOf (heap st') (mTreeIMG (vis st'))) (mMaxLevel (hParams (heap st'))))
            (mLoadIMG (vis st'))).
Proof.
  intros consD consI. split.
  - destruct (preTraverse_inv st consD consI) as (proceed & st1 & Hpre & _ & I1).
    exists proceed, st1. split; [exact Hpre |]. exact (inv_requests _ _ _ _ _ _ I1).
  - intros st' Hv. exact (inv_requests _ _ _ _ _ _ (visit_inv st st' consD consI Hv)).
Qed.

End Requests.

(** ** A traversal that runs *)

(** [testVisible] on a state whose DEM render data is at hand. *)
Lemma testVisible_eq tileId mgr st state ptr rd :
  (0 <= mStackTop (vis st))%Z ->
  mStack (vis st) !! Z.to_nat (mStackTop (vis st)) = Some state ->
  mRdDEM state = Some ptr ->
  readRd (heap st) ptr = Some rd ->
  testVisible tileId mgr st =
  if testInFrustum (mFrustumMS (mCullData (vis st))) (getBounds rd) then
    match testFrontFacing (mCamPos (mCullData (vis st))) (hParams (heap st)) (getBounds rd)
            (option_map (treeMgr (heap st)) mgr) with
    | Some frontFacing => Some (frontFacing, st)
    | None => None
    end
  else Some (false, st).
Proof.
  intros Htop Hstate Hptr Hrd.
  unfold testVisible. unfold bind at 1. rewrite (getLODState_top _ _ Htop Hstate).
  munfold. rewrite Hptr. cbn. rewrite Hrd. cbn.
  destruct (testInFrustum _ _); [| reflexivity].
  destruct (testFrontFacing _ _ _ _); reflexivity.
Qed.

(** Below the minimum level [testNeedRefine] asks for refinement
    whatever the ratio is. *)
Lemma testNeedRefine_forced tileId st state ptr rd :
  (0 <= mStackTop (vis st))%Z ->
  mStack (vis st) !! Z.to_nat (mStackTop (vis st)) = Some state ->
  isNull (mNodeDEM state) = false ->
  mRdDEM state = Some ptr ->
  readRd (heap st) ptr = Some rd ->
  (mMinLevel (hParams (heap st)) > level tileId)%Z ->
  testNeedRefine tileId st = Some (true, st).
Proof.
  intros Htop Hstate Hnode Hptr Hrd Hmin.
  unfold testNeedRefine. unfold bind at 1. rewrite (getLODState_top _ _ Htop Hstate).
  rewrite Hnode. munfold. rewrite Hptr. cbn. rewrite Hrd. cbn.
  destruct (Z.gtb_spec (mMinLevel (hParams (heap st))) (level tileId)); [reflexivity | lia].
Qed.

Section Frames.
Local Open Scope Z_scope.

Lemma frames_ret {A} (a : A) : frames (ret a).
Proof. intros st a' st' E. injection E as _ <-. reflexivity. Qed.

Lemma frames_fail {A} : frames (@fail A).
Proof. intros st a st' E. discriminate. Qed.

Lemma frames_bind {A B} (m : M A) (k : A -> M B) :
  frames m -> (forall a, frames (k a)) -> frames (bind m k).
Proof.
  intros Hm Hk st b st' E. unfold bind in E.
  destruct (m st) as [[a s] |] eqn:Em; [| discriminate].
  rewrite (Hk a _ _ _ E). exact (Hm _ _ _ Em).
Qed.

Lemma frames_liftO {A} (o : option A) : frames (liftO o).
Proof. destruct o; [apply frames_ret | apply frames_fail]. Qed.

Lemma frames_assert b : frames (assert_ b).
Proof. destruct b; [apply frames_ret | apply frames_fail]. Qed.

Lemma frames_getV : frames getV.
Proof. intros st a st' E. injection E as _ <-. reflexivity. Qed.

Lemma frames_getH : frames getH.
Proof. intros st a st' E. injection E as _ <-. reflexivity. Qed.

Lemma frames_modH f : frames (modH f).
Proof. intros st a st' E. injection E as _ <-. reflexivity. Qed.

Lemma frames_modV f : (forall v, frame (f v) = frame v) -> frames (modV f).
Proof. intros Hf st a st' E. injection E as _ <-. apply Hf. Qed.

Lemma frames_forEach {A} (l : list A) (body : A -> M unit) :
  (forall a, frames (body a)) -> frames (forEach l body).
Proof.
  intros Hb. induction l as [| a rest IH]; [apply frames_ret |].
  cbn [forEach]. apply frames_bind; [apply Hb | intros _; exact IH].
Qed.

Lemma frames_getLODState lvl : frames (getLODState lvl).
Proof.
  unfold getLODState. apply frames_bind; [apply frames_getV | intros v].
  apply frames_bind; [apply frames_assert | intros _; apply frames_liftO].
Qed.

Lemma frames_rdSetLastFrame rd frameCount : frames (rdSetLastFrame rd frameCount).
Proof.
  unfold rdSetLastFrame. apply frames_bind; [apply frames_liftO | intros ptr].
  apply frames_bind; [apply frames_getH | intros h].
  apply frames_bind; [apply frames_liftO | intros old; apply frames_modH].
Qed.

Lemma frames_rdAddRenderFlag rd : frames (rdAddRenderFlag rd).
Proof.
  unfold rdAddRenderFlag. apply frames_bind; [apply frames_liftO | intros ptr].
  apply frames_bind; [apply frames_getH | intros h].
  apply frames_bind; [apply frames_liftO | intros old; apply frames_modH].
Qed.

Lemma frames_addLoadChildrenDEM node : frames (addLoadChildrenDEM node).
Proof.
  unfold addLoadChildrenDEM. apply frames_bind; [apply frames_getH | intros h].
  destruct node as [| tile c0 c1 c2 c3]; [apply frames_ret |].
  destruct (_ <? _); [| apply frames_ret].
  apply frames_bind; [apply frames_liftO | intros tileId].
  apply frames_forEach. intros i.
  apply frames_bind; [apply frames_liftO | intros child].
  destruct (isNull child); [apply frames_modV; intros []; reflexivity |].
  apply frames_bind; [apply frames_getV | intros v].
  apply frames_bind; [apply frames_getH | intros h'].
  apply frames_bind; [apply frames_liftO | intros mgr; apply frames_rdSetLastFrame].
Qed.

Lemma frames_addLoadChildrenIMG node : frames (addLoadChildrenIMG node).
Proof.
  unfold addLoadChildrenIMG. apply frames_bind; [apply frames_getH | intros h].
  destruct node as [| tile c0 c1 c2 c3]; [apply frames_ret |].
  destruct (_ <? _); [| apply frames_ret].
  apply frames_bind; [apply frames_liftO | intros tileId].
  apply frames_forEach. intros i.
  apply frames_bind; [apply frames_liftO | intros child].
  destruct (isNull child); [apply frames_modV; intros []; reflexivity |].
  apply frames_bind; [apply frames_getV | intros v].
  apply frames_bind; [apply frames_getH | intros h'].
  apply frames_bind; [apply frames_liftO | intros mgr; apply frames_rdSetLastFrame].
Qed.

Lemma frames_drawLevel : frames drawLevel.
Proof.
  unfold drawLevel.
  apply frames_bind; [apply frames_getLODState | intros state].
  apply frames_bind; [apply frames_getV | intros v].
  apply frames_bind.
  - destruct (mTreeMgrDEM v); [| apply frames_ret].
    apply frames_bind; [apply frames_assert | intros _].
    apply frames_bind; [apply frames_liftO | intros ptr].
    apply frames_bind; [apply frames_rdAddRenderFlag | intros _].
    apply frames_modV. intros []. reflexivity.
  - intros _. destruct (mTreeMgrIMG v); [| apply frames_ret].
    apply frames_bind; [apply frames_assert | intros _].
    apply frames_bind; [apply frames_liftO | intros ptr].
    apply frames_modV. intros []. reflexivity.
Qed.

Lemma frames_handleRefine tileId : frames (handleRefine tileId).
Proof.
  unfold handleRefine.
  apply frames_bind; [apply frames_getLODState | intros state].
  apply frames_bind; [apply frames_getV | intros v].
  apply frames_bind; [apply frames_getH | intros h].
  apply frames_bind; [destruct (isNull _); [apply frames_ret | apply frames_liftO] |].
  intros demOK.
  apply frames_bind; [destruct (isNull _); [apply frames_ret | apply frames_liftO] |].
  intros imgOK.
  destruct (mTreeMgrDEM v); [| apply frames_ret].
  destruct (mTreeMgrIMG v).
  - apply frames_bind;
      [destruct (negb demOK); [apply frames_addLoadChildrenDEM | apply frames_ret] |].
    intros _. apply frames_bind;
      [destruct (negb imgOK); [apply frames_addLoadChildrenIMG | apply frames_ret] |].
    intros _. destruct (demOK && imgOK); [apply frames_ret |].
    apply frames_bind; [apply frames_drawLevel | intros _; apply frames_ret].
  - destruct demOK; [apply frames_ret |].
    apply frames_bind; [apply frames_addLoadChildrenDEM | intros _].
    apply frames_bind; [apply frames_drawLevel | intros _; apply frames_ret].
Qed.

(** What a frame fixes. *)
Lemma frame_fields v v' :
  frame v' = frame v ->
  mTreeMgrDEM v' = mTreeMgrDEM v /\ mTreeMgrIMG v' = mTreeMgrIMG v /\
  mTreeDEM v' = mTreeDEM v /\ mTreeIMG v' = mTreeIMG v /\
  mStack v' = mStack v /\ mStackTop v' = mStackTop v /\
  mCullData v' = mCullData v /\ mLodData v' = mLodData v /\
  mFrameCount v' = mFrameCount v.
Proof. destruct v, v'. unfold frame. cbn. intros E. injection E. intros. subst. repeat split. Qed.

Lemma rdKept_refl h : rdKept h h.
Proof. intros p. exists (fun rd => rd). split; [| auto]. destruct (readRd h p); reflexivity. Qed.

Lemma rdKept_trans h1 h2 h3 : rdKept h1 h2 -> rdKept h2 h3 -> rdKept h1 h3.
Proof.
  intros K1 K2 p. destruct (K1 p) as (f1 & E1 & B1), (K2 p) as (f2 & E2 & B2).
  exists (fun rd => f2 (f1 rd)). split.
  - rewrite E2, E1. destruct (readRd h1 p); reflexivity.
  - intros rd. destruct (B1 rd), (B2 (f1 rd)). split; congruence.
Qed.

Lemma rdKept_stamp h p frameCount rd :
  readRd h p = Some rd -> rdKept h (writeRd p (setLastFrame frameCount rd) h).
Proof.
  intros Hrd q. rewrite readRd_writeRd. case_decide as E.
  - subst q. exists (setLastFrame frameCount). rewrite Hrd. split; [reflexivity |].
    intros []; split; reflexivity.
  - exists (fun rd => rd). split; [| auto]. destruct (readRd h q); reflexivity.
Qed.

Lemma rdKept_Some h h' p rd :
  rdKept h h' -> readRd h p = Some rd ->
  exists rd', readRd h' p = Some rd' /\ getBounds rd' = getBounds rd /\
              getTexLayer rd' = getTexLayer rd.
Proof.
  intros K Hrd. destruct (K p) as (f & E & B). rewrite Hrd in E.
  exists (f rd). split; [exact E | apply B].
Qed.

End Frames.

Section RootVisit.
Local Open Scope Z_scope.

Lemma pushState_eq st :
  mStackTop (vis st) + 1 < sMaxStackDepth ->
  pushState st =
  Some (tt, mkVState (set_mStackTop (mStackTop (vis st) + 1) (vis st)) (heap st)).
Proof.
  intros Hlt. unfold pushState. munfold. destruct st as [v h]. cbn in *.
  replace (mStackTop (set_mStackTop (mStackTop v + 1) v)) with (mStackTop v + 1)
    by (destruct v; reflexivity).
  destruct (Z.ltb_spec (mStackTop v + 1) sMaxStackDepth); [reflexivity | lia].
Qed.

Lemma modLODState_eq f st state :
  0 <= mStackTop (vis st) ->
  mStack (vis st) !! Z.to_nat (mStackTop (vis st)) = Some state ->
  modLODState f st =
  Some (tt, mkVState (set_mStack (<[Z.to_nat (mStackTop (vis st)) := f state]>
                                    (mStack (vis st))) (vis st)) (heap st)).
Proof.
  intros Htop Hstate. unfold modLODState. unfold bind at 1.
  rewrite (getLODState_top _ _ Htop Hstate). reflexivity.
Qed.

Lemma popState_eq st :
  popState st = Some (tt, mkVState (set_mStackTop (mStackTop (vis st) - 1) (vis st)) (heap st)).
Proof. reflexivity. Qed.

(** [preVisitRoot] with both channels attached, on a state whose two
    nodes have render data: the pointers are stored in the state, the
    frame is stamped on both, and [visitNode] takes over. *)
Lemma preVisitRoot_both tileId st state aD aI idD idI rdD rdI :
  0 <= mStackTop (vis st) ->
  mStack (vis st) !! Z.to_nat (mStackTop (vis st)) = Some state ->
  mTreeMgrDEM (vis st) = Some aD -> mTreeMgrIMG (vis st) = Some aI ->
  getTileId (mNodeDEM state) = Some idD -> getTileId (mNodeIMG state) = Some idI ->
  readRd (heap st) (aD, idD) = Some rdD -> readRd (heap st) (aI, idI) = Some rdI ->
  aD <> aI ->
  preVisitRoot tileId st =
  visitNode tileId
    (mkVState
       (set_mStack
          (<[Z.to_nat (mStackTop (vis st)) :=
               mkLODState (mNodeDEM state) (mNodeIMG state) (Some (aD, idD)) (Some (aI, idI))]>
             (mStack (vis st)))
          (vis st))
       (writeRd (aI, idI) (setLastFrame (mFrameCount (vis st)) rdI)
          (writeRd (aD, idD) (setLastFrame (mFrameCount (vis st)) rdD) (heap st)))).
Proof.
  intros Htop Hstate HmD HmI HidD HidI HrdD HrdI Hne.
  assert (HnD : isNull (mNodeDEM state) = false) by (destruct (mNodeDEM state); [discriminate | reflexivity]).
  assert (HnI : isNull (mNodeIMG state) = false) by (destruct (mNodeIMG state); [discriminate | reflexivity]).
  unfold preVisitRoot. generalize (visitNode tileId). intros k.
  unfold bind at 1. rewrite (getLODState_top _ _ Htop Hstate).
  unfold bind at 1, getV at 1. unfold bind at 1, getH at 1.
  rewrite HmD, HmI, HnD, HnI. cbn [negb]. cbv zeta.
  rewrite findRData_Some, HidD, HrdD.
  unfold bind at 1. unfold bind at 1.
  rewrite (modLODState_eq _ _ _ Htop Hstate).
  rewrite rdSetLastFrame_eq. cbn [heap vis]. rewrite HrdD.
  unfold bind at 1, getH at 1. cbn [heap].
  rewrite findRData_Some, HidI, readRd_writeRd.
  rewrite decide_False by congruence. rewrite HrdI.
  unfold bind at 1. unfold bind at 1.
  assert (Hlen : (Z.to_nat (mStackTop (vis st)) < length (mStack (vis st)))%nat)
    by (eapply lookup_lt_Some; eauto).
  erewrite modLODState_eq.
  2: { destruct st as [[] ?]. exact Htop. }
  2: { destruct st as [[] ?]. cbn in *. apply list_lookup_insert_eq. exact Hlen. }
  rewrite rdSetLastFrame_eq. cbn [heap vis]. rewrite readRd_writeRd.
  rewrite decide_False by congruence. rewrite HrdI.
  f_equal. destruct st as [[] ?]. cbn in *. rewrite list_insert_insert_eq. reflexivity.
Qed.

Context `{Externals}.

Ltac vfields :=
  cbn [vis heap mTreeDEM mTreeIMG mTreeMgrDEM mTreeMgrIMG mLodData mCullData mStack
       mStackTop mLoadDEM mLoadIMG mRenderDEM mRenderIMG mFrameCount
       set_mStack set_mStackTop] in *.

Lemma testFrontFacing_tree camPos params tb mgr mgr' :
  getTree mgr' = getTree mgr ->
  testFrontFacing camPos params tb (Some mgr') = testFrontFacing camPos params tb (Some mgr).
Proof. intros E. unfold testFrontFacing. now rewrite E. Qed.

Lemma leaf_not_ready h a tile : ~ childrenReady h a (Node tile NullNode NullNode NullNode NullNode).
Proof.
  intros Hall. destruct (Hall 0 ltac:(lia)) as (id & rd & Hp & _). discriminate.
Qed.

(** The visit of a pair of roots without children that are visible
    and lie below the minimum level: their children are requested, the
    roots themselves are drawn. *)
Lemma visitRoot_requests_children
    (st : VState) (tileD tileI : Tile) (aD aI : TreeMgrAddr) (rdD rdI : RenderData)
    (s0 : LODState) :
  let rootDEM := Node tileD NullNode NullNode NullNode NullNode in
  let rootIMG := Node tileI NullNode NullNode NullNode NullNode in
  let idD := mkTileId (getLevel tileD) (getPatchIdx tileD) in
  let idI := mkTileId (getLevel tileI) (getPatchIdx tileI) in
  mStackTop (vis st) = -1 ->
  mStack (vis st) !! 0%nat = Some s0 ->
  mTreeMgrDEM (vis st) = Some aD -> mTreeMgrIMG (vis st) = Some aI -> aD <> aI ->
  readRd (heap st) (aD, idD) = Some rdD -> readRd (heap st) (aI, idI) = Some rdI ->
  testInFrustum (mFrustumMS (mCullData (vis st))) (getBounds rdD) = true ->
  testFrontFacing (mCamPos (mCullData (vis st))) (hParams (heap st)) (getBounds rdD)
    (Some (treeMgr (heap st) aD)) = Some true ->
  mMinLevel (hParams (heap st)) > getLevel tileD ->
  exists st',
    visitRoot rootDEM rootIMG st = Some (tt, st') /\
    mLoadDEM (vis st') =
      mLoadDEM (vis st) ++
      (if loadsChildren (heap st) rootDEM then missingChildIds rootDEM (zrange 4) else []) /\
    mLoadIMG (vis st') =
      mLoadIMG (vis st) ++
      (if loadsChildren (heap st) rootIMG then missingChildIds rootIMG (zrange 4) else []) /\
    mRenderDEM (vis st') = mRenderDEM (vis st) ++ [(aD, idD)] /\
    mRenderIMG (vis st') = mRenderIMG (vis st) ++ [(aI, idI)] /\
    settings (vis st') = settings (vis st) /\
    mStackTop (vis st') = -1 /\
    length (mStack (vis st')) = length (mStack (vis st)) /\
    sameTrees (heap st) (heap st') /\
    rdKept (heap st) (heap st').
Proof.
  cbv zeta. intros Htop Hslot HmD HmI Hne HrdD HrdI Hfrustum Hfront Hmin.
  destruct st as [v h]. cbn [vis heap] in *.
  set (rootDEM := Node tileD NullNode NullNode NullNode NullNode).
  set (rootIMG := Node tileI NullNode NullNode NullNode NullNode).
  set (idD := mkTileId (getLevel tileD) (getPatchIdx tileD)) in *.
  set (idI := mkTileId (getLevel tileI) (getPatchIdx tileI)) in *.
  set (state := mkLODState rootDEM rootIMG (Some (aD, idD)) (Some (aI, idI))).
  set (h3 := writeRd (aI, idI) (setLastFrame (mFrameCount v) rdI)
               (writeRd (aD, idD) (setLastFrame (mFrameCount v) rdD) h)).
  set (v3 := set_mStack (<[0%nat := state]> (mStack v)) (set_mStackTop 0 v)).
  assert (Hlen : (0 < length (mStack v))%nat) by (eapply lookup_lt_Some; eauto).
  (* the descent to the state of the root *)
  assert (E3 : visitRoot rootDEM rootIMG (mkVState v h) =
               bind (visitNode idD)
                    (fun descend =>
                       (if descend then visitLevel (Z.to_nat sMaxStackDepth) idD else ret tt) ;;;
                       postVisitRoot idD ;;; popState) (mkVState v3 h3)).
  { unfold visitRoot. cbn [isNull getTileId rootDEM]. fold idD.
    unfold bind at 1. rewrite pushState_eq by (cbn; rewrite Htop; reflexivity).
    cbn [vis heap]. rewrite Htop. change (-1 + 1) with 0.
    unfold bind at 1.
    rewrite (modLODState_eq _ _ s0);
      [| destruct v; cbn; lia | destruct v; cbn in *; exact Hslot].
    unfold bind at 1.
    erewrite (preVisitRoot_both idD _ (setNodes rootDEM rootIMG s0) aD aI idD idI rdD rdI);
      [| destruct v; cbn; lia
       | destruct v; cbn in *; apply list_lookup_insert_eq; exact Hlen
       | destruct v; cbn in *; exact HmD
       | destruct v; cbn in *; exact HmI
       | reflexivity | reflexivity
       | exact HrdD | exact HrdI | exact Hne].
    f_equal. unfold v3, h3, state. destruct v. cbn in *.
    rewrite list_insert_insert_eq. reflexivity. }
  rewrite E3. clear E3.
  assert (Htop3 : 0 <= mStackTop v3) by (destruct v; cbn; lia).
  assert (Hstate3 : mStack v3 !! Z.to_nat (mStackTop v3) = Some state)
    by (destruct v; cbn in *; apply list_lookup_insert_eq; exact Hlen).
  assert (HmD3 : mTreeMgrDEM v3 = Some aD) by (destruct v; exact HmD).
  assert (HmI3 : mTreeMgrIMG v3 = Some aI) by (destruct v; exact HmI).
  assert (Hcull3 : mCullData v3 = mCullData v) by (destruct v; reflexivity).
  assert (Hframe3 : mFrameCount v3 = mFrameCount v) by (destruct v; reflexivity).
  assert (Ht3 : sameTrees h h3).
  { eapply sameTrees_trans; apply sameTrees_writeRd. }
  assert (K3 : rdKept h h3).
  { eapply rdKept_trans; [apply (rdKept_stamp h (aD, idD) (mFrameCount v) rdD HrdD) |].
    apply rdKept_stamp. rewrite readRd_writeRd, decide_False by congruence. exact HrdI. }
  destruct (rdKept_Some _ _ _ _ K3 HrdD) as (rdD3 & HrdD3 & HbD3 & _).
  destruct (rdKept_Some _ _ _ _ K3 HrdI) as (rdI3 & HrdI3 & _).
  (* the node is visible and must be refined *)
  unfold bind at 1. unfold visitNode. unfold bind at 1, getV at 1.
  unfold bind at 1. cbn [vis].
  rewrite (testVisible_eq _ _ (mkVState v3 h3) state (aD, idD) rdD3 Htop3 Hstate3 eq_refl HrdD3).
  cbn [vis heap]. rewrite HbD3, Hcull3, Hfrustum, HmD3. cbn [option_map].
  destruct Ht3 as [HP3 HT3].
  rewrite (testFrontFacing_tree _ _ _ (treeMgr h aD)) by apply HT3.
  rewrite HP3, Hfront.
  unfold bind at 1.
  rewrite (testNeedRefine_forced idD (mkVState v3 h3) state (aD, idD) rdD3
             Htop3 Hstate3 eq_refl eq_refl HrdD3)
    by (cbn [heap]; rewrite HP3; exact Hmin).
  (* its children are not available *)
  destruct (handleRefine_both_eq (mkVState v3 h3) idD state aD aI (aD, idD) (aI, idI)
              Htop3 Hstate3 HmD3 HmI3 eq_refl eq_refl eq_refl eq_refl)
    as (demOK & imgOK & st4 & E4 & HokD & HokI & _ & Hdraw).
  { exists rdD3. exact HrdD3. }
  { intros p (i & id & _ & Hp & _). destruct i as [| [[| |] | [| |] |] |]; discriminate. }
  { intros p (i & id & _ & Hp & _). destruct i as [| [[| |] | [| |] |] |]; discriminate. }
  assert (demOK = false) as ->.
  { destruct demOK; [| reflexivity]. exfalso.
    apply (leaf_not_ready h3 aD tileD). apply HokD. reflexivity. }
  assert (imgOK = false) as ->.
  { destruct imgOK; [| reflexivity]. exfalso.
    apply (leaf_not_ready h3 aI tileI). apply HokI. reflexivity. }
  cbn [andb] in *. rewrite E4.
  pose proof (frames_handleRefine _ _ _ _ E4) as F4. apply frame_fields in F4.
  cbn [vis] in F4.
  destruct F4 as (F1 & F2 & F3 & F4 & F5 & F6 & F7 & F8 & F9).
  destruct (Hdraw eq_refl) as (LD & LI & RD & RI & T4 & R4). clear Hdraw.
  cbn [vis heap] in *.
  eexists. split; [reflexivity |].
  rewrite (loadsChildren_sameTrees h h3) in LD, LI by (split; assumption).
  unfold v3 in *. vfields. rewrite F5, length_insert.
  repeat (split; [first [assumption | reflexivity | lia] |]).
  split; [unfold settings; vfields; congruence |].
  split; [lia |].
  split; [reflexivity |].
  split; [eapply sameTrees_trans; [split; eassumption | exact T4] |].
  eapply rdKept_trans; [exact K3 |].
  intros p. eexists. split; [apply R4 |].
  intros rd. unfold flagIf, stampIf.
  repeat match goal with |- context [if ?b then _ else _] => destruct b end;
    destruct rd; split; reflexivity.
Qed.

End RootVisit.

(** ** The bound on the recursion *)

Section Fuel.
Context `{Externals}.
Local Open Scope Z_scope.

Lemma frames_keepsTop {A} (m : M A) : frames m -> keepsTop m.
Proof. intros F st a st' E. apply (frame_fields _ _ (F _ _ _ E)). Qed.

Lemma keepsTop_bind {A B} (m : M A) (k : A -> M B) :
  keepsTop m -> (forall a, keepsTop (k a)) -> keepsTop (bind m k).
Proof.
  intros Hm Hk st b st' E. apply bind_Some in E. destruct E as (a & s & E1 & E2).
  rewrite (Hk a _ _ _ E2). exact (Hm _ _ _ E1).
Qed.

Lemma keepsTop_modLODState f : keepsTop (modLODState f).
Proof.
  intros st a st' E. apply modLODState_Some in E. destruct E as (state & _ & _ & ->).
  destruct st as [[] ?]. reflexivity.
Qed.

Lemma frames_testVisible tileId mgr : frames (testVisible tileId mgr).
Proof.
  unfold testVisible.
  apply frames_bind; [apply frames_getLODState | intros state].
  apply frames_bind; [apply frames_getV | intros v].
  apply frames_bind; [apply frames_getH | intros h].
  apply frames_bind; [apply frames_liftO | intros ptr].
  apply frames_bind; [apply frames_liftO | intros rd].
  destruct (testInFrustum _ _); [apply frames_liftO | apply frames_ret].
Qed.

Lemma frames_testNeedRefine tileId : frames (testNeedRefine tileId).
Proof.
  unfold testNeedRefine.
  apply frames_bind; [apply frames_getLODState | intros state].
  destruct (isNull _); [apply frames_ret |].
  apply frames_bind; [apply frames_getV | intros v].
  apply frames_bind; [apply frames_getH | intros h].
  apply frames_bind; [apply frames_liftO | intros ptr].
  apply frames_bind; [apply frames_liftO | intros rd].
  apply frames_ret.
Qed.

Lemma frames_visitNode tileId : frames (visitNode tileId).
Proof.
  unfold visitNode.
  apply frames_bind; [apply frames_getV | intros v].
  apply frames_bind; [apply frames_testVisible | intros visible].
  destruct visible; [| apply frames_ret].
  apply frames_bind; [apply frames_testNeedRefine | intros needRefine].
  destruct needRefine; [apply frames_handleRefine |].
  apply frames_bind; [apply frames_drawLevel | intros _; apply frames_ret].
Qed.

Lemma keepsTop_preVisit tileId : keepsTop (preVisit tileId).
Proof.
  assert (Hset : forall rd frameCount (f : option RdPtr -> LODState -> LODState),
             keepsTop (modLODState (f rd) ;;; rdSetLastFrame rd frameCount)).
  { intros rd frameCount f. apply keepsTop_bind; [apply keepsTop_modLODState | intros _].
    apply frames_keepsTop, frames_rdSetLastFrame. }
  unfold preVisit.
  apply keepsTop_bind; [apply frames_keepsTop, frames_getLODState | intros state].
  apply keepsTop_bind; [apply frames_keepsTop, frames_getLODState | intros stateP].
  apply keepsTop_bind; [apply frames_keepsTop, frames_getV | intros v].
  apply keepsTop_bind; [apply frames_keepsTop, frames_getH | intros h].
  apply keepsTop_bind.
  { destruct (mTreeMgrDEM v); [| apply keepsTop_modLODState].
    destruct (negb _); [apply (Hset _ _ setRdDEM) | apply keepsTop_modLODState]. }
  intros _. apply keepsTop_bind; [apply frames_keepsTop, frames_getH | intros h'].
  apply keepsTop_bind.
  { destruct (mTreeMgrIMG v); [| apply keepsTop_modLODState].
    destruct (negb _); [apply (Hset _ _ setRdIMG) | apply keepsTop_modLODState]. }
  intros _. apply frames_keepsTop, frames_visitNode.
Qed.

Lemma bind_ext_at {A B} (m : M A) (k k' : A -> M B) st :
  (forall a s, m st = Some (a, s) -> k a s = k' a s) -> bind m k st = bind m k' st.
Proof. intros Hk. unfold bind. destruct (m st) as [[a s] |]; [now apply Hk | reflexivity]. Qed.

Lemma keepsTop_forEach {A} (l : list A) (body : A -> M unit) :
  (forall a, keepsTop (body a)) -> keepsTop (forEach l body).
Proof.
  intros Hb. induction l as [| a rest IH].
  - intros st u st' E. injection E as _ <-. reflexivity.
  - cbn [forEach]. apply keepsTop_bind; [apply Hb | intros _; exact IH].
Qed.

Lemma child_state (node : TileNode) (o : option TileNode) st child s :
  (if isNull node then ret NullNode else liftO o) st = Some (child, s) -> s = st.
Proof.
  destruct (isNull node); [intros E; injection E as _ <-; reflexivity |].
  intros E. now apply liftO_Some in E.
Qed.

Lemma keepsTop_visitChild visitChildren tileId i :
  (forall childId, keepsTop (visitChildren childId)) ->
  keepsTop (visitChild visitChildren tileId i).
Proof.
  intros Hrec st u st' E. unfold visitChild in E.
  apply bind_Some in E. destruct E as (state & s & Hg & E).
  apply getLODState_Some in Hg. destruct Hg as (-> & _).
  apply bind_Some in E. destruct E as (childDEM & s & Hc & E).
  apply child_state in Hc. subst s.
  apply bind_Some in E. destruct E as (childIMG & s & Hc & E).
  apply child_state in Hc. subst s.
  apply bind_Some in E. destruct E as (u1 & s1 & Hpush & E).
  apply pushState_Some in Hpush. destruct Hpush as [-> _].
  apply bind_Some in E. destruct E as (u2 & s2 & Hset & E).
  apply keepsTop_modLODState in Hset.
  apply bind_Some in E. destruct E as (descend & s3 & Hpre & E).
  apply keepsTop_preVisit in Hpre.
  apply bind_Some in E. destruct E as (u4 & s4 & Hrec4 & Hpop).
  assert (Htop4 : mStackTop (vis s4) = mStackTop (vis s3)).
  { destruct descend; [exact (Hrec _ _ _ _ Hrec4) | injection Hrec4 as _ <-; reflexivity]. }
  apply popState_Some in Hpop. subst st'.
  destruct s4 as [[] ?], st as [[] ?]. cbn in *. lia.
Qed.

Lemma keepsTop_visitLevel fuel : forall tileId, keepsTop (visitLevel fuel tileId).
Proof.
  induction fuel as [| fuel IH]; intros tileId; [intros st u st' E; discriminate |].
  cbn [visitLevel]. apply keepsTop_forEach. intros i. now apply keepsTop_visitChild.
Qed.

(** On a full stack no child can be visited. *)
Lemma visitChild_full visitChildren tileId i st :
  sMaxStackDepth - 1 <= mStackTop (vis st) -> visitChild visitChildren tileId i st = None.
Proof.
  intros Htop. unfold visitChild.
  unfold bind at 1.
  destruct (getLODState (-1) st) as [[state s] |] eqn:Hg; [| reflexivity].
  apply getLODState_Some in Hg. destruct Hg as (-> & _).
  unfold bind at 1.
  match goal with |- match ?m st with _ => _ end = _ =>
    destruct (m st) as [[cD s] |] eqn:HcD; [| reflexivity] end.
  apply child_state in HcD. subst s.
  unfold bind at 1.
  match goal with |- match ?m st with _ => _ end = _ =>
    destruct (m st) as [[cI s] |] eqn:HcI; [| reflexivity] end.
  apply child_state in HcI. subst s.
  cbv zeta. unfold bind at 1.
  destruct (pushState st) as [[u s1] |] eqn:Hpush; [| reflexivity].
  apply pushState_Some in Hpush. lia.
Qed.

(** The visit of a child depends on the visit of the grandchildren
    only one level up the stack. *)
Lemma visitChild_ext visitChildren visitChildren' tileId i st :
  (forall childId s, mStackTop (vis s) = mStackTop (vis st) + 1 ->
                     visitChildren childId s = visitChildren' childId s) ->
  visitChild visitChildren tileId i st = visitChild visitChildren' tileId i st.
Proof.
  intros Hrec. unfold visitChild.
  apply bind_ext_at. intros state s Hg.
  apply getLODState_Some in Hg. destruct Hg as (-> & _).
  apply bind_ext_at. intros childDEM s Hc. apply child_state in Hc. subst s.
  apply bind_ext_at. intros childIMG s Hc. apply child_state in Hc. subst s.
  cbv zeta.
  apply bind_ext_at. intros u1 s1 Hpush.
  apply pushState_Some in Hpush. destruct Hpush as [-> _].
  apply bind_ext_at. intros u2 s2 Hset. apply keepsTop_modLODState in Hset.
  apply bind_ext_at. intros descend s3 Hpre. apply keepsTop_preVisit in Hpre.
  destruct descend; [| reflexivity].
  unfold bind. rewrite Hrec; [reflexivity |].
  rewrite Hpre, Hset. destruct st as [[] ?]. reflexivity.
Qed.

Lemma forEach_ext_at {A} (l : list A) (body body' : A -> M unit) (top : Z) :
  (forall a, keepsTop (body a)) ->
  (forall a st, mStackTop (vis st) = top -> body a st = body' a st) ->
  forall st, mStackTop (vis st) = top -> forEach l body st = forEach l body' st.
Proof.
  intros Hk Hb. induction l as [| a rest IH]; intros st Htop; [reflexivity |].
  cbn [forEach]. unfold bind. rewrite <- (Hb a st Htop).
  destruct (body a st) as [[u s] |] eqn:E; [| reflexivity].
  apply IH. rewrite (Hk _ _ _ _ E). exact Htop.
Qed.

(** The bound on the recursion of [visitLevel] is immaterial once it
    covers the room left on the stack: [pushState] fails before the
    bound is used up. *)
Lemma visitLevel_fuel fuel : forall fuel' tileId st,
  sMaxStackDepth - 1 <= mStackTop (vis st) + Z.of_nat fuel ->
  sMaxStackDepth - 1 <= mStackTop (vis st) + Z.of_nat fuel' ->
  visitLevel fuel tileId st = visitLevel fuel' tileId st.
Proof.
  assert (Hfull : forall n tileId st,
             sMaxStackDepth - 1 <= mStackTop (vis st) -> visitLevel n tileId st = None).
  { intros [| n] tileId st Htop; [reflexivity |].
    cbn [visitLevel]. change (zrange 4) with (0 :: map Z.of_nat (seq 1 3)). cbn [forEach].
    unfold bind. now rewrite visitChild_full. }
  induction fuel as [| fuel IH]; intros fuel' tileId st Hf Hf'.
  - rewrite Hfull by lia. symmetry. apply Hfull. lia.
  - destruct fuel' as [| fuel'].
    + rewrite (Hfull 0%nat) by lia. apply Hfull. lia.
    + cbn [visitLevel].
      apply (forEach_ext_at _ _ _ (mStackTop (vis st))); [| | reflexivity].
      * intros i. apply keepsTop_visitChild. intros childId. apply keepsTop_visitLevel.
      * intros i s Htop. apply visitChild_ext. intros childId s' Htop'.
        apply IH; lia.
Qed.

End Fuel.

(** ** Bounds on the refinement test *)

Section NeedRefineBounds.
Local Open Scope R_scope.

Lemma maxAngle_bounds camPos tb :
  0 <= maxAngleLoop (glm.normalize (glm.sub (boxCenter tb) camPos))
         (map (fun p => glm.normalize (glm.sub p camPos)) (tbPnts tb)) 0 <= PI.
Proof.
  destruct (maxAngle_maximum camPos tb) as [Hin _].
  apply in_map_iff in Hin. destruct Hin as (p & <- & _). apply angleTo_nonneg.
Qed.

Lemma refineRatio_eq camPos frustumES lodFactor tb :
  refineRatio camPos frustumES lodFactor tb =
  maxAngleLoop (glm.normalize (glm.sub (boxCenter tb) camPos))
    (map (fun p => glm.normalize (glm.sub p camPos)) (tbPnts tb)) 0
  / Cmp.std_max (getHorizontalFOV frustumES) (getVerticalFOV frustumES) * lodFactor.
Proof. reflexivity. Qed.

(** What [testNeedRefine] returns, when it returns. *)
Lemma testNeedRefine_Some tileId st b st' :
  testNeedRefine tileId st = Some (b, st') ->
  st' = st /\
  exists state,
    mStack (vis st) !! Z.to_nat (mStackTop (vis st)) = Some state /\
    ((isNull (mNodeDEM state) = true /\ b = false) \/
     (isNull (mNodeDEM state) = false /\
      exists ptr rd,
        mRdDEM state = Some ptr /\ readRd (heap st) ptr = Some rd /\
        b = if (mMinLevel (hParams (heap st)) >? level tileId)%Z then true
            else Cmp.gtb (refineRatio (mCamPos (mCullData (vis st)))
                            (mFrustumES (mLodData (vis st)))
                            (mLodFactor (hParams (heap st))) (getBounds rd)) 10)).
Proof.
  unfold testNeedRefine. intros E.
  apply bind_Some in E. destruct E as (state & s & Hg & E).
  apply getLODState_Some in Hg. destruct Hg as (-> & _ & Hs). cbn in Hs.
  destruct (isNull (mNodeDEM state)) eqn:Hn.
  - injection E as <- <-. split; [reflexivity |]. exists state. split; [exact Hs |]. now left.
  - apply bind_Some in E. destruct E as (v & s & Hv & E). injection Hv as <- <-.
    apply bind_Some in E. destruct E as (h & s & Hh & E). injection Hh as <- <-.
    apply bind_Some in E. destruct E as (ptr & s & Hp & E).
    apply liftO_Some in Hp. destruct Hp as [-> Hp].
    apply bind_Some in E. destruct E as (rd & s & Hr & E).
    apply liftO_Some in Hr. destruct Hr as [-> Hr].
    injection E as <- <-. split; [reflexivity |]. exists state. split; [exact Hs |].
    right. split; [exact Hn |]. exists ptr, rd. auto.
Qed.

(** X2. With a small LOD factor no tile is refined for its size: when
    the LOD factor is not negative and, times pi, at most ten times
    the field of view, which is positive, [testNeedRefine] returns
    [false] for every tile that is not below the minimum level,
    wherever the camera is and whatever the box of the render data
    of the state is. *)
Theorem testNeedRefine_never_below_factor
    (tileId : TileId) (st : VState) (state : LODState) (ptr : RdPtr) (rd : RenderData) :
  (0 <= mStackTop (vis st))%Z ->
  mStack (vis st) !! Z.to_nat (mStackTop (vis st)) = Some state ->
  mRdDEM state = Some ptr ->
  readRd (heap st) ptr = Some rd ->
  0 < lodFov (vis st) ->
  0 <= mLodFactor (hParams (heap st)) ->
  mLodFactor (hParams (heap st)) * PI <= 10 * lodFov (vis st) ->
  (mMinLevel (hParams (heap st)) <= level tileId)%Z ->
  testNeedRefine tileId st = Some (false, st).
Proof.
  intros Htop Hstate Hptr Hrd Hfov Hf Hsmall Hmin.
  unfold testNeedRefine. unfold bind at 1. rewrite (getLODState_top _ _ Htop Hstate).
  destruct (isNull (mNodeDEM state)); [reflexivity |].
  munfold. rewrite Hptr. cbn. rewrite Hrd. cbn.
  destruct (Z.gtb_spec (mMinLevel (hParams (heap st))) (level tileId)); [lia |].
  destruct (Cmp.gtb _ _) eqn:G; [| reflexivity]. exfalso.
  apply gtb_true in G. rewrite refineRatio_eq in G. fold (lodFov (vis st)) in G.
  pose proof (maxAngle_bounds (mCamPos (mCullData (vis st))) (getBounds rd)) as [Ha0 Ha1].
  set (a := maxAngleLoop _ _ _) in *.
  set (fov := lodFov (vis st)) in *. set (f := mLodFactor (hParams (heap st))) in *.
  assert (Hq : a / fov * f <= PI / fov * f).
  { apply Rmult_le_compat_r; [exact Hf |]. apply Rmult_le_compat_r; [| exact Ha1].
    left. now apply Rinv_0_lt_compat. }
  assert (Hr : PI / fov * f <= 10).
  { apply (Rmult_le_reg_r fov); [exact Hfov |].
    replace (PI / fov * f * fov) with (f * PI) by (field; lra). lra. }
  lra.
Qed.

(** X3. Raising the LOD factor or the minimum level through the
    planet's setters never turns a refinement off: a tile that
    [testNeedRefine] wants refined is still wanted refined after
    [setLODFactor] and [setMinLevel] with values that are not
    smaller, the field of view being positive. *)
Theorem testNeedRefine_monotone (p : VistaPlanet.t) (tileId : TileId)
    (lodFactor : R) (minLevel : Z) :
  0 < lodFov (VistaPlanet.mLodVisitor p) ->
  mLodFactor (hParams (VistaPlanet.mHeap p)) <= lodFactor ->
  (mMinLevel (hParams (VistaPlanet.mHeap p)) <= minLevel)%Z ->
  testNeedRefine tileId (planetState p) = Some (true, planetState p) ->
  testNeedRefine tileId
    (planetState (VistaPlanet.setMinLevel minLevel (VistaPlanet.setLODFactor lodFactor p))) =
  Some (true,
        planetState (VistaPlanet.setMinLevel minLevel (VistaPlanet.setLODFactor lodFactor p))).
Proof.
  intros Hfov Hf Hm E.
  pose proof E as E0.
  apply testNeedRefine_Some in E. destruct E as (_ & state & Hs & [[_ Hb] | (Hn & ptr & rd & Hp & Hr & Hb)]);
    [discriminate |].
  destruct p as [v r sD sI h fl calls]. unfold planetState in *. cbn in *.
  unfold testNeedRefine in *.
  destruct (getLODState (-1) {| vis := v; heap := h |}) as [[state0 s0] |] eqn:Hg;
    [| unfold bind in E0; rewrite Hg in E0; discriminate].
  pose proof Hg as Hg0. apply getLODState_Some in Hg0. destruct Hg0 as (-> & Htop & Hs0).
  cbn in Hs0. rewrite Hs0 in Hs. injection Hs as ->.
  unfold bind at 1.
  assert (Hg' : forall h', getLODState (-1) {| vis := v; heap := h' |}
                           = Some (state, {| vis := v; heap := h' |})).
  { intros h'. apply getLODState_top; [exact Htop | exact Hs0]. }
  rewrite Hg', Hn. munfold. cbn. rewrite Hp. cbn.
  unfold readRd in *. cbn. destruct ptr as [[|] id]; cbn in *; rewrite Hr; cbn.
  all: f_equal; f_equal.
  all: destruct (Z.gtb_spec minLevel (level tileId)) as [|Hlvl]; [reflexivity |].
  all: destruct (Z.gtb_spec (mMinLevel (hParams h)) (level tileId)); [lia |].
  all: symmetry in Hb; apply gtb_true in Hb; apply gtb_true.
  all: rewrite refineRatio_eq in *.
  all: pose proof (maxAngle_bounds (mCamPos (mCullData v)) (getBounds rd)) as [Ha0 _].
  all: fold (lodFov v) in *; set (a := maxAngleLoop _ _ _) in *.
  all: assert (Hq : 0 <= a / lodFov v)
         by (apply Rmult_le_pos; [exact Ha0 | left; now apply Rinv_0_lt_compat]).
  all: nra.
Qed.

End NeedRefineBounds.

(** ** When the horizon test returns *)

Section FrontFacingReturns.

Lemma minHeightLoop_Some tree indices : forall m0,
  is_Some (minHeightLoop tree indices m0) <-> forall i, In i indices -> rootUsable tree i.
Proof.
  induction indices as [| i rest IH]; intros m0; cbn [minHeightLoop].
  - split; [intros _ i [] | eauto].
  - destruct (TileQuadTree.getRoot tree i) as [| tile c0 c1 c2 c3] eqn:Hroot.
    { split; [intros [x Hx]; discriminate |].
      intros Hall. destruct (Hall i (or_introl eq_refl)) as (t & ? & ? & ? & ? & E & _).
      congruence. }
    destruct (getDataType tile) eqn:Htype.
    + rewrite IH. split.
      * intros Hall j [<- | Hj]; [| now apply Hall].
        exists tile, c0, c1, c2, c3. auto.
      * intros Hall j Hj. apply Hall. now right.
    + split; [intros [x Hx]; discriminate |].
      intros Hall. destruct (Hall i (or_introl eq_refl)) as (t & ? & ? & ? & ? & E & Ht).
      rewrite Hroot in E. injection E as <- _ _ _ _. congruence.
Qed.

(** X15. [testFrontFacing] returns exactly when it is given a manager
    whose tree has all twelve roots, each with an elevation tile.
    Otherwise it does not return: the assertion on the manager fails,
    an absent root is dereferenced, or the [dynamic_cast] of a tile
    of the other type throws. *)
Theorem testFrontFacing_returns_iff
    (camPos : glm.dvec3) (params : PlanetParameters) (tb : BoundingBox)
    (treeMgrDEM : option TreeManager) :
  is_Some (testFrontFacing camPos params tb treeMgrDEM) <->
  exists mgr, treeMgrDEM = Some mgr /\
              forall i, (0 <= i < 12)%Z -> rootUsable (getTree mgr) i.
Proof.
  unfold testFrontFacing. destruct treeMgrDEM as [mgr |].
  2: { split; [intros [x Hx]; discriminate | intros (m & Hm & _); discriminate]. }
  pose proof (minHeightLoop_Some (getTree mgr) (zrange 12) FLT_MAX) as L.
  destruct (minHeightLoop (getTree mgr) (zrange 12) FLT_MAX) as [m |].
  - split; [| eauto]. intros _. exists mgr. split; [reflexivity |].
    intros i Hi. apply (proj1 L); [eauto |]. now apply (In_zrange 12).
  - split; [intros [x Hx]; discriminate |].
    intros (m & Hm & Hall). injection Hm as <-.
    assert (Hn : @is_Some R None); [| destruct Hn; discriminate].
    apply (proj2 L). intros i Hi. apply Hall. now apply (In_zrange 12) in Hi.
Qed.

End FrontFacingReturns.

(** ** What the visit of a node leaves alone *)

Section VisitKeeps.
Import LODVisitor.
Local Open Scope Z_scope.

Lemma touched_refl frameCount rd : touched frameCount rd rd.
Proof. repeat split; auto. Qed.

Lemma touched_trans frameCount rd1 rd2 rd3 :
  touched frameCount rd1 rd2 -> touched frameCount rd2 rd3 -> touched frameCount rd1 rd3.
Proof.
  intros (B1 & L1 & F1 & R1) (B2 & L2 & F2 & R2).
  repeat split; [congruence | congruence | | auto].
  destruct F2 as [F2 | F2]; [rewrite F2; exact F1 | now right].
Qed.

Lemma touchedAll_refl frameCount h p :
  option_Forall2 (touched frameCount) (readRd h p) (readRd h p).
Proof. destruct (readRd h p); constructor. apply touched_refl. Qed.

Lemma visitKeeps_refl frameCount st : visitKeeps frameCount st st.
Proof.
  split; [apply sameTrees_refl |]. split; [intros p; apply touchedAll_refl |].
  repeat split; reflexivity.
Qed.

Lemma shell_fields v v' :
  shell v' = shell v ->
  mStackTop v' = mStackTop v /\ mFrameCount v' = mFrameCount v /\
  mTreeMgrDEM v' = mTreeMgrDEM v /\ mTreeMgrIMG v' = mTreeMgrIMG v.
Proof. destruct v, v'. unfold shell, frame. cbn. intros E. injection E. intros. subst. auto. Qed.

Lemma visitKeeps_trans frameCount st1 st2 st3 :
  visitKeeps frameCount st1 st2 -> visitKeeps frameCount st2 st3 ->
  visitKeeps frameCount st1 st3.
Proof.
  intros (T1 & R1 & S1 & L1 & K1 & PD1 & PI1 & RD1 & RI1)
         (T2 & R2 & S2 & L2 & K2 & PD2 & PI2 & RD2 & RI2).
  destruct (shell_fields _ _ S1) as (Etop & _).
  split; [eapply sameTrees_trans; eassumption |].
  split.
  { intros p. specialize (R1 p). specialize (R2 p).
    destruct R1 as [rd1 rd2 H12 |]; inversion R2; subst; constructor.
    eapply touched_trans; eassumption. }
  split; [congruence |]. split; [congruence |].
  split; [intros i Hi; rewrite K2 by congruence; now apply K1 |].
  repeat split; etrans; eassumption.
Qed.

Lemma visits_pure {A} frameCount (m : M A) :
  (forall st a st', m st = Some (a, st') -> st' = st) -> visits frameCount m.
Proof. intros Hm st a st' _ E. rewrite (Hm _ _ _ E). apply visitKeeps_refl. Qed.

Lemma visits_ret {A} frameCount (a : A) : visits frameCount (ret a).
Proof. apply visits_pure. intros st a' st' E. now injection E as _ <-. Qed.

Lemma visits_fail {A} frameCount : visits frameCount (@fail A).
Proof. intros st a st' _ E. discriminate. Qed.

Lemma visits_liftO {A} frameCount (o : option A) : visits frameCount (liftO o).
Proof. destruct o; [apply visits_ret | apply visits_fail]. Qed.

Lemma visits_assert frameCount b : visits frameCount (assert_ b).
Proof. destruct b; [apply visits_ret | apply visits_fail]. Qed.

Lemma visits_getH frameCount : visits frameCount getH.
Proof. apply visits_pure. intros st a st' E. now injection E as _ <-. Qed.

Lemma visits_getLODState frameCount lvl : visits frameCount (getLODState lvl).
Proof. apply visits_pure. intros st a st' E. now apply getLODState_Some in E. Qed.

Lemma visits_bind {A B} frameCount (m : M A) (k : A -> M B) :
  visits frameCount m -> (forall a, visits frameCount (k a)) -> visits frameCount (bind m k).
Proof.
  intros Hm Hk st b st' Hf E. apply bind_Some in E. destruct E as (a & s & E1 & E2).
  pose proof (Hm _ _ _ Hf E1) as K1.
  eapply visitKeeps_trans; [exact K1 |]. eapply Hk; [| exact E2].
  destruct K1 as (_ & _ & S1 & _). destruct (shell_fields _ _ S1) as (_ & -> & _). exact Hf.
Qed.

(** After [getV] the frame count read is the one of the frame. *)
Lemma visits_getV {A} frameCount (k : LODVisitor -> M A) :
  (forall v, mFrameCount v = frameCount -> visits frameCount (k v)) ->
  visits frameCount (bind getV k).
Proof. intros Hk st b st' Hf E. exact (Hk (vis st) Hf st b st' Hf E). Qed.

Lemma visits_forEach {A} frameCount (l : list A) (body : A -> M unit) :
  (forall a, visits frameCount (body a)) -> visits frameCount (forEach l body).
Proof.
  intros Hb. induction l as [| a rest IH]; [apply visits_ret |].
  cbn [forEach]. apply visits_bind; [apply Hb | intros _; exact IH].
Qed.

(** An assignment to the visitor that only makes lists longer. *)
Lemma visits_modV frameCount (f : LODVisitor -> LODVisitor) :
  (forall v, shell (f v) = shell v /\ mStack (f v) = mStack v /\
             mLoadDEM v `prefix_of` mLoadDEM (f v) /\
             mLoadIMG v `prefix_of` mLoadIMG (f v) /\
             mRenderDEM v `prefix_of` mRenderDEM (f v) /\
             mRenderIMG v `prefix_of` mRenderIMG (f v)) ->
  visits frameCount (modV f).
Proof.
  intros Hf st a st' _ E. injection E as _ <-. unfold visitKeeps. cbn [vis heap].
  destruct (Hf (vis st)) as (S & K & PD & PI & RD & RI).
  split; [apply sameTrees_refl |]. split; [intros p; apply touchedAll_refl |].
  split; [exact S |]. rewrite K. repeat split; assumption.
Qed.

Lemma visits_modLODState frameCount f : visits frameCount (modLODState f).
Proof.
  intros st a st' _ E. apply modLODState_Some in E. destruct E as (state & Htop & Hs & ->).
  cbn [vis heap].
  split; [apply sameTrees_refl |]. split; [intros p; apply touchedAll_refl |].
  destruct st as [v h]. cbn [vis heap] in *. destruct v. cbn in *.
  split; [reflexivity |]. split; [apply length_insert |].
  split; [intros i Hi; apply list_lookup_insert_ne; congruence |].
  repeat split; reflexivity.
Qed.

(** A write to one render data object that [touched] allows. *)
Lemma visitKeeps_writeRd frameCount v h p old new :
  readRd h p = Some old -> touched frameCount old new ->
  visitKeeps frameCount (mkVState v h) (mkVState v (writeRd p new h)).
Proof.
  intros Hold Ht. unfold visitKeeps. cbn [vis heap].
  split; [apply sameTrees_writeRd |].
  split.
  { intros q. rewrite readRd_writeRd. case_decide as E.
    - subst q. rewrite Hold. now constructor.
    - apply touchedAll_refl. }
  repeat split; reflexivity.
Qed.

Lemma visits_rdSetLastFrame frameCount rd : visits frameCount (rdSetLastFrame rd frameCount).
Proof.
  intros st a st' _ E. destruct rd as [p |]; [| discriminate].
  rewrite rdSetLastFrame_eq in E. destruct (readRd (heap st) p) as [old |] eqn:Hold;
    [| discriminate].
  injection E as _ <-. destruct st as [v h]. eapply visitKeeps_writeRd; [exact Hold |].
  repeat split; auto.
Qed.

Lemma visits_rdAddRenderFlag frameCount rd : visits frameCount (rdAddRenderFlag rd).
Proof.
  intros st a st' _ E. destruct rd as [p |]; [| discriminate].
  rewrite rdAddRenderFlag_eq in E. destruct (readRd (heap st) p) as [old |] eqn:Hold;
    [| discriminate].
  injection E as _ <-. destruct st as [v h]. eapply visitKeeps_writeRd; [exact Hold |].
  repeat split; auto.
Qed.

Ltac grows :=
  intros []; cbn; repeat split;
  first [reflexivity | now apply prefix_app_r].

Lemma visits_addLoadChildrenDEM frameCount node : visits frameCount (addLoadChildrenDEM node).
Proof.
  unfold addLoadChildrenDEM. apply visits_bind; [apply visits_getH | intros h].
  destruct node as [| tile c0 c1 c2 c3]; [apply visits_ret |].
  destruct (_ <? _); [| apply visits_ret].
  apply visits_bind; [apply visits_liftO | intros tileId].
  apply visits_forEach. intros i.
  apply visits_bind; [apply visits_liftO | intros child].
  destruct (isNull child); [apply visits_modV; grows |].
  apply visits_getV. intros v <-.
  apply visits_bind; [apply visits_getH | intros h'].
  apply visits_bind; [apply visits_liftO | intros mgr; apply visits_rdSetLastFrame].
Qed.

Lemma visits_addLoadChildrenIMG frameCount node : visits frameCount (addLoadChildrenIMG node).
Proof.
  unfold addLoadChildrenIMG. apply visits_bind; [apply visits_getH | intros h].
  destruct node as [| tile c0 c1 c2 c3]; [apply visits_ret |].
  destruct (_ <? _); [| apply visits_ret].
  apply visits_bind; [apply visits_liftO | intros tileId].
  apply visits_forEach. intros i.
  apply visits_bind; [apply visits_liftO | intros child].
  destruct (isNull child); [apply visits_modV; grows |].
  apply visits_getV. intros v <-.
  apply visits_bind; [apply visits_getH | intros h'].
  apply visits_bind; [apply visits_liftO | intros mgr; apply visits_rdSetLastFrame].
Qed.

Lemma visits_drawLevel frameCount : visits frameCount drawLevel.
Proof.
  unfold drawLevel.
  apply visits_bind; [apply visits_getLODState | intros state].
  apply visits_getV. intros v _.
  apply visits_bind.
  - destruct (mTreeMgrDEM v); [| apply visits_ret].
    apply visits_bind; [apply visits_assert | intros _].
    apply visits_bind; [apply visits_liftO | intros ptr].
    apply visits_bind; [apply visits_rdAddRenderFlag | intros _].
    apply visits_modV. grows.
  - intros _. destruct (mTreeMgrIMG v); [| apply visits_ret].
    apply visits_bind; [apply visits_assert | intros _].
    apply visits_bind; [apply visits_liftO | intros ptr].
    apply visits_modV. grows.
Qed.

Lemma visits_handleRefine frameCount tileId : visits frameCount (handleRefine tileId).
Proof.
  unfold handleRefine.
  apply visits_bind; [apply visits_getLODState | intros state].
  apply visits_getV. intros v _.
  apply visits_bind; [apply visits_getH | intros h].
  apply visits_bind; [destruct (isNull _); [apply visits_ret | apply visits_liftO] |].
  intros demOK.
  apply visits_bind; [destruct (isNull _); [apply visits_ret | apply visits_liftO] |].
  intros imgOK.
  destruct (mTreeMgrDEM v); [| apply visits_ret].
  destruct (mTreeMgrIMG v).
  - apply visits_bind;
      [destruct (negb demOK); [apply visits_addLoadChildrenDEM | apply visits_ret] |].
    intros _. apply visits_bind;
      [destruct (negb imgOK); [apply visits_addLoadChildrenIMG | apply visits_ret] |].
    intros _. destruct (demOK && imgOK); [apply visits_ret |].
    apply visits_bind; [apply visits_drawLevel | intros _; apply visits_ret].
  - destruct demOK; [apply visits_ret |].
    apply visits_bind; [apply visits_addLoadChildrenDEM | intros _].
    apply visits_bind; [apply visits_drawLevel | intros _; apply visits_ret].
Qed.

(** [testVisible] and [testNeedRefine] only read. *)
Lemma testVisible_pure tileId mgr st b st' :
  testVisible tileId mgr st = Some (b, st') -> st' = st.
Proof.
  unfold testVisible. intros E.
  apply bind_Some in E. destruct E as (state & s & Hg & E).
  apply getLODState_Some in Hg. destruct Hg as (-> & _ & _).
  apply bind_Some in E. destruct E as (v & s & Hv & E). injection Hv as <- <-.
  apply bind_Some in E. destruct E as (h & s & Hh & E). injection Hh as <- <-.
  apply bind_Some in E. destruct E as (ptr & s & Hp & E).
  apply liftO_Some in Hp. destruct Hp as [-> Hp].
  apply bind_Some in E. destruct E as (rd & s & Hr & E).
  apply liftO_Some in Hr. destruct Hr as [-> Hr].
  destruct (testInFrustum _ _).
  - now apply liftO_Some in E.
  - now injection E as _ <-.
Qed.

Lemma testNeedRefine_pure tileId st b st' :
  testNeedRefine tileId st = Some (b, st') -> st' = st.
Proof.
  unfold testNeedRefine. intros E.
  apply bind_Some in E. destruct E as (state & s & Hg & E).
  apply getLODState_Some in Hg. destruct Hg as (-> & _ & _).
  destruct (isNull (mNodeDEM state)); [now injection E as _ <- |].
  apply bind_Some in E. destruct E as (v & s & Hv & E). injection Hv as <- <-.
  apply bind_Some in E. destruct E as (h & s & Hh & E). injection Hh as <- <-.
  apply bind_Some in E. destruct E as (ptr & s & Hp & E).
  apply liftO_Some in Hp. destruct Hp as [-> Hp].
  apply bind_Some in E. destruct E as (rd & s & Hr & E).
  apply liftO_Some in Hr. destruct Hr as [-> Hr].
  now injection E as _ <-.
Qed.

Lemma visits_visitNode frameCount tileId : visits frameCount (visitNode tileId).
Proof.
  unfold visitNode.
  apply visits_getV. intros v _.
  apply visits_bind; [apply visits_pure, testVisible_pure | intros visible].
  destruct visible; [| apply visits_ret].
  apply visits_bind; [apply visits_pure, testNeedRefine_pure | intros needRefine].
  destruct needRefine; [apply visits_handleRefine |].
  apply visits_bind; [apply visits_drawLevel | intros _; apply visits_ret].
Qed.

(** The two assignments to the state on top of the stack that open
    [preVisitRoot] and [preVisit]. *)
Lemma visits_setRd frameCount (set : option RdPtr -> LODState -> LODState)
    (mgr : option TreeMgrAddr) (node : TileNode) (h : Heap) (other : option RdPtr) :
  visits frameCount
    (match mgr with
     | Some mgr =>
         if negb (isNull node) then
           let rd := findRData h mgr node in
           modLODState (set rd) ;;; rdSetLastFrame rd frameCount
         else modLODState (set other)
     | None => modLODState (set other)
     end).
Proof.
  destruct mgr as [mgr |]; [| apply visits_modLODState].
  destruct (negb _); [| apply visits_modLODState]. cbv zeta.
  apply visits_bind; [apply visits_modLODState | intros _; apply visits_rdSetLastFrame].
Qed.

Lemma visits_preVisitRoot frameCount tileId : visits frameCount (preVisitRoot tileId).
Proof.
  unfold preVisitRoot.
  apply visits_bind; [apply visits_getLODState | intros state].
  apply visits_getV. intros v <-.
  apply visits_bind; [apply visits_getH | intros h].
  apply visits_bind; [apply (visits_setRd _ setRdDEM) |].
  intros _. apply visits_bind; [apply visits_getH | intros h'].
  apply visits_bind; [apply (visits_setRd _ setRdIMG) |].
  intros _. apply visits_visitNode.
Qed.

Lemma visits_preVisit frameCount tileId : visits frameCount (preVisit tileId).
Proof.
  unfold preVisit.
  apply visits_bind; [apply visits_getLODState | intros state].
  apply visits_bind; [apply visits_getLODState | intros stateP].
  apply visits_getV. intros v <-.
  apply visits_bind; [apply visits_getH | intros h].
  apply visits_bind; [apply (visits_setRd _ setRdDEM) |].
  intros _. apply visits_bind; [apply visits_getH | intros h'].
  apply visits_bind; [apply (visits_setRd _ setRdIMG) |].
  intros _. apply visits_visitNode.
Qed.

End VisitKeeps.

(** ** The outcome of the visit of a node *)

Section VisitOutcome.
Import LODVisitor.
Local Open Scope Z_scope.

(** What [testVisible] needs to return. *)
Lemma testVisible_Some tileId mgr st b st' :
  testVisible tileId mgr st = Some (b, st') ->
  st' = st /\ 0 <= mStackTop (vis st) /\
  exists state ptr rd,
    mStack (vis st) !! Z.to_nat (mStackTop (vis st)) = Some state /\
    mRdDEM state = Some ptr /\ readRd (heap st) ptr = Some rd.
Proof.
  intros E. split; [eapply testVisible_pure; exact E |].
  unfold testVisible in E.
  apply bind_Some in E. destruct E as (state & s & Hg & E).
  apply getLODState_Some in Hg. destruct Hg as (-> & Htop & Hs). cbn in Hs.
  apply bind_Some in E. destruct E as (v & s & Hv & E). injection Hv as <- <-.
  apply bind_Some in E. destruct E as (h & s & Hh & E). injection Hh as <- <-.
  apply bind_Some in E. destruct E as (ptr & s & Hp & E).
  apply liftO_Some in Hp. destruct Hp as [-> Hp].
  apply bind_Some in E. destruct E as (rd & s & Hr & E).
  apply liftO_Some in Hr. destruct Hr as [-> Hr].
  split; [exact Htop |]. exists state, ptr, rd. auto.
Qed.

(** [visitNode] starts with [testVisible]. *)
Lemma visitNode_Some tileId st b st' :
  visitNode tileId st = Some (b, st') ->
  0 <= mStackTop (vis st) /\
  exists state ptr rd,
    mStack (vis st) !! Z.to_nat (mStackTop (vis st)) = Some state /\
    mRdDEM state = Some ptr /\ readRd (heap st) ptr = Some rd.
Proof.
  unfold visitNode. intros E.
  apply bind_Some in E. destruct E as (v & s & Hv & E). injection Hv as <- <-.
  apply bind_Some in E. destruct E as (visible & s & Hvis & _).
  now apply testVisible_Some in Hvis.
Qed.

(** The assignment to the state on top of the stack that opens
    [preVisitRoot] and [preVisit], for one channel. *)
Lemma setRd_Some (set : option RdPtr -> LODState -> LODState)
    (mgr : option TreeMgrAddr) (node : TileNode) (other : option RdPtr) (frameCount : Z)
    st u st' :
  (match mgr with
   | Some mgr =>
       if negb (isNull node) then
         let rd := findRData (heap st) mgr node in
         modLODState (set rd) ;;; rdSetLastFrame rd frameCount
       else modLODState (set other)
   | None => modLODState (set other)
   end) st = Some (u, st') ->
  exists state,
    0 <= mStackTop (vis st) /\
    mStack (vis st) !! Z.to_nat (mStackTop (vis st)) = Some state /\
    match mgr with
    | Some a =>
        if isNull node then
          st' = mkVState (set_mStack (<[Z.to_nat (mStackTop (vis st)) := set other state]>
                                        (mStack (vis st))) (vis st)) (heap st)
        else
          exists id old,
            getTileId node = Some id /\ readRd (heap st) (a, id) = Some old /\
            st' = mkVState (set_mStack (<[Z.to_nat (mStackTop (vis st)) :=
                                            set (Some (a, id)) state]>
                                          (mStack (vis st))) (vis st))
                           (writeRd (a, id) (setLastFrame frameCount old) (heap st))
    | None =>
        st' = mkVState (set_mStack (<[Z.to_nat (mStackTop (vis st)) := set other state]>
                                      (mStack (vis st))) (vis st)) (heap st)
    end.
Proof.
  intros E. destruct mgr as [a |].
  - destruct (isNull node) eqn:Hn; cbn [negb] in E.
    + apply modLODState_Some in E. destruct E as (state & Htop & Hs & ->). eauto.
    + cbv zeta in E. apply bind_Some in E. destruct E as ([] & s & Em & Er).
      apply modLODState_Some in Em. destruct Em as (state & Htop & Hs & ->).
      exists state. split; [exact Htop |]. split; [exact Hs |].
      rewrite findRData_Some in Er.
      destruct (getTileId node) as [id |]; [| discriminate].
      destruct (readRd (heap st) (a, id)) as [old0 |] eqn:Hold0; [| discriminate].
      rewrite rdSetLastFrame_eq in Er. cbn [heap vis] in Er. rewrite Hold0 in Er.
      injection Er as <-. exists id, old0. auto.
  - apply modLODState_Some in E. destruct E as (state & Htop & Hs & ->). eauto.
Qed.

(** The stack after an assignment to its top. *)
Lemma top_after_set v (state : LODState) :
  0 <= mStackTop v ->
  (Z.to_nat (mStackTop v) < length (mStack v))%nat ->
  let v' := set_mStack (<[Z.to_nat (mStackTop v) := state]> (mStack v)) v in
  mStackTop v' = mStackTop v /\ mFrameCount v' = mFrameCount v /\
  mTreeMgrDEM v' = mTreeMgrDEM v /\ mTreeMgrIMG v' = mTreeMgrIMG v /\
  mStack v' !! Z.to_nat (mStackTop v') = Some state.
Proof.
  intros Htop Hlen. destruct v. cbn in *. repeat split.
  now apply list_lookup_insert_eq.
Qed.

(** The part [preVisitRoot] and [preVisit] share, from the state the
    two assignments start in. *)
Lemma preVisit_head (otherDEM otherIMG : option RdPtr) tileId st b st' state :
  mStack (vis st) !! Z.to_nat (mStackTop (vis st)) = Some state ->
  ((match mTreeMgrDEM (vis st) with
    | Some mgr =>
        if negb (isNull (mNodeDEM state)) then
          let rd := findRData (heap st) mgr (mNodeDEM state) in
          modLODState (setRdDEM rd) ;;; rdSetLastFrame rd (mFrameCount (vis st))
        else modLODState (setRdDEM otherDEM)
    | None => modLODState (setRdDEM otherDEM)
    end) ;;;
   h <- getH ;;
   (match mTreeMgrIMG (vis st) with
    | Some mgr =>
        if negb (isNull (mNodeIMG state)) then
          let rd := findRData h mgr (mNodeIMG state) in
          modLODState (setRdIMG rd) ;;; rdSetLastFrame rd (mFrameCount (vis st))
        else modLODState (setRdIMG otherIMG)
    | None => modLODState (setRdIMG otherIMG)
    end) ;;;
   visitNode tileId) st = Some (b, st') ->
  exists state',
    mStackTop (vis st') = mStackTop (vis st) /\
    mStack (vis st') !! Z.to_nat (mStackTop (vis st)) = Some state' /\
    mNodeDEM state' = mNodeDEM state /\ mNodeIMG state' = mNodeIMG state /\
    is_Some (mRdDEM state') /\
    match mTreeMgrDEM (vis st) with
    | Some a =>
        if isNull (mNodeDEM state) then mRdDEM state' = otherDEM
        else stampedFor a (mNodeDEM state) (mRdDEM state') (mFrameCount (vis st)) (heap st')
    | None => mRdDEM state' = otherDEM
    end /\
    match mTreeMgrIMG (vis st) with
    | Some a =>
        if isNull (mNodeIMG state) then mRdIMG state' = otherIMG
        else stampedFor a (mNodeIMG state) (mRdIMG state') (mFrameCount (vis st)) (heap st')
    | None => mRdIMG state' = otherIMG
    end.
Proof.
  intros Hstate E.
  apply bind_Some in E. destruct E as ([] & s1 & E1 & E).
  apply bind_Some in E. destruct E as (h1 & s & Hh & E). injection Hh as <- <-.
  apply bind_Some in E. destruct E as ([] & s2 & E2 & E3).
  (* the DEM channel *)
  pose proof (visits_setRd (mFrameCount (vis st)) setRdDEM _ _ (heap st) otherDEM
                st tt s1 eq_refl E1) as K1.
  apply setRd_Some in E1. destruct E1 as (state0 & Htop & Hs0 & R1).
  rewrite Hstate in Hs0. injection Hs0 as <-.
  assert (Hlen : (Z.to_nat (mStackTop (vis st)) < length (mStack (vis st)))%nat)
    by (eapply lookup_lt_Some; eauto).
  set (rD := match mTreeMgrDEM (vis st) with
             | Some a => if isNull (mNodeDEM state) then otherDEM
                         else option_map (pair a) (getTileId (mNodeDEM state))
             | None => otherDEM
             end).
  assert (V1 : vis s1 = set_mStack (<[Z.to_nat (mStackTop (vis st)) := setRdDEM rD state]>
                                      (mStack (vis st))) (vis st)).
  { unfold rD. destruct (mTreeMgrDEM (vis st)) as [a |]; [| now subst s1].
    destruct (isNull (mNodeDEM state)); [now subst s1 |].
    destruct R1 as (id & old & Hid & _ & ->). now rewrite Hid. }
  destruct (top_after_set (vis st) (setRdDEM rD state) Htop Hlen)
    as (T1 & F1 & MD1 & MI1 & L1).
  cbv zeta in T1, F1, MD1, MI1, L1. rewrite <- V1 in T1, F1, MD1, MI1, L1.
  (* the IMG channel *)
  assert (K2 : visitKeeps (mFrameCount (vis st)) s1 s2).
  { eapply (visits_setRd (mFrameCount (vis st)) setRdIMG); [exact F1 |].
    rewrite <- MI1 in E2. exact E2. }
  pose proof E2 as E2'. rewrite <- MI1 in E2'.
  apply setRd_Some in E2'. destruct E2' as (state1 & Htop1 & Hs1 & R2).
  rewrite L1 in Hs1. injection Hs1 as <-.
  assert (Hlen1 : (Z.to_nat (mStackTop (vis s1)) < length (mStack (vis s1)))%nat)
    by (eapply lookup_lt_Some; eauto).
  set (rI := match mTreeMgrIMG (vis s1) with
             | Some a => if isNull (mNodeIMG state) then otherIMG
                         else option_map (pair a) (getTileId (mNodeIMG state))
             | None => otherIMG
             end).
  assert (V2 : vis s2 = set_mStack (<[Z.to_nat (mStackTop (vis s1)) :=
                                        setRdIMG rI (setRdDEM rD state)]>
                                      (mStack (vis s1))) (vis s1)).
  { unfold rI. cbn [mNodeIMG setRdDEM] in R2.
    destruct (mTreeMgrIMG (vis s1)) as [a |]; [| now subst s2].
    destruct (isNull (mNodeIMG state)); [now subst s2 |].
    destruct R2 as (id & old & Hid & _ & ->). now rewrite Hid. }
  destruct (top_after_set (vis s1) (setRdIMG rI (setRdDEM rD state)) Htop1 Hlen1)
    as (T2 & F2 & MD2 & MI2 & L2).
  cbv zeta in T2, F2, MD2, MI2, L2. rewrite <- V2 in T2, F2, MD2, MI2, L2.
  (* the visit of the node *)
  assert (K3 : visitKeeps (mFrameCount (vis st)) s2 st').
  { eapply visits_visitNode; [| exact E3]. congruence. }
  pose proof (frames_visitNode _ _ _ _ E3) as F3. apply frame_fields in F3.
  destruct F3 as (_ & _ & _ & _ & St3 & T3 & _).
  destruct (visitNode_Some _ _ _ _ E3) as (_ & state2 & ptr & rd & Hs2 & Hptr & _).
  rewrite L2 in Hs2. injection Hs2 as <-.
  exists (setRdIMG rI (setRdDEM rD state)).
  split; [congruence |].
  split; [rewrite St3, <- T1, <- T2; exact L2 |].
  split; [reflexivity |]. split; [reflexivity |].
  split; [rewrite Hptr; eauto |].
  assert (K23 : visitKeeps (mFrameCount (vis st)) s1 st')
    by (eapply visitKeeps_trans; eassumption).
  cbn [mRdDEM mRdIMG setRdIMG setRdDEM].
  split.
  - unfold rD. destruct (mTreeMgrDEM (vis st)) as [a |]; [| reflexivity].
    destruct (isNull (mNodeDEM state)); [reflexivity |].
    destruct R1 as (id & old & Hid & Hold & ->). rewrite Hid. cbn [option_map].
    destruct K23 as (_ & Kr & _). specialize (Kr (a, id)).
    cbn [heap] in Kr. rewrite readRd_writeRd, decide_True in Kr by reflexivity.
    destruct (readRd (heap st') (a, id)) as [rd' |] eqn:Hrd'; [| inversion Kr].
    inversion Kr as [x y (_ & _ & Hl & _) |]; subst.
    exists id, rd'. split; [exact Hid |]. split; [reflexivity |].
    split; [exact Hrd' |]. cbn in Hl. destruct Hl; congruence.
  - unfold rI. rewrite <- MI1. destruct (mTreeMgrIMG (vis s1)) as [a |]; [| reflexivity].
    destruct (isNull (mNodeIMG state)); [reflexivity |].
    destruct R2 as (id & old & Hid & Hold & ->). rewrite Hid. cbn [option_map].
    destruct K3 as (_ & Kr & _). specialize (Kr (a, id)).
    cbn [heap] in Kr. rewrite readRd_writeRd, decide_True in Kr by reflexivity.
    destruct (readRd (heap st') (a, id)) as [rd' |] eqn:Hrd'; [| inversion Kr].
    inversion Kr as [x y (_ & _ & Hl & _) |]; subst.
    exists id, rd'. split; [exact Hid |]. split; [reflexivity |].
    split; [exact Hrd' |]. cbn in Hl. destruct Hl; congruence.
Qed.

Lemma preVisitRoot_head tileId st b st' :
  preVisitRoot tileId st = Some (b, st') ->
  exists state,
    mStack (vis st) !! Z.to_nat (mStackTop (vis st)) = Some state /\
    ((match mTreeMgrDEM (vis st) with
      | Some mgr =>
          if negb (isNull (mNodeDEM state)) then
            let rd := findRData (heap st) mgr (mNodeDEM state) in
            modLODState (setRdDEM rd) ;;; rdSetLastFrame rd (mFrameCount (vis st))
          else modLODState (setRdDEM None)
      | None => modLODState (setRdDEM None)
      end) ;;;
     h <- getH ;;
     (match mTreeMgrIMG (vis st) with
      | Some mgr =>
          if negb (isNull (mNodeIMG state)) then
            let rd := findRData h mgr (mNodeIMG state) in
            modLODState (setRdIMG rd) ;;; rdSetLastFrame rd (mFrameCount (vis st))
          else modLODState (setRdIMG None)
      | None => modLODState (setRdIMG None)
      end) ;;;
     visitNode tileId) st = Some (b, st').
Proof.
  unfold preVisitRoot. intros E.
  apply bind_Some in E. destruct E as (state & s & Hg & E).
  apply getLODState_Some in Hg. destruct Hg as (-> & _ & Hs). cbn in Hs.
  apply bind_Some in E. destruct E as (v & s & Hv & E). injection Hv as <- <-.
  apply bind_Some in E. destruct E as (h & s & Hh & E). injection Hh as <- <-.
  exists state. split; [exact Hs | exact E].
Qed.

Lemma preVisit_head_eq tileId st b st' :
  preVisit tileId st = Some (b, st') ->
  exists state stateP,
    mStack (vis st) !! Z.to_nat (mStackTop (vis st)) = Some state /\
    mStack (vis st) !! Z.to_nat (if 0 <=? level tileId - 1 then level tileId - 1
                                 else mStackTop (vis st)) = Some stateP /\
    ((match mTreeMgrDEM (vis st) with
      | Some mgr =>
          if negb (isNull (mNodeDEM state)) then
            let rd := findRData (heap st) mgr (mNodeDEM state) in
            modLODState (setRdDEM rd) ;;; rdSetLastFrame rd (mFrameCount (vis st))
          else modLODState (setRdDEM (mRdDEM stateP))
      | None => modLODState (setRdDEM (mRdDEM stateP))
      end) ;;;
     h <- getH ;;
     (match mTreeMgrIMG (vis st) with
      | Some mgr =>
          if negb (isNull (mNodeIMG state)) then
            let rd := findRData h mgr (mNodeIMG state) in
            modLODState (setRdIMG rd) ;;; rdSetLastFrame rd (mFrameCount (vis st))
          else modLODState (setRdIMG (mRdIMG stateP))
      | None => modLODState (setRdIMG (mRdIMG stateP))
      end) ;;;
     visitNode tileId) st = Some (b, st').
Proof.
  unfold preVisit. intros E.
  apply bind_Some in E. destruct E as (state & s & Hg & E).
  apply getLODState_Some in Hg. destruct Hg as (-> & _ & Hs). cbn in Hs.
  apply bind_Some in E. destruct E as (stateP & s & Hg & E).
  apply getLODState_Some in Hg. destruct Hg as (-> & _ & HsP).
  apply bind_Some in E. destruct E as (v & s & Hv & E). injection Hv as <- <-.
  apply bind_Some in E. destruct E as (h & s & Hh & E). injection Hh as <- <-.
  exists state, stateP. split; [exact Hs |]. split; [exact HsP | exact E].
Qed.

(** X9. A root cannot be visited without elevation data: with no DEM
    manager, or with a null DEM node in the state on top of the
    stack, [preVisitRoot] does not return. It clears the DEM render
    data of the state and [testVisible] dereferences it. *)
Theorem preVisitRoot_needs_DEM (tileId : TileId) (st : VState) :
  (mTreeMgrDEM (vis st) = None \/
   exists state, mStack (vis st) !! Z.to_nat (mStackTop (vis st)) = Some state /\
                 isNull (mNodeDEM state) = true) ->
  preVisitRoot tileId st = None.
Proof.
  intros Hno. destruct (preVisitRoot tileId st) as [[b st'] |] eqn:E; [exfalso | reflexivity].
  apply preVisitRoot_head in E. destruct E as (state & Hs & E).
  destruct (preVisit_head None None tileId st b st' state Hs E)
    as (state' & _ & _ & _ & _ & [ptr Hptr] & HD & _).
  destruct Hno as [Hmgr | (state0 & Hs0 & Hnull)].
  - rewrite Hmgr in HD. congruence.
  - rewrite Hs in Hs0. injection Hs0 as <-. rewrite Hnull in HD.
    destruct (mTreeMgrDEM (vis st)); congruence.
Qed.

(** X11. What [preVisitRoot] and [preVisit] leave alone when they
    return: the trees, the parameters and the sources; which render
    data exists, and of every render data the bounds, the texture
    layer, a render flag that was set, and the frame stamp unless it
    becomes the current frame; every member of the visitor but the
    stack and the four lists; the height of the stack and every state
    on it but the one on top; and the entries the four lists held,
    which stay at their front. *)
Theorem preVisit_keeps (tileId : TileId) (st st' : VState) (b : bool) :
  preVisitRoot tileId st = Some (b, st') \/ preVisit tileId st = Some (b, st') ->
  visitKeeps (mFrameCount (vis st)) st st'.
Proof.
  intros [E | E].
  - exact (visits_preVisitRoot _ tileId st b st' eq_refl E).
  - exact (visits_preVisit _ tileId st b st' eq_refl E).
Qed.

(** X12. After [preVisitRoot] or [preVisit] has returned, the state
    on top of the stack has the nodes it had, and on each channel
    with a manager and a node it points to the render data the
    manager holds for the node, which carries the number of the
    current frame. *)
Theorem preVisit_stamps (tileId : TileId) (st st' : VState) (b : bool) (state : LODState) :
  preVisitRoot tileId st = Some (b, st') \/ preVisit tileId st = Some (b, st') ->
  mStack (vis st) !! Z.to_nat (mStackTop (vis st)) = Some state ->
  exists state',
    mStack (vis st') !! Z.to_nat (mStackTop (vis st)) = Some state' /\
    mNodeDEM state' = mNodeDEM state /\ mNodeIMG state' = mNodeIMG state /\
    (forall a, mTreeMgrDEM (vis st) = Some a -> isNull (mNodeDEM state) = false ->
               stampedFor a (mNodeDEM state) (mRdDEM state') (mFrameCount (vis st)) (heap st')) /\
    (forall a, mTreeMgrIMG (vis st) = Some a -> isNull (mNodeIMG state) = false ->
               stampedFor a (mNodeIMG state) (mRdIMG state') (mFrameCount (vis st)) (heap st')).
Proof.
  intros E Hs.
  assert (H : exists oD oI state',
             mStack (vis st') !! Z.to_nat (mStackTop (vis st)) = Some state' /\
             mNodeDEM state' = mNodeDEM state /\ mNodeIMG state' = mNodeIMG state /\
             match mTreeMgrDEM (vis st) with
             | Some a =>
                 if isNull (mNodeDEM state) then mRdDEM state' = oD
                 else stampedFor a (mNodeDEM state) (mRdDEM state') (mFrameCount (vis st))
                        (heap st')
             | None => mRdDEM state' = oD
             end /\
             match mTreeMgrIMG (vis st) with
             | Some a =>
                 if isNull (mNodeIMG state) then mRdIMG state' = oI
                 else stampedFor a (mNodeIMG state) (mRdIMG state') (mFrameCount (vis st))
                        (heap st')
             | None => mRdIMG state' = oI
             end).
  { destruct E as [E | E].
    - apply preVisitRoot_head in E. destruct E as (state0 & Hs0 & E).
      rewrite Hs in Hs0. injection Hs0 as <-.
      destruct (preVisit_head _ _ _ _ _ _ _ Hs E) as (state' & _ & H1 & H2 & H3 & _ & H4 & H5).
      exists None, None, state'. auto.
    - apply preVisit_head_eq in E. destruct E as (state0 & stateP & Hs0 & _ & E).
      rewrite Hs in Hs0. injection Hs0 as <-.
      destruct (preVisit_head _ _ _ _ _ _ _ Hs E) as (state' & _ & H1 & H2 & H3 & _ & H4 & H5).
      exists (mRdDEM stateP), (mRdIMG stateP), state'. auto. }
  destruct H as (oD & oI & state' & H1 & H2 & H3 & H4 & H5).
  exists state'. split; [exact H1 |]. split; [exact H2 |]. split; [exact H3 |].
  split.
  - intros a Hm Hn. rewrite Hm, Hn in H4. exact H4.
  - intros a Hm Hn. rewrite Hm, Hn in H5. exact H5.
Qed.

(** X13. In [preVisit], a channel without manager or without a node
    for the tile takes over the render data pointer of the state at
    stack index [level - 1], the state of the parent (for a tile of
    level 0, the state on top itself). *)
Theorem preVisit_inherits (tileId : TileId) (st st' : VState) (b : bool)
    (state stateP : LODState) :
  preVisit tileId st = Some (b, st') ->
  mStack (vis st) !! Z.to_nat (mStackTop (vis st)) = Some state ->
  mStack (vis st) !! Z.to_nat (if 0 <=? level tileId - 1 then level tileId - 1
                               else mStackTop (vis st)) = Some stateP ->
  exists state',
    mStack (vis st') !! Z.to_nat (mStackTop (vis st)) = Some state' /\
    (mTreeMgrDEM (vis st) = None \/ isNull (mNodeDEM state) = true ->
     mRdDEM state' = mRdDEM stateP) /\
    (mTreeMgrIMG (vis st) = None \/ isNull (mNodeIMG state) = true ->
     mRdIMG state' = mRdIMG stateP).
Proof.
  intros E Hs HsP.
  apply preVisit_head_eq in E. destruct E as (state0 & stateP0 & Hs0 & HsP0 & E).
  rewrite Hs in Hs0. injection Hs0 as <-. rewrite HsP in HsP0. injection HsP0 as <-.
  destruct (preVisit_head _ _ _ _ _ _ _ Hs E) as (state' & _ & H1 & _ & _ & _ & H4 & H5).
  exists state'. split; [exact H1 |]. split.
  - intros [Hm | Hn]; [rewrite Hm in H4; exact H4 |].
    rewrite Hn in H4. destruct (mTreeMgrDEM (vis st)); exact H4.
  - intros [Hm | Hn]; [rewrite Hm in H5; exact H5 |].
    rewrite Hn in H5. destruct (mTreeMgrIMG (vis st)); exact H5.
Qed.

Lemma assert_Some b st u st' : assert_ b st = Some (u, st') -> b = true /\ st' = st.
Proof. destruct b; [| discriminate]. intros E. now injection E as <-. Qed.

(** What [drawLevel] does when it returns. *)
Lemma drawLevel_Some st u st' :
  drawLevel st = Some (u, st') ->
  exists state,
    mStack (vis st) !! Z.to_nat (mStackTop (vis st)) = Some state /\
    frame (vis st') = frame (vis st) /\
    mLoadDEM (vis st') = mLoadDEM (vis st) /\
    mLoadIMG (vis st') = mLoadIMG (vis st) /\
    mRenderDEM (vis st') =
      mRenderDEM (vis st) ++ drawnEntry true (mTreeMgrDEM (vis st)) (mRdDEM state) /\
    mRenderIMG (vis st') =
      mRenderIMG (vis st) ++ drawnEntry true (mTreeMgrIMG (vis st)) (mRdIMG state) /\
    (mTreeMgrDEM (vis st) <> None ->
     exists p rd, mRdDEM state = Some p /\ readRd (heap st') p = Some rd /\
                  hasRenderFlag rd = true) /\
    (mTreeMgrIMG (vis st) <> None -> is_Some (mRdIMG state)).
Proof.
  intros E. destruct u. pose proof (frames_drawLevel _ _ _ E) as F.
  unfold drawLevel in E.
  apply bind_Some in E. destruct E as (state & s & Hg & E).
  apply getLODState_Some in Hg. destruct Hg as (-> & _ & Hs). cbn in Hs.
  apply bind_Some in E. destruct E as (v & s & Hv & E). injection Hv as <- <-.
  apply bind_Some in E. destruct E as ([] & s1 & E1 & E2).
  exists state. split; [exact Hs |]. split; [exact F |].
  assert (H1 : mLoadDEM (vis s1) = mLoadDEM (vis st) /\
               mLoadIMG (vis s1) = mLoadIMG (vis st) /\
               mRenderDEM (vis s1) =
               mRenderDEM (vis st) ++ drawnEntry true (mTreeMgrDEM (vis st)) (mRdDEM state) /\
               mRenderIMG (vis s1) = mRenderIMG (vis st) /\
               (mTreeMgrDEM (vis st) <> None ->
                exists p rd, mRdDEM state = Some p /\ readRd (heap s1) p = Some rd /\
                             hasRenderFlag rd = true) /\
               heap st' = heap s1).
  { assert (Hh : heap st' = heap s1).
    { destruct (mTreeMgrIMG (vis st)); [| now injection E2 as <-].
      apply bind_Some in E2. destruct E2 as ([] & s & Ea & E2).
      apply assert_Some in Ea. destruct Ea as [_ ->].
      apply bind_Some in E2. destruct E2 as (ptr & s & Hp & E2).
      apply liftO_Some in Hp. destruct Hp as [-> _]. now injection E2 as <-. }
    destruct (mTreeMgrDEM (vis st)) as [a |]; cbn [drawnEntry].
    - apply bind_Some in E1. destruct E1 as ([] & s & Ea & E1).
      apply assert_Some in Ea. destruct Ea as [_ ->].
      apply bind_Some in E1. destruct E1 as (ptr & s & Hp & E1).
      apply liftO_Some in Hp. destruct Hp as [-> Hp].
      apply bind_Some in E1. destruct E1 as ([] & s2 & Ef & Em).
      rewrite rdAddRenderFlag_eq in Ef.
      destruct (readRd (heap st) ptr) as [old |] eqn:Hold; [| discriminate].
      injection Ef as <-. injection Em as <-. cbn [vis heap].
      rewrite Hp. cbn [option_list].
      destruct (vis st); cbn. repeat split; [| exact Hh].
      intros _. exists ptr, (addRenderFlag old). split; [reflexivity |].
      rewrite readRd_writeRd, decide_True by reflexivity. auto.

    - injection E1 as <-. rewrite app_nil_r. repeat split; [congruence | exact Hh]. }
  destruct H1 as (LD & LI & RD & RI & Hflag & Hh).
  assert (H2 : mLoadDEM (vis st') = mLoadDEM (vis s1) /\
               mLoadIMG (vis st') = mLoadIMG (vis s1) /\
               mRenderDEM (vis st') = mRenderDEM (vis s1) /\
               mRenderIMG (vis st') =
               mRenderIMG (vis s1) ++ drawnEntry true (mTreeMgrIMG (vis st)) (mRdIMG state) /\
               (mTreeMgrIMG (vis st) <> None -> is_Some (mRdIMG state))).
  { destruct (mTreeMgrIMG (vis st)) as [a |]; cbn [drawnEntry].
    - apply bind_Some in E2. destruct E2 as ([] & s & Ea & E2).
      apply assert_Some in Ea. destruct Ea as [_ ->].
      apply bind_Some in E2. destruct E2 as (ptr & s & Hp & E2).
      apply liftO_Some in Hp. destruct Hp as [-> Hp].
      injection E2 as <-. cbn [vis]. rewrite Hp. cbn [option_list].
      destruct (vis s1); cbn. repeat split. eauto.
    - injection E2 as <-. rewrite app_nil_r. repeat split. congruence. }
  destruct H2 as (LD2 & LI2 & RD2 & RI2 & HI).
  rewrite LD2, LI2, RD2, RI2, LD, LI, RD, RI, Hh. repeat split; assumption.
Qed.

(** The requests of [handleRefine] leave the visitor as it is but for
    the load list of their channel. *)
Lemma addLoadChildrenDEM_lists node a st u st' :
  mTreeMgrDEM (vis st) = Some a ->
  addLoadChildrenDEM node st = Some (u, st') ->
  frame (vis st') = frame (vis st) /\
  mRenderDEM (vis st') = mRenderDEM (vis st) /\ mRenderIMG (vis st') = mRenderIMG (vis st).
Proof.
  intros Hmgr E. split; [exact (frames_addLoadChildrenDEM _ _ _ _ E) |].
  pose proof (addLoadChildren_spec mTreeMgrDEM pushLoadDEM
                ltac:(intros ? []; reflexivity) ltac:(intros ? []; reflexivity)
                addLoadChildrenDEM addLoadChildrenDEM_eq node a st Hmgr) as L.
  cbv zeta in L. rewrite E in L. destruct L as (Hv & _).
  unfold pushLoadDEM in Hv. rewrite fold_pushDEM in Hv. rewrite Hv.
  destruct (vis st); auto.
Qed.

Lemma addLoadChildrenIMG_lists node a st u st' :
  mTreeMgrIMG (vis st) = Some a ->
  addLoadChildrenIMG node st = Some (u, st') ->
  frame (vis st') = frame (vis st) /\
  mRenderDEM (vis st') = mRenderDEM (vis st) /\ mRenderIMG (vis st') = mRenderIMG (vis st).
Proof.
  intros Hmgr E. split; [exact (frames_addLoadChildrenIMG _ _ _ _ E) |].
  pose proof (addLoadChildren_spec mTreeMgrIMG pushLoadIMG
                ltac:(intros ? []; reflexivity) ltac:(intros ? []; reflexivity)
                addLoadChildrenIMG addLoadChildrenIMG_eq node a st Hmgr) as L.
  cbv zeta in L. rewrite E in L. destruct L as (Hv & _).
  unfold pushLoadIMG in Hv. rewrite fold_pushIMG in Hv. rewrite Hv.
  destruct (vis st); auto.
Qed.

Lemma rendered_nothing state st : rendered false state st st.
Proof. unfold rendered. cbn [drawnEntry]. rewrite !app_nil_r. repeat split; discriminate. Qed.

(** [drawLevel] from a state that differs from [st] in the load
    lists and in render data at most. *)
Lemma rendered_drawLevel state st s1 u st' :
  mStack (vis st) !! Z.to_nat (mStackTop (vis st)) = Some state ->
  frame (vis s1) = frame (vis st) ->
  mRenderDEM (vis s1) = mRenderDEM (vis st) ->
  mRenderIMG (vis s1) = mRenderIMG (vis st) ->
  drawLevel s1 = Some (u, st') ->
  rendered true state st st'.
Proof.
  intros Hs F RD RI E. apply frame_fields in F.
  destruct F as (MD & MI & _ & _ & St & T & _).
  apply drawLevel_Some in E.
  destruct E as (state1 & Hs1 & _ & _ & _ & RD1 & RI1 & Hflag & HI).
  rewrite St, T, Hs in Hs1. injection Hs1 as <-.
  rewrite MD, MI, ?RD, ?RI in *. repeat split; auto.
Qed.

(** What [handleRefine] does when it returns. *)
Lemma handleRefine_Some tileId st b st' :
  handleRefine tileId st = Some (b, st') ->
  exists state,
    mStack (vis st) !! Z.to_nat (mStackTop (vis st)) = Some state /\
    if b then st' = st else exists drawn, rendered drawn state st st'.
Proof.
  unfold handleRefine. intros E.
  apply bind_Some in E. destruct E as (state & s & Hg & E).
  apply getLODState_Some in Hg. destruct Hg as (-> & _ & Hs). cbn in Hs.
  apply bind_Some in E. destruct E as (v & s & Hv & E). injection Hv as <- <-.
  apply bind_Some in E. destruct E as (h & s & Hh & E). injection Hh as <- <-.
  apply bind_Some in E. destruct E as (demOK & s & Hd & E).
  apply available_Some in Hd. subst s.
  apply bind_Some in E. destruct E as (imgOK & s & Hi & E).
  apply available_Some in Hi. subst s.
  exists state. split; [exact Hs |].
  destruct (mTreeMgrDEM (vis st)) as [aD |] eqn:HmD.
  2: { injection E as <- <-. exists false. apply rendered_nothing. }
  destruct (mTreeMgrIMG (vis st)) as [aI |] eqn:HmI.
  - apply bind_Some in E. destruct E as ([] & s1 & E1 & E).
    apply bind_Some in E. destruct E as ([] & s2 & E2 & E).
    destruct demOK, imgOK; cbn [negb andb] in *.
    + injection E1 as <-. injection E2 as <-. now injection E as <- <-.
    + injection E1 as <-.
      apply bind_Some in E. destruct E as ([] & s3 & E3 & E). injection E as <- <-.
      destruct (addLoadChildrenIMG_lists _ _ _ _ _ HmI E2) as (F & RD & RI).
      exists true. eapply rendered_drawLevel; eauto.
    + injection E2 as <-.
      apply bind_Some in E. destruct E as ([] & s3 & E3 & E). injection E as <- <-.
      destruct (addLoadChildrenDEM_lists _ _ _ _ _ HmD E1) as (F & RD & RI).
      exists true. eapply rendered_drawLevel; eauto.
    + apply bind_Some in E. destruct E as ([] & s3 & E3 & E). injection E as <- <-.
      destruct (addLoadChildrenDEM_lists _ _ _ _ _ HmD E1) as (F1 & RD1 & RI1).
      pose proof F1 as F1'. apply frame_fields in F1'. destruct F1' as (_ & MI1 & _).
      assert (HmI1 : mTreeMgrIMG (vis s1) = Some aI) by congruence.
      destruct (addLoadChildrenIMG_lists _ _ _ _ _ HmI1 E2) as (F2 & RD2 & RI2).
      exists true. eapply rendered_drawLevel; [exact Hs | | | | exact E3]; congruence.
  - destruct demOK.
    + now injection E as <- <-.
    + apply bind_Some in E. destruct E as ([] & s1 & E1 & E).
      apply bind_Some in E. destruct E as ([] & s3 & E3 & E). injection E as <- <-.
      destruct (addLoadChildrenDEM_lists _ _ _ _ _ HmD E1) as (F & RD & RI).
      exists true. eapply rendered_drawLevel; eauto.
Qed.

(** X10. [visitNode] descends or draws, never both. When it returns
    [true] it has changed nothing. When it returns [false] it has
    appended to the render lists either nothing or, for each channel
    with a manager, the render data of the state on top of the
    stack, one entry per list, and has set the render flag of the DEM
    render data it appended. *)
Theorem visitNode_draws_or_descends (tileId : TileId) (st st' : VState) (b : bool) :
  visitNode tileId st = Some (b, st') ->
  exists state,
    mStack (vis st) !! Z.to_nat (mStackTop (vis st)) = Some state /\
    if b then st' = st else exists drawn, rendered drawn state st st'.
Proof.
  unfold visitNode. intros E.
  apply bind_Some in E. destruct E as (v & s & Hv & E). injection Hv as <- <-.
  apply bind_Some in E. destruct E as (visible & s & Hvis & E).
  apply testVisible_Some in Hvis. destruct Hvis as (-> & _ & state & _ & _ & Hs & _).
  destruct visible.
  2: { injection E as <- <-. exists state. split; [exact Hs |].
       exists false. apply rendered_nothing. }
  apply bind_Some in E. destruct E as (needRefine & s & Hr & E).
  apply testNeedRefine_pure in Hr. subst s.
  destruct needRefine; [now apply handleRefine_Some in E |].
  apply bind_Some in E. destruct E as ([] & s1 & E1 & E). injection E as <- <-.
  exists state. split; [exact Hs |]. exists true.
  eapply rendered_drawLevel; eauto.
Qed.

(** X14. A tile without a DEM node of its own is never drawn. On a
    state whose DEM node is null, with a DEM manager attached,
    [visitNode] returns only when the box of the render data the
    state holds fails one of the two culling tests; it then returns
    [false] and has changed nothing. For a visible box it stops at
    the assertion of [drawLevel]. *)
Theorem visitNode_absent_DEM_node (tileId : TileId) (st st' : VState) (b : bool)
    (state : LODState) :
  mStack (vis st) !! Z.to_nat (mStackTop (vis st)) = Some state ->
  isNull (mNodeDEM state) = true ->
  mTreeMgrDEM (vis st) <> None ->
  visitNode tileId st = Some (b, st') ->
  b = false /\ st' = st /\
  exists ptr rd,
    mRdDEM state = Some ptr /\ readRd (heap st) ptr = Some rd /\
    (testInFrustum (mFrustumMS (mCullData (vis st))) (getBounds rd) = false \/
     testFrontFacing (mCamPos (mCullData (vis st))) (hParams (heap st)) (getBounds rd)
       (option_map (treeMgr (heap st)) (mTreeMgrDEM (vis st))) = Some false).
Proof.
  intros Hs Hnull Hmgr E. unfold visitNode in E.
  apply bind_Some in E. destruct E as (v & s & Hv & E). injection Hv as <- <-.
  apply bind_Some in E. destruct E as (visible & s & Hvis & E).
  pose proof Hvis as Hvis0.
  apply testVisible_Some in Hvis. destruct Hvis as (-> & Htop & state0 & ptr & rd & Hs0 & Hp & Hr).
  rewrite Hs in Hs0. injection Hs0 as <-.
  rewrite (testVisible_eq _ _ st state ptr rd Htop Hs Hp Hr) in Hvis0.
  destruct visible.
  - exfalso.
    apply bind_Some in E. destruct E as (needRefine & s & Hn & E).
    assert (En : testNeedRefine tileId st = Some (false, st)).
    { unfold testNeedRefine. unfold bind at 1. rewrite (getLODState_top _ _ Htop Hs).
      rewrite Hnull. reflexivity. }
    rewrite En in Hn. injection Hn as <- <-.
    apply bind_Some in E. destruct E as ([] & s1 & Ed & _).
    unfold drawLevel in Ed.
    apply bind_Some in Ed. destruct Ed as (state1 & s & Hg & Ed).
    rewrite (getLODState_top _ _ Htop Hs) in Hg. injection Hg as <- <-.
    apply bind_Some in Ed. destruct Ed as (v & s & Hv & Ed). injection Hv as <- <-.
    apply bind_Some in Ed. destruct Ed as ([] & s & Ed & _).
    destruct (mTreeMgrDEM (vis st)) as [a |]; [| congruence].
    apply bind_Some in Ed. destruct Ed as ([] & s2 & Ea & _).
    apply assert_Some in Ea. rewrite Hnull in Ea. destruct Ea. discriminate.
  - injection E as <- <-. split; [reflexivity |]. split; [reflexivity |].
    exists ptr, rd. split; [exact Hp |]. split; [exact Hr |].
    destruct (testInFrustum _ _); [right | now left].
    destruct (testFrontFacing _ _ _ _) as [[|] |]; [discriminate | reflexivity | discriminate].
Qed.

End VisitOutcome.

(** ** Visits that run *)

Section VisitRuns.
Import LODVisitor.
Local Open Scope Z_scope.

(** The visit of a node without children that is visible and lies
    below the minimum level runs to its end: the children are
    requested and the node is drawn. *)
Lemma visitNode_requests_children
    (st : VState) (tileId : TileId) (state : LODState) (tileD tileI : Tile)
    (aD aI : TreeMgrAddr) (pD pI : RdPtr) (rdD : RenderData) :
  0 <= mStackTop (vis st) ->
  mStack (vis st) !! Z.to_nat (mStackTop (vis st)) = Some state ->
  mNodeDEM state = Node tileD NullNode NullNode NullNode NullNode ->
  mNodeIMG state = Node tileI NullNode NullNode NullNode NullNode ->
  mTreeMgrDEM (vis st) = Some aD -> mTreeMgrIMG (vis st) = Some aI ->
  mRdDEM state = Some pD -> mRdIMG state = Some pI ->
  readRd (heap st) pD = Some rdD ->
  testInFrustum (mFrustumMS (mCullData (vis st))) (getBounds rdD) = true ->
  testFrontFacing (mCamPos (mCullData (vis st))) (hParams (heap st)) (getBounds rdD)
    (Some (treeMgr (heap st) aD)) = Some true ->
  mMinLevel (hParams (heap st)) > level tileId ->
  exists st', visitNode tileId st = Some (false, st').
Proof.
  intros Htop Hstate HnD HnI HmD HmI HpD HpI Hrd Hfrustum Hfront Hmin.
  unfold visitNode. unfold bind at 1, getV at 1. unfold bind at 1.
  rewrite (testVisible_eq _ _ st state pD rdD Htop Hstate HpD Hrd).
  rewrite Hfrustum, HmD. cbn [option_map]. rewrite Hfront.
  unfold bind at 1.
  rewrite (testNeedRefine_forced tileId st state pD rdD Htop Hstate
             ltac:(rewrite HnD; reflexivity) HpD Hrd Hmin).
  destruct (handleRefine_both_eq st tileId state aD aI pD pI Htop Hstate HmD HmI
              ltac:(rewrite HnD; reflexivity) ltac:(rewrite HnI; reflexivity) HpD HpI)
    as (demOK & imgOK & st' & E & HokD & _).
  { exists rdD. exact Hrd. }
  { intros p (i & id & _ & Hp & _). rewrite HnD in Hp.
    destruct i as [| [[| |] | [| |] |] |]; discriminate. }
  { intros p (i & id & _ & Hp & _). rewrite HnI in Hp.
    destruct i as [| [[| |] | [| |] |] |]; discriminate. }
  assert (demOK = false) as ->.
  { destruct demOK; [| reflexivity]. exfalso.
    apply (leaf_not_ready (heap st) aD tileD). rewrite <- HnD. apply HokD. reflexivity. }
  exists st'. exact E.
Qed.

(** The visit of a node whose box lies outside the frustum. *)
Lemma visitNode_culled (st : VState) (tileId : TileId) (state : LODState)
    (pD : RdPtr) (rdD : RenderData) :
  0 <= mStackTop (vis st) ->
  mStack (vis st) !! Z.to_nat (mStackTop (vis st)) = Some state ->
  mRdDEM state = Some pD ->
  readRd (heap st) pD = Some rdD ->
  testInFrustum (mFrustumMS (mCullData (vis st))) (getBounds rdD) = false ->
  visitNode tileId st = Some (false, st).
Proof.
  intros Htop Hstate HpD Hrd Hfrustum.
  unfold visitNode. unfold bind at 1, getV at 1. unfold bind at 1.
  rewrite (testVisible_eq _ _ st state pD rdD Htop Hstate HpD Hrd).
  rewrite Hfrustum. reflexivity.
Qed.

(** [preVisit] of a node that is absent on both channels, below a
    state that has render data. *)
Lemma preVisit_absent (st : VState) (tileId : TileId) (state stateP : LODState) :
  0 <= mStackTop (vis st) ->
  mStack (vis st) !! Z.to_nat (mStackTop (vis st)) = Some state ->
  mStack (vis st) !! Z.to_nat (if 0 <=? level tileId - 1 then level tileId - 1
                               else mStackTop (vis st)) = Some stateP ->
  isNull (mNodeDEM state) = true -> isNull (mNodeIMG state) = true ->
  preVisit tileId st =
  visitNode tileId
    (mkVState
       (set_mStack
          (<[Z.to_nat (mStackTop (vis st)) :=
               mkLODState (mNodeDEM state) (mNodeIMG state) (mRdDEM stateP) (mRdIMG stateP)]>
             (mStack (vis st)))
          (vis st))
       (heap st)).
Proof.
  intros Htop Hstate HstateP HnD HnI.
  unfold preVisit. generalize (visitNode tileId). intros k.
  unfold bind at 1. rewrite (getLODState_top _ _ Htop Hstate).
  unfold bind at 1.
  assert (EP : getLODState (level tileId - 1) st = Some (stateP, st)).
  { unfold getLODState. munfold.
    destruct (Z.leb_spec 0 (mStackTop (vis st))) as [_ | ?]; [| lia].
    cbn. rewrite HstateP. reflexivity. }
  rewrite EP.
  unfold bind at 1, getV at 1. unfold bind at 1, getH at 1.
  rewrite HnD, HnI. cbn [negb].
  assert (Hlen : (Z.to_nat (mStackTop (vis st)) < length (mStack (vis st)))%nat)
    by (eapply lookup_lt_Some; eauto).
  assert (E1 : (match mTreeMgrDEM (vis st) with
                | Some _ => modLODState (setRdDEM (mRdDEM stateP))
                | None => modLODState (setRdDEM (mRdDEM stateP))
                end) = modLODState (setRdDEM (mRdDEM stateP)))
    by (destruct (mTreeMgrDEM (vis st)); reflexivity).
  assert (E2 : (match mTreeMgrIMG (vis st) with
                | Some _ => modLODState (setRdIMG (mRdIMG stateP))
                | None => modLODState (setRdIMG (mRdIMG stateP))
                end) = modLODState (setRdIMG (mRdIMG stateP)))
    by (destruct (mTreeMgrIMG (vis st)); reflexivity).
  unfold bind at 1. rewrite E1. rewrite (modLODState_eq _ _ _ Htop Hstate).
  unfold bind at 1, getH at 1. unfold bind at 1. rewrite E2.
  erewrite modLODState_eq.
  2: { destruct st as [[] ?]. exact Htop. }
  2: { destruct st as [[] ?]. cbn in *. apply list_lookup_insert_eq. exact Hlen. }
  f_equal. destruct st as [[] ?]. cbn in *. rewrite list_insert_insert_eq. reflexivity.
Qed.

End VisitRuns.

(** ** What a traversal emits *)

Section EmissionFacts.
Import LODVisitor.
Local Open Scope Z_scope.

Lemma layersKept_refl h : layersKept h h.
Proof. intros p. reflexivity. Qed.

Lemma layersKept_trans h1 h2 h3 : layersKept h1 h2 -> layersKept h2 h3 -> layersKept h1 h3.
Proof. intros H1 H2 p. rewrite H2. apply H1. Qed.

Lemma touched_layers frameCount h h' :
  (forall p, option_Forall2 (touched frameCount) (readRd h p) (readRd h' p)) ->
  layersKept h h'.
Proof.
  intros Hall p. unfold TileRenderer.texLayerOf. specialize (Hall p).
  destruct Hall as [rd rd' (_ & Hl & _) |]; [now rewrite Hl | reflexivity].
Qed.

Lemma resident_kept h h' p :
  layersKept h h' -> TileRenderer.resident h p -> TileRenderer.resident h' p.
Proof. intros Hk (layer & Hl & Hpos). exists layer. split; [now rewrite Hk | exact Hpos]. Qed.

Lemma childrenReady_kept h h' a node :
  layersKept h h' -> childrenReady h a node -> childrenReady h' a node.
Proof.
  intros Hk Hall i Hi. destruct (Hall i Hi) as (id & rd & Hp & Hr & Hl).
  specialize (Hk (a, id)). unfold TileRenderer.texLayerOf in Hk. rewrite Hr in Hk.
  destruct (readRd h' (a, id)) as [rd' |] eqn:Hr'; [| discriminate].
  injection Hk as Hk. exists id, rd'. split; [exact Hp |]. split; [exact Hr' | lia].
Qed.

Lemma shell_trees v v' : shell v' = shell v -> mTreeDEM v' = mTreeDEM v.
Proof. destruct v, v'. unfold shell, frame. cbn. intros E. now injection E. Qed.

Section Emits.
Variables (tree : TileQuadTree.t) (mgr : option TreeMgrAddr).

Lemma emits_refl st : emits tree mgr st st.
Proof.
  split; [apply sameTrees_refl |]. split; [apply layersKept_refl |].
  do 4 (split; [reflexivity |]). split; [intros k _; reflexivity |].
  exists []. split; [now rewrite app_nil_r | constructor].
Qed.

Lemma emits_trans st1 st2 st3 :
  emits tree mgr st1 st2 -> emits tree mgr st2 st3 -> emits tree mgr st1 st3.
Proof.
  intros (T1 & L1 & F1 & D1 & M1 & S1 & K1 & new1 & R1 & O1)
         (T2 & L2 & F2 & D2 & M2 & S2 & K2 & new2 & R2 & O2).
  split; [eapply sameTrees_trans; eassumption |].
  split; [eapply layersKept_trans; eassumption |].
  split; [congruence |]. split; [congruence |]. split; [congruence |]. split; [congruence |].
  split.
  { intros k Hk. rewrite K2 by lia. now apply K1. }
  exists (new1 ++ new2). split; [rewrite R2, R1; now rewrite app_assoc |].
  apply Forall_app. split; [| exact O2].
  eapply List.Forall_impl; [| exact O1]. intros p [Hr | Hr]; [left | now right].
  eapply resident_kept; eassumption.
Qed.

End Emits.

(** [handleRefine] lets the traversal descend only below a DEM node
    all four children of which are uploaded. *)
Lemma handleRefine_descends tileId st st' :
  handleRefine tileId st = Some (true, st') ->
  exists state a,
    mStack (vis st) !! Z.to_nat (mStackTop (vis st)) = Some state /\
    mTreeMgrDEM (vis st) = Some a /\ isNull (mNodeDEM state) = false /\
    childrenReady (heap st) a (mNodeDEM state).
Proof.
  unfold handleRefine. intros E.
  apply bind_Some in E. destruct E as (state & s & Hg & E).
  apply getLODState_Some in Hg. destruct Hg as (-> & _ & Hs). cbn in Hs.
  apply bind_Some in E. destruct E as (v & s & Hv & E). injection Hv as <- <-.
  apply bind_Some in E. destruct E as (h & s & Hh & E). injection Hh as <- <-.
  apply bind_Some in E. destruct E as (demOK & s & Hd & E).
  pose proof (available_Some _ _ _ _ _ Hd). subst s.
  apply bind_Some in E. destruct E as (imgOK & s & Hi & E).
  apply available_Some in Hi. subst s.
  destruct (mTreeMgrDEM (vis st)) as [aD |] eqn:HmD; [| discriminate].
  assert (HdOK : demOK = true).
  { destruct (mTreeMgrIMG (vis st)) as [aI |].
    - apply bind_Some in E. destruct E as ([] & s1 & _ & E).
      apply bind_Some in E. destruct E as ([] & s2 & _ & E).
      destruct demOK; [reflexivity |]. cbn [andb] in E.
      apply bind_Some in E. destruct E as ([] & s3 & _ & E). discriminate.
    - destruct demOK; [reflexivity |].
      apply bind_Some in E. destruct E as ([] & s1 & _ & E).
      apply bind_Some in E. destruct E as ([] & s3 & _ & E). discriminate. }
  subst demOK. exists state, aD. split; [exact Hs |]. split; [reflexivity |].
  destruct (isNull (mNodeDEM state)) eqn:Hn; [discriminate |]. split; [reflexivity |].
  apply liftO_Some in Hd. destruct Hd as [_ Hd].
  destruct (childrenAvailable_spec (heap st) (mNodeDEM state) aD Hn) as (b & Hb & Hspec).
  rewrite Hb in Hd. injection Hd as ->. now apply Hspec.
Qed.

(** [visitNode] descends below a node with uploaded children, or
    draws the node, or does nothing. *)
Lemma visitNode_outcome tileId st b st' :
  visitNode tileId st = Some (b, st') ->
  exists state,
    mStack (vis st) !! Z.to_nat (mStackTop (vis st)) = Some state /\
    if b then
      st' = st /\
      exists a, mTreeMgrDEM (vis st) = Some a /\ isNull (mNodeDEM state) = false /\
                childrenReady (heap st) a (mNodeDEM state)
    else exists drawn, rendered drawn state st st'.
Proof.
  unfold visitNode. intros E.
  apply bind_Some in E. destruct E as (v & s & Hv & E). injection Hv as <- <-.
  apply bind_Some in E. destruct E as (visible & s & Hvis & E).
  apply testVisible_Some in Hvis. destruct Hvis as (-> & _ & state & _ & _ & Hs & _).
  exists state. split; [exact Hs |].
  destruct visible.
  2: { injection E as <- <-. exists false. apply rendered_nothing. }
  apply bind_Some in E. destruct E as (needRefine & s & Hr & E).
  apply testNeedRefine_pure in Hr. subst s.
  destruct needRefine.
  - pose proof E as E0. apply handleRefine_Some in E.
    destruct E as (state0 & Hs0 & Hout). rewrite Hs in Hs0. injection Hs0 as <-.
    destruct b; [| exact Hout]. split; [exact Hout |]. subst st'.
    apply handleRefine_descends in E0. destruct E0 as (state0 & a & Hs0 & R).
    rewrite Hs in Hs0. injection Hs0 as <-. now exists a.
  - apply bind_Some in E. destruct E as ([] & s1 & E1 & E). injection E as <- <-.
    exists true. eapply rendered_drawLevel; eauto.
Qed.

Lemma set_mStack_fields x v :
  mStack (set_mStack x v) = x /\ mStackTop (set_mStack x v) = mStackTop v /\
  mRenderDEM (set_mStack x v) = mRenderDEM v /\ mTreeMgrDEM (set_mStack x v) = mTreeMgrDEM v /\
  mTreeMgrIMG (set_mStack x v) = mTreeMgrIMG v.
Proof. destruct v. repeat split. Qed.

(** The part [preVisitRoot] and [preVisit] share, run on a state whose
    DEM node is not null: what is appended to [mRenderDEM] is the
    render data the DEM manager holds for that node, at most once, and
    a descent is asked for only below uploaded children. *)
Lemma head_emits (otherDEM otherIMG : option RdPtr) tileId st b st' state a :
  mStack (vis st) !! Z.to_nat (mStackTop (vis st)) = Some state ->
  mTreeMgrDEM (vis st) = Some a ->
  isNull (mNodeDEM state) = false ->
  ((match mTreeMgrDEM (vis st) with
    | Some mgr =>
        if negb (isNull (mNodeDEM state)) then
          let rd := findRData (heap st) mgr (mNodeDEM state) in
          modLODState (setRdDEM rd) ;;; rdSetLastFrame rd (mFrameCount (vis st))
        else modLODState (setRdDEM otherDEM)
    | None => modLODState (setRdDEM otherDEM)
    end) ;;;
   h <- getH ;;
   (match mTreeMgrIMG (vis st) with
    | Some mgr =>
        if negb (isNull (mNodeIMG state)) then
          let rd := findRData h mgr (mNodeIMG state) in
          modLODState (setRdIMG rd) ;;; rdSetLastFrame rd (mFrameCount (vis st))
        else modLODState (setRdIMG otherIMG)
    | None => modLODState (setRdIMG otherIMG)
    end) ;;;
   visitNode tileId) st = Some (b, st') ->
  exists id,
    getTileId (mNodeDEM state) = Some id /\
    is_Some (readRd (heap st) (a, id)) /\
    (exists new, mRenderDEM (vis st') = mRenderDEM (vis st) ++ new /\
                 Forall (eq (a, id)) new) /\
    (b = true -> childrenReady (heap st') a (mNodeDEM state)).
Proof.
  intros Hstate Hmgr Hnn E.
  apply bind_Some in E. destruct E as ([] & s1 & E1 & E).
  apply bind_Some in E. destruct E as (h1 & s & Hh & E). injection Hh as <- <-.
  apply bind_Some in E. destruct E as ([] & s2 & E2 & E3).
  apply setRd_Some in E1. destruct E1 as (state0 & Htop & Hs0 & R1).
  rewrite Hstate in Hs0. injection Hs0 as <-.
  rewrite Hmgr, Hnn in R1. destruct R1 as (id & old & Hid & Hold & ->).
  assert (Hlen : (Z.to_nat (mStackTop (vis st)) < length (mStack (vis st)))%nat)
    by (eapply lookup_lt_Some; eauto).
  set (state1 := setRdDEM (Some (a, id)) state) in *.
  set (v1 := set_mStack (<[Z.to_nat (mStackTop (vis st)) := state1]> (mStack (vis st))) (vis st)) in *.
  destruct (set_mStack_fields (<[Z.to_nat (mStackTop (vis st)) := state1]> (mStack (vis st)))
              (vis st)) as (S1 & T1 & RD1 & MD1 & MI1).
  fold v1 in S1, T1, RD1, MD1, MI1. rewrite Hmgr in MD1.
  rewrite <- MI1 in E2.
  change v1 with (vis (mkVState v1 (writeRd (a, id) (setLastFrame (mFrameCount (vis st)) old) (heap st)))) in E2 at 1.
  apply setRd_Some in E2. destruct E2 as (state1' & _ & Hs1 & R2). cbn [vis heap] in *.
  rewrite T1, S1, list_lookup_insert_eq in Hs1 by exact Hlen. injection Hs1 as <-.
  assert (V2 : exists r h2,
             s2 = mkVState (set_mStack (<[Z.to_nat (mStackTop v1) := setRdIMG r state1]>
                                          (mStack v1)) v1) h2).
  { destruct (mTreeMgrIMG v1) as [aI |]; [| eauto].
    destruct (isNull (mNodeIMG state)); [eauto |].
    destruct R2 as (idI & oldI & _ & _ & ->). eauto. }
  destruct V2 as (r & h2 & ->).
  set (state2 := setRdIMG r state1) in *.
  apply visitNode_outcome in E3. destruct E3 as (state' & Hs2 & Hout). cbn [vis heap] in *.
  destruct (set_mStack_fields (<[Z.to_nat (mStackTop v1) := state2]> (mStack v1)) v1)
    as (S2 & T2 & RD2 & MD2 & MI2).
  set (v2 := set_mStack (<[Z.to_nat (mStackTop v1) := state2]> (mStack v1)) v1) in *.
  rewrite T2, S2, T1, S1 in Hs2.
  rewrite list_lookup_insert_eq in Hs2 by (rewrite length_insert; exact Hlen).
  injection Hs2 as <-.
  exists id. split; [exact Hid |]. split; [eauto |].
  destruct b.
  - destruct Hout as (-> & a' & Ha' & _ & Hready). cbn [vis heap] in *.
    assert (a' = a) as -> by congruence.
    split; [| intros _; exact Hready].
    exists []. split; [| constructor]. rewrite app_nil_r. congruence.
  - split; [| discriminate]. destruct Hout as (drawn & RD & _). cbn [vis heap] in RD.
    exists (if drawn then [(a, id)] else []). split.
    + rewrite RD, RD2, RD1, MD2, MD1. now destruct drawn.
    + destruct drawn; repeat constructor.
Qed.

Lemma set_mStackTop_fields x v :
  mStackTop (set_mStackTop x v) = x /\ mStack (set_mStackTop x v) = mStack v /\
  mRenderDEM (set_mStackTop x v) = mRenderDEM v /\
  mTreeMgrDEM (set_mStackTop x v) = mTreeMgrDEM v /\
  mTreeDEM (set_mStackTop x v) = mTreeDEM v /\
  mFrameCount (set_mStackTop x v) = mFrameCount v.
Proof. destruct v. repeat split. Qed.

Lemma set_mStack_settings x v :
  mTreeDEM (set_mStack x v) = mTreeDEM v /\ mFrameCount (set_mStack x v) = mFrameCount v.
Proof. destruct v. repeat split. Qed.


Lemma nodeVisit_preVisit a tileId : nodeVisit a (preVisit tileId).
Proof.
  split; [| split].
  - intros s b s' E. eapply visits_preVisit; [reflexivity | exact E].
  - intros s b s' state E Hs.
    apply preVisit_head_eq in E. destruct E as (state0 & stateP & Hs0 & _ & E).
    rewrite Hs in Hs0. injection Hs0 as <-.
    destruct (preVisit_head _ _ _ _ _ _ _ Hs E) as (state' & _ & Hs' & Hn & _).
    eauto.
  - intros s b s' state E Hs Hm Hn.
    apply preVisit_head_eq in E. destruct E as (state0 & stateP & Hs0 & _ & E).
    rewrite Hs in Hs0. injection Hs0 as <-.
    eapply head_emits; eassumption.
Qed.

Lemma nodeVisit_preVisitRoot a tileId : nodeVisit a (preVisitRoot tileId).
Proof.
  split; [| split].
  - intros s b s' E. eapply visits_preVisitRoot; [reflexivity | exact E].
  - intros s b s' state E Hs.
    apply preVisitRoot_head in E. destruct E as (state0 & Hs0 & E).
    rewrite Hs in Hs0. injection Hs0 as <-.
    destruct (preVisit_head _ _ _ _ _ _ _ Hs E) as (state' & _ & Hs' & Hn & _).
    eauto.
  - intros s b s' state E Hs Hm Hn.
    apply preVisitRoot_head in E. destruct E as (state0 & Hs0 & E).
    rewrite Hs in Hs0. injection Hs0 as <-.
    eapply head_emits; eassumption.
Qed.

Section Descent.
Variables (tree : TileQuadTree.t) (mgr : option TreeMgrAddr) (a : TreeMgrAddr).

(** One descent: a state is pushed for a node that is not null, the
    node is visited, its children are if [pre] asks for it, and the
    state is popped. *)
Lemma descent_emits (pre : M bool) (below : M unit) nodeDEM nodeIMG
    st u1 s1 u2 s2 descend s3 u4 s4 u5 st' :
  nodeVisit a pre ->
  emitsBelow tree mgr a below ->
  pushState st = Some (u1, s1) ->
  modLODState (setNodes nodeDEM nodeIMG) s1 = Some (u2, s2) ->
  pre s2 = Some (descend, s3) ->
  (if descend then below else ret tt) s3 = Some (u4, s4) ->
  popState s4 = Some (u5, st') ->
  -1 <= mStackTop (vis st) ->
  mTreeMgrDEM (vis st) = Some a ->
  isNull nodeDEM = false ->
  (forall id, getTileId nodeDEM = Some id ->
              TileRenderer.resident (heap st) (a, id) \/ isRootRd tree mgr (a, id)) ->
  emits tree mgr st st'.
Proof.
  intros (Hvis & Htopst & Hhead) Hbelow Epush Eset Epre Ebelow Epop Hge Hmgr Hnn Hok.
  apply pushState_Some in Epush. destruct Epush as [-> _].
  apply modLODState_Some in Eset. destruct Eset as (old & Htop1 & Hold & ->).
  cbn [vis heap] in *.
  destruct (set_mStackTop_fields (mStackTop (vis st) + 1) (vis st))
    as (T1 & S1 & RD1 & MD1 & TD1 & F1).
  set (v1 := set_mStackTop (mStackTop (vis st) + 1) (vis st)) in *.
  set (stateC := setNodes nodeDEM nodeIMG old) in *.
  destruct (set_mStack_fields (<[Z.to_nat (mStackTop v1) := stateC]> (mStack v1)) v1)
    as (S2 & T2 & RD2 & MD2 & _).
  destruct (set_mStack_settings (<[Z.to_nat (mStackTop v1) := stateC]> (mStack v1)) v1)
    as (TD2 & F2).
  set (v2 := set_mStack (<[Z.to_nat (mStackTop v1) := stateC]> (mStack v1)) v1) in *.
  set (s2 := {| vis := v2; heap := heap st |}) in *.
  assert (Hlen : (Z.to_nat (mStackTop v1) < length (mStack v1))%nat)
    by (eapply lookup_lt_Some; eauto).
  assert (HsC : mStack (vis s2) !! Z.to_nat (mStackTop (vis s2)) = Some stateC).
  { cbn [vis s2]. rewrite T2, S2. now apply list_lookup_insert_eq. }
  assert (HmC : mTreeMgrDEM (vis s2) = Some a) by (cbn [vis s2]; congruence).
  pose proof (Hvis _ _ _ Epre) as K.
  destruct (Htopst _ _ _ _ Epre HsC) as (state' & Hs' & Hn').
  destruct (Hhead _ _ _ _ Epre HsC HmC Hnn) as (id & Hid & Hlive & (new1 & R1 & O1) & Hready).
  destruct K as (KT & KR & KS & _ & KK & _).
  destruct (shell_fields _ _ KS) as (T3 & F3 & MD3 & _).
  pose proof (shell_trees _ _ KS) as TD3.
  pose proof (touched_layers _ _ _ KR) as KL.
  cbn [vis heap s2] in *.
  (* the visit below *)
  assert (B : emits tree mgr s3 s4).
  { destruct descend; [| injection Ebelow as _ <-; apply emits_refl].
    eapply Hbelow; [exact Ebelow | lia | | congruence | |].
    - rewrite T3. exact Hs'.
    - rewrite Hn'. exact Hnn.
    - rewrite Hn'. now apply Hready. }
  destruct B as (BT & BL & BF & BD & BM & BS & BK & new2 & R2 & O2).
  apply popState_Some in Epop. subst st'. cbn [vis heap].
  destruct (set_mStackTop_fields (mStackTop (vis s4) - 1) (vis s4))
    as (T5 & S5 & RD5 & MD5 & TD5 & F5).
  set (v5 := set_mStackTop (mStackTop (vis s4) - 1) (vis s4)) in *.
  unfold emits. cbn [vis heap].
  split; [eapply sameTrees_trans; eassumption |].
  split; [eapply layersKept_trans; eassumption |].
  split; [congruence |]. split; [congruence |]. split; [congruence |].
  split; [rewrite T5, BS, T3, T2, T1; lia |].
  split.
  { intros k Hk. rewrite S5, BK by lia. rewrite KK by (rewrite T2, T1; lia).
    rewrite S2, T1. rewrite list_lookup_insert_ne by lia. now rewrite S1. }
  exists (new1 ++ new2). split.
  { rewrite RD5, R2, R1, RD2, RD1. now rewrite app_assoc. }
  apply Forall_app. split; [| exact O2].
  apply List.Forall_forall. intros p Hp.
  rewrite List.Forall_forall in O1. rewrite <- (O1 p Hp).
  destruct (Hok id Hid) as [Hr | Hr]; [left | now right].
  eapply resident_kept; [| exact Hr]. eapply layersKept_trans; eassumption.
Qed.

End Descent.

Lemma forEach_emits {A} tree mgr (P : VState -> Prop) (l : list A) (body : A -> M unit) :
  (forall st st', P st -> emits tree mgr st st' -> P st') ->
  (forall x st u st', In x l -> P st -> body x st = Some (u, st') -> emits tree mgr st st') ->
  forall st u st', P st -> forEach l body st = Some (u, st') -> emits tree mgr st st'.
Proof.
  intros HP. induction l as [| x rest IH]; intros Hb st u st' Hst E.
  - injection E as _ <-. apply emits_refl.
  - cbn [forEach] in E. apply bind_Some in E. destruct E as (u1 & s1 & E1 & E2).
    pose proof (Hb x _ _ _ ltac:(now left) Hst E1) as R1.
    eapply emits_trans; [exact R1 |].
    eapply IH; [| eapply HP; eassumption | exact E2].
    intros y s u' s' Hy. apply Hb. now right.
Qed.

(** The visit of the children of a node all of whose DEM children
    are uploaded, and of what lies below them. *)
Lemma visitLevel_emits tree mgr a fuel : forall tileId,
  emitsBelow tree mgr a (visitLevel fuel tileId).
Proof.
  induction fuel as [| fuel IH]; intros tileId s u s' state E Htop Hs Hm Hn Hready;
    [discriminate |].
  cbn [visitLevel] in E.
  refine (forEach_emits tree mgr
            (fun st => mStackTop (vis st) = mStackTop (vis s) /\
                       mStack (vis st) !! Z.to_nat (mStackTop (vis s)) = Some state /\
                       mTreeMgrDEM (vis st) = Some a /\
                       childrenReady (heap st) a (mNodeDEM state))
            _ _ _ _ _ _ _ _ E); [| | auto].
  - intros st st' (T & S & M & R) (_ & EL & _ & _ & EM & ET & EK & _).
    split; [congruence |]. split; [rewrite <- S; rewrite <- T; apply EK; lia |].
    split; [congruence |]. eapply childrenReady_kept; eassumption.
  - intros i st u0 st' Hi (T & S & M & R) Ebody.
    apply (In_zrange 4) in Hi.
    unfold visitChild in Ebody.
    apply bind_Some in Ebody. destruct Ebody as (state0 & s0 & Hg & Ebody).
    apply getLODState_Some in Hg. destruct Hg as (-> & _ & Hs0). cbn in Hs0.
    rewrite T, S in Hs0. injection Hs0 as <-.
    apply bind_Some in Ebody. destruct Ebody as (childDEM & s0 & Hc & Ebody).
    rewrite Hn in Hc. apply liftO_Some in Hc. destruct Hc as [-> HcD].
    apply bind_Some in Ebody. destruct Ebody as (childIMG & s0 & Hc & Ebody).
    apply child_state in Hc. subst s0.
    apply bind_Some in Ebody. destruct Ebody as (u1 & s1 & Epush & Ebody).
    apply bind_Some in Ebody. destruct Ebody as (u2 & s2 & Eset & Ebody).
    apply bind_Some in Ebody. destruct Ebody as (descend & s3 & Epre & Ebody).
    apply bind_Some in Ebody. destruct Ebody as (u4 & s4 & Ebelow & Epop).
    destruct (R i ltac:(lia)) as (id & rd & Hp & Hr & Hl).
    unfold presentChild in Hp. rewrite HcD in Hp.
    eapply (descent_emits tree mgr a (preVisit (HEALPix.getChildTileId tileId i))
              (visitLevel fuel (HEALPix.getChildTileId tileId i)));
      [apply nodeVisit_preVisit | apply IH | exact Epush | exact Eset | exact Epre
      | exact Ebelow | exact Epop | lia | exact M | | ].
    + destruct childDEM; [discriminate | reflexivity].
    + intros id' Hid'. rewrite Hp in Hid'. injection Hid' as <-. left.
      exists (getTexLayer rd). unfold TileRenderer.texLayerOf. rewrite Hr. split; [reflexivity | lia].
Qed.

(** The visit of one pair of roots. *)
Lemma visitRoot_emits tree mgr rootDEM rootIMG i st u st' :
  visitRoot rootDEM rootIMG st = Some (u, st') ->
  mStackTop (vis st) = -1 ->
  mTreeMgrDEM (vis st) = mgr ->
  0 <= i < 12 -> rootDEM = TileQuadTree.getRoot tree i ->
  emits tree mgr st st'.
Proof.
  intros E Htop Hm Hi Hroot. unfold visitRoot in E.
  destruct (getTileId _) as [tileId |]; [| injection E as _ <-; apply emits_refl].
  apply bind_Some in E. destruct E as (u1 & s1 & Epush & E).
  apply bind_Some in E. destruct E as (u2 & s2 & Eset & E).
  apply bind_Some in E. destruct E as (descend & s3 & Epre & E).
  apply bind_Some in E. destruct E as (u4 & s4 & Ebelow & E).
  apply bind_Some in E. destruct E as (u5 & s5 & Epost & Epop).
  injection Epost as _ <-.
  (* the state the root is visited in *)
  pose proof Epush as Epush0. pose proof Eset as Eset0.
  apply pushState_Some in Epush0. destruct Epush0 as [-> _].
  apply modLODState_Some in Eset0. destruct Eset0 as (old & Htop1 & Hold & ->).
  cbn [vis heap] in *.
  destruct (set_mStackTop_fields (mStackTop (vis st) + 1) (vis st))
    as (T1 & S1 & _ & MD1 & _).
  set (v1 := set_mStackTop (mStackTop (vis st) + 1) (vis st)) in *.
  set (stateC := setNodes rootDEM rootIMG old) in *.
  destruct (set_mStack_fields (<[Z.to_nat (mStackTop v1) := stateC]> (mStack v1)) v1)
    as (S2 & T2 & _ & MD2 & _).
  set (v2 := set_mStack (<[Z.to_nat (mStackTop v1) := stateC]> (mStack v1)) v1) in *.
  assert (Hlen : (Z.to_nat (mStackTop v1) < length (mStack v1))%nat)
    by (eapply lookup_lt_Some; eauto).
  assert (HsC : mStack v2 !! Z.to_nat (mStackTop v2) = Some stateC).
  { rewrite T2, S2. now apply list_lookup_insert_eq. }
  pose proof Epre as Epre0.
  apply preVisitRoot_head in Epre0. destruct Epre0 as (state0 & Hs0 & Ehead).
  cbn [vis heap] in Hs0, Ehead. rewrite HsC in Hs0. injection Hs0 as <-.
  destruct (preVisit_head None None tileId (mkVState v2 (heap st)) descend s3 stateC HsC Ehead)
    as (state' & _ & _ & _ & _ & Hrd & HD & _).
  cbn [vis heap] in HD.
  assert (Hmgr : exists a, mTreeMgrDEM (vis st) = Some a /\ isNull rootDEM = false).
  { rewrite MD2, MD1 in HD. destruct (mTreeMgrDEM (vis st)) as [a |].
    - exists a. split; [reflexivity |]. cbn [mNodeDEM stateC setNodes] in HD.
      destruct (isNull rootDEM); [| reflexivity].
      rewrite HD in Hrd. destruct Hrd. discriminate.
    - rewrite HD in Hrd. destruct Hrd. discriminate. }
  destruct Hmgr as (a & Ha & Hnn).
  eapply (descent_emits tree mgr a (preVisitRoot tileId)
            (visitLevel (Z.to_nat sMaxStackDepth) tileId));
    [apply nodeVisit_preVisitRoot | apply visitLevel_emits | exact Epush | exact Eset
    | exact Epre | exact Ebelow | exact Epop | lia | exact Ha | exact Hnn |].
  intros id Hid. right. exists i, a, id. subst rootDEM. repeat split; try lia; congruence.
Qed.

(** A whole traversal: every entry of [mRenderDEM] is resident or the
    render data of a root. *)
Lemma visit_emits `{Externals} (st st' : VState) :
  visit st = Some (tt, st') ->
  layersKept (heap st) (heap st') /\
  Forall (fun p => TileRenderer.resident (heap st') p \/
                   isRootRd (treeOf (heap st) (mTreeDEM (vis st))) (mTreeMgrDEM (vis st)) p)
         (mRenderDEM (vis st')).
Proof.
  intros E. unfold visit in E.
  apply bind_Some in E. destruct E as (proceed & s1 & Epre & E).
  destruct (preTraverse_eq st)
    as (s1' & Epre' & Hh & _ & _ & RD1 & _ & Htop & _ & _ & HtD & _ & HmD & _).
  cbv zeta in *. rewrite Epre in Epre'. injection Epre' as _ <-.
  destruct proceed.
  2: { injection E as <-. split; [rewrite Hh; apply layersKept_refl |]. rewrite RD1. constructor. }
  apply bind_Some in E. destruct E as (u & s2 & Eloop & Epost). injection Epost as <-.
  set (tree := treeOf (heap st) (mTreeDEM (vis st))).
  set (mgr := mTreeMgrDEM (vis st)).
  assert (R : emits tree mgr s1 s2).
  { refine (forEach_emits tree mgr
              (fun s => mStackTop (vis s) = -1 /\ mTreeMgrDEM (vis s) = mgr /\
                        mTreeDEM (vis s) = mTreeDEM (vis st) /\ sameTrees (heap st) (heap s))
              _ _ _ _ _ _ _ _ Eloop).
    - intros s s' (T & M & D & S) (ET & _ & _ & ED & EM & ES & _).
      split; [congruence |]. split; [congruence |]. split; [congruence |].
      eapply sameTrees_trans; eassumption.
    - intros i s u0 s' Hi (T & M & D & S) Ebody.
      apply (In_zrange 12) in Hi.
      apply bind_Some in Ebody. destruct Ebody as (v & s0 & Hg & Ebody). injection Hg as <- <-.
      apply bind_Some in Ebody. destruct Ebody as (h & s0 & Hg & Ebody). injection Hg as <- <-.
      eapply (visitRoot_emits tree mgr _ _ i); [exact Ebody | exact T | exact M | lia |].
      unfold tree, treeOf. rewrite D. destruct (mTreeDEM (vis st)) as [t |].
      + f_equal. apply S.
      + symmetry. apply treeEmpty_empty.
    - split; [exact Htop |]. split; [exact HmD |]. split; [exact HtD |].
      rewrite Hh. apply sameTrees_refl. }
  destruct R as (_ & RL & _ & _ & _ & _ & _ & new & RR & RO).
  split; [rewrite <- Hh; exact RL |].
  rewrite RR, RD1. exact RO.
Qed.

Lemma isRootRd_level tree mgr p :
  treeConsistent tree -> isRootRd tree mgr p -> level (snd p) = 0.
Proof.
  intros Hc (i & a & id & Hi & _ & Hid & ->). cbn [snd].
  assert (Hn : isNull (TileQuadTree.getRoot tree i) = false)
    by (destruct (TileQuadTree.getRoot tree i); [discriminate | reflexivity]).
  rewrite (Hc (mkTileId 0 i) _ (atRoot tree i Hi) Hn) in Hid. now injection Hid as <-.
Qed.

(** C1 (as amended). A traversal that returns changes no texture
    layer, and every entry it leaves in [mRenderDEM] is the render
    data of one of the twelve roots or refers to a tile whose texture
    layer is at least 0: below the roots the visitor emits only what
    [childrenAvailable] has seen uploaded. This is so when the entry
    is emitted and for every later heap [h] with the same texture
    layers, the one the renderer reads if nothing changes a layer in
    between. In a tree whose nodes carry the ids of their places every
    entry of a level other than 0 is therefore resident. A root is
    emitted on its presence alone. Whatever the heap is when the
    renderer consumes the lists, [renderTiles] passes on to
    [renderTile] exactly the pairs whose DEM entry, and IMG entry when
    one is paired with it, have a texture layer of at least 0. *)
Theorem renderDEM_resident_below_roots `{Externals} (st st' : VState) :
  visit st = Some (tt, st') ->
  let tree := treeOf (heap st) (mTreeDEM (vis st)) in
  layersKept (heap st) (heap st') /\
  (forall h,
     layersKept (heap st') h ->
     (forall p, In p (mRenderDEM (vis st')) ->
        TileRenderer.resident h p \/ isRootRd tree (mTreeMgrDEM (vis st)) p) /\
     (treeConsistent tree ->
      forall p, In p (mRenderDEM (vis st')) -> level (snd p) <> 0 ->
                TileRenderer.resident h p)) /\
  (forall h,
     Forall (TileRenderer.live h) (mRenderDEM (vis st')) ->
     Forall (TileRenderer.live h) (mRenderIMG (vis st')) ->
     exists calls,
       TileRenderer.renderTiles h (mRenderDEM (vis st')) (mRenderIMG (vis st')) = Some calls /\
       forall rdDEM rdIMG,
         In (rdDEM, rdIMG) calls <->
         exists i, mRenderDEM (vis st') !! i = Some rdDEM /\ mRenderIMG (vis st') !! i = rdIMG /\
                   TileRenderer.resident h rdDEM /\
                   (forall p, rdIMG = Some p -> TileRenderer.resident h p)).
Proof.
  intros E. cbv zeta. destruct (visit_emits st st' E) as [Hkept Hall].
  rewrite List.Forall_forall in Hall.
  split; [exact Hkept |]. split.
  - intros h Hh.
    assert (Hall' : forall p, In p (mRenderDEM (vis st')) ->
              TileRenderer.resident h p \/
              isRootRd (treeOf (heap st) (mTreeDEM (vis st))) (mTreeMgrDEM (vis st)) p).
    { intros p Hp. destruct (Hall p Hp) as [Hr | Hr]; [left | now right].
      eapply resident_kept; eassumption. }
    split; [exact Hall' |].
    intros Hc p Hp Hl. destruct (Hall' p Hp) as [Hr | Hr]; [exact Hr |].
    exfalso. apply Hl. eapply isRootRd_level; eassumption.
  - intros h HD HI. now apply renderTiles_spec.
Qed.

End EmissionFacts.

(** ** A traversal that descends *)

Section DescendingVisit.
Import LODVisitor.
Local Open Scope Z_scope.

Lemma getLODState_at lvl st state :
  0 <= mStackTop (vis st) -> 0 <= lvl ->
  mStack (vis st) !! Z.to_nat lvl = Some state ->
  getLODState lvl st = Some (state, st).
Proof.
  intros Htop Hlvl Hlook. unfold getLODState. munfold.
  destruct (Z.leb_spec 0 (mStackTop (vis st))) as [_ | ?]; [| lia].
  destruct (Z.leb_spec 0 lvl) as [_ | ?]; [| lia].
  simpl. rewrite Hlook. reflexivity.
Qed.

(** [preVisit] with both channels attached, on a state whose two
    nodes have render data: as [preVisitRoot], the pointers are
    stored in the state, the frame is stamped on both, and
    [visitNode] takes over. *)
Lemma preVisit_both tileId st state stateP aD aI idD idI rdD rdI :
  0 <= mStackTop (vis st) ->
  mStack (vis st) !! Z.to_nat (mStackTop (vis st)) = Some state ->
  0 <= level tileId - 1 ->
  mStack (vis st) !! Z.to_nat (level tileId - 1) = Some stateP ->
  mTreeMgrDEM (vis st) = Some aD -> mTreeMgrIMG (vis st) = Some aI ->
  getTileId (mNodeDEM state) = Some idD -> getTileId (mNodeIMG state) = Some idI ->
  readRd (heap st) (aD, idD) = Some rdD -> readRd (heap st) (aI, idI) = Some rdI ->
  aD <> aI ->
  preVisit tileId st =
  visitNode tileId
    (mkVState
       (set_mStack
          (<[Z.to_nat (mStackTop (vis st)) :=
               mkLODState (mNodeDEM state) (mNodeIMG state) (Some (aD, idD)) (Some (aI, idI))]>
             (mStack (vis st)))
          (vis st))
       (writeRd (aI, idI) (setLastFrame (mFrameCount (vis st)) rdI)
          (writeRd (aD, idD) (setLastFrame (mFrameCount (vis st)) rdD) (heap st)))).
Proof.
  intros Htop Hstate HlvlP HstateP HmD HmI HidD HidI HrdD HrdI Hne.
  assert (HnD : isNull (mNodeDEM state) = false) by (destruct (mNodeDEM state); [discriminate | reflexivity]).
  assert (HnI : isNull (mNodeIMG state) = false) by (destruct (mNodeIMG state); [discriminate | reflexivity]).
  unfold preVisit. generalize (visitNode tileId). intros k.
  unfold bind at 1. rewrite (getLODState_top _ _ Htop Hstate).
  unfold bind at 1. rewrite (getLODState_at _ _ _ Htop HlvlP HstateP).
  unfold bind at 1, getV at 1. unfold bind at 1, getH at 1.
  rewrite HmD, HmI, HnD, HnI. cbn [negb]. cbv zeta.
  rewrite findRData_Some, HidD, HrdD.
  unfold bind at 1. unfold bind at 1.
  rewrite (modLODState_eq _ _ _ Htop Hstate).
  rewrite rdSetLastFrame_eq. cbn [heap vis]. rewrite HrdD.
  unfold bind at 1, getH at 1. cbn [heap].
  rewrite findRData_Some, HidI, readRd_writeRd.
  rewrite decide_False by congruence. rewrite HrdI.
  unfold bind at 1. unfold bind at 1.
  assert (Hlen : (Z.to_nat (mStackTop (vis st)) < length (mStack (vis st)))%nat)
    by (eapply lookup_lt_Some; eauto).
  erewrite modLODState_eq.
  2: { destruct st as [[] ?]. exact Htop. }
  2: { destruct st as [[] ?]. cbn in *. apply list_lookup_insert_eq. exact Hlen. }
  rewrite rdSetLastFrame_eq. cbn [heap vis]. rewrite readRd_writeRd.
  rewrite decide_False by congruence. rewrite HrdI.
  f_equal. destruct st as [[] ?]. cbn in *. rewrite list_insert_insert_eq. reflexivity.
Qed.

(** [testNeedRefine] on a state whose DEM render data is at hand. *)
Lemma testNeedRefine_eq tileId st state ptr rd :
  0 <= mStackTop (vis st) ->
  mStack (vis st) !! Z.to_nat (mStackTop (vis st)) = Some state ->
  isNull (mNodeDEM state) = false ->
  mRdDEM state = Some ptr ->
  readRd (heap st) ptr = Some rd ->
  testNeedRefine tileId st =
  Some (if mMinLevel (hParams (heap st)) >? level tileId then true
        else Cmp.gtb (refineRatio (mCamPos (mCullData (vis st))) (mFrustumES (mLodData (vis st)))
                        (mLodFactor (hParams (heap st))) (getBounds rd)) 10, st).
Proof.
  intros Htop Hstate Hnode Hptr Hrd.
  unfold testNeedRefine. unfold bind at 1. rewrite (getLODState_top _ _ Htop Hstate).
  rewrite Hnode. munfold. rewrite Hptr. cbn. rewrite Hrd. reflexivity.
Qed.

(** The visit of a visible node that needs no refinement: it is
    drawn. *)
Lemma visitNode_draws tileId st state aD aI pD pI rd :
  0 <= mStackTop (vis st) ->
  mStack (vis st) !! Z.to_nat (mStackTop (vis st)) = Some state ->
  mTreeMgrDEM (vis st) = Some aD -> mTreeMgrIMG (vis st) = Some aI ->
  isNull (mNodeDEM state) = false -> isNull (mNodeIMG state) = false ->
  mRdDEM state = Some pD -> mRdIMG state = Some pI ->
  readRd (heap st) pD = Some rd ->
  inView (vis st) (heap st) aD (getBounds rd) ->
  mMinLevel (hParams (heap st)) <= level tileId ->
  smallEnough (vis st) (heap st) (getBounds rd) ->
  visitNode tileId st =
  Some (false, mkVState
                 (set_mRenderIMG (mRenderIMG (vis st) ++ [pI])
                    (set_mRenderDEM (mRenderDEM (vis st) ++ [pD]) (vis st)))
                 (writeRd pD (addRenderFlag rd) (heap st))).
Proof.
  intros Htop Hstate HmD HmI HnD HnI HpD HpI Hrd [Hfrustum Hfront] Hmin Hratio.
  unfold smallEnough in Hratio. unfold visitNode. unfold bind at 1, getV at 1. unfold bind at 1.
  rewrite (testVisible_eq _ _ st state pD rd Htop Hstate HpD Hrd).
  rewrite Hfrustum, HmD. cbn [option_map]. rewrite Hfront.
  unfold bind at 1.
  rewrite (testNeedRefine_eq tileId st state pD rd Htop Hstate HnD HpD Hrd), Hratio.
  destruct (Z.gtb_spec (mMinLevel (hParams (heap st))) (level tileId)) as [? | _]; [lia |].
  unfold bind at 1.
  rewrite (drawLevel_both st state aD aI pD pI rd Htop Hstate HmD HmI HnD HnI HpD HpI Hrd).
  reflexivity.
Qed.

Lemma inView_ext v v' h h' a tb :
  mCullData v' = mCullData v -> sameTrees h h' -> inView v h a tb -> inView v' h' a tb.
Proof.
  intros Hc [HP HT] [Hf Hff]. unfold inView. rewrite Hc, HP. split; [exact Hf |].
  rewrite (testFrontFacing_tree _ _ _ (treeMgr h a)) by apply HT. exact Hff.
Qed.

Lemma smallEnough_ext v v' h h' tb :
  mCullData v' = mCullData v -> mLodData v' = mLodData v -> sameTrees h h' ->
  smallEnough v h tb -> smallEnough v' h' tb.
Proof. intros Hc Hl [HP _] Hs. unfold smallEnough. rewrite Hc, Hl, HP. exact Hs. Qed.

Lemma rdKept_flag h p rd :
  readRd h p = Some rd -> rdKept h (writeRd p (addRenderFlag rd) h).
Proof.
  intros Hrd q. rewrite readRd_writeRd. case_decide as E.
  - subst q. exists addRenderFlag. rewrite Hrd. split; [reflexivity |].
    intros []; split; reflexivity.
  - exists (fun rd => rd). split; [| auto]. destruct (readRd h q); reflexivity.
Qed.

End DescendingVisit.

Section ChildrenDrawn.
Import LODVisitor.
Local Open Scope Z_scope.

Variables (visitChildren : TileId -> M unit) (tileId : TileId) (state : LODState).
Variables (aD aI : TreeMgrAddr) (idD idI : Z -> TileId).
Variables (v0 : LODVisitor) (h0 : Heap).
Hypothesis Hne : aD <> aI.
Hypothesis HmD : mTreeMgrDEM v0 = Some aD.
Hypothesis HmI : mTreeMgrIMG v0 = Some aI.
Hypothesis Hlevel : 0 <= level tileId.
Hypothesis Hroom : level tileId + 1 < sMaxStackDepth.
Hypothesis Hdepth : (Z.to_nat (level tileId + 1) < length (mStack v0))%nat.
Hypothesis HchildD : forall i, 0 <= i < 4 -> presentChild (mNodeDEM state) i = Some (idD i).
Hypothesis HchildI : forall i, 0 <= i < 4 -> presentChild (mNodeIMG state) i = Some (idI i).
Hypothesis HrdD : forall i, 0 <= i < 4 ->
  exists rd, readRd h0 (aD, idD i) = Some rd /\
             inView v0 h0 aD (getBounds rd) /\ smallEnough v0 h0 (getBounds rd).
Hypothesis HrdI : forall i, 0 <= i < 4 -> TileRenderer.live h0 (aI, idI i).
Hypothesis Hmin : mMinLevel (hParams h0) <= level tileId + 1.

Ltac vfields :=
  cbn [vis heap mTreeDEM mTreeIMG mTreeMgrDEM mTreeMgrIMG mLodData mCullData mStack
       mStackTop mLoadDEM mLoadIMG mRenderDEM mRenderIMG mFrameCount
       set_mStack set_mStackTop set_mRenderDEM set_mRenderIMG] in *.

(** The visit of a child that is visible and needs no refinement: it
    is drawn, and the visitor is back at the parent. *)
Lemma visitChild_draws i st :
  0 <= i < 4 -> drawnAt tileId state v0 h0 st ->
  exists st',
    visitChild visitChildren tileId i st = Some (tt, st') /\
    drawnAt tileId state v0 h0 st' /\
    mLoadDEM (vis st') = mLoadDEM (vis st) /\
    mLoadIMG (vis st') = mLoadIMG (vis st) /\
    mRenderDEM (vis st') = mRenderDEM (vis st) ++ [(aD, idD i)] /\
    mRenderIMG (vis st') = mRenderIMG (vis st) ++ [(aI, idI i)].
Proof.
  intros Hi (Htop & Hstate & Hlen & Hset & Ht & Hk).
  destruct st as [v h]. cbn [vis heap] in *.
  pose proof Hset as Hset0. unfold settings in Hset. injection Hset as S1 S2 S3 S4 S5 S6 S7.
  rewrite HmD in S3. rewrite HmI in S4.
  pose proof (HchildD i Hi) as HcD. pose proof (HchildI i Hi) as HcI.
  unfold presentChild in HcD, HcI.
  destruct (getChild (mNodeDEM state) i) as [cD |] eqn:EcD; [| discriminate].
  destruct (getChild (mNodeIMG state) i) as [cI |] eqn:EcI; [| discriminate].
  assert (HnD : isNull (mNodeDEM state) = false)
    by (destruct (mNodeDEM state); [discriminate | reflexivity]).
  assert (HnI : isNull (mNodeIMG state) = false)
    by (destruct (mNodeIMG state); [discriminate | reflexivity]).
  destruct (HrdD i Hi) as (rdD0 & HrdD0 & Hview & Hratio).
  destruct (HrdI i Hi) as [rdI0 HrdI0].
  destruct (rdKept_Some _ _ _ _ Hk HrdD0) as (rdD & HrdD' & HbD & _).
  destruct (rdKept_Some _ _ _ _ Hk HrdI0) as (rdI & HrdI' & _).
  destruct (mStack v !! Z.to_nat (level tileId + 1)) as [s1 |] eqn:Hs1.
  2: { apply lookup_ge_None in Hs1. lia. }
  set (childId := HEALPix.getChildTileId tileId i).
  set (state1 := mkLODState cD cI (Some (aD, idD i)) (Some (aI, idI i))).
  set (h3 := writeRd (aI, idI i) (setLastFrame (mFrameCount v) rdI)
               (writeRd (aD, idD i) (setLastFrame (mFrameCount v) rdD) h)).
  set (v3 := set_mStack (<[Z.to_nat (level tileId + 1) := state1]> (mStack v))
               (set_mStackTop (level tileId + 1) v)).
  assert (Hlt : (Z.to_nat (level tileId) < Z.to_nat (level tileId + 1))%nat) by lia.
  assert (E3 : visitChild visitChildren tileId i (mkVState v h) =
               bind (visitNode childId)
                    (fun descend =>
                       (if descend then visitChildren childId else ret tt) ;;; popState)
                    (mkVState v3 h3)).
  { unfold visitChild. unfold bind at 1.
    rewrite (getLODState_top (mkVState v h) state);
      [| cbn [vis]; lia | cbn [vis]; rewrite Htop; exact Hstate].
    rewrite HnD, HnI, EcD, EcI. unfold bind at 1. cbn [liftO]. unfold ret at 1.
    unfold bind at 1. unfold ret at 1. cbv zeta. fold childId.
    unfold bind at 1. rewrite pushState_eq by (cbn [vis]; lia).
    cbn [vis heap]. rewrite Htop.
    unfold bind at 1.
    rewrite (modLODState_eq _ _ s1);
      [| destruct v; cbn; lia | destruct v; cbn in *; exact Hs1].
    unfold bind at 1.
    erewrite (preVisit_both childId _ (setNodes cD cI s1) state aD aI (idD i) (idI i) rdD rdI);
      [| destruct v; cbn; lia
       | destruct v; cbn in *; apply list_lookup_insert_eq; lia
       | cbn; lia
       | destruct v; cbn in *;
         replace (level tileId + 1 - 1) with (level tileId) by lia;
         rewrite list_lookup_insert_ne by lia; exact Hstate
       | destruct v; cbn in *; exact S3
       | destruct v; cbn in *; exact S4
       | exact HcD | exact HcI
       | exact HrdD' | exact HrdI' | exact Hne].
    f_equal. unfold v3, h3, state1. destruct v. cbn in *.
    rewrite list_insert_insert_eq. reflexivity. }
  rewrite E3. clear E3.
  assert (Htop3 : 0 <= mStackTop v3) by (destruct v; cbn; lia).
  assert (Hstate3 : mStack v3 !! Z.to_nat (mStackTop v3) = Some state1)
    by (destruct v; cbn in *; apply list_lookup_insert_eq; lia).
  assert (HmD3 : mTreeMgrDEM v3 = Some aD) by (destruct v; exact S3).
  assert (HmI3 : mTreeMgrIMG v3 = Some aI) by (destruct v; exact S4).
  assert (Hcull3 : mCullData v3 = mCullData v) by (destruct v; reflexivity).
  assert (Hlod3 : mLodData v3 = mLodData v) by (destruct v; reflexivity).
  assert (Ht3 : sameTrees h h3).
  { eapply sameTrees_trans; apply sameTrees_writeRd. }
  assert (K3 : rdKept h h3).
  { eapply rdKept_trans; [apply (rdKept_stamp h (aD, idD i) (mFrameCount v) rdD HrdD') |].
    apply rdKept_stamp. rewrite readRd_writeRd, decide_False by congruence. exact HrdI'. }
  destruct (rdKept_Some _ _ _ _ K3 HrdD') as (rdD3 & HrdD3 & HbD3 & _).
  assert (Ht03 : sameTrees h0 h3) by (eapply sameTrees_trans; eassumption).
  assert (HP03 : hParams h3 = hParams h0) by apply Ht03.
  assert (HnD1 : isNull cD = false) by (destruct cD; [discriminate | reflexivity]).
  assert (HnI1 : isNull cI = false) by (destruct cI; [discriminate | reflexivity]).
  unfold bind at 1.
  rewrite (visitNode_draws childId (mkVState v3 h3) state1 aD aI (aD, idD i) (aI, idI i) rdD3
             Htop3 Hstate3 HmD3 HmI3 HnD1 HnI1 eq_refl eq_refl HrdD3).
  2: { cbn [vis heap]. rewrite HbD3, HbD.
       apply (inView_ext v0 v3 h0 h3); [congruence | exact Ht03 | exact Hview]. }
  2: { cbn [heap]. rewrite HP03. cbn. lia. }
  2: { cbn [vis heap]. rewrite HbD3, HbD.
       apply (smallEnough_ext v0 v3 h0 h3); [congruence | congruence | exact Ht03 | exact Hratio]. }
  unfold bind at 1. unfold ret at 1. rewrite popState_eq.
  eexists. split; [reflexivity |].
  unfold drawnAt. cbn [vis heap]. unfold v3. destruct v. vfields.
  replace (level tileId + 1 - 1) with (level tileId) by lia.
  split.
  { split; [reflexivity |].
    split; [rewrite list_lookup_insert_ne by lia; exact Hstate |].
    split; [rewrite length_insert; exact Hlen |].
    split; [exact Hset0 |].
    split.
    - eapply sameTrees_trans; [exact Ht |]. eapply sameTrees_trans; [exact Ht3 |].
      apply sameTrees_writeRd.
    - eapply rdKept_trans; [exact Hk |]. eapply rdKept_trans; [exact K3 |].
      apply rdKept_flag. exact HrdD3. }
  repeat split.
Qed.

(** The children of a node among [l], visited in turn. *)
Lemma visitChildren_draws (l : list Z) : forall st,
  Forall (fun i => 0 <= i < 4) l -> drawnAt tileId state v0 h0 st ->
  exists st',
    forEach l (visitChild visitChildren tileId) st = Some (tt, st') /\
    drawnAt tileId state v0 h0 st' /\
    mLoadDEM (vis st') = mLoadDEM (vis st) /\
    mLoadIMG (vis st') = mLoadIMG (vis st) /\
    mRenderDEM (vis st') = mRenderDEM (vis st) ++ map (fun i => (aD, idD i)) l /\
    mRenderIMG (vis st') = mRenderIMG (vis st) ++ map (fun i => (aI, idI i)) l.
Proof.
  induction l as [| i rest IH]; intros st Hin Hat.
  - exists st. split; [reflexivity |]. split; [exact Hat |].
    cbn. rewrite !app_nil_r. auto.
  - apply Forall_cons in Hin. destruct Hin as [Hi Hrest].
    destruct (visitChild_draws i st Hi Hat) as (st1 & E1 & A1 & LD1 & LI1 & RD1 & RI1).
    destruct (IH st1 Hrest A1) as (st' & E & A & LD & LI & RD & RI).
    exists st'. split.
    + cbn [forEach]. unfold bind at 1. rewrite E1. exact E.
    + split; [exact A |].
      rewrite LD, LI, RD, RI, LD1, LI1, RD1, RI1, <- !app_assoc. repeat split.
Qed.

End ChildrenDrawn.

Section RootDescends.
Import LODVisitor.
Local Open Scope Z_scope.

(** The visit of a pair of roots that are visible and lie below the
    minimum level, with four children each that are uploaded, visible
    and need no refinement: the visitor descends, draws the four
    children and not the roots, and requests nothing. *)
Lemma visitRoot_draws_children
    (st : VState) (rootDEM rootIMG : TileNode) (aD aI : TreeMgrAddr)
    (rootD rootI : TileId) (idD idI : Z -> TileId) :
  getTileId rootDEM = Some rootD -> getTileId rootIMG = Some rootI ->
  level rootD = 0 ->
  mStackTop (vis st) = -1 ->
  (1 < length (mStack (vis st)))%nat ->
  mTreeMgrDEM (vis st) = Some aD -> mTreeMgrIMG (vis st) = Some aI -> aD <> aI ->
  mMinLevel (hParams (heap st)) = 1 ->
  (exists rd, readRd (heap st) (aD, rootD) = Some rd /\
              inView (vis st) (heap st) aD (getBounds rd)) ->
  TileRenderer.live (heap st) (aI, rootI) ->
  (forall i, 0 <= i < 4 -> presentChild rootDEM i = Some (idD i)) ->
  (forall i, 0 <= i < 4 -> presentChild rootIMG i = Some (idI i)) ->
  (forall i, 0 <= i < 4 ->
     exists rd, readRd (heap st) (aD, idD i) = Some rd /\ 0 <= getTexLayer rd /\
                inView (vis st) (heap st) aD (getBounds rd) /\
                smallEnough (vis st) (heap st) (getBounds rd)) ->
  (forall i, 0 <= i < 4 ->
     exists rd, readRd (heap st) (aI, idI i) = Some rd /\ 0 <= getTexLayer rd) ->
  exists st',
    visitRoot rootDEM rootIMG st = Some (tt, st') /\
    mLoadDEM (vis st') = mLoadDEM (vis st) /\
    mLoadIMG (vis st') = mLoadIMG (vis st) /\
    mRenderDEM (vis st') = mRenderDEM (vis st) ++ map (fun i => (aD, idD i)) (zrange 4) /\
    mRenderIMG (vis st') = mRenderIMG (vis st) ++ map (fun i => (aI, idI i)) (zrange 4) /\
    settings (vis st') = settings (vis st) /\
    mStackTop (vis st') = -1 /\
    length (mStack (vis st')) = length (mStack (vis st)) /\
    sameTrees (heap st) (heap st') /\
    rdKept (heap st) (heap st').
Proof.
  intros HidD HidI Hlvl Htop Hlen HmD HmI Hne Hmin (rdD & HrdD & Hview) [rdI HrdI]
         HcD HcI HchD HchI.
  destruct st as [v h]. cbn [vis heap] in *.
  destruct (mStack v !! 0%nat) as [s0 |] eqn:Hslot.
  2: { apply lookup_ge_None in Hslot. lia. }
  set (state := mkLODState rootDEM rootIMG (Some (aD, rootD)) (Some (aI, rootI))).
  set (h3 := writeRd (aI, rootI) (setLastFrame (mFrameCount v) rdI)
               (writeRd (aD, rootD) (setLastFrame (mFrameCount v) rdD) h)).
  set (v3 := set_mStack (<[0%nat := state]> (mStack v)) (set_mStackTop 0 v)).
  assert (HnD : isNull rootDEM = false) by (destruct rootDEM; [discriminate | reflexivity]).
  assert (HnI : isNull rootIMG = false) by (destruct rootIMG; [discriminate | reflexivity]).
  (* the descent to the state of the root *)
  assert (E3 : visitRoot rootDEM rootIMG (mkVState v h) =
               bind (visitNode rootD)
                    (fun descend =>
                       (if descend then visitLevel (Z.to_nat sMaxStackDepth) rootD else ret tt) ;;;
                       postVisitRoot rootD ;;; popState) (mkVState v3 h3)).
  { unfold visitRoot. rewrite HnD, HidD.
    unfold bind at 1. rewrite pushState_eq by (cbn; rewrite Htop; reflexivity).
    cbn [vis heap]. rewrite Htop. change (-1 + 1) with 0.
    unfold bind at 1.
    rewrite (modLODState_eq _ _ s0);
      [| destruct v; cbn; lia | destruct v; cbn in *; exact Hslot].
    unfold bind at 1.
    erewrite (preVisitRoot_both rootD _ (setNodes rootDEM rootIMG s0) aD aI rootD rootI rdD rdI);
      [| destruct v; cbn; lia
       | destruct v; cbn in *; apply list_lookup_insert_eq; lia
       | destruct v; cbn in *; exact HmD
       | destruct v; cbn in *; exact HmI
       | exact HidD | exact HidI
       | exact HrdD | exact HrdI | exact Hne].
    f_equal. unfold v3, h3, state. destruct v. cbn in *.
    rewrite list_insert_insert_eq. reflexivity. }
  rewrite E3. clear E3.
  assert (Htop3 : 0 <= mStackTop v3) by (destruct v; cbn; lia).
  assert (Hstate3 : mStack v3 !! Z.to_nat (mStackTop v3) = Some state)
    by (destruct v; cbn in *; apply list_lookup_insert_eq; lia).
  assert (HmD3 : mTreeMgrDEM v3 = Some aD) by (destruct v; exact HmD).
  assert (HmI3 : mTreeMgrIMG v3 = Some aI) by (destruct v; exact HmI).
  assert (Hcull3 : mCullData v3 = mCullData v) by (destruct v; reflexivity).
  assert (Hlod3 : mLodData v3 = mLodData v) by (destruct v; reflexivity).
  assert (Ht3 : sameTrees h h3).
  { eapply sameTrees_trans; apply sameTrees_writeRd. }
  assert (HP3 : hParams h3 = hParams h) by apply Ht3.
  assert (K3 : rdKept h h3).
  { eapply rdKept_trans; [apply (rdKept_stamp h (aD, rootD) (mFrameCount v) rdD HrdD) |].
    apply rdKept_stamp. rewrite readRd_writeRd, decide_False by congruence. exact HrdI. }
  destruct (rdKept_Some _ _ _ _ K3 HrdD) as (rdD3 & HrdD3 & HbD3 & _).
  (* the node is visible and must be refined *)
  destruct (inView_ext v v3 h h3 aD _ Hcull3 Ht3 Hview) as [Hfrustum Hfront].
  unfold bind at 1. unfold visitNode. unfold bind at 1, getV at 1.
  unfold bind at 1. cbn [vis].
  rewrite (testVisible_eq _ _ (mkVState v3 h3) state (aD, rootD) rdD3 Htop3 Hstate3 eq_refl HrdD3).
  cbn [vis heap]. rewrite HbD3, Hfrustum, HmD3. cbn [option_map]. rewrite Hfront.
  unfold bind at 1.
  rewrite (testNeedRefine_forced rootD (mkVState v3 h3) state (aD, rootD) rdD3
             Htop3 Hstate3 HnD eq_refl HrdD3)
    by (cbn [heap]; rewrite HP3; lia).
  (* its children are available *)
  assert (HreadyD : childrenReady h3 aD rootDEM).
  { intros i Hi. destruct (HchD i Hi) as (rd & Hrd & Hl & _).
    destruct (rdKept_Some _ _ _ _ K3 Hrd) as (rd' & Hrd' & _ & Hl').
    exists (idD i), rd'. split; [apply HcD, Hi |]. split; [exact Hrd' | lia]. }
  assert (HreadyI : childrenReady h3 aI rootIMG).
  { intros i Hi. destruct (HchI i Hi) as (rd & Hrd & Hl).
    destruct (rdKept_Some _ _ _ _ K3 Hrd) as (rd' & Hrd' & _ & Hl').
    exists (idI i), rd'. split; [apply HcI, Hi |]. split; [exact Hrd' | lia]. }
  destruct (handleRefine_both_eq (mkVState v3 h3) rootD state aD aI (aD, rootD) (aI, rootI)
              Htop3 Hstate3 HmD3 HmI3 HnD HnI eq_refl eq_refl)
    as (demOK & imgOK & st4 & E4 & HokD & HokI & Hsame & _).
  { exists rdD3. exact HrdD3. }
  { intros p (i & id & Hi & Hp & ->). destruct (HreadyD i Hi) as (id' & rd & Hp' & Hrd & _).
    cbn [mNodeDEM state] in Hp. rewrite Hp in Hp'. injection Hp' as <-. exists rd. exact Hrd. }
  { intros p (i & id & Hi & Hp & ->). destruct (HreadyI i Hi) as (id' & rd & Hp' & Hrd & _).
    cbn [mNodeIMG state] in Hp. rewrite Hp in Hp'. injection Hp' as <-. exists rd. exact Hrd. }
  assert (demOK = true) as -> by (apply HokD; exact HreadyD).
  assert (imgOK = true) as -> by (apply HokI; exact HreadyI).
  cbn [andb] in *. rewrite (Hsame eq_refl) in E4. rewrite E4. clear E4 Hsame HokD HokI st4.
  (* the four children are drawn *)
  destruct (visitChildren_draws (visitLevel 31) rootD state aD aI idD idI v3 h3
              Hne HmD3 HmI3 ltac:(lia) ltac:(rewrite Hlvl; reflexivity)
              ltac:(rewrite Hlvl; destruct v; cbn in *; rewrite length_insert; lia) HcD HcI)
    with (l := zrange 4) (st := mkVState v3 h3)
    as (st5 & E5 & A5 & LD5 & LI5 & RD5 & RI5).
  { intros i Hi. destruct (HchD i Hi) as (rd & Hrd & _ & Hv & Hs).
    destruct (rdKept_Some _ _ _ _ K3 Hrd) as (rd' & Hrd' & Hb' & _).
    exists rd'. split; [exact Hrd' |]. rewrite Hb'. split.
    - apply (inView_ext v v3 h h3); assumption.
    - apply (smallEnough_ext v v3 h h3); assumption. }
  { intros i Hi. destruct (HchI i Hi) as (rd & Hrd & _).
    destruct (rdKept_Some _ _ _ _ K3 Hrd) as (rd' & Hrd' & _). exists rd'. exact Hrd'. }
  { rewrite HP3, Hmin, Hlvl. reflexivity. }
  { exact (In_zrange' 4). }
  { unfold drawnAt. cbn [vis heap]. rewrite Hlvl.
    split; [destruct v; reflexivity |].
    split; [exact Hstate3 |].
    split; [reflexivity |].
    split; [reflexivity |]. split; [apply sameTrees_refl | apply rdKept_refl]. }
  destruct A5 as (Htop5 & Hstate5 & Hlen5 & Hset5 & Ht5 & K5).
  change (visitLevel (Z.to_nat sMaxStackDepth) rootD)
    with (forEach (zrange 4) (visitChild (visitLevel 31) rootD)).
  unfold bind at 1. unfold bind at 1. rewrite E5.
  unfold postVisitRoot. unfold ret at 1. rewrite popState_eq.
  eexists. split; [reflexivity |].
  cbn [vis heap] in *. rewrite Hlvl in Htop5.
  assert (F : forall x w, mLoadDEM (set_mStackTop x w) = mLoadDEM w /\
                          mLoadIMG (set_mStackTop x w) = mLoadIMG w /\
                          mRenderDEM (set_mStackTop x w) = mRenderDEM w /\
                          mRenderIMG (set_mStackTop x w) = mRenderIMG w /\
                          settings (set_mStackTop x w) = settings w /\
                          mStackTop (set_mStackTop x w) = x /\
                          mStack (set_mStackTop x w) = mStack w)
    by (intros x []; repeat split).
  destruct (F (mStackTop (vis st5) - 1) (vis st5)) as (-> & -> & -> & -> & -> & -> & ->).
  assert (F3 : mLoadDEM v3 = mLoadDEM v /\ mLoadIMG v3 = mLoadIMG v /\
               mRenderDEM v3 = mRenderDEM v /\ mRenderIMG v3 = mRenderIMG v /\
               settings v3 = settings v /\ length (mStack v3) = length (mStack v)).
  { unfold v3. destruct v. cbn. rewrite length_insert. repeat split. }
  destruct F3 as (L1 & L2 & L3 & L4 & L5 & L6).
  rewrite LD5, LI5, RD5, RI5, Hset5, Hlen5, Htop5, L1, L2, L3, L4, L5, L6.
  repeat (split; [reflexivity |]).
  split; [eapply sameTrees_trans; eassumption |].
  eapply rdKept_trans; eassumption.
Qed.

End RootDescends.

(** ** Closed examples *)

Transparent zrange.

Section ClosedExamples.
Import Examples.

Lemma presentChild_rootDEM p :
  childRd AddrDEM rootDEM p -> p = (AddrDEM, mkTileId 1 0).
Proof.
  intros (i & id & Hi & Hp & ->).
  assert (i = 0 \/ i = 1 \/ i = 2 \/ i = 3)%Z as [-> | [-> | [-> | ->]]] by lia;
    vm_compute in Hp; congruence.
Qed.

Lemma presentChild_rootIMG a p : ~ childRd a rootIMG p.
Proof.
  intros (i & id & Hi & Hp & ->).
  assert (i = 0 \/ i = 1 \/ i = 2 \/ i = 3)%Z as [-> | [-> | [-> | ->]]] by lia;
    vm_compute in Hp; congruence.
Qed.

(** C3, counterexample to the claim as stated: at [maxLevel] the DEM
    children are not all available, child 0 is present, and after
    [handleRefine] its last-used frame is still 3 although the
    current frame is 7. *)
Lemma handleRefine_skips_stamp_at_maxLevel :
  exists st',
    handleRefine (mkTileId 0 0) (refineState 0) = Some (false, st') /\
    presentChild rootDEM 0 = Some (mkTileId 1 0) /\
    mFrameCount (vis (refineState 0)) = 7%Z /\
    getLastFrame <$> readRd (heap (refineState 0)) (AddrDEM, mkTileId 1 0) = Some 3%Z /\
    getLastFrame <$> readRd (heap st') (AddrDEM, mkTileId 1 0) = Some 3%Z /\
    mRenderDEM (vis st') = [(AddrDEM, mkTileId 0 0)] /\
    mRenderIMG (vis st') = [(AddrIMG, mkTileId 0 0)].
Proof.
  eexists. split; [vm_compute; reflexivity |]. repeat split.
Qed.

(** C3, witness: below [maxLevel] the same node requests its three
    missing DEM children and all four IMG children, and stamps the
    present DEM child. *)
Lemma handleRefine_both_channels_witness :
  exists st',
    handleRefine (mkTileId 0 0) (refineState 5) = Some (false, st') /\
    mLoadDEM (vis st') = [mkTileId 1 1; mkTileId 1 2; mkTileId 1 3] /\
    mLoadIMG (vis st') = [mkTileId 1 0; mkTileId 1 1; mkTileId 1 2; mkTileId 1 3] /\
    mRenderDEM (vis st') = [(AddrDEM, mkTileId 0 0)] /\
    mRenderIMG (vis st') = [(AddrIMG, mkTileId 0 0)].
Proof.
  destruct (handleRefine_both_channels (refineState 5) (mkTileId 0 0) rootState
              AddrDEM AddrIMG (AddrDEM, mkTileId 0 0) (AddrIMG, mkTileId 0 0))
    as (result & st' & E & Hres & _ & Hdraw).
  - vm_compute. discriminate.
  - reflexivity.
  - reflexivity.
  - reflexivity.
  - reflexivity.
  - reflexivity.
  - reflexivity.
  - reflexivity.
  - eexists. vm_compute. reflexivity.
  - intros p Hp. apply presentChild_rootDEM in Hp. subst p.
    eexists. vm_compute. reflexivity.
  - intros p Hp. now apply presentChild_rootIMG in Hp.
  - assert (Hno : result = false).
    { destruct result; trivial. destruct Hres as [Hres _].
      destruct (Hres eq_refl) as [_ HI]. destruct (HI 0%Z ltac:(lia)) as (id & r & Hp & _).
      vm_compute in Hp. discriminate. }
    subst result. exists st'. split; [exact E |].
    destruct (Hdraw eq_refl) as ((reqD & reqI & HlD & HlI & HD & _ & HI & _) & _ & HrD & HrI).
    assert (RD : requestsChildren (heap (refineState 5)) AddrDEM (mNodeDEM rootState)).
    { split; [| vm_compute; reflexivity].
      intros Hall. destruct (Hall 1%Z ltac:(lia)) as (id & r & Hp & _).
      vm_compute in Hp. discriminate. }
    assert (RI : requestsChildren (heap (refineState 5)) AddrIMG (mNodeIMG rootState)).
    { split; [| vm_compute; reflexivity].
      intros Hall. destruct (Hall 0%Z ltac:(lia)) as (id & r & Hp & _).
      vm_compute in Hp. discriminate. }
    rewrite HlD, HlI, HrD, HrI, (HD RD), (HI RI). repeat split.
Defined.

#[local] Existing Instance externals.

(** C7, witness: the cold start. Both trees are attached and empty;
    [preTraverse] requests all twelve roots on both channels, returns
    [false], and the traversal ends there with empty render lists. *)
Lemma preTraverse_missing_roots_witness :
  exists st',
    preTraverse coldState = Some (false, st') /\
    visit coldState = Some (tt, st') /\
    mLoadDEM (vis st') = allRootIds /\
    mLoadIMG (vis st') = allRootIds /\
    mRenderDEM (vis st') = [] /\
    mRenderIMG (vis st') = [].
Proof.
  destruct (preTraverse_missing_roots coldState)
    as (result & st' & E & HlD & HlI & _ & _ & _ & HrD & HrI & Hvisit & Hcold).
  destruct (Hcold AddrDEM AddrIMG eq_refl eq_refl) as (HD & HI & ->).
  - exact treeEmpty_empty.
  - exact treeEmpty_empty.
  - exists st'. rewrite HlD, HlI, HD, HI.
    split; [exact E |]. split; [exact (Hvisit eq_refl) |]. auto.
Defined.

(** C8, witness: both flags are cleared and the projection matrix
    differs from the one the derived data was computed from; the
    derived data is kept. *)
Lemma preTraverse_frozen_witness :
  exists result st',
    preTraverse frozenState = Some (result, st') /\
    mMatP (vis frozenState) <> lodMatP (mLodData (vis frozenState)) /\
    mLodData (vis st') = lodData /\
    mCullData (vis st') = cullData.
Proof.
  destruct (preTraverse_frozen frozenState) as (result & st' & E & Hlod & Hcull & _).
  exists result, st'. split; [exact E |]. split.
  - cbn. intros Heq. apply (f_equal (fun m => glm.x4 (glm.col0 m))) in Heq.
    cbn in Heq. lra.
  - split; [apply Hlod | apply Hcull]; reflexivity.
Defined.

(** C9, witness: on the example planet, whose flag word is 0,
    [setRadii] raises the flag and the bounds phase clears it again. *)
Lemma bounds_flag_protocol_witness :
  VistaPlanet.boundsInvalid (VistaPlanet.setRadii (glm.mkvec3 2 2 2) planet) /\
  ~ VistaPlanet.boundsInvalid
      (VistaPlanet.updateTileBounds (VistaPlanet.setRadii (glm.mkvec3 2 2 2) planet)) /\
  VistaPlanet.updateTileBounds planet = planet.
Proof.
  assert (Hflag : sFlagTileBoundsInvalid <> 0%Z) by (cbn; lia).
  destruct (bounds_flag_protocol planet (glm.mkvec3 2 2 2) 1%R Hflag)
    as ((_ & Hset) & _ & _ & Hclear).
  destruct (bounds_flag_protocol (VistaPlanet.setRadii (glm.mkvec3 2 2 2) planet)
              (glm.mkvec3 2 2 2) 1%R Hflag) as (_ & _ & Hupd & _).
  split; [exact Hset |]. split; [apply Hupd, Hset |].
  apply Hclear. unfold VistaPlanet.boundsInvalid. cbn. tauto.
Defined.

Section GeometryExamples.
Local Open Scope R_scope.

Lemma FLT_MAX_pos : 0 < FLT_MAX.
Proof. unfold FLT_MAX. apply (IZR_lt 0). reflexivity. Qed.

Lemma fullRoots_loaded : rootsLoaded fullRoots.
Proof.
  intros i Hi. pose proof FLT_MAX_pos.
  assert (i = 0 \/ i = 1 \/ i = 2 \/ i = 3 \/ i = 4 \/ i = 5 \/ i = 6 \/ i = 7 \/
          i = 8 \/ i = 9 \/ i = 10 \/ i = 11)%Z
    as [-> | [-> | [-> | [-> | [-> | [-> | [-> | [-> | [-> | [-> | [-> | ->]]]]]]]]]]] by lia;
    (eexists _, _, _, _, _; split; [reflexivity |]; split; [reflexivity |]; cbn; lra).
Qed.

Lemma fullRoots_minimum m : isMinimumOf m (basePatchMinima fullRoots) -> m = 0.
Proof.
  intros [Hin _]. apply in_map_iff in Hin. destruct Hin as (i & <- & Hi).
  apply (In_zrange 12) in Hi.
  assert (i = 0 \/ i = 1 \/ i = 2 \/ i = 3 \/ i = 4 \/ i = 5 \/ i = 6 \/ i = 7 \/
          i = 8 \/ i = 9 \/ i = 10 \/ i = 11)%Z
    as [-> | [-> | [-> | [-> | [-> | [-> | [-> | [-> | [-> | [-> | [-> | ->]]]]]]]]]]] by lia;
    reflexivity.
Qed.

(** The ray from the camera at (0, 0, 10) to the corner (-1, -1, -1)
    misses the unit sphere. *)
Lemma exampleCorner_unoccluded :
  cornerUnoccluded (glm.mkvec3 0 0 10) (Rmin 1 (Rmin 1 1) + 0 * 1)
    (glm.mkvec3 (-1) (-1) (-1)) = true.
Proof.
  unfold cornerUnoccluded. cbv zeta.
  assert (Hd : glm.dot (glm.sub (glm.mkvec3 (-1) (-1) (-1)) (glm.mkvec3 0 0 10))
                       (glm.sub (glm.mkvec3 (-1) (-1) (-1)) (glm.mkvec3 0 0 10)) = 123).
  { unfold glm.dot, glm.sub. cbn. lra. }
  unfold glm.length. rewrite Hd.
  assert (HL : 0 < sqrt 123) by (apply sqrt_lt_R0; lra).
  assert (HLL : sqrt 123 * sqrt 123 = 123) by (apply sqrt_sqrt; lra).
  set (L := sqrt 123) in *.
  rewrite (proj2 (eqb_false L 0)) by lra.
  assert (Hr : Rmin 1 (Rmin 1 1) + 0 * 1 = 1).
  { unfold Rmin. repeat destruct (Rle_dec _ _); lra. }
  rewrite Hr.
  match goal with |- (if Cmp.ltb ?f 0 then _ else _) = true =>
    assert (Hf : f < 0) end.
  { unfold glm.dot, glm.divs, glm.sub. cbn.
    replace (0 * ((-1 - 0) / L) + 0 * ((-1 - 0) / L) + 10 * ((-1 - 10) / L))
      with (-110 / L) by (field; lra).
    replace (-110 / L * (-110 / L)) with (12100 / (L * L)) by (field; lra).
    rewrite HLL. lra. }
  apply ltb_true in Hf. rewrite Hf. reflexivity.
Qed.




Lemma PI_lt_10 : PI < 10.
Proof. pose proof PI_4. lra. Qed.





End GeometryExamples.

Section RoundingExamples.
Import Floats.
Import RoundingExample.
Local Open Scope float_scope.




End RoundingExamples.

Lemma partialDEM_places place node :
  atId (getTree mgrDEM) place node ->
  node = NullNode \/ (place = mkTileId 0 0 /\ node = rootDEM) \/
  (place = mkTileId 1 0 /\ node = leaf (demTile 1 0)).
Proof.
  induction 1 as [i Hi | place node i child Hat IH Hc].
  - assert (i = 0 \/ i = 1 \/ i = 2 \/ i = 3 \/ i = 4 \/ i = 5 \/ i = 6 \/ i = 7 \/
            i = 8 \/ i = 9 \/ i = 10 \/ i = 11)%Z as Hcase by lia.
    repeat destruct Hcase as [-> | Hcase]; try subst i; auto.
  - pose proof (getChild_index _ _ _ Hc) as Hi.
    assert (i = 0 \/ i = 1 \/ i = 2 \/ i = 3)%Z as Hcase by lia.
    destruct IH as [-> | [[-> ->] | [-> ->]]]; [discriminate | |];
      repeat destruct Hcase as [-> | Hcase]; try subst i;
      injection Hc as <-; auto.
Qed.

Lemma partialIMG_places place node :
  atId (getTree mgrIMG) place node ->
  node = NullNode \/ (place = mkTileId 0 0 /\ node = rootIMG).
Proof.
  induction 1 as [i Hi | place node i child Hat IH Hc].
  - assert (i = 0 \/ i = 1 \/ i = 2 \/ i = 3 \/ i = 4 \/ i = 5 \/ i = 6 \/ i = 7 \/
            i = 8 \/ i = 9 \/ i = 10 \/ i = 11)%Z as Hcase by lia.
    repeat destruct Hcase as [-> | Hcase]; try subst i; auto.
  - pose proof (getChild_index _ _ _ Hc) as Hi.
    assert (i = 0 \/ i = 1 \/ i = 2 \/ i = 3)%Z as Hcase by lia.
    destruct IH as [-> | [-> ->]]; [discriminate |];
      repeat destruct Hcase as [-> | Hcase]; try subst i;
      injection Hc as <-; auto.
Qed.

Lemma partialDEM_consistent : treeConsistent (getTree mgrDEM).
Proof.
  intros place node Hat Hnn.
  destruct (partialDEM_places _ _ Hat) as [-> | [[-> ->] | [-> ->]]];
    [discriminate | reflexivity | reflexivity].
Qed.

Lemma partialIMG_consistent : treeConsistent (getTree mgrIMG).
Proof.
  intros place node Hat Hnn.
  destruct (partialIMG_places _ _ Hat) as [-> | [-> ->]]; [discriminate | reflexivity].
Qed.

(** C4, counterexample to the claim as stated: with the maximum level
    at -1 the cold start requests the twelve roots all the same, in
    [preTraverse], and their level, 0, is above the maximum level. *)
Lemma visit_requests_root_above_maxLevel :
  exists st',
    preTraverse negativeState = Some (false, st') /\
    visit negativeState = Some (tt, st') /\
    mMaxLevel (hParams (heap st')) = (-1)%Z /\
    mLoadDEM (vis st') = allRootIds /\
    mLoadIMG (vis st') = allRootIds /\
    In (mkTileId 0 0) (mLoadDEM (vis st')) /\
    (level (mkTileId 0 0) > mMaxLevel (hParams (heap st')))%Z.
Proof.
  eexists. split; [vm_compute; reflexivity |].
  repeat split. now left.
Qed.

Ltac twelve i :=
  assert (i = 0 \/ i = 1 \/ i = 2 \/ i = 3 \/ i = 4 \/ i = 5 \/ i = 6 \/ i = 7 \/
          i = 8 \/ i = 9 \/ i = 10 \/ i = 11)%Z
    as [-> | [-> | [-> | [-> | [-> | [-> | [-> | [-> | [-> | [-> | [-> | ->]]]]]]]]]]]
    by lia.

Lemma fullRoots_root i :
  (0 <= i < 12)%Z ->
  TileQuadTree.getRoot fullRoots i = leaf (demTile 0 i) /\
  TileQuadTree.getRoot fullRootsIMG i = leaf (imgTile 0 i).
Proof. intros Hi. twelve i; split; reflexivity. Qed.

Lemma eager_rd i :
  (0 <= i < 12)%Z ->
  readRd (heap eagerState) (AddrDEM, mkTileId 0 i) = Some (rd 3 (-1)) /\
  readRd (heap eagerState) (AddrIMG, mkTileId 0 i) = Some (rd 3 (-1)).
Proof. intros Hi. twelve i; split; vm_compute; reflexivity. Qed.

Section EagerGeometry.
Local Open Scope R_scope.

Lemma unitBox_inFrustum : testInFrustum frustum unitBox = true.
Proof.
  unfold testInFrustum, frustum, unitBox.
  cbn [getPlanes tbPnts getMin getMax testPlanes cornersOutside].
  match goal with |- context [Cmp.geb ?a ?b] =>
    assert (E : Cmp.geb a b = true) by (apply geb_true; unfold glm.dot; cbn; lra)
  end.
  rewrite E. reflexivity.
Qed.

Lemma unitBox_frontFacing params mgr :
  mRadii params = glm.mkvec3 1 1 1 -> mHeightScale params = 1 ->
  getTree mgr = fullRoots ->
  testFrontFacing (glm.mkvec3 0 0 10) params unitBox (Some mgr) = Some true.
Proof.
  intros Hr Hs Ht. unfold testFrontFacing. rewrite Ht.
  destruct (minHeight_minimum fullRoots fullRoots_loaded) as (m & -> & Hm).
  apply fullRoots_minimum in Hm. subst m. f_equal.
  apply anyCornerUnoccluded_exists.
  exists (glm.mkvec3 (-1) (-1) (-1)). split; [left; reflexivity |].
  unfold proxyRadius. rewrite Hr, Hs, !std_min_Rmin. exact exampleCorner_unoccluded.
Qed.

End EagerGeometry.

(** The visit of one pair of roots of the eager planet. *)
Lemma eager_root i st :
  (0 <= i < 12)%Z -> eagerReady st ->
  exists st',
    visitRoot (leaf (demTile 0 i)) (leaf (imgTile 0 i)) st = Some (tt, st') /\
    eagerReady st' /\
    mLoadDEM (vis st') = mLoadDEM (vis st) ++ childIdsOf [i] /\
    mLoadIMG (vis st') = mLoadIMG (vis st) ++ childIdsOf [i] /\
    mRenderDEM (vis st') = mRenderDEM (vis st) ++ [(AddrDEM, mkTileId 0 i)] /\
    mRenderIMG (vis st') = mRenderIMG (vis st) ++ [(AddrIMG, mkTileId 0 i)].
Proof.
  intros Hi (Htop & Hlen & Hset & Ht & Hk).
  destruct (eager_rd i Hi) as [HrdD0 HrdI0].
  destruct (rdKept_Some _ _ _ _ Hk HrdD0) as (rdD & HrdD & HbD & _).
  destruct (rdKept_Some _ _ _ _ Hk HrdI0) as (rdI & HrdI & _).
  destruct (mStack (vis st) !! 0%nat) as [s0 |] eqn:Hslot.
  2: { apply lookup_ge_None in Hslot. lia. }
  pose proof Hset as Hset0.
  unfold settings in Hset. injection Hset as S1 S2 S3 S4 S5 S6 S7.
  destruct Ht as [HP HT].
  destruct (visitRoot_requests_children st (demTile 0 i) (imgTile 0 i) AddrDEM AddrIMG
              rdD rdI s0 Htop Hslot S3 S4 ltac:(discriminate) HrdD HrdI)
    as (st' & E & LD & LI & RD & RI & Hset' & Htop' & Hlen' & Ht' & Hk').
  - rewrite S6, HbD. exact unitBox_inFrustum.
  - rewrite S6, HbD, HP. apply unitBox_frontFacing; try reflexivity. apply (HT AddrDEM).
  - rewrite HP. cbn. lia.
  - exists st'. split; [exact E |]. split.
    + split; [exact Htop' |]. split; [congruence |].
      split; [rewrite Hset'; exact Hset0 |].
      split; [eapply sameTrees_trans; [split |]; eassumption |].
      eapply rdKept_trans; eassumption.
    + unfold loadsChildren in LD, LI. rewrite HP in LD, LI.
      unfold childIdsOf. cbn [flat_map]. rewrite app_nil_r.
      repeat split; assumption.
Qed.

(** The loop over the roots. *)
Lemma eager_roots (roots : list Z) : forall st,
  Forall (fun i => 0 <= i < 12)%Z roots -> eagerReady st ->
  exists st',
    forEach roots (fun i =>
      v <- getV ;;
      h <- getH ;;
      let rootDEM := match mTreeDEM v with
                     | Some tree => TileQuadTree.getRoot (getTree (treeMgr h tree)) i
                     | None => NullNode
                     end in
      let rootIMG := match mTreeIMG v with
                     | Some tree => TileQuadTree.getRoot (getTree (treeMgr h tree)) i
                     | None => NullNode
                     end in
      visitRoot rootDEM rootIMG) st = Some (tt, st') /\
    eagerReady st' /\
    mLoadDEM (vis st') = mLoadDEM (vis st) ++ childIdsOf roots /\
    mLoadIMG (vis st') = mLoadIMG (vis st) ++ childIdsOf roots /\
    mRenderDEM (vis st') = mRenderDEM (vis st) ++ map (fun i => (AddrDEM, mkTileId 0 i)) roots /\
    mRenderIMG (vis st') = mRenderIMG (vis st) ++ map (fun i => (AddrIMG, mkTileId 0 i)) roots.
Proof.
  induction roots as [| i rest IH]; intros st Hin Hready.
  - exists st. split; [reflexivity |]. split; [exact Hready |].
    cbn. rewrite !app_nil_r. auto.
  - apply Forall_cons in Hin. destruct Hin as [Hi Hrest].
    destruct (eager_root i st Hi Hready) as (st1 & E1 & R1 & LD1 & LI1 & RD1 & RI1).
    destruct (IH st1 Hrest R1) as (st' & E & R & LD & LI & RD & RI).
    exists st'. split.
    + cbn [forEach]. unfold bind at 1. unfold bind at 1, getV at 1. unfold bind at 1, getH at 1.
      cbv zeta.
      destruct Hready as (_ & _ & Hset & [_ HT] & _).
      unfold settings in Hset. injection Hset as S1 S2 _ _ _ _ _.
      rewrite S1, S2. cbn [eagerVisitor mTreeDEM mTreeIMG].
      destruct (HT AddrDEM) as [-> _]. destruct (HT AddrIMG) as [-> _].
      change (getTree (treeMgr (heap eagerState) AddrDEM)) with fullRoots.
      change (getTree (treeMgr (heap eagerState) AddrIMG)) with fullRootsIMG.
      destruct (fullRoots_root i Hi) as [-> ->].
      rewrite E1. exact E.
    + split; [exact R |].
      rewrite LD, LI, RD, RI, LD1, LI1, RD1, RI1, <- !app_assoc.
      repeat split.
Qed.

(** A whole traversal of the eager planet: every root is visited, is
    drawn, and has its four children requested on both channels. *)
Lemma eager_visit :
  exists st',
    visit eagerState = Some (tt, st') /\
    eagerReady st' /\
    mLoadDEM (vis st') = childIdsOf (zrange 12) /\
    mLoadIMG (vis st') = childIdsOf (zrange 12) /\
    mRenderDEM (vis st') = map (fun i => (AddrDEM, mkTileId 0 i)) (zrange 12) /\
    mRenderIMG (vis st') = map (fun i => (AddrIMG, mkTileId 0 i)) (zrange 12).
Proof.
  destruct (preTraverse_eq eagerState)
    as (st1 & E1 & Hh & LD1 & LI1 & RD1 & RI1 & Htop & Hlod & Hcull & HtD & HtI & HmD & HmI &
        Hfc & Hstack).
  cbv zeta in *.
  assert (Hready : eagerReady st1).
  { split; [exact Htop |]. split; [rewrite Hstack; reflexivity |].
    split; [unfold settings; rewrite HtD, HtI, HmD, HmI, Hlod, Hcull, Hfc; reflexivity |].
    rewrite Hh. split; [apply sameTrees_refl | apply rdKept_refl]. }
  destruct (eager_roots (zrange 12) st1 (In_zrange' 12) Hready)
    as (st' & E & R & LD & LI & RD & RI).
  exists st'. split.
  - unfold visit. unfold bind at 1. rewrite E1.
    change (noneMissing _ && noneMissing _) with true. cbv beta iota.
    unfold bind at 1. cbv zeta in E. cbv zeta. rewrite E. reflexivity.
  - split; [exact R |]. rewrite LD, LI, RD, RI, LD1, LI1, RD1, RI1. repeat split.
Qed.

Lemma fullRoots_places place node :
  atId fullRoots place node ->
  node = NullNode \/ exists i, (0 <= i < 12)%Z /\ place = mkTileId 0 i /\ node = leaf (demTile 0 i).
Proof.
  induction 1 as [i Hi | place node i child Hat IH Hc].
  - right. exists i. destruct (fullRoots_root i Hi) as [-> _]. auto.
  - pose proof (getChild_index _ _ _ Hc) as Hi.
    assert (i = 0 \/ i = 1 \/ i = 2 \/ i = 3)%Z as Hcase by lia.
    destruct IH as [-> | (j & _ & -> & ->)]; [discriminate |].
    repeat destruct Hcase as [-> | Hcase]; try subst i; injection Hc as <-; auto.
Qed.

Lemma fullRootsIMG_places place node :
  atId fullRootsIMG place node ->
  node = NullNode \/ exists i, (0 <= i < 12)%Z /\ place = mkTileId 0 i /\ node = leaf (imgTile 0 i).
Proof.
  induction 1 as [i Hi | place node i child Hat IH Hc].
  - right. exists i. destruct (fullRoots_root i Hi) as [_ ->]. auto.
  - pose proof (getChild_index _ _ _ Hc) as Hi.
    assert (i = 0 \/ i = 1 \/ i = 2 \/ i = 3)%Z as Hcase by lia.
    destruct IH as [-> | (j & _ & -> & ->)]; [discriminate |].
    repeat destruct Hcase as [-> | Hcase]; try subst i; injection Hc as <-; auto.
Qed.

Lemma fullRoots_consistent : treeConsistent fullRoots.
Proof.
  intros place node Hat Hnn.
  destruct (fullRoots_places _ _ Hat) as [-> | (i & _ & -> & ->)]; [discriminate | reflexivity].
Qed.

Lemma fullRootsIMG_consistent : treeConsistent fullRootsIMG.
Proof.
  intros place node Hat Hnn.
  destruct (fullRootsIMG_places _ _ Hat) as [-> | (i & _ & -> & ->)]; [discriminate | reflexivity].
Qed.

(** The render data of the roots keeps its texture layer, -1,
    through the visits. *)
Lemma eager_layers st i :
  eagerReady st -> (0 <= i < 12)%Z ->
  TileRenderer.texLayerOf (heap st) (AddrDEM, mkTileId 0 i) = Some (-1)%Z /\
  TileRenderer.texLayerOf (heap st) (AddrIMG, mkTileId 0 i) = Some (-1)%Z.
Proof.
  intros (_ & _ & _ & _ & Hk) Hi.
  destruct (eager_rd i Hi) as [HrdD HrdI].
  destruct (rdKept_Some _ _ _ _ Hk HrdD) as (rdD & HrdD' & _ & HlD).
  destruct (rdKept_Some _ _ _ _ Hk HrdI) as (rdI & HrdI' & _ & HlI).
  unfold TileRenderer.texLayerOf. rewrite HrdD', HrdI', HlD, HlI. split; reflexivity.
Qed.

(** C1, counterexample to the claim as stated. First, [drawLevel] on
    a state whose DEM node has render data without a texture layer
    (layer -1) emits it into the DEM render list all the same, and the
    renderer then draws nothing for it. Second, a traversal reaches
    such states: the twelve DEM roots of the eager planet have no
    texture layer, the traversal emits every one of them, they still
    have no layer when the renderer consumes the list, and the
    renderer draws none of them. *)
Lemma visit_emits_unloaded_roots :
  (exists st',
     drawLevel pendingState = Some (tt, st') /\
     mRenderDEM (vis st') = [(AddrDEM, mkTileId 0 0)] /\
     TileRenderer.texLayerOf (heap st') (AddrDEM, mkTileId 0 0) = Some (-1)%Z /\
     TileRenderer.renderTiles (heap st') (mRenderDEM (vis st')) (mRenderIMG (vis st'))
       = Some []) /\
  (exists st',
     visit eagerState = Some (tt, st') /\
     mRenderDEM (vis st') = map (fun i => (AddrDEM, mkTileId 0 i)) (zrange 12) /\
     Forall (fun p => TileRenderer.texLayerOf (heap st') p = Some (-1)%Z)
            (mRenderDEM (vis st')) /\
     TileRenderer.renderTiles (heap st') (mRenderDEM (vis st')) (mRenderIMG (vis st'))
       = Some []).
Proof.
  split.
  { eexists. split; [vm_compute; reflexivity |]. repeat split. }
  destruct eager_visit as (st' & E & R & _ & _ & RD & RI).
  exists st'. split; [exact E |]. split; [exact RD |].
  assert (HD : Forall (fun p => TileRenderer.texLayerOf (heap st') p = Some (-1)%Z)
                 (mRenderDEM (vis st'))).
  { rewrite RD. apply List.Forall_forall. intros p Hp. apply in_map_iff in Hp.
    destruct Hp as (i & <- & Hi). apply (In_zrange 12) in Hi.
    apply (eager_layers st' i R). lia. }
  split; [exact HD |].
  destruct (renderTilesLoop_spec (heap st') (mRenderDEM (vis st')) (mRenderIMG (vis st'))
              (seq 0 (length (mRenderDEM (vis st')))))
    as (calls & Hcalls & Hspec).
  - eapply List.Forall_impl; [| exact HD]. intros p Hp. unfold TileRenderer.live.
    unfold TileRenderer.texLayerOf in Hp. destruct (readRd (heap st') p); [eauto | discriminate].
  - rewrite RI. apply List.Forall_forall. intros p Hp. apply in_map_iff in Hp.
    destruct Hp as (i & <- & Hi). apply (In_zrange 12) in Hi.
    destruct (eager_layers st' i R ltac:(lia)) as [_ HI]. unfold TileRenderer.live.
    unfold TileRenderer.texLayerOf in HI.
    destruct (readRd (heap st') (AddrIMG, mkTileId 0 i)); [eauto | discriminate].
  - apply List.Forall_forall. intros i Hi. apply in_seq in Hi. lia.
  - unfold TileRenderer.renderTiles. rewrite Hcalls. f_equal.
    destruct calls as [| [d im] rest]; [reflexivity | exfalso].
    destruct (proj1 (Hspec d im) (or_introl eq_refl))
      as (i & _ & Hd & _ & (layer & Hl & Hpos) & _).
    rewrite List.Forall_forall in HD.
    assert (Hin : In d (mRenderDEM (vis st'))).
    { apply list_elem_of_In. eapply list_elem_of_lookup_2; eauto. }
    rewrite (HD d Hin) in Hl. injection Hl as <-. lia.
Qed.

Ltac four j :=
  assert (j = 0 \/ j = 1 \/ j = 2 \/ j = 3)%Z as [-> | [-> | [-> | ->]]] by lia.

Lemma deepRoots_root i :
  (0 <= i < 12)%Z ->
  TileQuadTree.getRoot deepRoots i = family demTile i /\
  TileQuadTree.getRoot deepRootsIMG i = family imgTile i.
Proof. intros Hi. twelve i; split; reflexivity. Qed.

Lemma deep_rd a i :
  (0 <= i < 12)%Z -> readRd (heap deepState) (a, mkTileId 0 i) = Some (rd 3 0).
Proof. intros Hi. destruct a; twelve i; vm_compute; reflexivity. Qed.

Lemma deep_child_rd a i j :
  (0 <= i < 12)%Z -> (0 <= j < 4)%Z ->
  readRd (heap deepState) (a, HEALPix.getChildTileId (mkTileId 0 i) j) = Some (rd 3 0).
Proof. intros Hi Hj. destruct a; twelve i; four j; vm_compute; reflexivity. Qed.

Section DeepGeometry.
Local Open Scope R_scope.

Lemma deepRoots_loaded : rootsLoaded deepRoots.
Proof.
  intros i Hi. pose proof FLT_MAX_pos.
  twelve i;
    (eexists _, _, _, _, _; split; [reflexivity |]; split; [reflexivity |]; cbn; lra).
Qed.

Lemma deepRoots_minimum m : isMinimumOf m (basePatchMinima deepRoots) -> m = 0.
Proof.
  intros [Hin _]. apply in_map_iff in Hin. destruct Hin as (i & <- & Hi).
  apply (In_zrange 12) in Hi. twelve i; reflexivity.
Qed.

Lemma deep_inView st :
  deepReady st -> inView (vis st) (heap st) AddrDEM unitBox.
Proof.
  intros (_ & _ & Hset & [HP HT] & _).
  unfold settings in Hset. injection Hset as _ _ _ _ _ S6 _.
  unfold inView. rewrite S6, HP. split; [exact unitBox_inFrustum |].
  cbn [eagerVisitor mCullData cullData mCamPos deepState heap hParams].
  unfold testFrontFacing. destruct (HT AddrDEM) as [-> _].
  change (getTree (treeMgr (heap deepState) AddrDEM)) with deepRoots.
  destruct (minHeight_minimum deepRoots deepRoots_loaded) as (m & -> & Hm).
  apply deepRoots_minimum in Hm. subst m. f_equal.
  apply anyCornerUnoccluded_exists.
  exists (glm.mkvec3 (-1) (-1) (-1)). split; [left; reflexivity |].
  unfold proxyRadius. cbn [eagerParams mRadii mHeightScale glm.x3 glm.y3 glm.z3].
  rewrite !std_min_Rmin. exact exampleCorner_unoccluded.
Qed.

Lemma deep_smallEnough st tb :
  deepReady st -> smallEnough (vis st) (heap st) tb.
Proof.
  intros (_ & _ & Hset & [HP _] & _).
  unfold settings in Hset. injection Hset as _ _ _ _ S5 S6 _.
  unfold smallEnough. rewrite S5, S6, HP.
  cbn [eagerVisitor mCullData mLodData cullData lodData mCamPos mFrustumES deepState heap
       hParams eagerParams mLodFactor].
  destruct (Cmp.gtb _ _) eqn:G; [exfalso | reflexivity].
  apply gtb_true in G. rewrite refineRatio_eq in G.
  pose proof (maxAngle_bounds (glm.mkvec3 0 0 10) tb) as [_ Ha].
  pose proof PI_lt_10.
  cbn [frustum getHorizontalFOV getVerticalFOV] in G. rewrite std_max_Rmax in G.
  replace (Rmax 1 1) with 1 in G by (unfold Rmax; destruct (Rle_dec 1 1); reflexivity).
  lra.
Qed.

End DeepGeometry.

Section DeepTraversal.
Local Open Scope Z_scope.

(** The visit of one pair of roots of the deep planet. *)
Lemma deep_root i st :
  0 <= i < 12 -> deepReady st ->
  exists st',
    visitRoot (family demTile i) (family imgTile i) st = Some (tt, st') /\
    deepReady st' /\
    mLoadDEM (vis st') = mLoadDEM (vis st) /\
    mLoadIMG (vis st') = mLoadIMG (vis st) /\
    mRenderDEM (vis st') = mRenderDEM (vis st) ++ childRdOf AddrDEM [i] /\
    mRenderIMG (vis st') = mRenderIMG (vis st) ++ childRdOf AddrIMG [i].
Proof.
  intros Hi Hready.
  pose proof Hready as (Htop & Hlen & Hset & Ht & Hk).
  pose proof Hset as Hset0.
  unfold settings in Hset. injection Hset as S1 S2 S3 S4 S5 S6 S7.
  pose proof Ht as [HP HT].
  assert (Hrd : forall a id, readRd (heap deepState) (a, id) = Some (rd 3 0) ->
                exists rd', readRd (heap st) (a, id) = Some rd' /\
                            getBounds rd' = unitBox /\ getTexLayer rd' = 0).
  { intros a id E. exact (rdKept_Some _ _ _ _ Hk E). }
  destruct (visitRoot_draws_children st (family demTile i) (family imgTile i) AddrDEM AddrIMG
              (mkTileId 0 i) (mkTileId 0 i)
              (HEALPix.getChildTileId (mkTileId 0 i)) (HEALPix.getChildTileId (mkTileId 0 i))
              eq_refl eq_refl eq_refl Htop ltac:(lia) S3 S4 ltac:(discriminate))
    as (st' & E & LD & LI & RD & RI & Hset' & Htop' & Hlen' & Ht' & Hk').
  - rewrite HP. reflexivity.
  - destruct (Hrd _ _ (deep_rd AddrDEM i Hi)) as (rd' & E & Hb & _).
    exists rd'. split; [exact E |]. rewrite Hb. now apply deep_inView.
  - destruct (Hrd _ _ (deep_rd AddrIMG i Hi)) as (rd' & E & _). exists rd'. exact E.
  - intros j Hj. four j; reflexivity.
  - intros j Hj. four j; reflexivity.
  - intros j Hj. destruct (Hrd _ _ (deep_child_rd AddrDEM i j Hi Hj)) as (rd' & E & Hb & Hl).
    exists rd'. split; [exact E |]. split; [lia |]. rewrite Hb.
    split; [now apply deep_inView | now apply deep_smallEnough].
  - intros j Hj. destruct (Hrd _ _ (deep_child_rd AddrIMG i j Hi Hj)) as (rd' & E & _ & Hl).
    exists rd'. split; [exact E | lia].
  - exists st'. split; [exact E |]. split.
    + split; [exact Htop' |]. split; [congruence |].
      split; [rewrite Hset'; exact Hset0 |].
      split; [eapply sameTrees_trans; eassumption |].
      eapply rdKept_trans; eassumption.
    + unfold childRdOf. cbn [flat_map]. rewrite !app_nil_r. repeat split; assumption.
Qed.

(** The loop over the roots. *)
Lemma deep_roots (roots : list Z) : forall st,
  Forall (fun i => 0 <= i < 12)%Z roots -> deepReady st ->
  exists st',
    forEach roots (fun i =>
      v <- getV ;;
      h <- getH ;;
      let rootDEM := match mTreeDEM v with
                     | Some tree => TileQuadTree.getRoot (getTree (treeMgr h tree)) i
                     | None => NullNode
                     end in
      let rootIMG := match mTreeIMG v with
                     | Some tree => TileQuadTree.getRoot (getTree (treeMgr h tree)) i
                     | None => NullNode
                     end in
      visitRoot rootDEM rootIMG) st = Some (tt, st') /\
    deepReady st' /\
    mLoadDEM (vis st') = mLoadDEM (vis st) /\
    mLoadIMG (vis st') = mLoadIMG (vis st) /\
    mRenderDEM (vis st') = mRenderDEM (vis st) ++ childRdOf AddrDEM roots /\
    mRenderIMG (vis st') = mRenderIMG (vis st) ++ childRdOf AddrIMG roots.
Proof.
  induction roots as [| i rest IH]; intros st Hin Hready.
  - exists st. split; [reflexivity |]. split; [exact Hready |].
    cbn. rewrite !app_nil_r. auto.
  - apply Forall_cons in Hin. destruct Hin as [Hi Hrest].
    destruct (deep_root i st Hi Hready) as (st1 & E1 & R1 & LD1 & LI1 & RD1 & RI1).
    destruct (IH st1 Hrest R1) as (st' & E & R & LD & LI & RD & RI).
    exists st'. split.
    + cbn [forEach]. unfold bind at 1. unfold bind at 1, getV at 1. unfold bind at 1, getH at 1.
      cbv zeta.
      destruct Hready as (_ & _ & Hset & [_ HT] & _).
      unfold settings in Hset. injection Hset as S1 S2 _ _ _ _ _.
      rewrite S1, S2. cbn [eagerVisitor mTreeDEM mTreeIMG].
      destruct (HT AddrDEM) as [-> _]. destruct (HT AddrIMG) as [-> _].
      change (getTree (treeMgr (heap deepState) AddrDEM)) with deepRoots.
      change (getTree (treeMgr (heap deepState) AddrIMG)) with deepRootsIMG.
      destruct (deepRoots_root i Hi) as [-> ->].
      rewrite E1. exact E.
    + split; [exact R |].
      rewrite LD, LI, RD, RI, LD1, LI1, RD1, RI1, <- !app_assoc.
      repeat split.
Qed.

(** A whole traversal of the deep planet: below every root the four
    children are drawn, and nothing is requested. *)
Lemma deep_visit :
  exists st',
    visit deepState = Some (tt, st') /\
    deepReady st' /\
    mLoadDEM (vis st') = [] /\
    mLoadIMG (vis st') = [] /\
    mRenderDEM (vis st') = childRdOf AddrDEM (zrange 12) /\
    mRenderIMG (vis st') = childRdOf AddrIMG (zrange 12).
Proof.
  destruct (preTraverse_eq deepState)
    as (st1 & E1 & Hh & LD1 & LI1 & RD1 & RI1 & Htop & Hlod & Hcull & HtD & HtI & HmD & HmI &
        Hfc & Hstack).
  cbv zeta in *.
  assert (Hready : deepReady st1).
  { split; [exact Htop |]. split; [rewrite Hstack; reflexivity |].
    split; [unfold settings; rewrite HtD, HtI, HmD, HmI, Hlod, Hcull, Hfc; reflexivity |].
    rewrite Hh. split; [apply sameTrees_refl | apply rdKept_refl]. }
  destruct (deep_roots (zrange 12) st1 (In_zrange' 12) Hready)
    as (st' & E & R & LD & LI & RD & RI).
  exists st'. split.
  - unfold visit. unfold bind at 1. rewrite E1.
    change (noneMissing _ && noneMissing _) with true. cbv beta iota.
    unfold bind at 1. cbv zeta in E. cbv zeta. rewrite E. reflexivity.
  - split; [exact R |]. rewrite LD, LI, RD, RI, LD1, LI1, RD1, RI1. repeat split.
Qed.

Lemma deepRoots_places place node :
  atId deepRoots place node ->
  node = NullNode \/
  (exists i, 0 <= i < 12 /\ place = mkTileId 0 i /\ node = family demTile i) \/
  (exists i j, 0 <= i < 12 /\ 0 <= j < 4 /\
               place = HEALPix.getChildTileId (mkTileId 0 i) j /\
               node = leaf (demTile 1 (4 * i + j))).
Proof.
  induction 1 as [i Hi | place node i child Hat IH Hc].
  - right; left. exists i. destruct (deepRoots_root i Hi) as [-> _]. auto.
  - pose proof (getChild_index _ _ _ Hc) as Hi.
    destruct IH as [-> | [(r & Hr & -> & ->) | (r & j & Hr & Hj & -> & ->)]].
    + discriminate.
    + right; right. exists r, i. four i; injection Hc as <-; auto.
    + left. four i; injection Hc as <-; reflexivity.
Qed.

Lemma deepRoots_consistent : treeConsistent deepRoots.
Proof.
  intros place node Hat Hnn.
  destruct (deepRoots_places _ _ Hat)
    as [-> | [(i & _ & -> & ->) | (i & j & _ & _ & -> & ->)]];
    [discriminate | reflexivity | reflexivity].
Qed.

(** C1, witness: two traversals that return. On the deep planet the
    visitor descends below every root and leaves the forty-eight
    children in [mRenderDEM], every one of them resident. On the eager
    planet every entry it leaves is the render data of a root. *)
Lemma renderDEM_resident_below_roots_witness :
  (exists st',
     visit deepState = Some (tt, st') /\
     mRenderDEM (vis st') = childRdOf AddrDEM (zrange 12) /\
     forall p, In p (mRenderDEM (vis st')) -> TileRenderer.resident (heap st') p) /\
  (exists st',
     visit eagerState = Some (tt, st') /\
     forall p, In p (mRenderDEM (vis st')) ->
       TileRenderer.resident (heap st') p \/
       isRootRd (treeOf (heap eagerState) (mTreeDEM (vis eagerState)))
                (mTreeMgrDEM (vis eagerState)) p).
Proof.
  split.
  - destruct deep_visit as (st' & E & _ & _ & _ & RD & _).
    exists st'. split; [exact E |]. split; [exact RD |].
    intros p Hp.
    refine (proj2 (proj1 (proj2 (renderDEM_resident_below_roots deepState st' E))
                     (heap st') (layersKept_refl (heap st')))
              deepRoots_consistent p Hp _).
    rewrite RD in Hp. unfold childRdOf in Hp.
    apply in_flat_map in Hp. destruct Hp as (i & _ & Hp).
    apply in_map_iff in Hp. destruct Hp as (j & <- & _). discriminate.
  - destruct eager_visit as (st' & E & _).
    exists st'. split; [exact E |].
    exact (proj1 (proj1 (proj2 (renderDEM_resident_below_roots eagerState st' E))
                    (heap st') (layersKept_refl (heap st')))).
Defined.

End DeepTraversal.

(** C4, witness: two traversals. In the first, root 0 of either tree
    is loaded and the other eleven are requested; in the second, all
    roots are loaded, every one of them must be refined, and the four
    children of each are requested on both channels. *)
Lemma visit_requests_absent_and_bounded_witness :
  (exists st',
     visit (partialState 5) = Some (tt, st') /\
     mLoadDEM (vis st') = tl allRootIds /\
     mLoadIMG (vis st') = tl allRootIds /\
     Forall (requestOk (getTree mgrDEM) 5) (mLoadDEM (vis st')) /\
     Forall (requestOk (getTree mgrIMG) 5) (mLoadIMG (vis st'))) /\
  (exists st',
     visit eagerState = Some (tt, st') /\
     mLoadDEM (vis st') = childIdsOf (zrange 12) /\
     mLoadIMG (vis st') = childIdsOf (zrange 12) /\
     Forall (requestOk fullRoots 5) (mLoadDEM (vis st')) /\
     Forall (requestOk fullRootsIMG 5) (mLoadIMG (vis st'))).
Proof.
  split.
  - assert (E : exists st', visit (partialState 5) = Some (tt, st') /\
                            mLoadDEM (vis st') = tl allRootIds /\
                            mLoadIMG (vis st') = tl allRootIds /\
                            mTreeDEM (vis st') = Some AddrDEM /\
                            mTreeIMG (vis st') = Some AddrIMG /\
                            heap st' = heapAt 5).
    { eexists. split; [vm_compute; reflexivity |]. repeat split. }
    destruct E as (st' & Hv & HlD & HlI & HtD & HtI & Hh).
    destruct (visit_requests_absent_and_bounded (partialState 5)
                partialDEM_consistent partialIMG_consistent) as [_ Hvisit].
    destruct (Hvisit st' Hv) as (_ & _ & _ & HD & HI).
    rewrite HtD, Hh in HD. rewrite HtI, Hh in HI.
    exists st'. repeat split; assumption.
  - destruct eager_visit as (st' & Hv & (_ & _ & Hset & [HP HT] & _) & HlD & HlI & _).
    destruct (visit_requests_absent_and_bounded eagerState
                fullRoots_consistent fullRootsIMG_consistent) as [_ Hvisit].
    destruct (Hvisit st' Hv) as (_ & _ & _ & HD & HI).
    unfold settings in Hset. injection Hset as S1 S2 _ _ _ _ _.
    rewrite S1 in HD. rewrite S2 in HI. rewrite HP in HD, HI.
    cbn [treeOf eagerVisitor mTreeDEM mTreeIMG] in HD, HI.
    destruct (HT AddrDEM) as [ED _]. destruct (HT AddrIMG) as [EI _].
    rewrite ED in HD. rewrite EI in HI.
    exists st'. repeat split; assumption.
Defined.

(** X1, witness: the origin lies in the unit box and in front of the
    plane of the example frustum. *)
Lemma testInFrustum_no_false_cull_witness : testInFrustum frustum unitBox = true.
Proof.
  apply (testInFrustum_no_false_cull frustum unitBox (glm.mkvec3 0 0 0)).
  - unfold inBox. cbn. lra.
  - intros plane [<- | []]. unfold positiveHalfSpace, glm.dot. cbn. lra.
Defined.

Lemma lodFov_visitorAtRoot : lodFov visitorAtRoot = 1%R.
Proof.
  unfold lodFov. cbn. unfold Cmp.std_max, Cmp.ltb. destruct (Rlt_dec 1 1); reflexivity.
Qed.

(** X2, witness: with a field of view of 1 and a LOD factor of 1 the
    root, at the minimum level, is not refined. *)
Lemma testNeedRefine_never_below_factor_witness :
  testNeedRefine (mkTileId 0 0) (refineState 5) = Some (false, refineState 5).
Proof.
  apply (testNeedRefine_never_below_factor (mkTileId 0 0) (refineState 5) rootState
           (AddrDEM, mkTileId 0 0) (rd 3 0)).
  - cbn. lia.
  - reflexivity.
  - reflexivity.
  - vm_compute. reflexivity.
  - cbn [vis refineState]. rewrite lodFov_visitorAtRoot. lra.
  - cbn. lra.
  - cbn [vis refineState]. rewrite lodFov_visitorAtRoot. cbn. pose proof PI_lt_10. lra.
  - cbn. lia.
Defined.

(** X3, witness: the root of a planet whose minimum level is 1 is
    refined, and stays so when the LOD factor and the minimum level
    are raised to 2. *)
Lemma testNeedRefine_monotone_witness :
  testNeedRefine (mkTileId 0 0)
    (planetState (VistaPlanet.setMinLevel 2
                    (VistaPlanet.setLODFactor 2 (VistaPlanet.setMinLevel 1 planet)))) =
  Some (true,
        planetState (VistaPlanet.setMinLevel 2
                       (VistaPlanet.setLODFactor 2 (VistaPlanet.setMinLevel 1 planet)))).
Proof.
  apply (testNeedRefine_monotone (VistaPlanet.setMinLevel 1 planet) (mkTileId 0 0) 2 2).
  - change (VistaPlanet.mLodVisitor (VistaPlanet.setMinLevel 1 planet)) with visitorAtRoot.
    rewrite lodFov_visitorAtRoot. lra.
  - cbn. lra.
  - cbn. lia.
  - apply (testNeedRefine_forced (mkTileId 0 0) _ rootState (AddrDEM, mkTileId 0 0) (rd 3 0)).
    + cbn. lia.
    + reflexivity.
    + reflexivity.
    + reflexivity.
    + vm_compute. reflexivity.
    + cbn. lia.
Defined.

(** X4, witness: a tile resolution of 1, that is a grid of 3 by 3
    points. *)
Lemma fillVertices_grid_witness :
  exists vertices,
    TerrainGrid.fillVertices (TerrainGrid.gridResolution 1)
      (TerrainGrid.newVertices (TerrainGrid.gridResolution 1)) = Some vertices /\
    Z.of_nat (length vertices) = (2 * ((1 + 2) * (1 + 2)))%Z /\
    forall x y, (0 <= x < 1 + 2)%Z -> (0 <= y < 1 + 2)%Z ->
      TerrainGrid.load (2 * (x * (1 + 2) + y)) vertices = Some x /\
      TerrainGrid.load (2 * (x * (1 + 2) + y) + 1) vertices = Some y.
Proof. apply (fillVertices_grid 1); [lia | vm_compute; reflexivity]. Defined.

(** X5, witness: the same grid. *)
Lemma fillIndices_strips_witness :
  TerrainGrid.fillIndices (TerrainGrid.gridResolution 1)
    (TerrainGrid.newIndices (TerrainGrid.gridResolution 1)) =
    Some (TerrainGrid.indexCount (TerrainGrid.gridResolution 1), TerrainGrid.strips (1 + 2)) /\
  Z.of_nat (length (TerrainGrid.strips (1 + 2))) =
    TerrainGrid.indexCount (TerrainGrid.gridResolution 1) /\
  List.Forall (fun i => 0 <= i < (1 + 2) * (1 + 2))%Z (TerrainGrid.strips (1 + 2)).
Proof. apply (fillIndices_strips 1); [lia | vm_compute; reflexivity]. Defined.

(** X6, witness: a tile resolution of 65533. *)
Lemma fillVertices_overflow_witness :
  TerrainGrid.fillVertices (TerrainGrid.gridResolution 65533)
    (TerrainGrid.newVertices (TerrainGrid.gridResolution 65533)) = None.
Proof.
  apply (fillVertices_overflow 65533); [lia | vm_compute; reflexivity | vm_compute; discriminate].
Defined.

(** X7, witness: the planet with both sources attached, and the
    detachment of either. *)
Lemma setSource_keeps_wired_witness :
  wired planet /\
  wired (VistaPlanet.setDEMSource None planet) /\
  wired (VistaPlanet.setIMGSource None planet).
Proof.
  assert (H : wired planet) by (repeat split).
  split; [exact H |]. exact (setSource_keeps_wired planet None H).
Defined.

(** X8, witness: a planet without sources, and the attachment of
    source 1 to either channel. *)
Lemma sources_init_fini_protocol_witness :
  sourcesInUse barePlanet /\
  sourcesInUse (VistaPlanet.setDEMSource (Some 1%nat) barePlanet) /\
  sourcesInUse (VistaPlanet.setIMGSource (Some 1%nat) barePlanet) /\
  forall s, balance s (VistaPlanet.sourceCalls barePlanet ++ destructorCalls barePlanet) = 0%Z.
Proof.
  assert (H : sourcesInUse barePlanet).
  { split.
    - intros s. reflexivity.
    - intros s pre Hpre. apply prefix_nil_inv in Hpre. subst pre. cbn. lia. }
  split; [exact H |]. exact (sources_init_fini_protocol barePlanet (Some 1%nat) H).
Defined.

(** X9, witness: a visitor without managers. *)
Lemma preVisitRoot_needs_DEM_witness :
  preVisitRoot (mkTileId 0 0)
    (mkVState bareVisitor (VistaPlanet.mHeap barePlanet)) = None.
Proof. apply preVisitRoot_needs_DEM. left. reflexivity. Defined.

(** The root of the eager planet is visible and must be refined. *)
Lemma eager_visitNode (h : Heap) (rdD : RenderData) :
  sameTrees (heap eagerState) h ->
  readRd h (AddrDEM, mkTileId 0 0) = Some rdD -> getBounds rdD = unitBox ->
  exists st', visitNode (mkTileId 0 0) (mkVState (vis eagerAtRoot) h) = Some (false, st').
Proof.
  intros [HP HT] Hrd Hb.
  apply (visitNode_requests_children _ (mkTileId 0 0) eagerRootState
           (demTile 0 0) (imgTile 0 0) AddrDEM AddrIMG
           (AddrDEM, mkTileId 0 0) (AddrIMG, mkTileId 0 0) rdD).
  - cbn. lia.
  - reflexivity.
  - reflexivity.
  - reflexivity.
  - reflexivity.
  - reflexivity.
  - reflexivity.
  - reflexivity.
  - exact Hrd.
  - rewrite Hb. exact unitBox_inFrustum.
  - rewrite Hb. cbn [heap vis]. rewrite HP.
    apply unitBox_frontFacing; try reflexivity. apply (HT AddrDEM).
  - cbn [heap]. rewrite HP. cbn. lia.
Qed.

(** X10, witness: the root of the eager planet has no children; it
    is not descended into, and it is drawn on both channels. *)
Lemma visitNode_draws_or_descends_witness :
  exists st' state,
    visitNode (mkTileId 0 0) eagerAtRoot = Some (false, st') /\
    mStack (vis eagerAtRoot) !! Z.to_nat (mStackTop (vis eagerAtRoot)) = Some state /\
    exists drawn, rendered drawn state eagerAtRoot st'.
Proof.
  destruct (eager_visitNode (heap eagerState) (rd 3 (-1)))
    as (st' & E); [apply sameTrees_refl | apply (eager_rd 0); lia | reflexivity |].
  destruct (visitNode_draws_or_descends (mkTileId 0 0) eagerAtRoot st' false E)
    as (state & Hs & Hd).
  exists st', state. auto.
Defined.

(** [preVisitRoot] on the root of the eager planet. *)
Lemma eager_preVisitRoot :
  exists st', preVisitRoot (mkTileId 0 0) eagerAtRoot = Some (false, st').
Proof.
  destruct (eager_rd 0 ltac:(lia)) as [HrdD HrdI].
  rewrite (preVisitRoot_both (mkTileId 0 0) eagerAtRoot eagerRootState AddrDEM AddrIMG
             (mkTileId 0 0) (mkTileId 0 0) (rd 3 (-1)) (rd 3 (-1)));
    [| cbn; lia | reflexivity | reflexivity | reflexivity | reflexivity | reflexivity
     | exact HrdD | exact HrdI | discriminate].
  change (set_mStack _ (vis eagerAtRoot)) with (vis eagerAtRoot).
  apply (eager_visitNode _ (setLastFrame 7 (rd 3 (-1)))).
  - eapply sameTrees_trans; apply sameTrees_writeRd.
  - rewrite !readRd_writeRd. rewrite decide_False by discriminate.
    rewrite decide_True by reflexivity. reflexivity.
  - reflexivity.
Qed.

(** X11, witness: the visit of the root of the eager planet. *)
Lemma preVisit_keeps_witness :
  exists st',
    preVisitRoot (mkTileId 0 0) eagerAtRoot = Some (false, st') /\
    visitKeeps 7 eagerAtRoot st'.
Proof.
  destruct eager_preVisitRoot as (st' & E). exists st'. split; [exact E |].
  exact (preVisit_keeps (mkTileId 0 0) eagerAtRoot st' false (or_introl E)).
Defined.

(** X12, witness: the same visit. *)
Lemma preVisit_stamps_witness :
  exists st' state',
    preVisitRoot (mkTileId 0 0) eagerAtRoot = Some (false, st') /\
    mStack (vis st') !! 0%nat = Some state' /\
    stampedFor AddrDEM (leaf (demTile 0 0)) (mRdDEM state') 7 (heap st') /\
    stampedFor AddrIMG (leaf (imgTile 0 0)) (mRdIMG state') 7 (heap st').
Proof.
  destruct eager_preVisitRoot as (st' & E).
  destruct (preVisit_stamps (mkTileId 0 0) eagerAtRoot st' false eagerRootState
              (or_introl E) eq_refl) as (state' & Hs & _ & _ & HD & HI).
  exists st', state'. split; [exact E |]. split; [exact Hs |].
  split; [exact (HD AddrDEM eq_refl eq_refl) | exact (HI AddrIMG eq_refl eq_refl)].
Defined.

Lemma unitBox_culled :
  testInFrustum (mkFrustum [col 0 0 (-1) (-9)] 1 1) unitBox = false.
Proof.
  unfold testInFrustum. apply testPlanes_false. apply Exists_cons_hd.
  unfold negativeHalfSpace, glm.dot. cbn. repeat constructor; cbn; lra.
Qed.

(** [preVisit] on the absent child. *)
Lemma culledChild_preVisit :
  exists st', preVisit (mkTileId 1 0) culledChild = Some (false, st').
Proof.
  rewrite (preVisit_absent culledChild (mkTileId 1 0) defaultState eagerRootState);
    [| cbn; lia | reflexivity | reflexivity | reflexivity | reflexivity].
  eexists.
  apply (visitNode_culled _ (mkTileId 1 0)
           (mkLODState NullNode NullNode (Some (AddrDEM, mkTileId 0 0))
              (Some (AddrIMG, mkTileId 0 0)))
           (AddrDEM, mkTileId 0 0) (rd 3 (-1))).
  - cbn. lia.
  - reflexivity.
  - reflexivity.
  - apply (eager_rd 0). lia.
  - exact unitBox_culled.
Qed.

(** X13, witness: a child that is absent from both trees takes the
    render data of the root above it. *)
Lemma preVisit_inherits_witness :
  exists st' state',
    preVisit (mkTileId 1 0) culledChild = Some (false, st') /\
    mStack (vis st') !! 1%nat = Some state' /\
    mRdDEM state' = Some (AddrDEM, mkTileId 0 0) /\
    mRdIMG state' = Some (AddrIMG, mkTileId 0 0).
Proof.
  destruct culledChild_preVisit as (st' & E).
  destruct (preVisit_inherits (mkTileId 1 0) culledChild st' false defaultState eagerRootState
              E eq_refl eq_refl) as (state' & Hs & HD & HI).
  exists st', state'. split; [exact E |]. split; [exact Hs |].
  split; [apply HD | apply HI]; right; reflexivity.
Defined.

(** X14, witness: the absent child of the eager planet, with the
    render data of the root, lies outside the frustum. *)
Lemma visitNode_absent_DEM_node_witness :
  visitNode (mkTileId 1 0) culledChildSet = Some (false, culledChildSet) /\
  exists ptr rd,
    mRdDEM inheritedState = Some ptr /\ readRd (heap culledChildSet) ptr = Some rd /\
    (testInFrustum (mFrustumMS (mCullData (vis culledChildSet))) (getBounds rd) = false \/
     testFrontFacing (mCamPos (mCullData (vis culledChildSet)))
       (hParams (heap culledChildSet)) (getBounds rd)
       (option_map (treeMgr (heap culledChildSet)) (mTreeMgrDEM (vis culledChildSet))) =
     Some false).
Proof.
  assert (E : visitNode (mkTileId 1 0) culledChildSet = Some (false, culledChildSet)).
  { apply (visitNode_culled _ (mkTileId 1 0) inheritedState
             (AddrDEM, mkTileId 0 0) (rd 3 (-1))).
    - cbn. lia.
    - reflexivity.
    - reflexivity.
    - apply (eager_rd 0). lia.
    - exact unitBox_culled. }
  split; [exact E |].
  apply (visitNode_absent_DEM_node (mkTileId 1 0) culledChildSet culledChildSet false
           inheritedState eq_refl eq_refl ltac:(discriminate) E).
Defined.

End ClosedExamples.
